(* ===== verification/_CoqProject ===== *)
-Q . S2P
Prelude.v
GoStd.v
Strconv.v
Types.v
Commands.v
Response.v
ResponseFacts.v
Options.v
Pools.v
Net.v
Tcp.v
TcpFacts.v
TcpSafe.v
TcpWire.v
TcpTheorems.v
ConnPool.v
Client.v
ClientSafe.v
ClientApi.v
ClientExchange.v
ClientSession.v
ClientResend.v
ClientFindings.v
Sharded.v
ShardedFacts.v
PoolConc.v
ShardedSafe.v
ShardedStream.v
ShardedStreamFacts.v
ShardedStreamProc.v
JsonText.v
JsonTextFacts.v
JsonDecode.v
JsonDecodeFacts.v
Inspect.v
