(* ===== verification/Prelude.v ===== *)
(** * fq-client-go: a verified model of the Go client

    ** The program

    The package is the client of the fq counter and quota server.  A caller
    creates a [Client] (client.go) or a [ShardedClient] over several servers
    (sharded_client.go); a method writes a one-line text command into a pooled
    buffer (bytes_buffer_pool.go), takes a [TCPClient] from the connection pool
    (conn_pool.go), sends the command as a length-prefixed frame and reads a
    frame back (tcp_client.go, with read buffers from bytes_pool.go),
    reconnecting when the connection broke, parses the frame (response.go,
    inspect.go) and gives connection and buffer back.  Connections are dialled
    with the options of options.go and start with a HELLO exchange that carries
    the token and negotiates the maximum message size.

    ** The files

    - [Prelude]: bytes, machine widths, tactics, hint databases, list lemmas.
    - [GoStd]: errors ([errors.Is], [errors.As], wrapping), the outcome of a Go
      call (value, error, panic, block), [bytes.IndexByte], [bytes.Split].
    - [Strconv]: [ParseUint], [FormatUint], [Atoi], [Itoa], big-endian 32-bit
      integers, with their round trips.
    - [Types]: the constants and structs of client.go.
    - [Commands]: the write functions of client.go and inspect.go and the HELLO
      request; [read_request], a reader of the command language, is the
      specification that requests are unambiguous.
    - [Response], [ResponseFacts]: the parsers of response.go and their
      theorems (classification, round trips, ranges, equivalence of the index
      loops with structural definitions).
    - [Options]: options.go; files and certificates are the class [TLSEnv].
    - [Pools]: bytes_pool.go and bytes_buffer_pool.go over [sync.Pool].
    - [Net]: the environment (connections, clock, contexts) and the state and
      outcome monad [st] with its judgements [triple] (total) and [wlp].
    - [Tcp]: tcp_client.go.  [TcpFacts]: framing and exchanges on a working
      connection.  [TcpSafe]: every method returns, for every network.
      [TcpWire]: what is sent; the handshake.  [TcpTheorems]: the statements
      callers rely on.
    - [ConnPool]: conn_pool.go as one goroutine sees it, and the [world] of
      shared objects.  [Client]: client.go and Inspect.  [ClientSafe]: the
      invariant between calls.  [ClientApi]: all methods as one interface
      [execute]; safety of any sequence of calls; closing.
      [ClientExchange]: what a call sends and returns.  [ClientSession]: calls
      one after another on a connection, in step and out of step.
      [ClientResend]: all that a call puts on the wire, over reconnections.
      [ClientFindings]: runs that show the behaviour under failure.
    - [PoolConc]: conn_pool.go under every interleaving of goroutines, as a step
      relation with one rule per synchronisation operation.
    - [Sharded], [ShardedFacts]: sharded_client.go without the merged streams;
      routing, cursors, scans against the class [ScanLaw], MDEL for every
      iteration order of its map.  [ShardedSafe]: the invariant between calls of
      a sharded client; construction, any sequence of calls, closing.
    - [ShardedStream], [ShardedStreamFacts]: [streamEvents] and
      [firstStreamError] under every interleaving of the shard goroutines.
      [ShardedStreamProc]: the streams of client.go as the processes that
      [streamEvents] runs.
    - [JsonText], [JsonTextFacts]: the syntax of [encoding/json].  [JsonDecode],
      [JsonDecodeFacts]: [json.Unmarshal] into a Go type.  [Inspect]: the
      sections and report structs of inspect.go; [go_json] instantiates the
      class [Json] that [Client] and [Sharded] are written against.

    ** How the code is modelled

    A Go function is a function in the monad [st S]: it takes the state of its
    component and returns an [outcome], [Ret], [Fail] with the error, [Panic]
    or [Hang], and the new state.  [v, err := f()] with a check is a bind,
    [catch] makes the error a value, [defer] is [finally].  A [string] and a
    [[]byte] are lists of bytes; unsigned integers are [Z] with the conversions
    that wrap written out; an index that may be out of range panics.  Errors
    keep their wrapping structure, since the code tests them with [errors.Is].

    Objects that are shared through pointers are in tables of the [world] and
    referred to by index, so that a connection that goes back to the pool keeps
    its unread bytes.  The network is a script the theorems quantify over: for
    each connection the data that arrives, when, in which pieces, and the
    errors; for each write what the kernel accepts; for each dial its outcome;
    for each [sync.Pool] the item it hands out.  The clock moves when a call
    waits.  Deadlines, partial reads, timeouts and retries are therefore part
    of the model.

    Goroutines are step relations: a control state per goroutine, one rule per
    synchronisation operation (channel, mutex, wait group, atomic, context), so
    that every interleaving is a sequence of steps ([PoolConc.step],
    [ShardedStream.step]).  The stream of a shard is a [proc], the tree of its
    callbacks and readings of its context.  [json.Unmarshal] works by reflection
    on the target's type; the structs of inspect.go are therefore values of
    [gtype], with field names, tags and types as declared, and a report is a
    [gval].

    ** Fuel

    Loops of the source that are not structural take fuel, and running out is
    [Hang], which the safety theorems exclude: [writeAll] the number of bytes
    left; the loops of [Stream] and [SendChunked] one more than the size of the
    receive script, since an iteration consumes a frame header;
    [stream_loop] one more than the dials left, since an iteration that goes on
    used one; [scan_loop] the number of shards; the reconnection loops count
    their 16 attempts as the code does; [json_document] two calls per byte of
    the text ([json_value_enough]).

    ** What the theorems show

    - Protocol: every request has one reading ([read_render]); parsers are total
      and classified ([parsers_classified]), invert the encodings, stay in range
      and equal their structural definitions ([ResponseFacts]).
    - Transport: one exchange sends one frame and returns the next one for any
      segmentation ([Send_exchange], [SendChunked_reassembles],
      [Stream_delivers], [oversize_request_refused]); any sequence of calls on a
      TCP client returns and leaks nothing ([tcp_client_lifecycle]); the
      handshake comes first ([handshake_comes_first]); buffers do not leak data
      ([bytesPool_no_leak]); TLS settings are what was asked for
      ([build_secure], [applyOptions_last_wins]).
    - Client: each API method refines its protocol step ([api_exchange],
      [inspect_report_roundtrip]) and sessions of calls get the replies due to
      them ([session_in_order]); what a call sends over all its connections is
      bounded and nothing but handshakes and the request
      ([request_on_the_wire]); any sequence of calls by one goroutine returns
      and keeps the pool ([client_calls_safe]); closing is complete
      ([client_close_complete]).
    - Pool under interleaving: one owner per connection, exact accounting of
      the wait group, progress with enough room ([PoolConc]).
    - Shards: routing, cursors, scans, MDEL, commands on all shards
      ([ShardedFacts]); construction, any sequence of unary calls and closing
      return and lose no connection of any shard ([sharded_calls_safe]).
    - Merged streams: callbacks are serial and keep the order of each shard
      ([merged_stream_serial]), every execution ends with all goroutines gone
      ([merged_stream_ends]), what is returned ([sharded_stream_result]), and the
      sequential streams are runs of the processes used there
      ([client_stream_refines]).
    - Reports: INSPECT returns the encoded report through framing, chunking and
      JSON ([inspect_report_roundtrip]); whatever arrives, a returned report has
      its declared type ([inspect_report_typed]).
    - Behaviour under failure ([connection_out_of_step], [ClientFindings],
      [pool_hazards], [callback_after_return],
      [space_in_key_confuses_requests]).

    ** What is not modelled

    The client files are the view of one goroutine; [PoolConc] and
    [ShardedStream] are the pool and the merged stream under interleaving, each
    for itself.  The kernel's sockets, TLS and file access are the scripts and
    parameters above.  Of [encoding/json] only what the types of inspect.go
    reach is there, and the texts of its syntax and type errors are
    abbreviated.  The constant CommandAuth, which nothing uses, and memory
    limits are left out. *)

From stdpp Require Export base gmap list strings.
From Stdlib Require Export Strings.Byte ZArith Lia.

#[global] Open Scope Z_scope.

(** ** Bytes

    A Go [string] and a Go [[]byte] are both sequences of bytes; both are
    [bytes] here.  [str] turns a literal into bytes. *)

Abbreviation bytes := (list byte).

Definition str (s : string) : bytes := String.list_byte_of_string s.

#[export] Instance byte_eq_decision : EqDecision byte := Byte.byte_eq_dec.

(** The numeric value of a byte ([uint8]) and the conversion [byte(z)], which
    keeps the low eight bits. *)
Definition byte_val (b : byte) : Z := Z.of_N (Byte.to_N b).

Definition byte_of_Z (z : Z) : byte :=
  default x00 (Byte.of_N (Z.to_N (z mod 256))).

Lemma byte_val_range b : 0 <= byte_val b < 256.
Proof. unfold byte_val. pose proof (Byte.to_N_bounded b). lia. Qed.

Lemma byte_of_val b : byte_of_Z (byte_val b) = b.
Proof.
  unfold byte_of_Z. rewrite Z.mod_small by apply byte_val_range.
  unfold byte_val. by rewrite N2Z.id, Byte.of_to_N.
Qed.

Lemma byte_val_of z : byte_val (byte_of_Z z) = z mod 256.
Proof.
  unfold byte_of_Z, byte_val.
  pose proof (Z.mod_pos_bound z 256 ltac:(lia)) as Hb.
  pose proof (Byte.to_of_N_option_map (Z.to_N (z mod 256))) as Ho.
  destruct (Byte.of_N (Z.to_N (z mod 256))) as [y|] eqn:E; simpl in *.
  - apply Byte.to_of_N in E. rewrite E. lia.
  - destruct (N.leb_spec (Z.to_N (z mod 256)) 255); [done|lia].
Qed.

Lemma byte_val_inj b c : byte_val b = byte_val c -> b = c.
Proof. intros H. rewrite <- (byte_of_val b), <- (byte_of_val c). by f_equal. Qed.

(** ** Machine widths *)

Definition uint (w n : Z) : Prop := 0 <= n < 2 ^ w.

(** The Go conversions [uint16(n)], [uint32(n)] and [uint64(n)]. *)
Definition to_uint16 (n : Z) : Z := n mod 2 ^ 16.
Definition to_uint32 (n : Z) : Z := n mod 2 ^ 32.
Definition to_uint64 (n : Z) : Z := n mod 2 ^ 64.

Lemma to_uint16_id n : uint 16 n -> to_uint16 n = n.
Proof. apply Z.mod_small. Qed.

Lemma to_uint32_id n : uint 32 n -> to_uint32 n = n.
Proof. apply Z.mod_small. Qed.

Lemma to_uint64_id n : uint 64 n -> to_uint64 n = n.
Proof. apply Z.mod_small. Qed.

Lemma uint_mono v w n : 0 <= v <= w -> uint v n -> uint w n.
Proof.
  unfold uint. intros H [??]. split; [done|].
  eapply Z.lt_le_trans; [done|]. apply Z.pow_le_mono_r; lia.
Qed.

(** ** Tactics and hint databases

    [fq] collects the lemmas that close the routine side conditions;
    [fqrw] the rewriting rules that evaluate the library functions. *)

Create HintDb fq.
Create Rewrite HintDb fqrw.

#[export] Hint Resolve byte_val_range : fq.
#[export] Hint Rewrite byte_val_of byte_of_val : fqrw.
#[export] Hint Rewrite @length_app @length_drop @length_take @length_replicate : fqrw.

(** Case analysis on the innermost scrutinee of a [match] in the goal or in a
    hypothesis. *)
Ltac split_match :=
  match goal with
  | |- context [match ?x with _ => _ end] =>
      lazymatch x with context [match _ with _ => _ end] => fail
      | _ => destruct x eqn:? end
  | H : context [match ?x with _ => _ end] |- _ =>
      lazymatch x with context [match _ with _ => _ end] => fail
      | _ => destruct x eqn:? end
  end.

(** Boolean comparisons of the code to the propositions they decide. *)
Ltac to_prop :=
  repeat match goal with
  | H : (_ <? _) = true |- _ => apply Z.ltb_lt in H
  | H : (_ <? _) = false |- _ => apply Z.ltb_ge in H
  | H : (_ <=? _) = true |- _ => apply Z.leb_le in H
  | H : (_ <=? _) = false |- _ => apply Z.leb_gt in H
  | H : (_ =? _) = true |- _ => apply Z.eqb_eq in H
  | H : (_ =? _) = false |- _ => apply Z.eqb_neq in H
  | H : (_ && _)%bool = true |- _ => apply andb_true_iff in H as [??]
  | H : (_ || _)%bool = false |- _ => apply orb_false_iff in H as [??]
  | H : bool_decide _ = true |- _ => apply bool_decide_eq_true in H
  | H : bool_decide _ = false |- _ => apply bool_decide_eq_false in H
  end.

(** ** List lemmas the components share *)

Section list_lemmas.
Context {A : Type}.
Implicit Types l k : list A.

Lemma take_length_app l k : take (length l) (l ++ k) = l.
Proof. apply take_app_length. Qed.

Lemma drop_length_app l k : drop (length l) (l ++ k) = k.
Proof. apply drop_app_length. Qed.

(** Overwriting a prefix of a buffer: what [copy] and [io.ReadFull] do to the
    slice they are given. *)
Definition overwrite k l : list A := take (length l) k ++ drop (length k) l.

Lemma length_overwrite k l : length (overwrite k l) = length l.
Proof. unfold overwrite. rewrite length_app, length_take, length_drop. lia. Qed.

Lemma overwrite_full k l : length k = length l -> overwrite k l = k.
Proof.
  intros H. unfold overwrite. rewrite <- H, firstn_all, H, drop_all. by rewrite app_nil_r.
Qed.

End list_lemmas.

(** ** Counting over a list *)

Section sums.
Context {A : Type} (f : A -> nat).

Lemma sum_insert (l : list A) i x y :
  l !! i = Some x -> (sum_list (f <$> <[i := y]> l) + f x = sum_list (f <$> l) + f y)%nat.
Proof.
  revert i. induction l as [|a l IH]; intros [|i] H; simplify_eq/=; [lia|]. specialize (IH i H). lia.
Qed.

Lemma sum_lookup_le (l : list A) i x : l !! i = Some x -> (f x <= sum_list (f <$> l))%nat.
Proof. revert i. induction l as [|a l IH]; intros [|i] H; simplify_eq/=; [lia|]. specialize (IH i H). lia. Qed.

Lemma sum_snoc (l : list A) x : sum_list (f <$> l ++ [x]) = (sum_list (f <$> l) + f x)%nat.
Proof.
  induction l as [|a l IH]; [simpl; lia|]. rewrite <- app_comm_cons, !fmap_cons.
  change (f a + sum_list (f <$> l ++ [x]) = f a + sum_list (f <$> l) + f x)%nat. lia.
Qed.

Lemma sum_zero (l : list A) i x : sum_list (f <$> l) = 0%nat -> l !! i = Some x -> f x = 0%nat.
Proof. intros Hs Hi. pose proof (sum_lookup_le l i x Hi). lia. Qed.

Lemma sum_positive (l : list A) : (0 < sum_list (f <$> l))%nat -> exists i x, l !! i = Some x /\ (0 < f x)%nat.
Proof.
  induction l as [|a l IH]; [simpl; lia|]. change (0 < f a + sum_list (f <$> l) ->
    exists i x, (a :: l) !! i = Some x /\ 0 < f x)%nat. intros Hs. destruct (decide (0 < f a)%nat).
  - by exists O, a.
  - destruct IH as (i & x & ? & ?); [lia|]. by exists (S i), x.
Qed.

End sums.
