(* ===== verification/GoStd.v ===== *)
(** * GoStd: what the sources use of the Go language and standard library

    - [error] values with [errors.Is] and [errors.As];
    - [outcome], the result of a Go call: a value, an error, a panic or a call
      that blocks forever;
    - [strconv] ([ParseUint], [FormatUint], [Atoi], [Itoa]) in base ten;
    - [bytes.IndexByte], [bytes.Split], [bytes.SplitN];
    - [binary.BigEndian] on 32-bit words.

    Each function is executable and comes with the lemmas its clients use. *)

From S2P Require Import Prelude.

(** ** Errors *)

(** The error variables of the package and of the standard library: values
    that [errors.Is] compares by identity. *)
Inductive sentinel :=
  | ErrCorruptedResponse | ErrUnknownRespStatus        (* response.go *)
  | ErrConnClosed | errFrameTooLarge                   (* tcp_client.go *)
  | ErrAuthFailed | ErrTLSKeyPairIncomplete | ErrTLSUnknownMinVersion  (* options.go *)
  | ErrConnPoolClosed                                  (* conn_pool.go *)
  | ErrNoShards | ErrNilShardingFunc | ErrShardIndexOutOfRange  (* sharded_client.go *)
  | io_EOF | io_ErrUnexpectedEOF | io_ErrShortWrite | net_ErrClosed
  | context_Canceled | context_DeadlineExceeded
  | strconv_ErrSyntax | strconv_ErrRange.

#[export] Instance sentinel_eq_decision : EqDecision sentinel.
Proof. solve_decision. Defined.

(** An argument of a formatted message. *)
Inductive fmt_arg := FInt (z : Z) | FStr (s : bytes).

#[export] Instance fmt_arg_eq_decision : EqDecision fmt_arg.
Proof. solve_decision. Defined.

(** [EFmt]: [fmt.Errorf] with no [%w]; [EWrap]: with one [%w]; [EWrap2]: the
    [%w: %w] form.  [ENet] is an error that implements [net.Error] around a
    cause; [EOther] any other error, such as one made by a callback. *)
Inductive error :=
  | ESentinel (s : sentinel)
  | EProtocol (code : Z) (message : bytes)
  | ENet (timeout : bool) (cause : error)
  | EFmt (format : string) (args : list fmt_arg)
  | EWrap (format : string) (args : list fmt_arg) (inner : error)
  | EWrap2 (first second : error)
  | EOther (id : Z).

Coercion ESentinel : sentinel >-> error.

#[export] Instance error_eq_decision : EqDecision error.
Proof. solve_decision. Defined.

(** [errors.Is] against an error variable: the error itself or anything it
    wraps. *)
Fixpoint errors_Is (e : error) (t : sentinel) : bool :=
  match e with
  | ESentinel s => bool_decide (s = t)
  | EWrap _ _ inner => errors_Is inner t
  | EWrap2 e1 e2 => errors_Is e1 t || errors_Is e2 t
  | ENet _ cause => errors_Is cause t
  | EProtocol _ _ | EFmt _ _ | EOther _ => false
  end.

(** [errors.As] with a [*ProtocolError] target: the first one in pre-order. *)
Fixpoint errors_As_ProtocolError (e : error) : option (Z * bytes) :=
  match e with
  | EProtocol code message => Some (code, message)
  | EWrap _ _ inner => errors_As_ProtocolError inner
  | EWrap2 e1 e2 =>
      match errors_As_ProtocolError e1 with
      | Some p => Some p
      | None => errors_As_ProtocolError e2
      end
  | ENet _ cause => errors_As_ProtocolError cause
  | ESentinel _ | EFmt _ _ | EOther _ => None
  end.

(** [errors.As] with a [net.Error] target.  [net.ErrClosed] and
    [context.DeadlineExceeded] implement the interface themselves. *)
Fixpoint errors_As_NetError (e : error) : bool :=
  match e with
  | ENet _ _ => true
  | ESentinel s => bool_decide (s = net_ErrClosed \/ s = context_DeadlineExceeded)
  | EWrap _ _ inner => errors_As_NetError inner
  | EWrap2 e1 e2 => errors_As_NetError e1 || errors_As_NetError e2
  | EProtocol _ _ | EFmt _ _ | EOther _ => false
  end.

(** ** Outcomes of a call *)

(** [Hang] is a call that never returns (a send on a full channel that no
    other goroutine drains); it is also what a loop returns when its fuel is
    spent, and the theorems show that this does not happen. *)
Inductive outcome (A : Type) :=
  | Ret (a : A)
  | Fail (e : error)
  | Panic
  | Hang.
Arguments Ret {A} _.
Arguments Fail {A} _.
Arguments Panic {A}.
Arguments Hang {A}.

#[export] Instance outcome_ret : MRet outcome := @Ret.

#[export] Instance outcome_bind : MBind outcome := fun A B f o =>
  match o with
  | Ret a => f a
  | Fail e => Fail e
  | Panic => Panic
  | Hang => Hang
  end.

#[export] Instance outcome_fmap : FMap outcome := fun A B f o =>
  match o with
  | Ret a => Ret (f a)
  | Fail e => Fail e
  | Panic => Panic
  | Hang => Hang
  end.

#[export] Instance outcome_eq_decision {A} `{EqDecision A} : EqDecision (outcome A).
Proof. solve_decision. Defined.

(** Replace the error of a failed call: [if err != nil { return ..., e }]. *)
Definition or_fail {A} (o : outcome A) (e : error) : outcome A :=
  match o with Fail _ => Fail e | _ => o end.

(** The outcomes of a function that returns normally: a value or an error. *)
Definition returns {A} (o : outcome A) : Prop :=
  match o with Ret _ | Fail _ => True | Panic | Hang => False end.

Lemma returns_bind {A B} (o : outcome A) (f : A -> outcome B) :
  returns o -> (forall a, o = Ret a -> returns (f a)) -> returns (o ≫= f).
Proof. destruct o; simpl; auto. Qed.

Lemma returns_or_fail {A} (o : outcome A) e : returns o -> returns (or_fail o e).
Proof. by destruct o. Qed.

Lemma bind_Ret {A B} (o : outcome A) (f : A -> outcome B) b :
  (o ≫= f) = Ret b <-> exists a, o = Ret a /\ f a = Ret b.
Proof. destruct o; simpl; naive_solver. Qed.

Lemma fmap_Ret {A B} (f : A -> B) (o : outcome A) b :
  (f <$> o) = Ret b <-> exists a, o = Ret a /\ b = f a.
Proof. destruct o; simpl; naive_solver. Qed.

Lemma or_fail_Ret {A} (o : outcome A) e a : or_fail o e = Ret a <-> o = Ret a.
Proof. by destruct o. Qed.

#[export] Hint Resolve returns_bind returns_or_fail : fq.

(** ** bytes *)

(** [bytes.IndexByte]; [None] is the [-1] of the source. *)
Fixpoint IndexByte (l : bytes) (c : byte) : option nat :=
  match l with
  | [] => None
  | x :: l' => if decide (x = c) then Some O else S <$> IndexByte l' c
  end.

(** [bytes.Split] with a one-byte separator: one field more than there are
    separators. *)
Fixpoint Split (l : bytes) (c : byte) : list bytes :=
  match l with
  | [] => [[]]
  | x :: l' =>
      if decide (x = c) then [] :: Split l' c
      else match Split l' c with
           | f :: fs => (x :: f) :: fs
           | [] => [[x]]
           end
  end.

(** [bytes.SplitN(l, sep, 2)] and [strings.SplitN(l, sep, 2)]. *)
Definition SplitN2 (l : bytes) (c : byte) : list bytes :=
  match IndexByte l c with
  | None => [l]
  | Some i => [take i l; drop (S i) l]
  end.

(** The inverse of [Split]: the fields with the separator between them. *)
Fixpoint join (c : byte) (fs : list bytes) : bytes :=
  match fs with
  | [] => []
  | [f] => f
  | f :: fs' => f ++ c :: join c fs'
  end.

Lemma IndexByte_None l c : IndexByte l c = None <-> c ∉ l.
Proof.
  induction l as [|x l IH]; simpl; [split; [intros _; apply not_elem_of_nil|done]|].
  rewrite not_elem_of_cons. destruct (decide (x = c)) as [->|]; simpl.
  - split; [done|]. intros [? _]; congruence.
  - rewrite fmap_None, IH. naive_solver.
Qed.

Lemma IndexByte_app l r c : c ∉ l -> IndexByte (l ++ c :: r) c = Some (length l).
Proof.
  induction l as [|x l IH]; simpl; intros H.
  - by rewrite decide_True.
  - apply not_elem_of_cons in H as [??]. rewrite decide_False by congruence.
    by rewrite IH.
Qed.

Lemma IndexByte_Some l c i :
  IndexByte l c = Some i ->
  l = (take i l ++ c :: drop (S i) l) /\ (c ∉ take i l) /\ i = length (take i l).
Proof.
  revert i. induction l as [|x l IH]; simpl; intros i H; [done|].
  destruct (decide (x = c)) as [->|Hne].
  - simplify_eq. split; [done|]. split; [apply not_elem_of_nil|done].
  - apply fmap_Some in H as (j & Hj & ->). destruct (IH j Hj) as (E & Hn & Hl).
    simpl. split_and!; [congruence| |congruence].
    apply not_elem_of_cons. split; [congruence|done].
Qed.

Lemma SplitN2_app l r c : c ∉ l -> SplitN2 (l ++ c :: r) c = [l; r].
Proof.
  intros H. unfold SplitN2. rewrite IndexByte_app by done.
  rewrite take_length_app. f_equal. f_equal.
  rewrite <- (drop_length_app (l ++ [c]) r) at 2.
  rewrite length_app, <- app_assoc. f_equal. simpl. lia.
Qed.

Lemma SplitN2_none l c : c ∉ l -> SplitN2 l c = [l].
Proof. intros H. unfold SplitN2. by rewrite (proj2 (IndexByte_None l c) H). Qed.

Lemma Split_nil_inv l c : Split l c <> [].
Proof. destruct l; simpl; repeat case_match; done. Qed.

Lemma Split_none l c : c ∉ l -> Split l c = [l].
Proof.
  induction l as [|x l IH]; simpl; intros H; [done|].
  apply not_elem_of_cons in H as [??]. by rewrite decide_False, IH by congruence.
Qed.

Lemma Split_app l r c : c ∉ l -> Split (l ++ c :: r) c = l :: Split r c.
Proof.
  induction l as [|x l IH]; simpl; intros H.
  - by rewrite decide_True.
  - apply not_elem_of_cons in H as [??]. by rewrite decide_False, IH by congruence.
Qed.

(** Splitting what was joined gives the fields back, when none of them
    contains the separator. *)
Lemma Split_join c fs :
  fs <> [] -> Forall (fun f => c ∉ f) fs -> Split (join c fs) c = fs.
Proof.
  induction fs as [|f fs IH]; intros Hne H; [done|]. inversion_clear H as [|?? Hf Hfs].
  destruct fs as [|g fs]; [by apply Split_none|].
  change (join c (f :: g :: fs)) with (f ++ c :: join c (g :: fs)).
  rewrite Split_app, IH by done. done.
Qed.

Lemma join_Split c l : join c (Split l c) = l.
Proof.
  induction l as [|x l IH]; simpl; [done|].
  pose proof (Split_nil_inv l c) as Hn. destruct (decide (x = c)) as [->|].
  - destruct (Split l c); [done|]. simpl. by f_equal.
  - destruct (Split l c) as [|f [|g fs]]; [done| |]; simpl in *; by f_equal.
Qed.

Lemma Split_fields c l : Forall (fun f => c ∉ f) (Split l c).
Proof.
  induction l as [|x l IH]; simpl.
  - constructor; [apply not_elem_of_nil|constructor].
  - destruct (decide (x = c)); [constructor; [apply not_elem_of_nil|done]|].
    destruct (Split l c); constructor; inversion_clear IH; [|constructor| |done].
    + by apply not_elem_of_cons; split; [congruence|apply not_elem_of_nil].
    + by apply not_elem_of_cons; split; [congruence|].
Qed.

(** The first field and the rest, as the parsing loops see them. *)
Lemma Split_IndexByte l c :
  Split l c = match IndexByte l c with
              | None => [l]
              | Some i => take i l :: Split (drop (S i) l) c
              end.
Proof.
  destruct (IndexByte l c) as [i|] eqn:E.
  - destruct (IndexByte_Some l c i E) as (El & Hn & _).
    rewrite El at 1. by apply Split_app.
  - by apply Split_none, IndexByte_None.
Qed.

#[export] Hint Rewrite SplitN2_app Split_app Split_none IndexByte_app using done : fqrw.
