(* ===== verification/Types.v ===== *)
(** * Types: constants and data types of client.go

    The command words, the protocol constants and the argument and result
    structs of the client API.  Field names carry a short prefix because
    record fields share one name space; integer fields are [Z] with the range
    of their Go type stated by the [wf_] predicates. *)

From S2P Require Import Prelude GoStd.

(** ** Command words (client.go, the first const block) *)

Definition CommandIncr : bytes := str "INCR".
Definition CommandGet : bytes := str "GET".
Definition CommandDel : bytes := str "DEL".
Definition CommandMDel : bytes := str "MDEL".
Definition CommandWatch : bytes := str "WATCH".
Definition CommandRLimit : bytes := str "RLIMIT".
Definition CommandStream : bytes := str "STREAM".
Definition CommandPStream : bytes := str "PSTREAM".
Definition CommandQuota : bytes := str "QUOTA".
Definition CommandQStream : bytes := str "QSTREAM".
Definition CommandQPStream : bytes := str "QPSTREAM".
Definition CommandScan : bytes := str "SCAN".
Definition CommandPScan : bytes := str "PSCAN".
Definition CommandFlushDB : bytes := str "FLUSHDB".
Definition CommandTruncate : bytes := str "TRUNCATE".
Definition CommandHello : bytes := str "HELLO".
Definition CommandInspect : bytes := str "INSPECT".
Definition RLimitAlgorithmFW : bytes := str "FW".
Definition RLimitAlgorithmSW : bytes := str "SW".
Definition RLimitAlgorithmTB : bytes := str "TB".

Definition ProtocolVersion : Z := 1.
Definition ScanCursorInitial : bytes := str "0".

(** ** Arguments *)

Record CappingKey := mkCappingKey { ck_Key : bytes; ck_Capping : Z }.

Record LimitKey := mkLimitKey { lk_Key : bytes; lk_Window : Z }.

(** ** Results *)

Record RateLimitResult := mkRateLimitResult {
  rl_Allowed : bool; rl_Current : Z; rl_Remaining : Z; rl_ResetAfter : Z }.

Record LimitEvent := mkLimitEvent {
  le_Key : bytes; le_Window : Z; le_Current : Z; le_ResetAfter : Z }.

Record QuotaAcquireResult := mkQuotaAcquireResult {
  qa_Acquired : bool; qa_Allocated : Z; qa_Used : Z; qa_Remaining : Z;
  qa_ExpiresAfter : Z }.

Record QuotaClientInfo := mkQuotaClientInfo {
  qc_ClientID : bytes; qc_Amount : Z; qc_ExpiresAt : Z }.

Record QuotaInfo := mkQuotaInfo {
  qi_Limit : Z; qi_Used : Z; qi_Remaining : Z; qi_Clients : list QuotaClientInfo }.

Record ScanKey := mkScanKey { sk_Key : bytes; sk_Window : Z }.

Record ScanResult := mkScanResult { sr_Cursor : bytes; sr_Keys : list ScanKey }.

Record QuotaEvent := mkQuotaEvent {
  qe_Event : bytes; qe_Name : bytes; qe_ClientID : bytes; qe_Amount : Z;
  qe_Used : Z; qe_Remaining : Z; qe_ExpiresAt : Z }.

#[export] Instance CappingKey_eq_decision : EqDecision CappingKey.
Proof. solve_decision. Defined.
#[export] Instance LimitKey_eq_decision : EqDecision LimitKey.
Proof. solve_decision. Defined.
#[export] Instance ScanKey_eq_decision : EqDecision ScanKey.
Proof. solve_decision. Defined.

(** ** Value ranges of the Go types *)

Definition wf_CappingKey (k : CappingKey) : Prop := uint 32 (ck_Capping k).

Definition wf_LimitKey (k : LimitKey) : Prop := uint 32 (lk_Window k).

Definition wf_RateLimitResult (r : RateLimitResult) : Prop :=
  uint 64 (rl_Current r) /\ uint 64 (rl_Remaining r) /\ uint 32 (rl_ResetAfter r).

Definition wf_LimitEvent (e : LimitEvent) : Prop :=
  uint 32 (le_Window e) /\ uint 64 (le_Current e) /\ uint 32 (le_ResetAfter e).

Definition wf_QuotaAcquireResult (r : QuotaAcquireResult) : Prop :=
  uint 64 (qa_Allocated r) /\ uint 64 (qa_Used r) /\ uint 64 (qa_Remaining r) /\
  uint 32 (qa_ExpiresAfter r).

Definition wf_QuotaClientInfo (c : QuotaClientInfo) : Prop :=
  uint 64 (qc_Amount c) /\ uint 32 (qc_ExpiresAt c).

Definition wf_QuotaInfo (i : QuotaInfo) : Prop :=
  uint 64 (qi_Limit i) /\ uint 64 (qi_Used i) /\ uint 64 (qi_Remaining i) /\
  Forall wf_QuotaClientInfo (qi_Clients i).

Definition wf_ScanResult (r : ScanResult) : Prop :=
  Forall (fun k => uint 32 (sk_Window k)) (sr_Keys r).

Definition wf_QuotaEvent (e : QuotaEvent) : Prop :=
  uint 64 (qe_Amount e) /\ uint 64 (qe_Used e) /\ uint 64 (qe_Remaining e) /\
  uint 32 (qe_ExpiresAt e).

(** ** Zero values: what a Go function returns next to an error *)

Class Zero (A : Type) := zero : A.

#[export] Instance Zero_Z : Zero Z := 0.
#[export] Instance Zero_bool : Zero bool := false.
#[export] Instance Zero_list {A} : Zero (list A) := [].
#[export] Instance Zero_RateLimitResult : Zero RateLimitResult :=
  mkRateLimitResult false 0 0 0.
#[export] Instance Zero_LimitEvent : Zero LimitEvent := mkLimitEvent [] 0 0 0.
#[export] Instance Zero_QuotaAcquireResult : Zero QuotaAcquireResult :=
  mkQuotaAcquireResult false 0 0 0 0.
#[export] Instance Zero_QuotaInfo : Zero QuotaInfo := mkQuotaInfo 0 0 0 [].
#[export] Instance Zero_ScanResult : Zero ScanResult := mkScanResult [] [].
#[export] Instance Zero_QuotaEvent : Zero QuotaEvent := mkQuotaEvent [] [] [] 0 0 0 0.
