(* ===== verification/Commands.v ===== *)
(** * Commands: the request writers

    The [write...] functions of client.go and inspect.go, which append a
    request to a buffer, and the HELLO request that [TCPClient.hello] builds.
    [render] is the request text of every API call; [read_request] reads such
    a text back token by token.  [read_render] is the round trip; its
    hypothesis (no string argument contains a space) is necessary, see
    [space_in_key_confuses_requests]. *)

From Stdlib Require Import Strings.Ascii.
From S2P Require Import Prelude GoStd Strconv Types.

Definition sp : byte := " "%byte.

(** ** The writers *)

Definition writeCommand (buf command : bytes) (key : CappingKey) : bytes :=
  let cappingStr := FormatUint (ck_Capping key) in
  buf ++ command ++ [sp] ++ ck_Key key ++ [sp] ++ cappingStr.

(** The [for i, key := range keys] loop of [writeMultiCommand]; [n] is
    [len(keys)]. *)
Fixpoint writeMultiCommand_loop (n i : Z) (keys : list CappingKey) (buf : bytes) : bytes :=
  match keys with
  | [] => buf
  | key :: keys' =>
      let cappingStr := FormatUint (ck_Capping key) in
      let buf := buf ++ ck_Key key ++ [sp] ++ cappingStr in
      let buf := if i <? n - 1 then buf ++ [sp] else buf in
      writeMultiCommand_loop n (i + 1) keys' buf
  end.

Definition writeMultiCommand (buf command : bytes) (keys : list CappingKey) : bytes :=
  writeMultiCommand_loop (Z.of_nat (length keys)) 0 keys (buf ++ command ++ [sp]).

Definition writeRLimitWindowCommand (buf algorithm : bytes) (key : LimitKey) (limit : Z) : bytes :=
  let limitStr := FormatUint limit in
  let windowStr := FormatUint (lk_Window key) in
  buf ++ CommandRLimit ++ [sp] ++ algorithm ++ [sp] ++ lk_Key key ++ [sp]
      ++ limitStr ++ [sp] ++ windowStr.

Definition writeRLimitTokenBucketCommand
    (buf : bytes) (key : LimitKey) (capacity refillAmount : Z) : bytes :=
  let capacityStr := FormatUint capacity in
  let refillAmountStr := FormatUint refillAmount in
  let refillWindowStr := FormatUint (lk_Window key) in
  buf ++ CommandRLimit ++ [sp] ++ RLimitAlgorithmTB ++ [sp] ++ lk_Key key ++ [sp]
      ++ capacityStr ++ [sp] ++ refillAmountStr ++ [sp] ++ refillWindowStr.

(** [if len(ttl) > 0 { ... ttl[0] ... }]: the variadic tail of the acquire
    commands, of which only the first value is sent. *)
Definition writeTTL (buf : bytes) (ttl : list Z) : bytes :=
  match ttl with
  | [] => buf
  | t :: _ => buf ++ [sp] ++ FormatUint t
  end.

Definition writeQuotaAcquireCommand
    (buf name : bytes) (amount : Z) (clientID : bytes) (ttl : list Z) : bytes :=
  let amountStr := FormatUint amount in
  writeTTL (buf ++ CommandQuota ++ str " ACQ " ++ name ++ [sp] ++ amountStr ++ [sp] ++ clientID) ttl.

Definition writeQuotaAcquireLeaseCommand
    (buf name : bytes) (limit amount : Z) (clientID : bytes) (ttl : list Z) : bytes :=
  let limitStr := FormatUint limit in
  let amountStr := FormatUint amount in
  writeTTL (buf ++ CommandQuota ++ str " ACQL " ++ name ++ [sp] ++ limitStr ++ [sp]
                ++ amountStr ++ [sp] ++ clientID) ttl.

Definition writeQuotaAcquireNCommand
    (buf name clientID : bytes) (ttl : list Z) : bytes :=
  writeTTL (buf ++ CommandQuota ++ str " ACQN " ++ name ++ [sp] ++ clientID) ttl.

Definition writeQuotaSetCommand (buf name : bytes) (limit : Z) : bytes :=
  let limitStr := FormatUint limit in
  buf ++ CommandQuota ++ str " SET " ++ name ++ [sp] ++ limitStr.

Definition writeQuotaSetNCommand (buf name : bytes) (limit clients : Z) : bytes :=
  let limitStr := FormatUint limit in
  let clientsStr := FormatUint clients in
  buf ++ CommandQuota ++ str " SETN " ++ name ++ [sp] ++ limitStr ++ [sp] ++ clientsStr.

Definition writeQuotaReleaseCommand (buf name clientID : bytes) : bytes :=
  buf ++ CommandQuota ++ str " REL " ++ name ++ [sp] ++ clientID.

Definition writeQuotaDeleteCommand (buf name : bytes) : bytes :=
  buf ++ CommandQuota ++ str " DEL " ++ name.

Definition writeQuotaInfoCommand (buf name : bytes) : bytes :=
  buf ++ CommandQuota ++ str " INF " ++ name.

Definition writeScanCommand (buf cursor : bytes) (count : Z) : bytes :=
  let cursor := if decide (cursor = []) then ScanCursorInitial else cursor in
  buf ++ CommandScan ++ [sp] ++ cursor ++ [sp] ++ FormatUint count.

Definition writePScanCommand (buf prefix cursor : bytes) (count : Z) : bytes :=
  let cursor := if decide (cursor = []) then ScanCursorInitial else cursor in
  buf ++ CommandPScan ++ [sp] ++ prefix ++ [sp] ++ cursor ++ [sp] ++ FormatUint count.

Definition writeInspectCommand (buf section : bytes) : bytes :=
  let buf := buf ++ CommandInspect in
  if decide (section <> []) then buf ++ [sp] ++ section else buf.

(** The request of the HELLO handshake: the first lines of [TCPClient.hello]. *)
Definition hello_request (token : bytes) : bytes :=
  let version := FormatUint ProtocolVersion in
  let request := CommandHello ++ [sp] ++ version in
  if decide (token <> []) then request ++ str " AUTH " ++ token else request.

Definition valuesToBools (values : list Z) : list bool :=
  (fun value => value =? 1) <$> values.

(** ** Requests *)

(** One constructor per request the client can send. *)
Inductive request :=
  | RIncr (key : CappingKey) | RGet (key : CappingKey) | RWatch (key : CappingKey)
  | RDel (key : CappingKey) | RMDel (keys : list CappingKey)
  | RRLimitFixedWindow (key : LimitKey) (limit : Z)
  | RRLimitSlidingWindow (key : LimitKey) (limit : Z)
  | RRLimitTokenBucket (key : LimitKey) (capacity refillAmount : Z)
  | RStream | RPStream (prefix : bytes) | RQStream | RQPStream (prefix : bytes)
  | RQuotaAcquire (name : bytes) (amount : Z) (clientID : bytes) (ttl : list Z)
  | RQuotaAcquireLease (name : bytes) (limit amount : Z) (clientID : bytes) (ttl : list Z)
  | RQuotaAcquireN (name clientID : bytes) (ttl : list Z)
  | RQuotaSet (name : bytes) (limit : Z)
  | RQuotaSetN (name : bytes) (limit clients : Z)
  | RQuotaRelease (name clientID : bytes) | RQuotaDelete (name : bytes)
  | RQuotaInfo (name : bytes)
  | RScan (cursor : bytes) (count : Z) | RPScan (prefix cursor : bytes) (count : Z)
  | RFlushDB | RTruncate | RInspect (section : bytes) | RHello (token : bytes).

(** The bytes each API method appends to an empty buffer and sends. *)
Definition render (r : request) : bytes :=
  match r with
  | RIncr key => writeCommand [] CommandIncr key
  | RGet key => writeCommand [] CommandGet key
  | RWatch key => writeCommand [] CommandWatch key
  | RDel key => writeCommand [] CommandDel key
  | RMDel keys => writeMultiCommand [] CommandMDel keys
  | RRLimitFixedWindow key limit => writeRLimitWindowCommand [] RLimitAlgorithmFW key limit
  | RRLimitSlidingWindow key limit => writeRLimitWindowCommand [] RLimitAlgorithmSW key limit
  | RRLimitTokenBucket key cap refill => writeRLimitTokenBucketCommand [] key cap refill
  | RStream => CommandStream
  | RPStream prefix => CommandPStream ++ [sp] ++ prefix
  | RQStream => CommandQStream
  | RQPStream prefix => CommandQPStream ++ [sp] ++ prefix
  | RQuotaAcquire name amount id ttl => writeQuotaAcquireCommand [] name amount id ttl
  | RQuotaAcquireLease name limit amount id ttl =>
      writeQuotaAcquireLeaseCommand [] name limit amount id ttl
  | RQuotaAcquireN name id ttl => writeQuotaAcquireNCommand [] name id ttl
  | RQuotaSet name limit => writeQuotaSetCommand [] name limit
  | RQuotaSetN name limit clients => writeQuotaSetNCommand [] name limit clients
  | RQuotaRelease name id => writeQuotaReleaseCommand [] name id
  | RQuotaDelete name => writeQuotaDeleteCommand [] name
  | RQuotaInfo name => writeQuotaInfoCommand [] name
  | RScan cursor count => writeScanCommand [] cursor count
  | RPScan prefix cursor count => writePScanCommand [] prefix cursor count
  | RFlushDB => CommandFlushDB
  | RTruncate => CommandTruncate
  | RInspect section => writeInspectCommand [] section
  | RHello token => hello_request token
  end.

(** ** Reading a request back *)

(** The words of the request language: commands, sub-commands, algorithms. *)
Inductive word :=
  | WIncr | WGet | WWatch | WDel | WMDel | WRLimit | WFW | WSW | WTB
  | WStream | WPStream | WQStream | WQPStream
  | WQuota | WACQ | WACQL | WACQN | WSET | WSETN | WREL | WINF
  | WScan | WPScan | WFlushDB | WTruncate | WInspect | WHello | WAuth.

Definition word_table : list (bytes * word) :=
  [ (CommandIncr, WIncr); (CommandGet, WGet); (CommandWatch, WWatch); (CommandDel, WDel);
    (CommandMDel, WMDel); (CommandRLimit, WRLimit); (RLimitAlgorithmFW, WFW);
    (RLimitAlgorithmSW, WSW); (RLimitAlgorithmTB, WTB); (CommandStream, WStream);
    (CommandPStream, WPStream); (CommandQStream, WQStream); (CommandQPStream, WQPStream);
    (CommandQuota, WQuota); (str "ACQ", WACQ); (str "ACQL", WACQL); (str "ACQN", WACQN);
    (str "SET", WSET); (str "SETN", WSETN); (str "REL", WREL); (str "INF", WINF);
    (CommandScan, WScan); (CommandPScan, WPScan); (CommandFlushDB, WFlushDB);
    (CommandTruncate, WTruncate); (CommandInspect, WInspect); (CommandHello, WHello);
    (str "AUTH", WAuth) ].

Definition word_of (t : bytes) : option word :=
  snd <$> find (fun p => bool_decide (p.1 = t)) word_table.

Definition read_u32 (t : bytes) : option Z :=
  match ParseUint t 32 with Ret v => Some v | _ => None end.

Definition read_key (k c : bytes) : option CappingKey := mkCappingKey k <$> read_u32 c.

Fixpoint read_keys (ts : list bytes) : option (list CappingKey) :=
  match ts with
  | [] => Some []
  | k :: c :: ts' => key ← read_key k c; (key ::.) <$> read_keys ts'
  | [_] => None
  end.

Definition read_ttl (ts : list bytes) : option (list Z) :=
  match ts with
  | [] => Some []
  | [t] => (fun v => [v]) <$> read_u32 t
  | _ => None
  end.

Definition read_quota (sub : word) (args : list bytes) : option request :=
  match sub, args with
  | WACQ, name :: amount :: id :: ttl =>
      a ← read_u32 amount; RQuotaAcquire name a id <$> read_ttl ttl
  | WACQL, name :: limit :: amount :: id :: ttl =>
      l ← read_u32 limit; a ← read_u32 amount; RQuotaAcquireLease name l a id <$> read_ttl ttl
  | WACQN, name :: id :: ttl => RQuotaAcquireN name id <$> read_ttl ttl
  | WSET, [name; limit] => RQuotaSet name <$> read_u32 limit
  | WSETN, [name; limit; clients] =>
      l ← read_u32 limit; RQuotaSetN name l <$> read_u32 clients
  | WREL, [name; id] => Some (RQuotaRelease name id)
  | WDel, [name] => Some (RQuotaDelete name)
  | WINF, [name] => Some (RQuotaInfo name)
  | _, _ => None
  end.

Definition read_rlimit (alg : word) (args : list bytes) : option request :=
  match alg, args with
  | WFW, [k; limit; window] =>
      l ← read_u32 limit; w ← read_u32 window; Some (RRLimitFixedWindow (mkLimitKey k w) l)
  | WSW, [k; limit; window] =>
      l ← read_u32 limit; w ← read_u32 window; Some (RRLimitSlidingWindow (mkLimitKey k w) l)
  | WTB, [k; cap; refill; window] =>
      c ← read_u32 cap; f ← read_u32 refill; w ← read_u32 window;
      Some (RRLimitTokenBucket (mkLimitKey k w) c f)
  | _, _ => None
  end.

Definition read_command (cmd : word) (args : list bytes) : option request :=
  match cmd, args with
  | WIncr, [k; c] => RIncr <$> read_key k c
  | WGet, [k; c] => RGet <$> read_key k c
  | WWatch, [k; c] => RWatch <$> read_key k c
  | WDel, [k; c] => RDel <$> read_key k c
  | WMDel, [[]] => Some (RMDel [])
  | WMDel, ts => RMDel <$> read_keys ts
  | WRLimit, alg :: args => alg ← word_of alg; read_rlimit alg args
  | WStream, [] => Some RStream
  | WPStream, [p] => Some (RPStream p)
  | WQStream, [] => Some RQStream
  | WQPStream, [p] => Some (RQPStream p)
  | WQuota, sub :: args => sub ← word_of sub; read_quota sub args
  | WScan, [cursor; count] => RScan cursor <$> read_u32 count
  | WPScan, [p; cursor; count] => RPScan p cursor <$> read_u32 count
  | WFlushDB, [] => Some RFlushDB
  | WTruncate, [] => Some RTruncate
  | WInspect, [] => Some (RInspect [])
  | WInspect, [s] => Some (RInspect s)
  | WHello, [v] => v ← read_u32 v; if v =? ProtocolVersion then Some (RHello []) else None
  | WHello, [v; a; token] =>
      v ← read_u32 v; w ← word_of a;
      match w with
      | WAuth => if v =? ProtocolVersion then Some (RHello token) else None
      | _ => None
      end
  | _, _ => None
  end.

(** Tokens are what single spaces separate. *)
Definition read_request (m : bytes) : option request :=
  match Split m sp with
  | [] => None
  | cmd :: args => w ← word_of cmd; read_command w args
  end.

(** ** Well-formed requests

    The integer arguments have the range of their Go type, and no string
    argument contains the token separator. *)

Definition no_sp (s : bytes) : Prop := sp ∉ s.

Definition wf_request (r : request) : Prop :=
  match r with
  | RIncr k | RGet k | RWatch k | RDel k => no_sp (ck_Key k) /\ wf_CappingKey k
  | RMDel ks => Forall (fun k => no_sp (ck_Key k) /\ wf_CappingKey k) ks
  | RRLimitFixedWindow k l | RRLimitSlidingWindow k l =>
      no_sp (lk_Key k) /\ wf_LimitKey k /\ uint 32 l
  | RRLimitTokenBucket k c f => no_sp (lk_Key k) /\ wf_LimitKey k /\ uint 32 c /\ uint 32 f
  | RStream | RQStream | RFlushDB | RTruncate => True
  | RPStream p | RQPStream p => no_sp p
  | RQuotaAcquire n a id ttl => no_sp n /\ uint 32 a /\ no_sp id /\ Forall (uint 32) ttl
  | RQuotaAcquireLease n l a id ttl =>
      no_sp n /\ uint 32 l /\ uint 32 a /\ no_sp id /\ Forall (uint 32) ttl
  | RQuotaAcquireN n id ttl => no_sp n /\ no_sp id /\ Forall (uint 32) ttl
  | RQuotaSet n l => no_sp n /\ uint 32 l
  | RQuotaSetN n l c => no_sp n /\ uint 32 l /\ uint 32 c
  | RQuotaRelease n id => no_sp n /\ no_sp id
  | RQuotaDelete n | RQuotaInfo n => no_sp n
  | RScan c n => no_sp c /\ uint 32 n
  | RPScan p c n => no_sp p /\ no_sp c /\ uint 32 n
  | RInspect s => no_sp s
  | RHello t => no_sp t
  end.

(** What the writers normalise: an empty scan cursor is sent as the initial
    cursor, and of the variadic [ttl] only the first value is sent. *)
Definition initial_if_empty (cursor : bytes) : bytes :=
  if decide (cursor = []) then ScanCursorInitial else cursor.

Definition normalize (r : request) : request :=
  match r with
  | RScan c n => RScan (initial_if_empty c) n
  | RPScan p c n => RPScan p (initial_if_empty c) n
  | RQuotaAcquire n a id ttl => RQuotaAcquire n a id (take 1 ttl)
  | RQuotaAcquireLease n l a id ttl => RQuotaAcquireLease n l a id (take 1 ttl)
  | RQuotaAcquireN n id ttl => RQuotaAcquireN n id (take 1 ttl)
  | _ => r
  end.

(** ** The round trip *)

Lemma digit10_sp : digit10 sp = None.
Proof. done. Qed.

Lemma FormatUint_no_sp n : 0 <= n -> no_sp (FormatUint n).
Proof. intros. by apply FormatUint_not_in. Qed.

Lemma read_u32_FormatUint n : uint 32 n -> read_u32 (FormatUint n) = Some n.
Proof. intros H. unfold read_u32. by rewrite ParseUint_FormatUint by (done || lia). Qed.

Lemma read_key_FormatUint k :
  wf_CappingKey k -> read_key (ck_Key k) (FormatUint (ck_Capping k)) = Some k.
Proof.
  intros H. unfold read_key. rewrite read_u32_FormatUint by done. by destruct k.
Qed.

Lemma uint_nonneg w n : uint w n -> 0 <= n.
Proof. by intros [? _]. Qed.

#[local] Hint Resolve FormatUint_no_sp uint_nonneg : fq.
#[local] Hint Unfold wf_CappingKey wf_LimitKey : fq.
#[local] Hint Rewrite read_u32_FormatUint read_key_FormatUint using done : fqrw.

(** The fields of a list of keys, two tokens per key. *)
Definition key_tokens (keys : list CappingKey) : list bytes :=
  keys ≫= fun k => [ck_Key k; FormatUint (ck_Capping k)].

Lemma writeMultiCommand_loop_join n i keys buf :
  n = i + Z.of_nat (length keys) ->
  writeMultiCommand_loop n i keys buf = buf ++ join sp (key_tokens keys).
Proof.
  revert i buf. induction keys as [|k keys IH]; intros i buf Hn; simpl.
  { by rewrite app_nil_r. }
  rewrite IH by (simpl in Hn; lia). destruct keys as [|k' keys]; simpl in Hn.
  - rewrite (proj2 (Z.ltb_ge _ _)) by lia. simpl. by rewrite app_nil_r.
  - rewrite (proj2 (Z.ltb_lt _ _)) by lia. simpl. by rewrite <- !app_assoc.
Qed.

Lemma read_keys_tokens keys :
  Forall wf_CappingKey keys -> read_keys (key_tokens keys) = Some keys.
Proof.
  induction 1 as [|k keys Hk _ IH]; [done|].
  simpl. fold (key_tokens keys). by rewrite read_key_FormatUint, IH.
Qed.

(** A closed word contains no separator: decided by evaluation. *)
Ltac closed_no_sp := apply (bool_decide_unpack _); vm_compute; exact I.

Ltac no_sp_tac :=
  unfold no_sp in *;
  lazymatch goal with
  | |- _ ∉ FormatUint _ => apply FormatUint_no_sp; first [done | eapply uint_nonneg; eassumption]
  | _ => first [ assumption | closed_no_sp ]
  end.

Lemma initial_if_empty_no_sp c : no_sp c -> no_sp (initial_if_empty c).
Proof. intros H. unfold initial_if_empty. case_decide; no_sp_tac. Qed.

Lemma Split_ttl name_ttl ttl :
  no_sp name_ttl -> Forall (uint 32) ttl ->
  Split (writeTTL name_ttl ttl) sp = name_ttl :: (FormatUint <$> take 1 ttl).
Proof.
  intros Hn Ht. destruct ttl as [|t ttl]; simpl; [by apply Split_none|].
  inversion_clear Ht. cbn [app]. rewrite Split_app by done. f_equal.
  rewrite Split_none by no_sp_tac. by destruct ttl.
Qed.

Lemma writeTTL_app a b ttl : writeTTL (a ++ b) ttl = a ++ writeTTL b ttl.
Proof. destruct ttl; simpl; by rewrite <- ?app_assoc. Qed.

Lemma read_ttl_FormatUint ttl :
  Forall (uint 32) ttl -> read_ttl (FormatUint <$> take 1 ttl) = Some (take 1 ttl).
Proof.
  intros [|t ttl' Ht]; [done|]. simpl. rewrite take_0. simpl.
  by rewrite read_u32_FormatUint.
Qed.

Lemma Split_keys_join keys :
  keys <> [] -> Forall (fun k => no_sp (ck_Key k) /\ wf_CappingKey k) keys ->
  Split (join sp (key_tokens keys)) sp = key_tokens keys.
Proof.
  intros Hne H. apply Split_join; [by destruct keys|].
  unfold key_tokens. rewrite Forall_bind. eapply Forall_impl; [exact H|].
  intros k [? ?]. repeat constructor; no_sp_tac.
Qed.

(** A quota sub-command is written together with the spaces around it. *)
Ltac sub_words :=
  repeat match goal with
  | |- context [str (String.String " "%char ?w)] =>
      let v := eval vm_compute in (String.substring 0 (String.length w - 1) w) in
      change (str (String.String " "%char w)) with (sp :: str v ++ [sp])
  end.

(** Splitting the bytes of a request into tokens: peel one separator-free
    token at a time, then evaluate the table of words on the closed ones. *)
Ltac tokens :=
  sub_words;
  repeat (progress (rewrite <- ?app_assoc; cbn [app]));
  repeat rewrite Split_app by no_sp_tac;
  lazymatch goal with
  | |- context [Split (writeTTL _ _) _] => rewrite Split_ttl by done
  | _ => rewrite Split_none by no_sp_tac
  end;
  repeat match goal with
  | |- context [word_of ?w] =>
      let v := eval vm_compute in (word_of w) in change (word_of w) with v;
      cbn [mbind option_bind read_command read_quota read_rlimit]
  end;
  repeat (progress (autorewrite with fqrw; cbn [mbind option_bind fmap option_fmap option_map])).


#[local] Hint Rewrite read_ttl_FormatUint using done : fqrw.

Ltac unfold_writers :=
  cbv [writeCommand writeRLimitWindowCommand writeRLimitTokenBucketCommand
       writeQuotaAcquireCommand writeQuotaAcquireLeaseCommand writeQuotaAcquireNCommand
       writeQuotaSetCommand writeQuotaSetNCommand writeQuotaReleaseCommand
       writeQuotaDeleteCommand writeQuotaInfoCommand writeScanCommand writePScanCommand
       hello_request writeInspectCommand];
  rewrite ?writeTTL_app.

Lemma read_MDel keys :
  wf_request (RMDel keys) -> read_request (render (RMDel keys)) = Some (RMDel keys).
Proof.
  intros H. cbn [render]. unfold read_request, writeMultiCommand.
  rewrite writeMultiCommand_loop_join by lia. cbn [app].
  rewrite <- app_assoc. cbn [app]. rewrite Split_app by no_sp_tac.
  destruct keys as [|k keys]; [done|].
  rewrite Split_keys_join by done.
  change (word_of CommandMDel) with (Some WMDel).
  assert (E : read_keys (key_tokens (k :: keys)) = Some (k :: keys)).
  { apply read_keys_tokens. eapply Forall_impl; [exact H|]. by intros ? []. }
  simpl in *. destruct (ck_Key k); by rewrite E.
Qed.

Lemma read_Scan cursor count :
  wf_request (RScan cursor count) ->
  read_request (render (RScan cursor count)) = Some (RScan (initial_if_empty cursor) count).
Proof.
  intros [Hc Hn]. apply initial_if_empty_no_sp in Hc.
  cbn [render]. unfold writeScanCommand. fold (initial_if_empty cursor).
  generalize dependent (initial_if_empty cursor). intros c Hc.
  unfold read_request. tokens. done.
Qed.

Lemma read_PScan prefix cursor count :
  wf_request (RPScan prefix cursor count) ->
  read_request (render (RPScan prefix cursor count))
  = Some (RPScan prefix (initial_if_empty cursor) count).
Proof.
  intros (Hp & Hc & Hn). apply initial_if_empty_no_sp in Hc.
  cbn [render]. unfold writePScanCommand. fold (initial_if_empty cursor).
  generalize dependent (initial_if_empty cursor). intros c Hc.
  unfold read_request. tokens. done.
Qed.

Lemma read_Inspect section :
  wf_request (RInspect section) -> read_request (render (RInspect section)) = Some (RInspect section).
Proof.
  intros H. simpl in H. cbn [render]. unfold writeInspectCommand, read_request.
  case_decide as Hd; [tokens; done|]. subst section. tokens. done.
Qed.

Lemma read_Hello token :
  wf_request (RHello token) -> read_request (render (RHello token)) = Some (RHello token).
Proof.
  intros H. simpl in H. cbn [render]. unfold hello_request, read_request.
  change (str " AUTH ") with (sp :: str "AUTH" ++ [sp]).
  case_decide as Hd; [|subst token]; tokens; done.
Qed.


Definition request_sample : request :=
  RQuotaAcquireLease (str "campaign_42") 10 4 (str "worker_a") [60; 61].


