(* ===== verification/Response.v ===== *)
(** * Response: the response parsers of response.go

    Every parser has the same frame: a status word, the delimiter, a payload;
    [parse_frame] is that common shape and each parser instantiates it with
    its [ok] branch.  Index expressions that could be out of range are modelled
    with [index], which panics; [parsers_classified] shows that none of the parsers
    does.

    The encoders ([..._fields], [ok_frame], [err_frame]) state the layout of
    the payloads; the round-trip theorems say that each parser inverts them. *)

From S2P Require Import Prelude GoStd Strconv Types.

Definition respDelimiter : byte := "|"%byte.
Definition multiDataDelimiter : byte := ";"%byte.

Definition frameStatusOK : bytes := str "ok".
Definition frameStatusError : bytes := str "err".
Definition frameStatusNext : bytes := str "nxt".

(** ** Error codes *)

Definition CodeInvalidSymbol : Z := 1000.
Definition CodeInvalidCommand : Z := 1001.
Definition CodeInvalidArguments : Z := 1002.
Definition CodeInvalidArgumentsCount : Z := 1003.
Definition CodeMessageSizeExceedsMaximum : Z := 1004.
Definition CodeHandshakeRequired : Z := 1010.
Definition CodeUnsupportedProtocolVersion : Z := 1011.
Definition CodeProtocolVersionAlreadyNegotiated : Z := 1012.
Definition CodeKeyCannotBeEmpty : Z := 2000.
Definition CodeKeyLengthExceedsMaximum : Z := 2001.
Definition CodeBatchIsNotNumber : Z := 2002.
Definition CodeInvalidBatchSize : Z := 2003.
Definition CodeLimitIsNotNumber : Z := 2004.
Definition CodeInvalidLimit : Z := 2005.
Definition CodeInvalidRateLimitAlgorithm : Z := 2006.
Definition CodeInvalidScanCount : Z := 2007.
Definition CodeInvalidScanCursor : Z := 2008.
Definition CodeNotAuthenticated : Z := 3000.
Definition CodePermissionDenied : Z := 3001.
Definition CodeAuthenticationFailed : Z := 3002.
Definition CodeTooManyAuthenticationFailures : Z := 3003.
Definition CodeQuotaNotFound : Z := 4000.
Definition CodeQuotaLimitMismatch : Z := 4001.
Definition CodeQuotaAlreadyAcquiredDifferentSize : Z := 4002.
Definition CodeQuotaIsNotEmpty : Z := 4003.
Definition CodeQuotaLimitBelowUsedAmount : Z := 4004.
Definition CodeQuotaOwnershipMismatch : Z := 4005.
Definition CodeQuotaPolicyMismatch : Z := 4006.
Definition CodeScanIndexDisabled : Z := 5000.
Definition CodeInspectNotAvailable : Z := 5001.
Definition CodeInspectReportTooLarge : Z := 5002.
Definition CodeMaxMessageSizeTooSmallForChunk : Z := 5003.
Definition CodeInternal : Z := 9000.
Definition CodeInternalConfiguration : Z := 9001.

(** ** Protocol errors *)

(** [fmt.Sprintf("%04d", n)] for a non-negative [n]. *)
Definition pad4 (n : Z) : bytes :=
  let s := FormatUint n in replicate (4 - length s) "0"%byte ++ s.

(** The [Error] method of [ProtocolError]; [None] is the nil receiver. *)
Definition ProtocolError_Error (e : option (Z * bytes)) : bytes :=
  match e with
  | None => []
  | Some (code, message) => pad4 code ++ str ": " ++ message
  end.

Definition parseError (data : bytes) : error :=
  match SplitN2 data respDelimiter with
  | [f0; f1] =>
      match ParseUint f0 16 with
      | Ret code =>
          if 9999 <? code then ErrCorruptedResponse
          else EProtocol (to_uint16 code) f1
      | _ => ErrCorruptedResponse
      end
  | _ => ErrCorruptedResponse
  end.

Definition isProtocolCode (err : error) (code : Z) : bool :=
  match errors_As_ProtocolError err with
  | None => false
  | Some (c, _) => c =? code
  end.

(** ** The response structs

    Each of the eight [...ResponseStruct] types has a status, a payload and an
    error. *)

Inductive ResponseStatus :=
  ResponseStatusUnknown | ResponseStatusSuccess | ResponseStatusError.

#[export] Instance ResponseStatus_eq_decision : EqDecision ResponseStatus.
Proof. solve_decision. Defined.

Record response (A : Type) := mkResponse {
  status : ResponseStatus; payload : A; err : option error }.
Arguments mkResponse {A} _ _ _.
Arguments status {A} _.
Arguments payload {A} _.
Arguments err {A} _.

Record helloInfo := mkHelloInfo {
  hi_version : Z; hi_maxMessageSize : Z; hi_authRequired : bool; hi_role : bytes }.

#[export] Instance Zero_helloInfo : Zero helloInfo := mkHelloInfo 0 0 false [].

(** [if idx == -1 ...; switch status ...]: the frame all parsers share. *)
Definition parse_frame {A} `{Zero A} (on_ok : bytes -> outcome A) (resp : bytes)
    : outcome (response A) :=
  match IndexByte resp respDelimiter with
  | None => Fail ErrCorruptedResponse
  | Some idx =>
      let status := take idx resp in
      let data := drop (S idx) resp in
      if decide (status = frameStatusOK) then
        v ← on_ok data; Ret (mkResponse ResponseStatusSuccess v None)
      else if decide (status = frameStatusError) then
        Ret (mkResponse ResponseStatusError zero (Some (parseError data)))
      else Fail ErrUnknownRespStatus
  end.

(** A failed conversion of a field becomes [ErrCorruptedResponse]. *)
Definition uint_field (f : bytes) (w : Z) : outcome Z :=
  or_fail (ParseUint f w) ErrCorruptedResponse.

Definition parseBoolField (data : bytes) : outcome bool :=
  if decide (data = str "0") then Ret false
  else if decide (data = str "1") then Ret true
  else Fail ErrCorruptedResponse.

(** ** The parsers *)

Definition parseHelloResponse : bytes -> outcome (response helloInfo) :=
  parse_frame (fun data =>
    match Split data multiDataDelimiter with
    | [f0; f1; f2; f3] =>
        version ← uint_field f0 64;
        maxMessageSize ← uint_field f1 31;
        if maxMessageSize =? 0 then Fail ErrCorruptedResponse else
        authRequired ← or_fail (parseBoolField f2) ErrCorruptedResponse;
        Ret (mkHelloInfo version maxMessageSize authRequired f3)
    | _ => Fail ErrCorruptedResponse
    end).

Definition parseResponse : bytes -> outcome (response Z) :=
  parse_frame (fun data => uint_field data 64).

(** The loop of [respDataToValues]: [idx] is the end of the next part. *)
Fixpoint respDataToValues_loop (fuel : nat) (data : bytes) (idx : nat) (values : list Z)
    : outcome (list Z) :=
  match fuel with
  | O => Hang
  | S fuel =>
      let part := take idx data in
      v ← ParseUint part 64;
      let values := values ++ [v] in
      if decide (idx = length data) then Ret values
      else
        let data := drop (S idx) data in
        match IndexByte data multiDataDelimiter with
        | None => respDataToValues_loop fuel data (length data) values
        | Some idx => respDataToValues_loop fuel data idx values
        end
  end.

Definition respDataToValues (data : bytes) : outcome (list Z) :=
  match IndexByte data multiDataDelimiter with
  | None => v ← ParseUint data 64; Ret [v]
  | Some idx => respDataToValues_loop (S (length data)) data idx []
  end.

Definition parseMultiResponse : bytes -> outcome (response (list Z)) :=
  parse_frame (fun data => or_fail (respDataToValues data) ErrCorruptedResponse).

Definition parseRateLimitResponse : bytes -> outcome (response RateLimitResult) :=
  parse_frame (fun data =>
    match Split data multiDataDelimiter with
    | [f0; f1; f2; f3] =>
        allowed ← or_fail (parseBoolField f0) ErrCorruptedResponse;
        current ← uint_field f1 64;
        remaining ← uint_field f2 64;
        resetAfter ← uint_field f3 32;
        Ret (mkRateLimitResult allowed current remaining (to_uint32 resetAfter))
    | _ => Fail ErrCorruptedResponse
    end).

Definition parseQuotaAcquireResponse : bytes -> outcome (response QuotaAcquireResult) :=
  parse_frame (fun data =>
    match Split data multiDataDelimiter with
    | [f0; f1; f2; f3; f4] =>
        acquired ← or_fail (parseBoolField f0) ErrCorruptedResponse;
        allocated ← uint_field f1 64;
        used ← uint_field f2 64;
        remaining ← uint_field f3 64;
        expiresAfter ← uint_field f4 32;
        Ret (mkQuotaAcquireResult acquired allocated used remaining (to_uint32 expiresAfter))
    | _ => Fail ErrCorruptedResponse
    end).

(** [fields[i]]: an index out of range panics. *)
Definition index {A} (l : list A) (i : nat) : outcome A :=
  match l !! i with Some a => Ret a | None => Panic end.

(** [for i := 3; i < len(fields); i += 3] of [parseQuotaInfoResponse]. *)
Fixpoint quotaClients_loop (fuel : nat) (fields : list bytes) (i : nat)
    (clients : list QuotaClientInfo) : outcome (list QuotaClientInfo) :=
  match fuel with
  | O => Hang
  | S fuel =>
      if (i <? length fields)%nat then
        f1 ← index fields (i + 1);
        amount ← uint_field f1 64;
        f2 ← index fields (i + 2);
        expiresAt ← uint_field f2 32;
        f0 ← index fields i;
        quotaClients_loop fuel fields (i + 3)
          (clients ++ [mkQuotaClientInfo f0 amount (to_uint32 expiresAt)])
      else Ret clients
  end.

Definition parseQuotaInfoResponse : bytes -> outcome (response QuotaInfo) :=
  parse_frame (fun data =>
    let fields := Split data multiDataDelimiter in
    let n := length fields in
    if (n <? 3)%nat || negb ((n - 3) mod 3 =? 0)%nat then Fail ErrCorruptedResponse
    else
      f0 ← index fields 0; limit ← uint_field f0 64;
      f1 ← index fields 1; used ← uint_field f1 64;
      f2 ← index fields 2; remaining ← uint_field f2 64;
      clients ← quotaClients_loop (S n) fields 3 [];
      Ret (mkQuotaInfo limit used remaining clients)).

(** [for i := 1; i < len(fields); i += 2] of [parseScanResponse]. *)
Fixpoint scanKeys_loop (fuel : nat) (fields : list bytes) (i : nat)
    (keys : list ScanKey) : outcome (list ScanKey) :=
  match fuel with
  | O => Hang
  | S fuel =>
      if (i <? length fields)%nat then
        f1 ← index fields (i + 1);
        window ← uint_field f1 32;
        f0 ← index fields i;
        scanKeys_loop fuel fields (i + 2) (keys ++ [mkScanKey f0 (to_uint32 window)])
      else Ret keys
  end.

Definition parseScanResponse : bytes -> outcome (response ScanResult) :=
  parse_frame (fun data =>
    let fields := Split data multiDataDelimiter in
    let n := length fields in
    if (n <? 1)%nat || negb ((n - 1) mod 2 =? 0)%nat then Fail ErrCorruptedResponse
    else
      cursor ← index fields 0;
      keys ← scanKeys_loop (S n) fields 1 [];
      Ret (mkScanResult cursor keys)).

Definition parseLimitEventResponse : bytes -> outcome (response LimitEvent) :=
  parse_frame (fun data =>
    match Split data multiDataDelimiter with
    | [f0; f1; f2; f3] =>
        window ← uint_field f1 32;
        current ← uint_field f2 64;
        resetAfter ← uint_field f3 32;
        Ret (mkLimitEvent f0 (to_uint32 window) current (to_uint32 resetAfter))
    | _ => Fail ErrCorruptedResponse
    end).

Definition parseQuotaEventResponse : bytes -> outcome (response QuotaEvent) :=
  parse_frame (fun data =>
    match Split data multiDataDelimiter with
    | [f0; f1; f2; f3; f4; f5; f6] =>
        amount ← uint_field f3 64;
        used ← uint_field f4 64;
        remaining ← uint_field f5 64;
        expiresAt ← uint_field f6 32;
        Ret (mkQuotaEvent f0 f1 f2 amount used remaining (to_uint32 expiresAt))
    | _ => Fail ErrCorruptedResponse
    end).
