(* ===== verification/ResponseFacts.v ===== *)
(** * ResponseFacts: correctness of the response parsers

    - the common frame: [parse_frame_ok], [parse_frame_err], [parse_frame_inv];
    - the loops against their list-recursive specifications;
    - totality, value ranges and round trips of every parser. *)

From S2P Require Import Prelude GoStd Strconv Types Response.

(** ** Layout of the messages *)

Definition semi : byte := multiDataDelimiter.

Definition ok_frame (fields : list bytes) : bytes := str "ok|" ++ join semi fields.

Definition err_frame (code : Z) (message : bytes) : bytes :=
  str "err|" ++ FormatUint code ++ respDelimiter :: message.

Definition bool_text (b : bool) : bytes := if b then str "1" else str "0".

Definition hello_fields (h : helloInfo) : list bytes :=
  [FormatUint (hi_version h); FormatUint (hi_maxMessageSize h);
   bool_text (hi_authRequired h); hi_role h].

Definition rateLimit_fields (r : RateLimitResult) : list bytes :=
  [bool_text (rl_Allowed r); FormatUint (rl_Current r); FormatUint (rl_Remaining r);
   FormatUint (rl_ResetAfter r)].

Definition quotaAcquire_fields (r : QuotaAcquireResult) : list bytes :=
  [bool_text (qa_Acquired r); FormatUint (qa_Allocated r); FormatUint (qa_Used r);
   FormatUint (qa_Remaining r); FormatUint (qa_ExpiresAfter r)].

Definition client_fields (c : QuotaClientInfo) : list bytes :=
  [qc_ClientID c; FormatUint (qc_Amount c); FormatUint (qc_ExpiresAt c)].

Definition quotaInfo_fields (i : QuotaInfo) : list bytes :=
  FormatUint (qi_Limit i) :: FormatUint (qi_Used i) :: FormatUint (qi_Remaining i)
  :: (qi_Clients i ≫= client_fields).

Definition scanKey_fields (k : ScanKey) : list bytes := [sk_Key k; FormatUint (sk_Window k)].

Definition scan_fields (r : ScanResult) : list bytes :=
  sr_Cursor r :: (sr_Keys r ≫= scanKey_fields).

Definition limitEvent_fields (e : LimitEvent) : list bytes :=
  [le_Key e; FormatUint (le_Window e); FormatUint (le_Current e); FormatUint (le_ResetAfter e)].

Definition quotaEvent_fields (e : QuotaEvent) : list bytes :=
  [qe_Event e; qe_Name e; qe_ClientID e; FormatUint (qe_Amount e); FormatUint (qe_Used e);
   FormatUint (qe_Remaining e); FormatUint (qe_ExpiresAt e)].

Definition no_semi (s : bytes) : Prop := semi ∉ s.

Definition success {A} (a : A) : response A := mkResponse ResponseStatusSuccess a None.

Definition failure {A} `{Zero A} (e : error) : response A :=
  mkResponse ResponseStatusError zero (Some e).

(** ** The common frame *)

Lemma byte_not_in_closed (c : byte) (l : bytes) : bool_decide (c ∈ l) = false -> c ∉ l.
Proof. apply bool_decide_eq_false_1. Qed.

Section frame.
Context {A : Type} `{Zero A} (on_ok : bytes -> outcome A).

Lemma parse_frame_ok data :
  parse_frame on_ok (str "ok|" ++ data) = (v ← on_ok data; Ret (success v)).
Proof.
  unfold parse_frame. change (str "ok|" ++ data) with (str "ok" ++ respDelimiter :: data).
  rewrite IndexByte_app by by apply byte_not_in_closed.
  rewrite take_length_app. by rewrite decide_True.
Qed.

Lemma parse_frame_err data :
  parse_frame on_ok (str "err|" ++ data) = Ret (failure (parseError data)).
Proof.
  unfold parse_frame. change (str "err|" ++ data) with (str "err" ++ respDelimiter :: data).
  rewrite IndexByte_app by by apply byte_not_in_closed.
  rewrite take_length_app. rewrite decide_False by done. by rewrite decide_True.
Qed.

Lemma parse_frame_inv resp r :
  parse_frame on_ok resp = Ret r ->
  (exists data v, resp = str "ok|" ++ data /\ on_ok data = Ret v /\ r = success v) \/
  (exists data, resp = str "err|" ++ data /\ r = failure (parseError data)).
Proof.
  unfold parse_frame. intros Hr. destruct (IndexByte resp respDelimiter) as [idx|] eqn:E; [|done].
  destruct (IndexByte_Some _ _ _ E) as (El & _ & _).
  case_decide as Hs; [|case_decide as Hs']; [| |done].
  - apply bind_Ret in Hr as (v & Hv & [= <-]). left.
    exists (drop (S idx) resp), v. split_and!; [|done|done].
    rewrite El at 1. by rewrite Hs.
  - simplify_eq. right. exists (drop (S idx) resp). split; [|done].
    rewrite El at 1. by rewrite Hs'.
Qed.

Lemma parse_frame_returns resp : (forall d, returns (on_ok d)) -> returns (parse_frame on_ok resp).
Proof.
  intros Hok. unfold parse_frame. repeat (case_match; simpl; try done).
  apply returns_bind; [apply Hok|done].
Qed.

Lemma parse_frame_ext (g : bytes -> outcome A) resp :
  (forall d, on_ok d = g d) -> parse_frame on_ok resp = parse_frame g resp.
Proof. intros E. unfold parse_frame. repeat (case_match; try done). by rewrite E. Qed.

(** A property of the payload holds of every parsed response as soon as the
    [ok] branch establishes it and the zero value has it. *)
Lemma parse_frame_payload (P : A -> Prop) resp r :
  P zero -> (forall d v, on_ok d = Ret v -> P v) ->
  parse_frame on_ok resp = Ret r -> P (payload r).
Proof.
  intros Hz Hok Hr. destruct (parse_frame_inv resp r Hr) as [(d & v & _ & ? & ->)|(d & _ & ->)];
    simpl; eauto.
Qed.

(** On well-formed fields the frame around a payload parser is transparent. *)
Lemma parse_frame_fields fs a : on_ok (join semi fs) = Ret a -> parse_frame on_ok (ok_frame fs) = Ret (success a).
Proof. intros E. unfold ok_frame. by rewrite parse_frame_ok, E. Qed.

End frame.

(** ** parseError *)

Lemma parseError_cases data :
  parseError data = ErrCorruptedResponse \/
  exists code message, parseError data = EProtocol code message /\ 0 <= code <= 9999.
Proof.
  unfold parseError. destruct (SplitN2 data respDelimiter) as [|f0 [|f1 [|??]]]; auto.
  destruct (ParseUint f0 16) as [code|?| |] eqn:E; auto.
  apply ParseUint_range in E as Hr; [|lia]. unfold uint in Hr.
  destruct (Z.ltb_spec 9999 code); auto. right.
  exists code, f1. rewrite to_uint16_id by done. split; [done|lia].
Qed.

Lemma parseError_err_frame code message :
  0 <= code <= 9999 -> parseError (FormatUint code ++ respDelimiter :: message) = EProtocol code message.
Proof.
  intros Hc. assert (uint 16 code) by (unfold uint; lia). unfold parseError.
  rewrite SplitN2_app by (by apply FormatUint_not_in; [lia|]).
  rewrite ParseUint_FormatUint by (done || lia). rewrite (proj2 (Z.ltb_ge _ _)) by lia.
  by rewrite to_uint16_id.
Qed.

(** ** Fields *)

Lemma uint_field_returns f w : returns (uint_field f w).
Proof. apply returns_or_fail, ParseUint_returns. Qed.

Lemma uint_field_FormatUint n w : 0 <= w <= 64 -> uint w n -> uint_field (FormatUint n) w = Ret n.
Proof. intros. unfold uint_field. by rewrite ParseUint_FormatUint. Qed.

Lemma uint_field_range f w v : 0 <= w <= 64 -> uint_field f w = Ret v -> uint w v.
Proof. unfold uint_field. rewrite or_fail_Ret. apply ParseUint_range. Qed.

Lemma parseBoolField_returns f : returns (parseBoolField f).
Proof. unfold parseBoolField. repeat case_decide; done. Qed.

Lemma parseBoolField_text b : parseBoolField (bool_text b) = Ret b.
Proof. by destruct b. Qed.

Lemma to_uint32_field f v : uint_field f 32 = Ret v -> uint 32 (to_uint32 v).
Proof. intros H. apply uint_field_range in H; [|lia]. by rewrite to_uint32_id. Qed.

#[export] Hint Resolve uint_field_returns parseBoolField_returns returns_or_fail : fq.
#[export] Hint Rewrite uint_field_FormatUint parseBoolField_text to_uint32_id
  using (first [done | lia]) : fqrw.

(** Every step of a parser that only converts fields returns. *)
Ltac solve_returns :=
  repeat first
    [ done
    | apply returns_bind; [by eauto with fq|intros ? _]
    | apply returns_or_fail
    | by eauto with fq
    | case_match ].

(** ** The value list of MDEL *)

Lemma bind_assoc {A B C} (o : outcome A) (f : A -> outcome B) (g : B -> outcome C) :
  ((o ≫= f) ≫= g) = (o ≫= fun a => f a ≫= g).
Proof. by destruct o. Qed.

Lemma respDataToValues_loop_spec fuel data idx values :
  (length data < fuel)%nat ->
  (IndexByte data semi = Some idx \/ IndexByte data semi = None /\ idx = length data) ->
  respDataToValues_loop fuel data idx values
  = (vs ← mapM (fun p => ParseUint p 64) (Split data semi); Ret (values ++ vs)).
Proof.
  revert data idx values. induction fuel as [|fuel IH]; intros data idx values Hf Hidx; [lia|].
  cbn [respDataToValues_loop]. rewrite Split_IndexByte.
  destruct Hidx as [Hi|[Hi ->]]; rewrite Hi.
  - destruct (IndexByte_Some _ _ _ Hi) as (El & _ & Hl).
    apply (f_equal length) in El as Hlen. rewrite length_app in Hlen. simpl in Hlen.
    cbn [mapM mret outcome_ret]. rewrite bind_assoc.
    destruct (ParseUint (take idx data) 64) as [v|?| |]; [|done|done|done].
    cbn [mbind outcome_bind]. rewrite decide_False by lia. rewrite bind_assoc.
    rewrite length_drop in Hlen.
    destruct (IndexByte (drop (S idx) data) multiDataDelimiter) as [j|] eqn:Ej.
    all: rewrite IH; [|rewrite length_drop; lia|auto].
    all: destruct (mapM _ _); simpl; by rewrite <- ?app_assoc.
  - rewrite firstn_all. cbn [mapM mret outcome_ret]. rewrite bind_assoc.
    destruct (ParseUint data 64); [|done|done|done]. simpl. by rewrite decide_True.
Qed.

Lemma respDataToValues_spec data :
  respDataToValues data = mapM (fun p => ParseUint p 64) (Split data multiDataDelimiter).
Proof.
  unfold respDataToValues. fold semi. rewrite Split_IndexByte.
  destruct (IndexByte data semi) as [idx|] eqn:E.
  - rewrite respDataToValues_loop_spec by auto with lia.
    rewrite (Split_IndexByte data semi), E. by destruct (mapM _ _).
  - cbn [mapM mret outcome_ret]. by destruct (ParseUint data 64).
Qed.

Lemma mapM_returns {A B} (f : A -> outcome B) l :
  (forall a, returns (f a)) -> returns (mapM f l).
Proof. intros Hf. induction l; simpl; [done|]. solve_returns. Qed.

Lemma respDataToValues_returns data : returns (respDataToValues data).
Proof. rewrite respDataToValues_spec. apply mapM_returns. auto with fq. Qed.

Lemma mapM_ParseUint_range w l vs :
  0 <= w <= 64 -> mapM (fun p => ParseUint p w) l = Ret vs -> Forall (uint w) vs.
Proof.
  intros Hw. revert vs. induction l as [|p l IH]; simpl; intros vs Hm.
  { by inversion Hm; subst. }
  apply bind_Ret in Hm as (v & Hv & Hm). apply bind_Ret in Hm as (vs' & ? & [= <-]).
  constructor; eauto with fq.
Qed.

Lemma mapM_ParseUint_FormatUint w vs :
  0 <= w <= 64 -> Forall (uint w) vs ->
  mapM (fun p => ParseUint p w) (FormatUint <$> vs) = Ret vs.
Proof.
  intros Hw. induction 1 as [|v vs Hv _ IH]; [done|].
  rewrite fmap_cons. cbn [mapM mbind outcome_bind]. by rewrite ParseUint_FormatUint, IH by done.
Qed.

#[export] Hint Resolve respDataToValues_returns : fq.

(** ** The key and client lists *)

(** What the loop over [fields] of [parseQuotaInfoResponse] computes, by
    recursion on the fields that are left. *)
Fixpoint clients_of (l : list bytes) : outcome (list QuotaClientInfo) :=
  match l with
  | id :: a :: e :: l' =>
      amount ← uint_field a 64;
      expiresAt ← uint_field e 32;
      cs ← clients_of l';
      Ret (mkQuotaClientInfo id amount (to_uint32 expiresAt) :: cs)
  | _ => Ret []
  end.

(** Likewise for the loop of [parseScanResponse]. *)
Fixpoint keys_of (l : list bytes) : outcome (list ScanKey) :=
  match l with
  | k :: w :: l' =>
      window ← uint_field w 32;
      ks ← keys_of l';
      Ret (mkScanKey k (to_uint32 window) :: ks)
  | _ => Ret []
  end.

Lemma index_app {A} (pre : list A) x post : index (pre ++ x :: post) (length pre) = Ret x.
Proof. unfold index. by rewrite list_lookup_middle. Qed.

Lemma index_app_add {A} (pre rest : list A) k x :
  rest !! k = Some x -> index (pre ++ rest) (length pre + k) = Ret x.
Proof.
  intros Hk. unfold index. rewrite lookup_app_r by lia.
  replace (length pre + k - length pre)%nat with k by lia. by rewrite Hk.
Qed.

Lemma quotaClients_loop_spec fuel pre rest acc :
  (length rest < fuel)%nat -> (exists m, length rest = m * 3)%nat ->
  quotaClients_loop fuel (pre ++ rest) (length pre) acc
  = (cs ← clients_of rest; Ret (acc ++ cs)).
Proof.
  revert pre rest acc. induction fuel as [|fuel IH]; intros pre rest acc Hf [m Hm]; [lia|].
  cbn [quotaClients_loop]. rewrite length_app.
  destruct rest as [|id [|a [|e rest]]]; simpl in Hm; [|lia|lia|].
  { rewrite (proj2 (Nat.ltb_ge _ _)) by (simpl; lia). simpl. by rewrite app_nil_r. }
  rewrite (proj2 (Nat.ltb_lt _ _)) by (simpl; lia).
  rewrite (index_app_add pre (id :: a :: e :: rest) 1 a eq_refl).
  rewrite (index_app_add pre (id :: a :: e :: rest) 2 e eq_refl), index_app. cbn [clients_of mbind outcome_bind].
  destruct (uint_field a 64) as [amount|?| |]; [|done|done|done]. cbn.
  destruct (uint_field e 32) as [expires|?| |]; [|done|done|done]. cbn.
  replace (pre ++ id :: a :: e :: rest) with ((pre ++ [id; a; e]) ++ rest) by by rewrite <- app_assoc.
  replace (length pre + 3)%nat with (length (pre ++ [id; a; e])) by (rewrite length_app; done).
  rewrite IH; [|simpl in Hf; lia|exists (m - 1)%nat; lia].
  destruct (clients_of rest); simpl; [|done|done|done]. by rewrite <- app_assoc.
Qed.

Lemma scanKeys_loop_spec fuel pre rest acc :
  (length rest < fuel)%nat -> (exists m, length rest = m * 2)%nat ->
  scanKeys_loop fuel (pre ++ rest) (length pre) acc
  = (ks ← keys_of rest; Ret (acc ++ ks)).
Proof.
  revert pre rest acc. induction fuel as [|fuel IH]; intros pre rest acc Hf [m Hm]; [lia|].
  cbn [scanKeys_loop]. rewrite length_app.
  destruct rest as [|k [|w rest]]; simpl in Hm; [|lia|].
  { rewrite (proj2 (Nat.ltb_ge _ _)) by (simpl; lia). simpl. by rewrite app_nil_r. }
  rewrite (proj2 (Nat.ltb_lt _ _)) by (simpl; lia).
  rewrite (index_app_add pre (k :: w :: rest) 1 w eq_refl), index_app. cbn [keys_of mbind outcome_bind].
  destruct (uint_field w 32) as [window|?| |]; [|done|done|done]. cbn.
  replace (pre ++ k :: w :: rest) with ((pre ++ [k; w]) ++ rest) by by rewrite <- app_assoc.
  replace (length pre + 2)%nat with (length (pre ++ [k; w])) by (rewrite length_app; done).
  rewrite IH; [|simpl in Hf; lia|exists (m - 1)%nat; lia].
  destruct (keys_of rest); simpl; [|done|done|done]. by rewrite <- app_assoc.
Qed.

Lemma clients_of_returns l : returns (clients_of l).
Proof.
  remember (length l) as n eqn:Hn. revert l Hn.
  induction n as [n IH] using lt_wf_ind. intros [|id [|a [|e l]]] ->; try done.
  cbn [clients_of]. assert (returns (clients_of l)) by (apply (IH (length l)); simpl; lia).
  solve_returns.
Qed.

Lemma keys_of_returns l : returns (keys_of l).
Proof.
  remember (length l) as n eqn:Hn. revert l Hn.
  induction n as [n IH] using lt_wf_ind. intros [|k [|w l]] ->; try done.
  cbn [keys_of]. assert (returns (keys_of l)) by (apply (IH (length l)); simpl; lia).
  solve_returns.
Qed.

#[export] Hint Resolve clients_of_returns keys_of_returns : fq.

(** The [ok] branches of the two list parsers, with the length guards. *)
Definition quotaInfo_of (fields : list bytes) : outcome QuotaInfo :=
  match fields with
  | f0 :: f1 :: f2 :: rest =>
      if ((length rest) mod 3 =? 0)%nat then
        limit ← uint_field f0 64; used ← uint_field f1 64; remaining ← uint_field f2 64;
        clients ← clients_of rest;
        Ret (mkQuotaInfo limit used remaining clients)
      else Fail ErrCorruptedResponse
  | _ => Fail ErrCorruptedResponse
  end.

Definition scan_of (fields : list bytes) : outcome ScanResult :=
  match fields with
  | cursor :: rest =>
      if ((length rest) mod 2 =? 0)%nat then
        keys ← keys_of rest; Ret (mkScanResult cursor keys)
      else Fail ErrCorruptedResponse
  | [] => Fail ErrCorruptedResponse
  end.

Lemma parseQuotaInfoResponse_spec resp :
  parseQuotaInfoResponse resp
  = parse_frame (fun data => quotaInfo_of (Split data multiDataDelimiter)) resp.
Proof.
  apply parse_frame_ext. intros data. cbv zeta.
  destruct (Split _ _) as [|f0 [|f1 [|f2 rest]]]; try done.
  cbn [length quotaInfo_of]. rewrite (proj2 (Nat.ltb_ge _ _)) by lia.
  replace (S (S (S (length rest))) - 3)%nat with (length rest) by lia. cbn [orb].
  destruct (Nat.eqb_spec (length rest mod 3) 0) as [Hm|]; [|done]. cbn [negb].
  unfold index. cbn [lookup list_lookup mbind outcome_bind].
  destruct (uint_field f0 64), (uint_field f1 64), (uint_field f2 64); try done.
  cbn [mbind outcome_bind].
  epose proof (quotaClients_loop_spec _ [f0; f1; f2] rest []) as HL. cbn [app length] in HL.
  rewrite HL; [|lia|].
  - by destruct (clients_of rest).
  - exists (length rest / 3)%nat. pose proof (Nat.div_mod_eq (length rest) 3). lia.
Qed.

Lemma parseScanResponse_spec resp :
  parseScanResponse resp
  = parse_frame (fun data => scan_of (Split data multiDataDelimiter)) resp.
Proof.
  apply parse_frame_ext. intros data. cbv zeta.
  destruct (Split _ _) as [|f0 rest]; try done.
  cbn [length scan_of]. rewrite (proj2 (Nat.ltb_ge _ _)) by lia.
  replace (S (length rest) - 1)%nat with (length rest) by lia. cbn [orb].
  destruct (Nat.eqb_spec (length rest mod 2) 0) as [Hm|]; [|done]. cbn [negb].
  unfold index. cbn [lookup list_lookup mbind outcome_bind].
  epose proof (scanKeys_loop_spec _ [f0] rest []) as HL. cbn [app length] in HL.
  rewrite HL; [|lia|].
  - by destruct (keys_of rest).
  - exists (length rest / 2)%nat. pose proof (Nat.div_mod_eq (length rest) 2). lia.
Qed.

(** ** Every outcome of a parser *)

(** A payload parser either returns or reports a corrupted response. *)
Definition decodes {A} (o : outcome A) : Prop :=
  match o with
  | Ret _ => True
  | Fail e => e = ErrCorruptedResponse
  | Panic | Hang => False
  end.

Lemma decodes_bind {A B} (o : outcome A) (f : A -> outcome B) :
  decodes o -> (forall a, decodes (f a)) -> decodes (o ≫= f).
Proof. destruct o; simpl; auto. Qed.

Lemma decodes_or_fail {A} (o : outcome A) : returns o -> decodes (or_fail o ErrCorruptedResponse).
Proof. by destruct o. Qed.

Lemma decodes_uint_field f w : decodes (uint_field f w).
Proof. apply decodes_or_fail, ParseUint_returns. Qed.

#[export] Hint Resolve decodes_or_fail decodes_uint_field : fq.

Ltac solve_decodes :=
  repeat first
    [ done
    | apply decodes_bind; [|intros ?]
    | by eauto with fq
    | case_match ].

Lemma decodes_clients_of l : decodes (clients_of l).
Proof.
  remember (length l) as n eqn:Hn. revert l Hn.
  induction n as [n IH] using lt_wf_ind. intros [|id [|a [|e l]]] ->; try done.
  cbn [clients_of]. assert (decodes (clients_of l)) by (apply (IH (length l)); simpl; lia).
  solve_decodes.
Qed.

Lemma decodes_keys_of l : decodes (keys_of l).
Proof.
  remember (length l) as n eqn:Hn. revert l Hn.
  induction n as [n IH] using lt_wf_ind. intros [|k [|w l]] ->; try done.
  cbn [keys_of]. assert (decodes (keys_of l)) by (apply (IH (length l)); simpl; lia).
  solve_decodes.
Qed.

#[export] Hint Resolve decodes_clients_of decodes_keys_of : fq.

(** A returned response is a success without an error, or an error with the
    zero payload: never the unknown status, so the [default] branch of the
    callers' switch is dead. *)
Definition classified {A} `{Zero A} (r : response A) : Prop :=
  (status r = ResponseStatusSuccess /\ err r = None) \/
  (status r = ResponseStatusError /\ payload r = zero /\
   exists e, err r = Some e /\
     (e = ErrCorruptedResponse \/
      exists code message, e = EProtocol code message /\ 0 <= code <= 9999)).

Definition well_classified {A} `{Zero A} (o : outcome (response A)) : Prop :=
  match o with
  | Ret r => classified r
  | Fail e => e = ErrCorruptedResponse \/ e = ErrUnknownRespStatus
  | Panic | Hang => False
  end.

Lemma parse_frame_classified {A} `{Zero A} (on_ok : bytes -> outcome A) resp :
  (forall d, decodes (on_ok d)) -> well_classified (parse_frame on_ok resp).
Proof.
  intros Hok. unfold parse_frame. destruct (IndexByte _ _) as [idx|]; [|by left].
  case_decide; [|case_decide; [|by right]].
  - specialize (Hok (drop (S idx) resp)). destruct (on_ok _); simpl in *; try done; by left.
  - right. simpl. split_and!; [done|done|]. eexists; split; [done|]. apply parseError_cases.
Qed.

Lemma parseHello_classified resp : well_classified (parseHelloResponse resp).
Proof. apply parse_frame_classified. intros d. solve_decodes. Qed.

Lemma well_classified_returns {A} `{Zero A} (o : outcome (response A)) : well_classified o -> returns o.
Proof. by destruct o. Qed.

Lemma parsers_classified_spec resp :
  well_classified (parseHelloResponse resp) /\ well_classified (parseResponse resp) /\
  well_classified (parseMultiResponse resp) /\ well_classified (parseRateLimitResponse resp) /\
  well_classified (parseQuotaAcquireResponse resp) /\
  well_classified (parseQuotaInfoResponse resp) /\ well_classified (parseScanResponse resp) /\
  well_classified (parseLimitEventResponse resp) /\
  well_classified (parseQuotaEventResponse resp).
Proof.
  rewrite parseQuotaInfoResponse_spec, parseScanResponse_spec.
  split_and!; apply parse_frame_classified; intros d; unfold quotaInfo_of, scan_of; solve_decodes.
Qed.

(** C21. On every byte string each parser returns a response that is a success
    or an error with a known cause, or one of the two errors of the package; no
    input makes a parser panic, loop or produce the unknown status. *)
Theorem parsers_classified resp :
  well_classified (parseHelloResponse resp) /\ well_classified (parseResponse resp) /\
  well_classified (parseMultiResponse resp) /\ well_classified (parseRateLimitResponse resp) /\
  well_classified (parseQuotaAcquireResponse resp) /\
  well_classified (parseQuotaInfoResponse resp) /\ well_classified (parseScanResponse resp) /\
  well_classified (parseLimitEventResponse resp) /\
  well_classified (parseQuotaEventResponse resp).
Proof. apply parsers_classified_spec. Qed.

(** C26. The index loops of the parsers compute what list recursion computes,
    errors included, and never leave their slice: [respDataToValues] splits at
    the delimiter and converts every part, the quota-info parser reads clients in
    threes and the scan parser keys in twos; the right-hand sides use no index. *)
Theorem index_loops_equiv :
  (forall data, respDataToValues data = mapM (fun p => ParseUint p 64) (Split data multiDataDelimiter)) /\
  (forall resp, parseQuotaInfoResponse resp
    = parse_frame (fun data => quotaInfo_of (Split data multiDataDelimiter)) resp) /\
  (forall resp, parseScanResponse resp
    = parse_frame (fun data => scan_of (Split data multiDataDelimiter)) resp).
Proof.
  split_and!; intros; [apply respDataToValues_spec | apply parseQuotaInfoResponse_spec
                      | apply parseScanResponse_spec].
Qed.

(** ** Value ranges *)

(** Invert a chain of conversions that returned. *)
Ltac inv_ret :=
  repeat match goal with
  | H : (_ ≫= _) = Ret _ |- _ => apply bind_Ret in H as (? & ? & H)
  | H : or_fail _ _ = Ret _ |- _ => apply or_fail_Ret in H
  | H : Ret _ = Ret _ |- _ => injection H as <-
  | H : Fail _ = Ret _ |- _ => discriminate H
  | H : context [match ?l with [] => _ | _ => _ end] |- _ => destruct l eqn:?
  | H : context [if ?b then _ else _] |- _ => destruct b eqn:?
  end.

Ltac solve_range :=
  repeat match goal with
  | H : uint_field ?f 64 = Ret ?v |- context [?v] =>
      apply uint_field_range in H; [|lia]
  | H : uint_field ?f 31 = Ret ?v |- context [?v] =>
      apply uint_field_range in H; [|lia]
  | H : uint_field ?f 32 = Ret ?v |- uint 32 (to_uint32 ?v) =>
      exact (to_uint32_field f v H)
  | |- _ /\ _ => split
  end; try done.

Lemma clients_of_range l cs : clients_of l = Ret cs -> Forall wf_QuotaClientInfo cs.
Proof.
  remember (length l) as n eqn:Hn. revert l cs Hn.
  induction n as [n IH] using lt_wf_ind. intros [|id [|a [|e l]]] cs ->; try by intros [= <-].
  cbn [clients_of]. intros H. inv_ret. constructor; [unfold wf_QuotaClientInfo; simpl; solve_range|].
  eapply (IH (length l)); [simpl; lia|done|done].
Qed.

Lemma keys_of_range l ks : keys_of l = Ret ks -> Forall (fun k => uint 32 (sk_Window k)) ks.
Proof.
  remember (length l) as n eqn:Hn. revert l ks Hn.
  induction n as [n IH] using lt_wf_ind. intros [|k [|w l]] ks ->; try by intros [= <-].
  cbn [keys_of]. intros H. inv_ret. constructor; [simpl; solve_range|].
  eapply (IH (length l)); [simpl; lia|done|done].
Qed.

Definition payload_in {A} (P : A -> Prop) (o : outcome (response A)) : Prop :=
  forall r, o = Ret r -> P (payload r).

Lemma parse_frame_payload_in {A} `{Zero A} (P : A -> Prop) (on_ok : bytes -> outcome A) resp :
  P zero -> (forall d v, on_ok d = Ret v -> P v) -> payload_in P (parse_frame on_ok resp).
Proof. intros Hz Hok r. by apply parse_frame_payload. Qed.

Definition wf_helloInfo (h : helloInfo) : Prop :=
  uint 64 (hi_version h) /\ uint 31 (hi_maxMessageSize h).

Lemma uint_zero w : 0 <= w -> uint w 0.
Proof. unfold uint. pose proof (Z.pow_pos_nonneg 2 w). lia. Qed.

(** A successful handshake response has a positive 31-bit message size. *)
Lemma parseHello_success resp r :
  parseHelloResponse resp = Ret r -> status r <> ResponseStatusError ->
  0 < hi_maxMessageSize (payload r) < 2 ^ 31.
Proof.
  intros Hr Hs. apply parse_frame_inv in Hr as [(d & v & _ & Hv & ->)|(d & _ & ->)]; [|done].
  inv_ret. simpl. match goal with H : uint_field _ 31 = Ret _ |- _ =>
    apply uint_field_range in H; [|lia]; unfold uint in H end. to_prop. lia.
Qed.

#[local] Hint Extern 0 (uint _ 0) => apply uint_zero; lia : fq.


(** ** Round trips *)

Lemma FormatUint_no_semi n : 0 <= n -> no_semi (FormatUint n).
Proof. intros. by apply FormatUint_not_in. Qed.

Lemma bool_text_no_semi b : no_semi (bool_text b).
Proof. destruct b; by apply byte_not_in_closed. Qed.

Lemma uint_nonneg_range w n : uint w n -> 0 <= n.
Proof. by intros [? _]. Qed.

Ltac no_semi_tac :=
  unfold no_semi in *; cbv beta;
  lazymatch goal with
  | |- _ ∉ FormatUint _ => apply FormatUint_no_semi; eapply uint_nonneg_range; eassumption
  | |- _ ∉ bool_text _ => apply bool_text_no_semi
  | _ => assumption
  end.

(** The fields of an encoded payload are what its parser sees. *)
Ltac split_fields :=
  unfold ok_frame; rewrite parse_frame_ok, Split_join;
  [ | done | repeat (apply Forall_cons; split); [.. | apply Forall_nil_2]; no_semi_tac ].

Lemma parseResponse_roundtrip v : uint 64 v -> parseResponse (ok_frame [FormatUint v]) = Ret (success v).
Proof. intros H. unfold parseResponse, ok_frame, join. by rewrite parse_frame_ok, uint_field_FormatUint by (done || lia). Qed.

Lemma parseHelloResponse_roundtrip h :
  wf_helloInfo h -> hi_maxMessageSize h <> 0 -> no_semi (hi_role h) ->
  parseHelloResponse (ok_frame (hello_fields h)) = Ret (success h).
Proof.
  destruct h as [v m a role]. unfold wf_helloInfo; simpl. intros [Hv Hm] Hz Hr.
  unfold parseHelloResponse, hello_fields; simpl. split_fields.
  rewrite !uint_field_FormatUint by (done || lia). cbn.
  rewrite (proj2 (Z.eqb_neq _ _)) by done. by rewrite parseBoolField_text.
Qed.

Lemma parseRateLimitResponse_roundtrip r :
  wf_RateLimitResult r -> parseRateLimitResponse (ok_frame (rateLimit_fields r)) = Ret (success r).
Proof.
  destruct r as [a c m t]. unfold wf_RateLimitResult; simpl. intros (Hc & Hm & Ht).
  unfold parseRateLimitResponse, rateLimit_fields; simpl. split_fields.
  rewrite parseBoolField_text, !uint_field_FormatUint by (done || lia). cbn.
  by rewrite to_uint32_id.
Qed.

Lemma parseQuotaAcquireResponse_roundtrip r :
  wf_QuotaAcquireResult r ->
  parseQuotaAcquireResponse (ok_frame (quotaAcquire_fields r)) = Ret (success r).
Proof.
  destruct r as [a c u m t]. unfold wf_QuotaAcquireResult; simpl. intros (Hc & Hu & Hm & Ht).
  unfold parseQuotaAcquireResponse, quotaAcquire_fields; simpl. split_fields.
  rewrite parseBoolField_text, !uint_field_FormatUint by (done || lia). cbn.
  by rewrite to_uint32_id.
Qed.

Lemma parseLimitEventResponse_roundtrip e :
  wf_LimitEvent e -> no_semi (le_Key e) ->
  parseLimitEventResponse (ok_frame (limitEvent_fields e)) = Ret (success e).
Proof.
  destruct e as [k w c t]. unfold wf_LimitEvent; simpl. intros (Hw & Hc & Ht) Hk.
  unfold parseLimitEventResponse, limitEvent_fields; simpl. split_fields.
  rewrite !uint_field_FormatUint by (done || lia). cbn. by rewrite !to_uint32_id.
Qed.

Lemma parseQuotaEventResponse_roundtrip e :
  wf_QuotaEvent e -> no_semi (qe_Event e) -> no_semi (qe_Name e) -> no_semi (qe_ClientID e) ->
  parseQuotaEventResponse (ok_frame (quotaEvent_fields e)) = Ret (success e).
Proof.
  destruct e as [ev n c a u m t]. unfold wf_QuotaEvent; simpl. intros (Ha & Hu & Hm & Ht) ? ? ?.
  unfold parseQuotaEventResponse, quotaEvent_fields; simpl. split_fields.
  rewrite !uint_field_FormatUint by (done || lia). cbn. by rewrite to_uint32_id.
Qed.

Lemma parseMultiResponse_roundtrip vs :
  vs <> [] -> Forall (uint 64) vs ->
  parseMultiResponse (ok_frame (FormatUint <$> vs)) = Ret (success vs).
Proof.
  intros Hne Hvs. unfold parseMultiResponse, ok_frame.
  rewrite parse_frame_ok, respDataToValues_spec, Split_join.
  - by rewrite mapM_ParseUint_FormatUint by (done || lia).
  - by destruct vs.
  - rewrite Forall_fmap. eapply Forall_impl; [exact Hvs|]. intros v Hv; simpl.
    apply FormatUint_no_semi. by eapply uint_nonneg_range.
Qed.

Lemma clients_of_fields cs :
  Forall wf_QuotaClientInfo cs -> clients_of (cs ≫= client_fields) = Ret cs.
Proof.
  induction 1 as [|c cs [Ha He] _ IH]; [done|]. rewrite bind_cons.
  cbn [client_fields app clients_of].
  rewrite IH, !uint_field_FormatUint by (done || lia). cbn.
  rewrite to_uint32_id by done. by destruct c.
Qed.

Lemma keys_of_fields ks :
  Forall (fun k => uint 32 (sk_Window k)) ks -> keys_of (ks ≫= scanKey_fields) = Ret ks.
Proof.
  induction 1 as [|k ks Hw _ IH]; [done|]. rewrite bind_cons.
  cbn [scanKey_fields app keys_of].
  rewrite IH, !uint_field_FormatUint by (done || lia). cbn.
  rewrite to_uint32_id by done. by destruct k.
Qed.

Lemma length_bind_const {A B} (f : A -> list B) n (l : list A) :
  (forall a, length (f a) = n) -> length (l ≫= f) = (length l * n)%nat.
Proof.
  intros Hf. induction l as [|a l IH]; [done|]. by rewrite bind_cons, length_app, Hf, IH.
Qed.

Lemma parseQuotaInfoResponse_roundtrip i :
  wf_QuotaInfo i -> Forall (fun c => no_semi (qc_ClientID c)) (qi_Clients i) ->
  parseQuotaInfoResponse (ok_frame (quotaInfo_fields i)) = Ret (success i).
Proof.
  destruct i as [l u m cs]. unfold wf_QuotaInfo; simpl. intros (Hl & Hu & Hm & Hcs) Hids.
  rewrite parseQuotaInfoResponse_spec. unfold ok_frame, quotaInfo_fields.
  rewrite parse_frame_ok. fold semi. rewrite Split_join; [|done|];
    cbn [quotaInfo_of qi_Limit qi_Used qi_Remaining qi_Clients].
  - rewrite (length_bind_const _ 3), Nat.Div0.mod_mul by done. cbn [Nat.eqb].
    by rewrite clients_of_fields, !uint_field_FormatUint by (done || lia).
  - repeat (apply Forall_cons; split; [no_semi_tac|]). rewrite Forall_bind.
    rewrite Forall_forall in *. intros c Hc. destruct (Hcs c Hc) as [Ha He].
    specialize (Hids c Hc). repeat (apply Forall_cons; split; [no_semi_tac|]). apply Forall_nil_2.
Qed.

Lemma parseScanResponse_roundtrip r :
  wf_ScanResult r -> no_semi (sr_Cursor r) -> Forall (fun k => no_semi (sk_Key k)) (sr_Keys r) ->
  parseScanResponse (ok_frame (scan_fields r)) = Ret (success r).
Proof.
  destruct r as [cur ks]. unfold wf_ScanResult; simpl. intros Hks Hcur Hk.
  rewrite parseScanResponse_spec. unfold ok_frame, scan_fields.
  rewrite parse_frame_ok. fold semi. rewrite Split_join; [|done|];
    cbn [scan_of sr_Cursor sr_Keys].
  - rewrite (length_bind_const _ 2), Nat.Div0.mod_mul by done. cbn [Nat.eqb].
    by rewrite keys_of_fields.
  - apply Forall_cons; split; [done|]. rewrite Forall_bind.
    rewrite Forall_forall in *. intros k Hin. specialize (Hks k Hin). specialize (Hk k Hin).
    simpl in *. repeat (apply Forall_cons; split; [no_semi_tac|]). apply Forall_nil_2.
Qed.

(** Requirements on an encoded payload: integer ranges, and no delimiter in a
    string field. *)
Definition encodable_hello (h : helloInfo) : Prop :=
  wf_helloInfo h /\ hi_maxMessageSize h <> 0 /\ no_semi (hi_role h).

Definition encodable_limitEvent (e : LimitEvent) : Prop :=
  wf_LimitEvent e /\ no_semi (le_Key e).

Definition encodable_quotaEvent (e : QuotaEvent) : Prop :=
  wf_QuotaEvent e /\ no_semi (qe_Event e) /\ no_semi (qe_Name e) /\ no_semi (qe_ClientID e).

Definition encodable_quotaInfo (i : QuotaInfo) : Prop :=
  wf_QuotaInfo i /\ Forall (fun c => no_semi (qc_ClientID c)) (qi_Clients i).

Definition encodable_scan (r : ScanResult) : Prop :=
  wf_ScanResult r /\ no_semi (sr_Cursor r) /\ Forall (fun k => no_semi (sk_Key k)) (sr_Keys r).

(** The answers to an [err] frame, whatever the command. *)
Definition decodes_error (resp : bytes) (e : error) : Prop :=
  parseHelloResponse resp = Ret (failure e) /\ parseResponse resp = Ret (failure e) /\
  parseMultiResponse resp = Ret (failure e) /\ parseRateLimitResponse resp = Ret (failure e) /\
  parseQuotaAcquireResponse resp = Ret (failure e) /\
  parseQuotaInfoResponse resp = Ret (failure e) /\ parseScanResponse resp = Ret (failure e) /\
  parseLimitEventResponse resp = Ret (failure e) /\ parseQuotaEventResponse resp = Ret (failure e).

Lemma decodes_error_frame data : decodes_error (str "err|" ++ data) (parseError data).
Proof. split_and!; apply parse_frame_err. Qed.

Lemma decodes_err_frame code message :
  0 <= code <= 9999 -> decodes_error (err_frame code message) (EProtocol code message).
Proof.
  intros Hc. unfold err_frame. rewrite <- (parseError_err_frame code message Hc). apply decodes_error_frame.
Qed.

(** C22. Every response is decoded to exactly the value that was encoded: the
    ones with a fixed number of fields, and those with a list of any length (the
    results of MDEL, the clients of a quota, the keys of a scan), in order.  A
    protocol error is reported identically by every parser: its code and its
    message, which may itself contain delimiters, reach the caller unchanged. *)
Theorem payload_roundtrips h v rl qa le qe vs qi sr code message :
  encodable_hello h -> uint 64 v -> wf_RateLimitResult rl -> wf_QuotaAcquireResult qa ->
  encodable_limitEvent le -> encodable_quotaEvent qe ->
  vs <> [] -> Forall (uint 64) vs -> encodable_quotaInfo qi -> encodable_scan sr ->
  0 <= code <= 9999 ->
  parseHelloResponse (ok_frame (hello_fields h)) = Ret (success h) /\
  parseResponse (ok_frame [FormatUint v]) = Ret (success v) /\
  parseRateLimitResponse (ok_frame (rateLimit_fields rl)) = Ret (success rl) /\
  parseQuotaAcquireResponse (ok_frame (quotaAcquire_fields qa)) = Ret (success qa) /\
  parseLimitEventResponse (ok_frame (limitEvent_fields le)) = Ret (success le) /\
  parseQuotaEventResponse (ok_frame (quotaEvent_fields qe)) = Ret (success qe) /\
  parseMultiResponse (ok_frame (FormatUint <$> vs)) = Ret (success vs) /\
  parseQuotaInfoResponse (ok_frame (quotaInfo_fields qi)) = Ret (success qi) /\
  parseScanResponse (ok_frame (scan_fields sr)) = Ret (success sr) /\
  decodes_error (err_frame code message) (EProtocol code message).
Proof.
  intros (?&?&?) ? ? ? [??] (?&?&?&?) ? ? [??] (?&?&?) ?.
  split_and!; try (by apply decodes_err_frame); auto using parseHelloResponse_roundtrip, parseResponse_roundtrip,
    parseRateLimitResponse_roundtrip, parseQuotaAcquireResponse_roundtrip,
    parseLimitEventResponse_roundtrip, parseQuotaEventResponse_roundtrip,
    parseMultiResponse_roundtrip, parseQuotaInfoResponse_roundtrip, parseScanResponse_roundtrip.
Qed.

Ltac decide_closed := apply (bool_decide_unpack _); vm_compute; exact I.

(** Well-formedness of a concrete value, by evaluation. *)
Ltac wf_closed :=
  repeat first [ apply Forall_cons; split | apply Forall_nil_2
               | match goal with |- _ /\ _ => split end | progress hnf ];
  simpl; first [ done | lia | decide_closed ].

Lemma payload_roundtrips_witness :
  parseHelloResponse (str "ok|1;2048;0;admin") = Ret (success (mkHelloInfo 1 2048 false (str "admin"))) /\
  parseQuotaInfoResponse (str "ok|10;7;3;client-a;4;0;client-b;3;123")
  = Ret (success (mkQuotaInfo 10 7 3
      [mkQuotaClientInfo (str "client-a") 4 0; mkQuotaClientInfo (str "client-b") 3 123])) /\
  decodes_error (str "err|3001|permission|denied") (EProtocol 3001 (str "permission|denied")).
Proof.
  destruct (payload_roundtrips
    (mkHelloInfo 1 2048 false (str "admin")) 7 (mkRateLimitResult true 2 3 4)
    (mkQuotaAcquireResult true 4 4 6 60) (mkLimitEvent (str "tenant-user_42") 60 2 58)
    (mkQuotaEvent (str "del") (str "tenant-quota") [] 0 0 0 0) [1; 0]
    (mkQuotaInfo 10 7 3
      [mkQuotaClientInfo (str "client-a") 4 0; mkQuotaClientInfo (str "client-b") 3 123])
    (mkScanResult (str "MQ") [mkScanKey (str "user_1") 60]) 3001 (str "permission|denied")
    ltac:(wf_closed) ltac:(wf_closed) ltac:(wf_closed) ltac:(wf_closed) ltac:(wf_closed)
    ltac:(wf_closed) ltac:(wf_closed) ltac:(wf_closed) ltac:(wf_closed) ltac:(wf_closed)
    ltac:(lia)) as (H1 & _ & _ & _ & _ & _ & _ & H2 & _ & H3).
  split; [exact H1|split; [exact H2|exact H3]].
Defined.

