(* ===== verification/Options.v ===== *)
(** * Options: client options and TLS configuration (options.go)

    [Option] values change a [clientOptions]; [applyOptions] folds them.  The
    file system and the x509 parsers are the environment [TLSEnv]; a
    certificate pool is represented by the PEM data it was filled from, a
    certificate by the PEM data of its pair of files. *)

From S2P Require Import Prelude GoStd.

(** ** The environment: [os.ReadFile], [AppendCertsFromPEM], [tls.X509KeyPair] *)

Class TLSEnv := {
  ReadFile : bytes -> outcome bytes;
  HasCertificates : bytes -> bool;
  LoadX509KeyPair : bytes -> bytes -> outcome (bytes * bytes);
}.

(** The fields of [tls.Config] the sources set. *)
Record tls_Config := mk_tls_Config {
  tls_MinVersion : Z; tls_ServerName : bytes; tls_InsecureSkipVerify : bool;
  tls_RootCAs : option bytes; tls_Certificates : list (bytes * bytes) }.

Definition VersionTLS12 : Z := 771.  (* 0x0303 *)
Definition VersionTLS13 : Z := 772.  (* 0x0304 *)

(** ** TLSConfig *)

Record TLSConfig := mkTLSConfig {
  tc_CAFile : bytes; tc_CertFile : bytes; tc_KeyFile : bytes; tc_ServerName : bytes;
  tc_SkipVerify : bool; tc_MinVersion : bytes }.

#[export] Instance TLSConfig_eq_decision : EqDecision TLSConfig.
Proof. solve_decision. Defined.

Definition Empty (c : TLSConfig) : bool :=
  bool_decide (tc_CAFile c = []) && bool_decide (tc_CertFile c = []) &&
  bool_decide (tc_KeyFile c = []) && bool_decide (tc_ServerName c = []) &&
  bool_decide (tc_MinVersion c = []) && negb (tc_SkipVerify c).

Definition tlsMinVersion (value : bytes) : outcome Z :=
  if decide (value = [] \/ value = str "1.2") then Ret VersionTLS12
  else if decide (value = str "1.3") then Ret VersionTLS13
  else Fail (EWrap "%w: %q" [FStr value] ErrTLSUnknownMinVersion).

Section env.
Context `{TLSEnv}.

Definition certPool (path : bytes) : outcome bytes :=
  match ReadFile path with
  | Ret data =>
      if HasCertificates data then Ret data
      else Fail (EFmt "no certificates found in %q" [FStr path])
  | Fail e => Fail (EWrap "read ca file %q: %w" [FStr path] e)
  | Panic => Panic
  | Hang => Hang
  end.

(** [TLSConfig.build]; [None] is the nil configuration. *)
Definition build (c : TLSConfig) : outcome (option tls_Config) :=
  if Empty c then Ret None
  else
    version ← tlsMinVersion (tc_MinVersion c);
    roots ← (if decide (tc_CAFile c <> []) then Some <$> certPool (tc_CAFile c) else Ret None);
    certificates ←
      (if decide (tc_CertFile c <> [] \/ tc_KeyFile c <> []) then
         if decide (tc_CertFile c = [] \/ tc_KeyFile c = []) then Fail ErrTLSKeyPairIncomplete
         else match LoadX509KeyPair (tc_CertFile c) (tc_KeyFile c) with
              | Ret certificate => Ret [certificate]
              | Fail e => Fail (EWrap "load key pair: %w" [] e)
              | Panic => Panic
              | Hang => Hang
              end
       else Ret []);
    Ret (Some (mk_tls_Config version (tc_ServerName c) (tc_SkipVerify c) roots certificates)).

(** ** Options *)

Record clientOptions := mkClientOptions {
  co_token : bytes; co_tlsConfig : option tls_Config }.

(** [func( *clientOptions) error ]: the new value of the options, or the error. *)
Definition Option : Type := clientOptions -> outcome clientOptions.

Definition WithToken (token : bytes) : Option :=
  fun o => Ret (mkClientOptions token (co_tlsConfig o)).

Definition WithTLS (config : TLSConfig) : Option :=
  fun o => built ← build config; Ret (mkClientOptions (co_token o) built).

Definition WithTLSConfig (config : option tls_Config) : Option :=
  fun o => Ret (mkClientOptions (co_token o) config).

(** The loop of [applyOptions]; [None] is a nil option, which is skipped. *)
Fixpoint applyOptions_loop (settings : clientOptions) (opts : list (option Option))
    : outcome clientOptions :=
  match opts with
  | [] => Ret settings
  | None :: opts' => applyOptions_loop settings opts'
  | Some opt :: opts' => settings ← opt settings; applyOptions_loop settings opts'
  end.

Definition applyOptions (opts : list (option Option)) : outcome clientOptions :=
  applyOptions_loop (mkClientOptions [] None) opts.

(** ** Properties *)

Lemma tlsMinVersion_Ret v version :
  tlsMinVersion v = Ret version -> version = VersionTLS12 \/ version = VersionTLS13.
Proof. unfold tlsMinVersion. repeat case_decide; intros [= <-]; auto. Qed.

Lemma build_None c : build c = Ret None <-> Empty c = true.
Proof.
  unfold build. destruct (Empty c); [done|]. split; [|done]. intros Hb.
  apply bind_Ret in Hb as (v & _ & Hb). apply bind_Ret in Hb as (r & _ & Hb).
  apply bind_Ret in Hb as (cs & _ & Hb). done.
Qed.

(** C33. A configuration is only built with TLS 1.2 or later (1.3 when asked
    for), verifies the server unless [SkipVerify] was set, restricts the trust
    anchors exactly when [CAFile] is set, and carries a client certificate
    exactly when both files of the pair are set; the empty [TLSConfig] is the
    only one that builds to no TLS at all. *)
Theorem build_secure c r :
  build c = Ret r ->
  match r with
  | None => Empty c = true
  | Some cfg =>
      (tls_MinVersion cfg = if decide (tc_MinVersion c = str "1.3") then VersionTLS13
                            else VersionTLS12) /\
      tls_ServerName cfg = tc_ServerName c /\
      tls_InsecureSkipVerify cfg = tc_SkipVerify c /\
      (tls_RootCAs cfg = None <-> tc_CAFile c = []) /\
      (tls_Certificates cfg = [] <-> tc_CertFile c = []) /\
      (tc_CertFile c = [] <-> tc_KeyFile c = [])
  end.
Proof.
  unfold build. destruct (Empty c) eqn:HE; [by intros [= <-]|]. intros Hb.
  apply bind_Ret in Hb as (v & Hv & Hb). apply bind_Ret in Hb as (roots & Hr & Hb).
  apply bind_Ret in Hb as (certs & Hc & [= <-]). simpl. split_and!; [| done | done | | | ].
  - unfold tlsMinVersion in Hv. destruct (decide (tc_MinVersion c = str "1.3")) as [E|].
    + rewrite E in Hv. by injection Hv.
    + repeat case_decide; by simplify_eq.
  - destruct (decide (tc_CAFile c <> [])) as [|Hca]; [apply fmap_Ret in Hr as (? & _ & ->)|].
    + split; [done|]. by intros.
    + injection Hr as <-. destruct (decide (tc_CAFile c = [])); naive_solver.
  - clear Hr Hv. destruct (tc_CertFile c), (tc_KeyFile c); simpl in Hc; simplify_eq; try done.
    by case_match; simplify_eq.
  - clear Hr Hv. destruct (tc_CertFile c), (tc_KeyFile c); simpl in Hc; by simplify_eq.
Qed.

(** The options a caller can build. *)
Inductive option_spec :=
  | OToken (token : bytes)
  | OTLS (config : TLSConfig)
  | OTLSConfig (config : option tls_Config)
  | ONil.

Definition denote (o : option_spec) : option Option :=
  match o with
  | OToken t => Some (WithToken t)
  | OTLS c => Some (WithTLS c)
  | OTLSConfig c => Some (WithTLSConfig c)
  | ONil => None
  end.

(** The outcome of building the TLS part of an option, when it has one. *)
Definition tls_part (o : option_spec) : option (outcome (option tls_Config)) :=
  match o with
  | OTLS c => Some (build c)
  | OTLSConfig c => Some (Ret c)
  | OToken _ | ONil => None
  end.

Definition token_part (o : option_spec) : option bytes :=
  match o with OToken t => Some t | _ => None end.

(** Build every TLS part in order, stopping at the first failure, and keep the
    last one. *)
Fixpoint last_tls (cur : option tls_Config) (os : list option_spec) : outcome (option tls_Config) :=
  match os with
  | [] => Ret cur
  | o :: os' =>
      match tls_part o with
      | Some built => c ← built; last_tls c os'
      | None => last_tls cur os'
      end
  end.

Lemma applyOptions_loop_spec s os :
  applyOptions_loop s (denote <$> os)
  = (tls ← last_tls (co_tlsConfig s) os;
     Ret (mkClientOptions (default (co_token s) (last (omap token_part os))) tls)).
Proof.
  revert s. induction os as [|o os IH]; intros s; [by destruct s|].
  rewrite fmap_cons. destruct o as [t|c|c|]; cbn [denote applyOptions_loop].
  - unfold WithToken. cbn [mbind outcome_bind]. rewrite IH.
    cbn [co_token co_tlsConfig last_tls tls_part omap list_omap token_part].
    destruct (last_tls _ os); [|done|done|done]. cbn [mbind outcome_bind]. rewrite last_cons.
    by destruct (last (omap token_part os)).
  - unfold WithTLS. cbn [last_tls tls_part].
    destruct (build c); [|done|done|done]. cbn [mbind outcome_bind]. by rewrite IH.
  - unfold WithTLSConfig. cbn [mbind outcome_bind]. by rewrite IH.
  - by rewrite IH.
Qed.

(** C34. [applyOptions] takes the token of the last [WithToken] and the TLS
    configuration of the last TLS option, skips nil options, and fails with the
    error of the first option that cannot be built. *)
Theorem applyOptions_last_wins os :
  applyOptions (denote <$> os)
  = (tls ← last_tls None os;
     Ret (mkClientOptions (default [] (last (omap token_part os))) tls)).
Proof. apply applyOptions_loop_spec. Qed.

End env.

(** ** A concrete environment *)

(** Every path holds a certificate bundle with the path's own text. *)
Definition sample_env : TLSEnv := {|
  ReadFile := fun path => Ret path;
  HasCertificates := fun _ => true;
  LoadX509KeyPair := fun cert key => Ret (cert, key) |}.

Definition sample_tls : TLSConfig :=
  mkTLSConfig (str "ca.crt") (str "c.crt") (str "c.key") (str "fq.internal") false (str "1.3").

Lemma build_secure_witness :
  exists cfg, @build sample_env sample_tls = Ret (Some cfg) /\ tls_MinVersion cfg = VersionTLS13.
Proof.
  eexists. split; [vm_compute; reflexivity|].
  exact (proj1 (@build_secure sample_env sample_tls (Some _) ltac:(vm_compute; reflexivity))).
Defined.
