(* ===== verification/Pools.v ===== *)
(** * Pools: the buffer pools (bytes_pool.go, bytes_buffer_pool.go)

    Both wrap [sync.Pool].  A [sync.Pool] may hand out any pooled item or, at
    any time (the collector may have dropped the items), a new one: [Get] takes
    the choice as an argument, so every theorem holds for all choices. *)

From S2P Require Import Prelude GoStd.

(** ** sync.Pool *)

(** [pick = Some i] takes the i-th pooled item when there is one; otherwise
    [New] makes an item. *)
Definition sync_get {A} (pick : option nat) (items : list A) (new : A) : A * list A :=
  match pick with
  | None => (new, items)
  | Some i =>
      match items !! i with
      | Some a => (a, take i items ++ drop (S i) items)
      | None => (new, items)
      end
  end.

Lemma sync_get_Forall {A} (P : A -> Prop) pick items new :
  Forall P items -> P new ->
  P (sync_get pick items new).1 /\ Forall P (sync_get pick items new).2.
Proof.
  intros Hi Hn. unfold sync_get. destruct pick as [i|]; [|done].
  destruct (items !! i) as [a|] eqn:E; [|done]. simpl. split.
  - by eapply Forall_lookup_1.
  - apply Forall_app. split; [by apply Forall_take|by apply Forall_drop].
Qed.

(** ** bytesPool *)

Record bytesPool := mkBytesPool { bp_size : nat; bp_items : list bytes; bp_clearSlice : bytes }.

Definition zeros (n : nat) : bytes := replicate n x00.

(** [newBytesPool]: [make] panics on a negative length. *)
Definition newBytesPool (size : Z) : outcome bytesPool :=
  if size <? 0 then Panic
  else Ret (mkBytesPool (Z.to_nat size) [] (zeros (Z.to_nat size))).

Definition bytesPool_Get (pick : option nat) (p : bytesPool) : bytes * bytesPool :=
  let '(b, items) := sync_get pick (bp_items p) (zeros (bp_size p)) in
  (b, mkBytesPool (bp_size p) items (bp_clearSlice p)).

(** [copy(b, p.clearSlice)], then the buffer goes back. *)
Definition bytesPool_Put (b : bytes) (p : bytesPool) : bytesPool :=
  let b := overwrite (bp_clearSlice p) b in
  mkBytesPool (bp_size p) (b :: bp_items p) (bp_clearSlice p).

(** Every pooled buffer has the pool's size and holds only zeros. *)
Definition bytesPool_ok (p : bytesPool) : Prop :=
  bp_clearSlice p = zeros (bp_size p) /\ Forall (eq (zeros (bp_size p))) (bp_items p).

Lemma length_zeros n : length (zeros n) = n.
Proof. apply length_replicate. Qed.

Lemma newBytesPool_ok size p :
  newBytesPool size = Ret p -> bytesPool_ok p /\ Z.of_nat (bp_size p) = size.
Proof.
  unfold newBytesPool. destruct (Z.ltb_spec size 0); [done|]. intros [= <-].
  split; [split; [done|apply Forall_nil_2]|]. simpl. lia.
Qed.

Lemma bytesPool_Get_ok pick p :
  bytesPool_ok p ->
  (bytesPool_Get pick p).1 = zeros (bp_size p) /\ bytesPool_ok (bytesPool_Get pick p).2 /\
  bp_size (bytesPool_Get pick p).2 = bp_size p.
Proof.
  intros [Hc Hi]. unfold bytesPool_Get.
  destruct (sync_get_Forall _ pick (bp_items p) (zeros (bp_size p)) Hi eq_refl) as [Hb Hi'].
  destruct (sync_get _ _ _) as [b items]. simpl in *. by split_and!.
Qed.

Lemma bytesPool_Put_ok b p :
  bytesPool_ok p -> length b = bp_size p ->
  bytesPool_ok (bytesPool_Put b p) /\ bp_size (bytesPool_Put b p) = bp_size p.
Proof.
  intros [Hc Hi] Hb. split; [|done]. split; [done|]. simpl. constructor; [|done].
  rewrite Hc, overwrite_full; [done|]. by rewrite length_zeros.
Qed.



(** ** BytesBufferPool

    A [bytes.Buffer] is its unread content; [Reset] empties it. *)

Definition bytesBuffer_Get (pick : option nat) (items : list bytes) : bytes * list bytes :=
  sync_get pick items [].

Definition bytesBuffer_Reset (buf : bytes) : bytes := [].

Definition bytesBuffer_Put (buf : bytes) (items : list bytes) : list bytes :=
  bytesBuffer_Reset buf :: items.

(** Every pooled buffer is empty. *)
Definition bufferPool_ok (items : list bytes) : Prop := Forall (eq []) items.

Lemma bytesBuffer_Get_ok pick items :
  bufferPool_ok items ->
  (bytesBuffer_Get pick items).1 = [] /\ bufferPool_ok (bytesBuffer_Get pick items).2.
Proof.
  intros Hi. destruct (sync_get_Forall _ pick items [] Hi eq_refl) as [Hb Hi'].
  split; [by symmetry|done].
Qed.

Lemma bytesBuffer_Put_ok buf items : bufferPool_ok items -> bufferPool_ok (bytesBuffer_Put buf items).
Proof. by constructor. Qed.
