(* ===== verification/Net.v ===== *)
(** * Net: the network, the clock and the effect monad

    The environment of the client, as scripts that the theorems quantify over:

    - a connection receives a list of timed events ([rx]): data that becomes
      readable at an instant, or an error (end of file, reset) that sticks;
    - each [Write] call on it consumes one scripted result ([wr]); with no
      script left the kernel accepts everything;
    - each [dial] consumes one scripted outcome ([dialing]);
    - the clock only moves when a call waits, to the instant it stops waiting.

    [io.ReadFull] is [read_full]; it is characterised by what is [available]
    before the deadline and the [obstacle] behind it.

    [st S] is the state and outcome monad in which the client code is written,
    over the state of one component; [triple] and [wlp] are its total and
    partial correctness judgements. *)

From S2P Require Import Prelude GoStd Options Pools.

(** ** Connections *)

Inductive rx := RxData (t : Z) (d : bytes) | RxErr (t : Z) (e : error).
Inductive wr := WrOk (t : Z) (n : nat) | WrErr (t : Z) (n : nat) (e : error).

Record conn := mkConn {
  c_rx : list rx; c_wr : list wr;
  c_tx : bytes;                (* every byte the kernel accepted *)
  c_closed : bool;
  c_deadline : option Z;       (* SetDeadline; None: never set *)
  c_addr : bytes; c_tls : option tls_Config }.

Inductive dialing :=
  | DialErr (dt : Z) (e : error)
  | DialOk (dt : Z) (script : list rx) (writes : list wr).

(** [os.ErrDeadlineExceeded] inside a [net.OpError]. *)
Definition timeout_error : error := ENet true (EFmt "i/o timeout" []).
Definition closed_error : error := ENet false net_ErrClosed.

(** The deadline is at or before the instant [t]. *)
Definition past (deadline : option Z) (t : Z) : bool :=
  match deadline with Some d => d <=? t | None => false end.

(** [io.ReadFull] of [k] bytes: what was read, how it ended, the events left,
    the clock. *)
Fixpoint read_full (rxs : list rx) (deadline : option Z) (now : Z) (k : nat)
    : bytes * outcome unit * list rx * Z :=
  match k with
  | O => ([], Ret (), rxs, now)
  | _ =>
      if past deadline now then ([], Fail timeout_error, rxs, now)
      else
        match rxs with
        | [] =>
            match deadline with
            | Some d => ([], Fail timeout_error, [], d)
            | None => ([], Hang, [], now)
            end
        | RxData t d :: rest =>
            if past deadline t then ([], Fail timeout_error, rxs, default now deadline)
            else
              let now := Z.max now t in
              if (k <? length d)%nat then (take k d, Ret (), RxData t (drop k d) :: rest, now)
              else
                let '(got, o, rest', now') := read_full rest deadline now (k - length d) in
                (d ++ got, o, rest', now')
        | RxErr t e :: _ =>
            if past deadline t then ([], Fail timeout_error, rxs, default now deadline)
            else ([], Fail e, rxs, Z.max now t)
        end
  end.

(** [ReadFull] reports a partial read that hit the end as [ErrUnexpectedEOF]. *)
Definition full_error (got : bytes) (o : outcome unit) : outcome unit :=
  match o with
  | Fail e => if decide (got <> [] /\ e = io_EOF) then Fail io_ErrUnexpectedEOF else Fail e
  | _ => o
  end.

(** *** What can be read before the deadline *)

Fixpoint available (d : Z) (rxs : list rx) : bytes :=
  match rxs with
  | RxData t b :: rest => if d <=? t then [] else b ++ available d rest
  | _ => []
  end.

(** What a reader runs into behind the available bytes. *)
Fixpoint obstacle (d : Z) (rxs : list rx) : error :=
  match rxs with
  | [] => timeout_error
  | RxData t _ :: rest => if d <=? t then timeout_error else obstacle d rest
  | RxErr t e :: _ => if d <=? t then timeout_error else e
  end.

Lemma read_full_enough rxs d now k :
  now < d -> (k <= length (available d rxs))%nat ->
  exists rest now',
    read_full rxs (Some d) now k = (take k (available d rxs), Ret (), rest, now') /\
    (forall d', d <= d' -> available d' rest = drop k (available d' rxs) /\
                          obstacle d' rest = obstacle d' rxs) /\
    now <= now' < d.
Proof.
  revert now k. induction rxs as [|[t b|t e] rxs IH]; intros now [|k'] Hn Hk;
    try (eexists _, now; split_and!; [done|intros; by rewrite drop_0|lia|done]);
    [simpl in Hk; lia| |simpl in Hk; lia].
  set (k := S k') in *. assert (Hav : t < d /\ available d (RxData t b :: rxs) = b ++ available d rxs).
  { simpl in Hk |- *. by destruct (Z.leb_spec d t); [simpl in Hk; lia|]. }
  destruct Hav as [Ht Hav]. rewrite Hav in Hk |- *. rewrite length_app in Hk.
  assert (Hle : forall d', d <= d' -> (d' <=? t) = false) by (intros; apply Z.leb_gt; lia).
  cbn [read_full past]. rewrite (proj2 (Z.leb_gt d now)), (proj2 (Z.leb_gt d t)) by lia.
  fold k. destruct (Nat.ltb_spec k (length b)).
  - eexists _, _. split; [rewrite take_app_le by lia; done|]. split; [|lia].
    intros d' Hd. cbn [available obstacle]. rewrite Hle by done. by rewrite drop_app_le by lia.
  - destruct (IH (Z.max now t) (k - length b)%nat) as (rest & now' & E & Ha & Hn'); [lia|lia|].
    rewrite E. eexists rest, now'. rewrite take_app_ge by lia. split_and!; [done| |lia|lia].
    intros d' Hd. cbn [available obstacle]. rewrite Hle by done.
    rewrite drop_app_ge by lia. by apply Ha.
Qed.

(** Nothing happens on the connection before [d]. *)
Definition silent (d : Z) (rxs : list rx) : Prop :=
  Forall (fun r => match r with RxData t _ | RxErr t _ => d <= t end) rxs.

(** A read that is not satisfied takes what there is. *)
Lemma read_full_short rxs d now k :
  now < d -> (length (available d rxs) < k)%nat ->
  exists rest now',
    read_full rxs (Some d) now k = (available d rxs, Fail (obstacle d rxs), rest, now') /\
    (forall d', d <= d' -> available d' rest = drop (length (available d rxs)) (available d' rxs) /\
                          obstacle d' rest = obstacle d' rxs) /\
    now <= now' <= d /\ (silent d rxs -> rest = rxs /\ now' = d).
Proof.
  revert now k. induction rxs as [|[t b|t e] rxs IH]; intros now k Hn Hk; simpl in Hk |- *;
    (destruct k as [|k']; [lia|]; set (k := S k') in *);
    rewrite (proj2 (Z.leb_gt d now)) by lia.
  - eexists _, _. split_and!; [done|by intros|lia|lia|done].
  - destruct (Z.leb_spec d t) as [Ht|Ht].
    { eexists _, _. split_and!; [done|intros; by rewrite drop_0|lia|lia|done]. }
    rewrite length_app in Hk. rewrite (proj2 (Nat.ltb_ge _ _)) by lia.
    destruct (IH (Z.max now t) (k - length b)%nat) as (rest & now' & E & Ha & Hn' & _); [lia|lia|].
    rewrite E. eexists _, _. split_and!; [done| |lia|lia|].
    + intros d' Hd. cbn [available obstacle]. rewrite (proj2 (Z.leb_gt d' t)) by lia.
      rewrite length_app, <- drop_drop, drop_app_length. by apply Ha.
    + intros Hs. apply Forall_cons in Hs as [Hs _]. lia.
  - destruct (Z.leb_spec d t) as [Ht|Ht]; eexists _, _;
      (split_and!; [done|by intros; rewrite ?drop_0|lia|lia|]); [done|].
    intros Hs. apply Forall_cons in Hs as [Hs _]. lia.
Qed.

(** Size of a script: bytes and events; every successful read of a non-empty
    slice makes it smaller. *)
Definition rx_size (rxs : list rx) : nat :=
  sum_list ((fun r => match r with RxData _ b => S (length b) | RxErr _ _ => 1%nat end) <$> rxs).

#[global] Arguments rx_size : simpl never.

Lemma rx_size_cons r rxs :
  rx_size (r :: rxs) = ((match r with RxData _ b => S (length b) | RxErr _ _ => 1 end) + rx_size rxs)%nat.
Proof. done. Qed.

Lemma read_full_size rxs dl now k :
  let '(got, _, rest, _) := read_full rxs dl now k in
  (length got + rx_size rest <= rx_size rxs)%nat.
Proof.
  revert now k. induction rxs as [|[t b|t e] rxs IH]; intros now [|k']; cbn [read_full];
    try (simpl; lia); (destruct (past dl now); [simpl; lia|]).
  - destruct dl; simpl; lia.
  - destruct (past dl t); [simpl; lia|].
    destruct (Nat.ltb_spec (S k') (length b)).
    + rewrite !rx_size_cons, length_drop, length_take. lia.
    + specialize (IH (Z.max now t) (S k' - length b)%nat).
      destruct (read_full _ _ _ _) as [[[got o] rest] now']. rewrite length_app, !rx_size_cons. lia.
  - destruct (past dl t); simpl; lia.
Qed.

Lemma past_false d t : past (Some d) t = false <-> t < d.
Proof. simpl. by rewrite Z.leb_gt. Qed.

Lemma read_full_mono rxs dl now k : now <= (read_full rxs dl now k).2.
Proof.
  revert now k. induction rxs as [|[t b|t e] rxs IH]; intros now [|k']; simpl; try lia;
    (destruct (past dl now) eqn:Hp; simpl; [lia|]).
  - destruct dl; [apply past_false in Hp|]; simpl; lia.
  - destruct (past dl t); simpl.
    { destruct dl; [apply past_false in Hp|]; simpl; lia. }
    destruct (Nat.ltb_spec (S k') (length b)); simpl; [lia|].
    specialize (IH (Z.max now t) (S k' - length b)%nat).
    destruct (read_full _ _ _ _) as [[[got o] rest] now']; simpl in *; lia.
  - destruct (past dl t); simpl; [|lia].
    destruct dl; [apply past_false in Hp|]; simpl; lia.
Qed.

(** A full read returns exactly as many bytes as were asked for, and with a
    deadline it always ends. *)
Lemma read_full_length rxs dl now k :
  let '(got, o, _, _) := read_full rxs dl now k in
  (o = Ret () -> length got = k) /\ (length got <= k)%nat.
Proof.
  revert now k. induction rxs as [|[t b|t e] rxs IH]; intros now [|k']; cbn [read_full];
    try (split; [done|simpl; lia]); (destruct (past dl now); [split; [done|simpl; lia]|]).
  - destruct dl; (split; [done|simpl; lia]).
  - destruct (past dl t); [split; [done|simpl; lia]|].
    destruct (Nat.ltb_spec (S k') (length b)).
    + rewrite length_take. split; lia.
    + specialize (IH (Z.max now t) (S k' - length b)%nat).
      destruct (read_full _ _ _ _) as [[[got o] rest] now']. rewrite length_app.
      destruct IH as [IH1 IH2]. split; [intros Ho; specialize (IH1 Ho); lia|lia].
  - destruct (past dl t); (split; [done|simpl; lia]).
Qed.

Lemma read_full_returns rxs d now k : returns (read_full rxs (Some d) now k).1.1.2.
Proof.
  revert now k. induction rxs as [|[t b|t e] rxs IH]; intros now [|k']; simpl; try done;
    (destruct (d <=? now); simpl; [done|]); [done| |by destruct (d <=? t)].
  destruct (d <=? t); simpl; [done|].
  destruct (Nat.ltb_spec (S k') (length b)); simpl; [done|].
  specialize (IH (Z.max now t) (S k' - length b)%nat).
  by destruct (read_full _ _ _ _) as [[[got o] rest] now'].
Qed.

(** ** State and outcome *)

(** A Go function over a mutable state [S]. *)
Definition st (S A : Type) : Type := S -> outcome A * S.

#[export] Instance st_ret S : MRet (st S) := fun A a s => (Ret a, s).

#[export] Instance st_bind S : MBind (st S) := fun A B f m s =>
  match m s with
  | (Ret a, s') => f a s'
  | (Fail e, s') => (Fail e, s')
  | (Panic, s') => (Panic, s')
  | (Hang, s') => (Hang, s')
  end.

Section st.
Context {S A : Type}.

Definition get : st S S := fun s => (Ret s, s).
Definition gets (f : S -> A) : st S A := fun s => (Ret (f s), s).
Definition modify (f : S -> S) : st S () := fun s => (Ret (), f s).
Definition lift (o : outcome A) : st S A := fun s => (o, s).
Definition fail (e : error) : st S A := fun s => (Fail e, s).
Definition panic : st S A := fun s => (Panic, s).

(** [v, err := m]: the error becomes a value. *)
Definition catch (m : st S A) : st S (A + error) := fun s =>
  match m s with
  | (Ret a, s') => (Ret (inl a), s')
  | (Fail e, s') => (Ret (inr e), s')
  | (Panic, s') => (Panic, s')
  | (Hang, s') => (Hang, s')
  end.

(** [if err != nil { return f(err) }] *)
Definition map_error (f : error -> error) (m : st S A) : st S A := fun s =>
  match m s with (Fail e, s') => (Fail (f e), s') | r => r end.

(** [defer cleanup()]: runs when [m] returns or panics; a cleanup that blocks
    keeps the caller from returning. *)
Definition finally (m : st S A) (cleanup : st S ()) : st S A := fun s =>
  match m s with
  | (Hang, s') => (Hang, s')
  | (o, s') =>
      match cleanup s' with
      | (Hang, s'') => (Hang, s'')
      | (Panic, s'') => (Panic, s'')
      | (_, s'') => (o, s'')
      end
  end.

End st.

(** The final state of a run whose outcome is known. *)
Lemma run_fst {S A} (m : st S A) s o : (m s).1 = o -> m s = (o, (m s).2).
Proof. intros <-. by destruct (m s). Qed.

(** ** The network *)

(** [n_dropped] collects the connections that no client refers to any more,
    in the state in which they were left. *)
Record net := mkNet {
  n_now : Z; n_dials : list dialing; n_picks : list (option nat); n_dropped : list conn }.

Definition set_now (t : Z) (n : net) : net := mkNet t (n_dials n) (n_picks n) (n_dropped n).

(** The next choice of a [sync.Pool]. *)
Definition next_pick (n : net) : option nat * net :=
  match n_picks n with
  | [] => (None, n)
  | p :: ps => (p, mkNet (n_now n) (n_dials n) ps (n_dropped n))
  end.

(** ** Contexts

    [ctx_done]: the instant from which [ctx.Err()] is non-nil, and its value. *)
Record context := mkCtx { ctx_deadline : option Z; ctx_done : option (Z * error) }.

Definition context_Background : context := mkCtx None None.

(** [context.WithTimeout(context.Background(), d)] created at [now]. *)
Definition context_WithTimeout (now d : Z) : context :=
  mkCtx (Some (now + d)) (Some (now + d, ESentinel context_DeadlineExceeded)).

Definition ctx_Err (ctx : context) (now : Z) : option error :=
  match ctx_done ctx with
  | Some (t, e) => if t <=? now then Some e else None
  | None => None
  end.

(** ** Triples

    [triple P m Q E]: started in a state where [P] holds, [m] returns a value
    with [Q] or an error with [E]; it neither panics nor blocks. *)

Definition triple {S A} (P : S -> Prop) (m : st S A) (Q : A -> S -> Prop)
    (E : error -> S -> Prop) : Prop :=
  forall s, P s ->
    match m s with
    | (Ret a, s') => Q a s'
    | (Fail e, s') => E e s'
    | (Panic, _) | (Hang, _) => False
    end.

Section triple.
Context {S A B : Type}.
Implicit Types (P : S -> Prop) (E : error -> S -> Prop).

Lemma triple_ret P (a : A) Q E : (forall s, P s -> Q a s) -> triple P (mret a) Q E.
Proof. intros H s Hs. by apply H. Qed.

Lemma triple_fail P e (Q : A -> S -> Prop) E : (forall s, P s -> E e s) -> triple P (fail e) Q E.
Proof. intros H s Hs. by apply H. Qed.

Lemma triple_bind P (m : st S A) (f : A -> st S B) Q R E :
  triple P m Q E -> (forall a, triple (Q a) (f a) R E) -> triple P (m ≫= f) R E.
Proof.
  intros Hm Hf s Hs. specialize (Hm s Hs). unfold mbind, st_bind.
  destruct (m s) as [[a|e| |] s']; [|done..]. by apply Hf.
Qed.

Lemma triple_conseq P P' (m : st S A) Q Q' E E' :
  triple P m Q E -> (forall s, P' s -> P s) -> (forall a s, Q a s -> Q' a s) ->
  (forall e s, E e s -> E' e s) -> triple P' m Q' E'.
Proof.
  intros Hm HP HQ HE s Hs. specialize (Hm s (HP s Hs)).
  destruct (m s) as [[a|e| |] s']; auto.
Qed.

Lemma triple_weaken_pre P P' (m : st S A) Q E :
  (forall s, P' s -> P s) -> triple P m Q E -> triple P' m Q E.
Proof. intros HP Hm s Hs. by apply Hm, HP. Qed.

Lemma triple_weaken_fail P (m : st S A) Q E : triple P m Q (fun _ _ => False) -> triple P m Q E.
Proof. intros Hm s Hs. specialize (Hm s Hs). by destruct (m s) as [[]?]. Qed.

Lemma triple_catch P (m : st S A) Q E :
  triple P m Q E ->
  triple P (catch m) (fun r s => match r with inl a => Q a s | inr e => E e s end) (fun _ _ => False).
Proof. intros Hm s Hs. specialize (Hm s Hs). unfold catch. by destruct (m s) as [[]?]. Qed.

Lemma triple_map_error P f (m : st S A) Q (E : error -> S -> Prop) :
  triple P m Q (fun e s => E (f e) s) -> triple P (map_error f m) Q E.
Proof. intros Hm s Hs. specialize (Hm s Hs). unfold map_error. by destruct (m s) as [[]?]. Qed.

(** A precondition that gives a value: the existential is named once. *)
Lemma triple_exists {C} (P : C -> S -> Prop) (m : st S A) Q E :
  (forall x, triple (P x) m Q E) -> triple (fun s => exists x, P x s) m Q E.
Proof. intros H s [x Hs]. by apply (H x). Qed.

Lemma triple_pre (X : Prop) P (m : st S A) Q E :
  (X -> triple P m Q E) -> triple (fun s => X /\ P s) m Q E.
Proof. intros H s [HX Hs]. by apply H. Qed.

End triple.

(** ** Partial correctness

    [wlp P m Q]: whenever [m], started where [P] holds, returns a value, [Q]
    holds of it and of the final state. *)

Definition wlp {S A} (P : S -> Prop) (m : st S A) (Q : A -> S -> Prop) : Prop :=
  forall s a s', P s -> m s = (Ret a, s') -> Q a s'.

Section wlp.
Context {S A B : Type}.

Lemma wlp_ret P (a : A) (Q : A -> S -> Prop) : (forall s, P s -> Q a s) -> wlp P (mret a) Q.
Proof. intros H s b s' Hs [= <- <-]. by apply H. Qed.

Lemma wlp_fail P e (Q : A -> S -> Prop) : wlp P (fail e) Q.
Proof. by intros s a s' _ [=]. Qed.

Lemma wlp_bind P (m : st S A) (f : A -> st S B) Q R :
  wlp P m Q -> (forall a, wlp (Q a) (f a) R) -> wlp P (m ≫= f) R.
Proof.
  intros Hm Hf s b s' Hs. unfold mbind, st_bind.
  destruct (m s) as [[a|e| |] s1] eqn:E; try done. apply Hf. by eapply Hm.
Qed.

Lemma wlp_conseq P P' (m : st S A) Q Q' :
  wlp P m Q -> (forall s, P' s -> P s) -> (forall a s, Q a s -> Q' a s) -> wlp P' m Q'.
Proof. intros Hm HP HQ s a s' Hs E. eauto. Qed.

Lemma wlp_map_error P f (m : st S A) Q : wlp P m Q -> wlp P (map_error f m) Q.
Proof.
  intros Hm s a s' Hs. unfold map_error. destruct (m s) as [[b|e| |] s1] eqn:E; try done.
  intros [= <- <-]. by eapply Hm.
Qed.

End wlp.
