(* ===== verification/Tcp.v ===== *)
(** * Tcp: framing and the TCP client (tcp_client.go)

    [T] is the monad of the methods of [TCPClient]: the state is the client
    struct (with its connection, which no other object refers to) and the
    network.  The loops carry fuel computed from the receive script; [TcpFacts]
    proves that it is never spent. *)

From S2P Require Import Prelude GoStd Strconv Types Commands Response Options Pools Net.

Definition frameHeaderSize : nat := 4.
Definition maxFramePayloadSize : Z := 2 ^ 32 - 1.
Definition connectTimeout : Z := 5 * 10 ^ 9.  (* nanoseconds *)

(** A nil [net.Conn] is [None]. *)
Record TCPClient := mkTCPClient {
  tcp_connection : option conn; tcp_address : bytes; tcp_maxMessageSize : Z;
  tcp_idleTimeout : Z; tcp_bufferPool : bytesPool; tcp_token : bytes;
  tcp_tlsConfig : option tls_Config }.

Abbreviation T := (st (TCPClient * net)).

(** ** Field updates *)

Definition set_connection (c : option conn) (t : TCPClient) : TCPClient :=
  mkTCPClient c (tcp_address t) (tcp_maxMessageSize t) (tcp_idleTimeout t)
    (tcp_bufferPool t) (tcp_token t) (tcp_tlsConfig t).

Definition set_bufferPool (p : bytesPool) (t : TCPClient) : TCPClient :=
  mkTCPClient (tcp_connection t) (tcp_address t) (tcp_maxMessageSize t) (tcp_idleTimeout t)
    p (tcp_token t) (tcp_tlsConfig t).

Definition set_max (m : Z) (t : TCPClient) : TCPClient :=
  mkTCPClient (tcp_connection t) (tcp_address t) m (tcp_idleTimeout t)
    (tcp_bufferPool t) (tcp_token t) (tcp_tlsConfig t).

(** Run a function of the connection and the clock; a nil connection panics. *)
Definition on_conn {A} (f : conn -> Z -> outcome A * conn * Z) : T A := fun '(t, n) =>
  match tcp_connection t with
  | None => (Panic, (t, n))
  | Some c =>
      let '(o, c', now') := f c (n_now n) in
      (o, (set_connection (Some c') t, set_now now' n))
  end.

(** ** net.Conn *)

Definition set_c_deadline (d : Z) (c : conn) : conn :=
  mkConn (c_rx c) (c_wr c) (c_tx c) (c_closed c) (Some d) (c_addr c) (c_tls c).

Definition set_c_rx (r : list rx) (c : conn) : conn :=
  mkConn r (c_wr c) (c_tx c) (c_closed c) (c_deadline c) (c_addr c) (c_tls c).

Definition set_c_written (w : list wr) (tx : bytes) (c : conn) : conn :=
  mkConn (c_rx c) w tx (c_closed c) (c_deadline c) (c_addr c) (c_tls c).

Definition close_conn (c : conn) : conn :=
  mkConn (c_rx c) (c_wr c) (c_tx c) true (c_deadline c) (c_addr c) (c_tls c).

Definition SetDeadline (d : Z) : T () := on_conn (fun c now =>
  if c_closed c then (Fail closed_error, c, now) else (Ret (), set_c_deadline d c, now)).

(** [conn.Write(data)]: the count and the error. *)
Definition write_conn (data : bytes) (c : conn) (now : Z) : nat * option error * conn * Z :=
  if c_closed c then (O, Some closed_error, c, now)
  else if past (c_deadline c) now then (O, Some timeout_error, c, now)
  else
    match c_wr c with
    | [] => (length data, None, set_c_written [] (c_tx c ++ data) c, now)
    | WrOk t n :: ws =>
        if past (c_deadline c) t then
          (O, Some timeout_error, c, default now (c_deadline c))
        else
          let n := Nat.min n (length data) in
          (n, None, set_c_written ws (c_tx c ++ take n data) c, Z.max now t)
    | WrErr t n e :: ws =>
        if past (c_deadline c) t then
          (O, Some timeout_error, c, default now (c_deadline c))
        else
          let n := Nat.min n (length data) in
          (n, Some e, set_c_written ws (c_tx c ++ take n data) c, Z.max now t)
    end.

Definition Write (data : bytes) : T (nat * option error) := on_conn (fun c now =>
  let '(n, e, c', now') := write_conn data c now in (Ret (n, e), c', now')).

(** [io.ReadFull(conn, p)] with [len(p) = k]: the bytes read and the error. *)
Definition ReadFull (k : nat) : T (bytes * option error) := on_conn (fun c now =>
  if c_closed c then (if decide (k = O) then (Ret ([], None), c, now)
                      else (Ret ([], Some closed_error), c, now))
  else
    let '(got, o, rest, now') := read_full (c_rx c) (c_deadline c) now k in
    (match full_error got o with
     | Ret _ => Ret (got, None)
     | Fail e => Ret (got, Some e)
     | Panic => Panic
     | Hang => Hang
     end, set_c_rx rest c, now')).

(** [conn.Close()]; closing twice reports [net.ErrClosed]. *)
Definition Close_conn : T () := on_conn (fun c now =>
  (if c_closed c then Fail closed_error else Ret (), close_conn c, now)).

(** ** Frames *)

(** [writeAll]; the fuel is the number of bytes left, since an iteration that
    does not return sends at least one. *)
Fixpoint writeAll (fuel : nat) (data : bytes) : T () :=
  match data with
  | [] => mret ()
  | _ =>
      match fuel with
      | O => lift Hang
      | S fuel =>
          '(n, err) ← Write data;
          match err with
          | Some e => fail e
          | None =>
              if decide (n = O) then fail io_ErrShortWrite
              else writeAll fuel (drop n data)
          end
      end
  end.

Definition writeFrame (payload : bytes) : T () :=
  let len := Z.of_nat (length payload) in
  if maxFramePayloadSize <? to_uint64 len then
    fail (EWrap "%w: %d > %d" [FInt len; FInt maxFramePayloadSize] errFrameTooLarge)
  else
    let header := PutUint32 (to_uint32 len) in
    writeAll (length header) header;;
    writeAll (length payload) payload.

Definition readFrameSize (maxMessageSize : Z) : T Z :=
  '(header, err) ← ReadFull frameHeaderSize;
  match err with
  | Some e => fail e
  | None =>
      match header with
      | [b0; b1; b2; b3] =>
          let messageSize := Uint32 b0 b1 b2 b3 in
          if to_uint32 maxMessageSize <? messageSize then
            fail (EWrap "%w: %d > %d" [FInt messageSize; FInt maxMessageSize] errFrameTooLarge)
          else mret messageSize
      | _ => panic
      end
  end.

(** [readFrameInto]: the new content of the buffer, and the message or the
    error.  [buffer[:messageSize]] panics beyond the capacity. *)
Definition readFrameInto (maxMessageSize : Z) (buffer : bytes) : T (bytes * (bytes + error)) :=
  size ← catch (readFrameSize maxMessageSize);
  match size with
  | inr e => mret (buffer, inr e)
  | inl messageSize =>
      if Z.of_nat (length buffer) <? messageSize then panic
      else
        '(got, err) ← ReadFull (Z.to_nat messageSize);
        let buffer := overwrite got buffer in
        match err with
        | Some e => mret (buffer, inr e)
        | None => mret (buffer, inl (take (Z.to_nat messageSize) buffer))
        end
  end.

(** ** Errors *)

Definition isConnectionError (err : error) : bool :=
  errors_Is err io_EOF || errors_Is err io_ErrUnexpectedEOF ||
  errors_Is err io_ErrShortWrite || errors_Is err net_ErrClosed ||
  errors_As_NetError err.

Definition normalizeConnectionError (err : error) : error :=
  if isConnectionError err then EWrap2 ErrConnClosed err else err.

(** ** Methods *)

Definition deadline (ctx : context) (idleTimeout now : Z) : Z :=
  let stdDeadline := now + idleTimeout in
  match ctx_deadline ctx with
  | Some d => if stdDeadline <? d then stdDeadline else d
  | None => stdDeadline
  end.

Definition self : T TCPClient := gets fst.

(** [c.connection.SetDeadline(c.deadline(ctx))] *)
Definition setDeadline (ctx : context) : T () :=
  '(t, n) ← get; SetDeadline (deadline ctx (tcp_idleTimeout t) (n_now n)).

Definition bufferPool_Get : T bytes := fun '(t, n) =>
  let '(pick, n) := next_pick n in
  let '(b, p) := bytesPool_Get pick (tcp_bufferPool t) in
  (Ret b, (set_bufferPool p t, n)).

Definition bufferPool_Put (b : bytes) : T () :=
  modify (fun '(t, n) => (set_bufferPool (bytesPool_Put b (tcp_bufferPool t)) t, n)).

Definition request_too_large (max : Z) : error :=
  EFmt "request exceeds max message size (%d)" [FInt max].

(** The three steps that [Send], [Stream] and [SendChunked] start with. *)
Definition start_request (ctx : context) (request : bytes) : T () :=
  t ← self;
  if tcp_maxMessageSize t <? Z.of_nat (length request) then
    fail (request_too_large (tcp_maxMessageSize t))
  else
    map_error normalizeConnectionError (setDeadline ctx);;
    map_error normalizeConnectionError (writeFrame request).

Definition Send (ctx : context) (request : bytes) : T bytes :=
  start_request ctx request;;
  response ← bufferPool_Get;
  t ← self;
  '(response, message) ← readFrameInto (tcp_maxMessageSize t) response;
  bufferPool_Put response;;
  match message with
  | inl message => mret message
  | inr e => fail (normalizeConnectionError e)
  end.

(** The callback of [Stream]: its state [H] threads through the calls; it
    returns the error of one call. *)
Definition handler (H E : Type) : Type := H -> E -> H * option error.

(** The [for] loop of [Stream]: it only ends with an error. *)
Fixpoint Stream_loop {H} (fuel : nat) (ctx : context) (handle : handler H bytes)
    (h : H) (response : bytes) : T (H * bytes * error) :=
  match fuel with
  | O => lift Hang
  | S fuel =>
      r ← catch (setDeadline ctx);
      match r with
      | inr e => mret (h, response, normalizeConnectionError e)
      | inl _ =>
          t ← self;
          '(response, message) ← readFrameInto (tcp_maxMessageSize t) response;
          match message with
          | inr e => mret (h, response, normalizeConnectionError e)
          | inl result =>
              match handle h result with
              | (h, Some e) => mret (h, response, e)
              | (h, None) => Stream_loop fuel ctx handle h response
              end
          end
      end
  end.

(** One iteration consumes at least the header of a frame. *)
Definition loop_fuel : T nat := gets (fun '(t, _) =>
  match tcp_connection t with Some c => S (rx_size (c_rx c)) | None => 1%nat end).

(** [TCPClient.Stream]: the callback's final state and the error it ends with. *)
Definition Stream {H} (ctx : context) (request : bytes) (handle : handler H bytes) (h : H)
    : T (H * error) :=
  r ← catch (start_request ctx request);
  match r with
  | inr e => mret (h, e)
  | inl _ =>
      response ← bufferPool_Get;
      fuel ← loop_fuel;
      '(h, response, e) ← Stream_loop fuel ctx handle h response;
      bufferPool_Put response;;
      mret (h, e)
  end.

Definition joinStatusAndData (status data : bytes) : bytes :=
  status ++ [respDelimiter] ++ data.

(** The [for] loop of [SendChunked]. *)
Fixpoint SendChunked_loop (fuel : nat) (ctx : context) (body response : bytes)
    : T (bytes * (bytes + error)) :=
  match fuel with
  | O => lift Hang
  | S fuel =>
      r ← catch (setDeadline ctx);
      match r with
      | inr e => mret (response, inr (normalizeConnectionError e))
      | inl _ =>
          t ← self;
          '(response, frame) ← readFrameInto (tcp_maxMessageSize t) response;
          match frame with
          | inr e => mret (response, inr (normalizeConnectionError e))
          | inl frame =>
              match IndexByte frame respDelimiter with
              | None => mret (response, inr (ESentinel ErrCorruptedResponse))
              | Some idx =>
                  let status := take idx frame in
                  let data := drop (S idx) frame in
                  if decide (status = frameStatusNext) then
                    SendChunked_loop fuel ctx (body ++ data) response
                  else if decide (status = frameStatusOK) then
                    mret (response, inl (joinStatusAndData frameStatusOK (body ++ data)))
                  else if decide (status = frameStatusError) then
                    mret (response, inl (joinStatusAndData frameStatusError data))
                  else mret (response, inr (EFmt "unexpected frame status %q" [FStr status]))
              end
          end
      end
  end.

Definition SendChunked (ctx : context) (request : bytes) : T bytes :=
  start_request ctx request;;
  response ← bufferPool_Get;
  fuel ← loop_fuel;
  '(response, result) ← SendChunked_loop fuel ctx [] response;
  bufferPool_Put response;;
  match result with
  | inl result => mret result
  | inr e => fail e
  end.

Definition SetMaxMessageSizeUnsafe (size : Z) : T () :=
  modify (fun '(t, n) => (set_max size t, n));;
  p ← lift (newBytesPool size);
  modify (fun '(t, n) => (set_bufferPool p t, n)).

(** ** Connecting *)

(** [dial]: the next scripted outcome, after the time it took. *)
Definition dial (address : bytes) (tlsConfig : option tls_Config) : st net conn := fun n =>
  let wrap e :=
    match tlsConfig with
    | None => EWrap "failed to dial: %w" [] e
    | Some _ => EWrap "failed to dial tls: %w" [] e
    end in
  match n_dials n with
  | [] => (Fail (wrap (ENet false (EFmt "connection refused" []))), n)
  | DialErr dt e :: ds =>
      (Fail (wrap e), mkNet (n_now n + Z.max 0 dt) ds (n_picks n) (n_dropped n))
  | DialOk dt script writes :: ds =>
      (Ret (mkConn script writes [] false None address tlsConfig),
       mkNet (n_now n + Z.max 0 dt) ds (n_picks n) (n_dropped n))
  end.

(** Run a network operation from a client method. *)
Definition on_net {A} (m : st net A) : T A := fun '(t, n) =>
  let '(o, n') := m n in (o, (t, n')).

(** [c.connection = connection]; the previous one is dropped. *)
Definition assign_connection (c : conn) : T () := modify (fun '(t, n) =>
  (set_connection (Some c) t,
   mkNet (n_now n) (n_dials n) (n_picks n)
     (match tcp_connection t with Some old => old :: n_dropped n | None => n_dropped n end))).

Definition hello (ctx : context) : T () :=
  t ← self;
  resp ← map_error (fun e => EWrap "send hello: %w" [] e) (Send ctx (hello_request (tcp_token t)));
  info ← map_error (fun e => EWrap "parse hello response: %w" [] e) (lift (parseHelloResponse resp));
  match status info with
  | ResponseStatusError =>
      match err info with
      | None => mret ()  (* [return info.err] with a nil error *)
      | Some e =>
          if isProtocolCode e CodeAuthenticationFailed then fail (EWrap2 ErrAuthFailed e)
          else fail e
      end
  | _ =>
      if negb (hi_version (payload info) =? ProtocolVersion) then
        fail (EWrap "%w: negotiated version %d" [FInt (hi_version (payload info))]
                ErrCorruptedResponse)
      else SetMaxMessageSizeUnsafe (hi_maxMessageSize (payload info))
  end.

Definition connect : T () :=
  t ← self;
  connection ← on_net (dial (tcp_address t) (tcp_tlsConfig t));
  assign_connection connection;;
  '(_, n) ← get;
  let ctx := context_WithTimeout (n_now n) connectTimeout in
  r ← catch (hello ctx);
  match r with
  | inl _ => mret ()
  | inr e => catch Close_conn;; fail e
  end.

Definition Close : T () := Close_conn.

Definition Reconnect : T () := catch Close_conn;; connect.

Definition NewTCPClient (address : bytes) (maxMessageSize idleTimeout : Z)
    (opts : list (option Option)) : st net TCPClient := fun n =>
  match applyOptions opts with
  | Ret settings =>
      match newBytesPool maxMessageSize with
      | Ret p =>
          let c := mkTCPClient None address maxMessageSize idleTimeout p
                     (co_token settings) (co_tlsConfig settings) in
          match connect (c, n) with
          | (Ret _, (c', n')) => (Ret c', n')
          | (Fail e, (c', n')) =>
              (Fail e, mkNet (n_now n') (n_dials n') (n_picks n')
                 (match tcp_connection c' with Some old => old :: n_dropped n' | None => n_dropped n' end))
          | (Panic, (_, n')) => (Panic, n')
          | (Hang, (_, n')) => (Hang, n')
          end
      | Fail e => (Fail e, n)
      | Panic => (Panic, n)
      | Hang => (Hang, n)
      end
  | Fail e => (Fail e, n)
  | Panic => (Panic, n)
  | Hang => (Hang, n)
  end.
