(* ===== verification/TcpFacts.v ===== *)
(** * TcpFacts: correctness of framing and of the request exchange

    [view t n c now] is a client whose connection is [c] at instant [now]; the
    operations on the connection are functions of [c] and [now] only.

    - what [writeFrame] puts on the wire and what [readFrameInto] takes off it,
      for every way the network cuts the bytes;
    - [Send]: on a working connection it sends exactly one frame and returns
      exactly the next frame received. *)

From S2P Require Import Prelude.
From S2P Require Import GoStd.
From S2P Require Import Strconv.
From S2P Require Import Types.
From S2P Require Import Commands.
From S2P Require Import Response.
From S2P Require Import ResponseFacts.
From S2P Require Import Options.
From S2P Require Import Pools.
From S2P Require Import Net.
From S2P Require Import Tcp.

(** The bytes of a frame on the wire. *)
Definition frame (p : bytes) : bytes := PutUint32 (Z.of_nat (length p)) ++ p.

Lemma length_frame p : length (frame p) = (4 + length p)%nat.
Proof. unfold frame. by rewrite length_app, length_PutUint32. Qed.

Definition view (t : TCPClient) (n : net) (c : conn) (now : Z) : TCPClient * net :=
  (set_connection (Some c) t, set_now now n).

Lemma view_intro t n c : tcp_connection t = Some c -> (t, n) = view t n c (n_now n).
Proof. destruct t, n; simpl. by intros ->. Qed.

Lemma on_conn_view {A} (f : conn -> Z -> outcome A * conn * Z) t n c now :
  on_conn f (view t n c now) = let '(o, c', now') := f c now in (o, view t n c' now').
Proof. unfold on_conn, view. simpl. by destruct (f c now) as [[??]?]. Qed.

(** ** Invariants of a client *)

(** The pool holds clean buffers of exactly the maximum message size. *)
Definition tcp_ok (t : TCPClient) : Prop :=
  bytesPool_ok (tcp_bufferPool t) /\
  Z.of_nat (bp_size (tcp_bufferPool t)) = tcp_maxMessageSize t.

(** Configuration that no exchange changes. *)
Definition same_config (t t' : TCPClient) : Prop :=
  tcp_address t' = tcp_address t /\ tcp_idleTimeout t' = tcp_idleTimeout t /\
  tcp_token t' = tcp_token t /\ tcp_tlsConfig t' = tcp_tlsConfig t.

(** Network state that no exchange changes: dialling and dropping connections
    is left to [connect]. *)
Definition same_net (n n' : net) : Prop :=
  n_dials n' = n_dials n /\ n_dropped n' = n_dropped n.

Lemma same_config_refl t : same_config t t.
Proof. by split_and!. Qed.

(** A connection that is open and has an unexpired deadline. *)
Definition live (c : conn) (d now : Z) : Prop :=
  c_closed c = false /\ c_deadline c = Some d /\ now < d.

(** ** Writing *)

(** Every scripted write makes progress before the deadline. *)
Definition progresses (d : Z) (w : wr) : Prop :=
  match w with WrOk t n => t < d /\ (0 < n)%nat | WrErr _ _ _ => False end.

Definition writable (d : Z) (c : conn) : Prop := Forall (progresses d) (c_wr c).

Lemma live_written ws tx c d now now' :
  live c d now -> now <= now' < d -> live (set_c_written ws tx c) d now'.
Proof. intros (?&?&?) ?. split_and!; [done|done|lia]. Qed.

Lemma write_conn_ok data c d now :
  live c d now -> writable d c -> data <> [] ->
  exists k ws now',
    write_conn data c now = (k, None, set_c_written ws (c_tx c ++ take k data) c, now') /\
    (0 < k <= length data)%nat /\ Forall (progresses d) ws /\ now <= now' < d.
Proof.
  intros (Hc & Hd & Hn) Hw Hne. unfold write_conn, writable in *. rewrite Hc, Hd. simpl.
  rewrite (proj2 (Z.leb_gt _ _)) by lia.
  assert (0 < length data)%nat by (destruct data; simpl; [done|lia]).
  destruct (c_wr c) as [|[t k|t k e] ws].
  - eexists (length data), [], now. rewrite firstn_all. split_and!; (done || lia).
  - apply Forall_cons in Hw as [[Ht Hk] Hws]. rewrite (proj2 (Z.leb_gt _ _)) by lia.
    eexists _, ws, _. split_and!; [done|lia|lia|done|lia|lia].
  - by apply Forall_cons in Hw as [[] _].
Qed.

Lemma writeAll_ok fuel data t n c d now :
  live c d now -> writable d c -> (length data <= fuel)%nat ->
  exists ws now',
    writeAll fuel data (view t n c now)
    = (Ret (), view t n (set_c_written ws (c_tx c ++ data) c) now') /\
    Forall (progresses d) ws /\ now <= now' < d.
Proof.
  revert data c now. induction fuel as [|fuel IH]; intros data c now Hl Hw Hf.
  all: destruct data as [|b data]; [|try (simpl in Hf; lia)].
  1, 2: eexists (c_wr c), now; rewrite app_nil_r; split_and!;
    [by destruct c|done|lia|apply Hl].
  cbn [writeAll]. unfold mbind, st_bind, Write. rewrite on_conn_view.
  destruct (write_conn_ok (b :: data) c d now) as (k & ws & now' & E & Hk & Hws & Hn'); [done..|].
  rewrite E, decide_False by lia.
  destruct (IH (drop k (b :: data)) (set_c_written ws (c_tx c ++ take k (b :: data)) c) now')
    as (ws' & now'' & E' & Hws' & Hn'').
  - eapply live_written; [done|lia].
  - done.
  - rewrite length_drop. simpl in Hf |- *. lia.
  - eexists ws', now''. rewrite E'. split_and!; [|done|lia|lia].
    f_equal. f_equal. unfold set_c_written; simpl. by rewrite <- app_assoc, take_drop.
Qed.

Lemma to_uint32_len (p : bytes) m : m < 2 ^ 32 -> Z.of_nat (length p) <= m -> uint 32 (Z.of_nat (length p)).
Proof. unfold uint. lia. Qed.

Lemma writeFrame_ok p t n c d now :
  live c d now -> writable d c -> Z.of_nat (length p) < 2 ^ 32 ->
  exists ws now',
    writeFrame p (view t n c now)
    = (Ret (), view t n (set_c_written ws (c_tx c ++ frame p) c) now') /\
    Forall (progresses d) ws /\ now <= now' < d.
Proof.
  intros Hl Hw Hp. unfold writeFrame. rewrite to_uint64_id by (unfold uint; lia).
  rewrite (proj2 (Z.ltb_ge _ _)) by (unfold maxFramePayloadSize; lia).
  rewrite to_uint32_id by (unfold uint; lia). unfold mbind, st_bind.
  destruct (writeAll_ok (length (PutUint32 (Z.of_nat (length p)))) (PutUint32 (Z.of_nat (length p)))
              t n c d now) as (ws & now' & E & Hws & Hn); [done..|]. rewrite E.
  edestruct (writeAll_ok (length p) p t n) as (ws' & now'' & E' & Hws' & Hn');
    [eapply live_written; [done|exact Hn]|exact Hws|done|].
  rewrite E'. eexists ws', now''. split_and!; [|done|lia|lia].
  unfold frame, set_c_written; simpl. by rewrite <- app_assoc.
Qed.

(** ** Reading *)

Lemma live_rx r c d now now' : live c d now -> now <= now' < d -> live (set_c_rx r c) d now'.
Proof. intros (?&?&?) ?. split_and!; [done|done|lia]. Qed.

(** The rest of a script after [k] bytes were taken from it before [d]. *)
Definition after (k : nat) (d : Z) (rxs rest : list rx) : Prop :=
  forall d', d <= d' ->
    available d' rest = drop k (available d' rxs) /\ obstacle d' rest = obstacle d' rxs.

Lemma after_trans k1 k2 d r1 r2 r3 : after k1 d r1 r2 -> after k2 d r2 r3 -> after (k1 + k2) d r1 r3.
Proof.
  intros H1 H2 d' Hd. destruct (H1 d' Hd) as [A1 O1], (H2 d' Hd) as [A2 O2].
  rewrite A2, A1, drop_drop, O2. done.
Qed.

Lemma ReadFull_ok k t n c d now :
  live c d now -> (k <= length (available d (c_rx c)))%nat ->
  exists rest now',
    ReadFull k (view t n c now)
    = (Ret (take k (available d (c_rx c)), None), view t n (set_c_rx rest c) now') /\
    after k d (c_rx c) rest /\ now <= now' < d.
Proof.
  intros (Hc & Hd & Hn) Hk. unfold ReadFull. rewrite on_conn_view, Hc, Hd.
  destruct (read_full_enough (c_rx c) d now k Hn Hk) as (rest & now' & E & Ha & Hn').
  rewrite E. by eexists rest, now'.
Qed.

(** How a reader that waits for more than [rxs] offers before [d] ends: with the
    obstacle behind what was there, which it has taken; at [d] when nothing
    happened at all. *)
Definition gives_up (d : Z) (rxs : list rx) (e : error) (rest : list rx) (now now' : Z) : Prop :=
  (after (length (available d rxs)) d rxs rest /\ now <= now' <= d /\
   (silent d rxs -> rest = rxs /\ now' = d)) /\
  (e = obstacle d rxs \/ obstacle d rxs = io_EOF /\ e = io_ErrUnexpectedEOF).

Lemma ReadFull_short k t n c d now :
  live c d now -> (length (available d (c_rx c)) < k)%nat ->
  exists e rest now',
    ReadFull k (view t n c now)
    = (Ret (available d (c_rx c), Some e), view t n (set_c_rx rest c) now') /\
    gives_up d (c_rx c) e rest now now'.
Proof.
  intros (Hc & Hd & Hn) Hk. unfold ReadFull. rewrite on_conn_view, Hc, Hd.
  destruct (read_full_short (c_rx c) d now k Hn Hk) as (rest & now' & E & Ha & Hn' & Hs). rewrite E.
  unfold full_error. case_decide as He; eexists _, rest, now'; (split; [done|]);
    (split; [done|]); [right; by destruct He|by left].
Qed.

(** ** The stream of frames

    What the bytes received so far hold, for a reader that refuses frames of
    more than [max] bytes. *)
Inductive received := Whole (p rest : bytes) | Oversize (size : Z) (rest : bytes) | Partial.

Definition unframe (max : Z) (b : bytes) : received :=
  match b with
  | b0 :: b1 :: b2 :: b3 :: rest =>
      let v := Uint32 b0 b1 b2 b3 in
      if max <? v then Oversize v rest
      else if Z.of_nat (length rest) <? v then Partial
      else Whole (take (Z.to_nat v) rest) (drop (Z.to_nat v) rest)
  | _ => Partial
  end.

Lemma unframe_frame max p rest :
  Z.of_nat (length p) <= max < 2 ^ 32 -> unframe max (frame p ++ rest) = Whole p rest.
Proof.
  intros H. unfold frame, unframe, PutUint32. cbn [app].
  rewrite Uint32_PutUint32 by (unfold uint; lia).
  rewrite (proj2 (Z.ltb_ge _ _)), (proj2 (Z.ltb_ge _ _)) by (rewrite ?length_app; lia).
  by rewrite Nat2Z.id, take_app_length, drop_app_length.
Qed.

(** The outcome of a read of one frame, against what was received. *)
Definition read_outcome (max d now now' : Z) (rxs rest : list rx) (o : bytes + error) : Prop :=
  match unframe max (available d rxs) with
  | Whole p _ => o = inl p /\ after (4 + length p) d rxs rest /\ now <= now' < d
  | Oversize v _ =>
      o = inr (EWrap "%w: %d > %d" [FInt v; FInt max] errFrameTooLarge) /\
      after 4 d rxs rest /\ now <= now' < d
  | Partial =>
      exists e, o = inr e /\ gives_up d rxs e rest now now'
  end.

Lemma available_silent d rxs : silent d rxs -> available d rxs = [].
Proof. intros [|[t b|t e] l Ht Hs]; simpl; [done| |done]. by rewrite (proj2 (Z.leb_le _ _)). Qed.

Lemma readFrameSize_short max t n c d now :
  live c d now -> (length (available d (c_rx c)) < 4)%nat ->
  exists e rest now',
    readFrameSize max (view t n c now) = (Fail e, view t n (set_c_rx rest c) now') /\
    gives_up d (c_rx c) e rest now now'.
Proof.
  intros Hl Hk. unfold readFrameSize, frameHeaderSize, mbind, st_bind.
  destruct (ReadFull_short 4 t n c d now Hl Hk) as (e & rest & now' & E & He).
  rewrite E. by eexists _, _, _.
Qed.

Lemma readFrameSize_full max b0 b1 b2 b3 more t n c d now :
  live c d now -> available d (c_rx c) = b0 :: b1 :: b2 :: b3 :: more ->
  exists rest now',
    readFrameSize max (view t n c now)
    = (if to_uint32 max <? Uint32 b0 b1 b2 b3 then
         Fail (EWrap "%w: %d > %d" [FInt (Uint32 b0 b1 b2 b3); FInt max] errFrameTooLarge)
       else Ret (Uint32 b0 b1 b2 b3), view t n (set_c_rx rest c) now') /\
    after 4 d (c_rx c) rest /\ now <= now' < d.
Proof.
  intros Hl Hav. unfold readFrameSize, frameHeaderSize, mbind, st_bind.
  destruct (ReadFull_ok 4 t n c d now Hl) as (rest & now' & E & Ha & Hn).
  { rewrite Hav. simpl. lia. }
  rewrite E, Hav. cbn [take]. eexists rest, now'. split; [|done]. cbn [firstn]. by destruct (_ <? _).
Qed.

(** One frame is read into the buffer, whatever the chunks it arrives in; the
    bytes behind it stay. *)
Lemma readFrameInto_spec max buffer t n c d now :
  live c d now -> Z.of_nat (length buffer) = max -> max < 2 ^ 32 ->
  exists buffer' o rest now',
    readFrameInto max buffer (view t n c now) = (Ret (buffer', o), view t n (set_c_rx rest c) now') /\
    length buffer' = length buffer /\ read_outcome max d now now' (c_rx c) rest o.
Proof.
  intros Hl Hb Hm. unfold readFrameInto, mbind, st_bind, catch, read_outcome.
  destruct (decide (length (available d (c_rx c)) < 4)%nat) as [Hs|Hs].
  { destruct (readFrameSize_short max t n c d now Hl Hs) as (e & rest & now' & E & He).
    rewrite E. eexists buffer, (inr e), rest, now'. split_and!; [done|done|].
    destruct (available d (c_rx c)) as [|? [|? [|? [|? ?]]]]; simpl in Hs; (lia || by exists e). }
  destruct (available d (c_rx c)) as [|b0 [|b1 [|b2 [|b3 more]]]] eqn:Hav; simpl in Hs; [lia..|].
  destruct (readFrameSize_full max b0 b1 b2 b3 more t n c d now Hl Hav) as (rest & now' & E & Ha & Hn).
  pose proof (Uint32_range b0 b1 b2 b3) as [Hv0 Hv1]. cbn [unframe].
  set (v := Uint32 b0 b1 b2 b3) in *. rewrite to_uint32_id in E by (unfold uint; lia). rewrite E.
  destruct (Z.ltb_spec max v).
  { eexists buffer, _, rest, now'. split; [done|]. split; [done|]. by split. }
  rewrite (proj2 (Z.ltb_ge _ _)) by lia. destruct (Ha d) as [Hav' Hob]; [lia|].
  rewrite Hav in Hav'. simpl in Hav'. rewrite drop_0 in Hav'.
  assert (Hl' : live (set_c_rx rest c) d now') by (by eapply live_rx).
  destruct (Z.ltb_spec (Z.of_nat (length more)) v).
  - destruct (ReadFull_short (Z.to_nat v) t n _ d now' Hl') as (e & rest' & now'' & E' & He).
    { simpl. rewrite Hav'. lia. }
    rewrite E'. eexists _, _, rest', now''. split; [done|]. split; [apply length_overwrite|].
    exists e. split; [done|]. destruct He as [(Ha' & Hn' & _) He]. simpl in He, Ha'. rewrite Hob in He.
    split; [|done]. rewrite Hav' in Ha'. split; [|split; [lia|]].
    + rewrite Hav. by apply (after_trans 4 _ d _ rest).
    + intros Hs'. by rewrite (available_silent _ _ Hs') in Hav.
  - destruct (ReadFull_ok (Z.to_nat v) t n _ d now' Hl') as (rest' & now'' & E' & Ha' & Hn').
    { simpl. rewrite Hav'. lia. }
    rewrite E'. eexists _, _, rest', now''. split; [done|]. split; [apply length_overwrite|].
    simpl. rewrite Hav'. assert (Hlen : length (take (Z.to_nat v) more) = Z.to_nat v)
      by (rewrite length_take; lia).
    split_and!; [|rewrite Hlen; by apply (after_trans 4 _ d _ rest)|lia|lia].
    f_equal. unfold overwrite. rewrite (take_ge (take _ more)) by lia.
    rewrite take_app_le by lia. by rewrite take_take, Nat.min_id.
Qed.

(** ** The exchange *)

Lemma bufferPool_Get_view t n c now :
  tcp_ok t ->
  exists b t' n',
    bufferPool_Get (view t n c now) = (Ret b, view t' n' c now) /\
    Z.of_nat (length b) = tcp_maxMessageSize t /\ tcp_ok t' /\ same_config t t' /\
    tcp_maxMessageSize t' = tcp_maxMessageSize t /\ same_net n n'.
Proof.
  intros [Hp Hs]. unfold bufferPool_Get, view, next_pick. simpl.
  assert (Hget : forall pick n', same_net n n' ->
    exists b t' n'',
      (let '(b, p) := bytesPool_Get pick (tcp_bufferPool t) in
       (Ret b, (set_bufferPool p (set_connection (Some c) t), set_now now n')))
      = (Ret b, (set_connection (Some c) t', set_now now n'')) /\
      Z.of_nat (length b) = tcp_maxMessageSize t /\ tcp_ok t' /\ same_config t t' /\
      tcp_maxMessageSize t' = tcp_maxMessageSize t /\ same_net n n'').
  { intros pick n' Hn. destruct (bytesPool_Get_ok pick _ Hp) as (Hb & Hp' & Hs').
    destruct (bytesPool_Get pick (tcp_bufferPool t)) as [b p]. simpl in *.
    eexists b, (set_bufferPool p t), n'. split; [done|].
    split; [rewrite Hb, length_zeros; done|]. split; [split; [done|simpl; lia]|].
    split; [by split_and!|]. by split. }
  destruct (n_picks n) as [|pick picks] eqn:En.
  - by apply (Hget None n).
  - apply (Hget pick (mkNet (n_now n) (n_dials n) picks (n_dropped n))). by split.
Qed.

Lemma bufferPool_Put_view b t n c now :
  tcp_ok t -> Z.of_nat (length b) = tcp_maxMessageSize t ->
  exists t', bufferPool_Put b (view t n c now) = (Ret (), view t' n c now) /\ tcp_ok t' /\
    same_config t t' /\ tcp_maxMessageSize t' = tcp_maxMessageSize t.
Proof.
  intros [Hp Hs] Hb. destruct (bytesPool_Put_ok b (tcp_bufferPool t) Hp) as [Hp' Hs']; [lia|].
  eexists (set_bufferPool _ t). split; [done|]. split; [by split; [|simpl in *; lia]|].
  split; [by split_and!|done].
Qed.

(** A working connection for a request: open, writable, with a deadline ahead. *)
Record ready (ctx : context) (t : TCPClient) (n : net) (c : conn) : Prop := {
  ready_ok : tcp_ok t;
  ready_max : tcp_maxMessageSize t < 2 ^ 32;
  ready_conn : tcp_connection t = Some c;
  ready_open : c_closed c = false;
  ready_time : n_now n < deadline ctx (tcp_idleTimeout t) (n_now n);
  ready_writable : writable (deadline ctx (tcp_idleTimeout t) (n_now n)) c }.

Definition sent (d : Z) (ws : list wr) (request : bytes) (c : conn) : conn :=
  set_c_written ws (c_tx c ++ frame request) (set_c_deadline d c).

Lemma start_request_ok ctx req t n c :
  ready ctx t n c -> Z.of_nat (length req) <= tcp_maxMessageSize t ->
  let d := deadline ctx (tcp_idleTimeout t) (n_now n) in
  exists ws now',
    start_request ctx req (t, n) = (Ret (), view t n (sent d ws req c) now') /\
    live (sent d ws req c) d now' /\ Forall (progresses d) ws /\ n_now n <= now' < d.
Proof.
  intros [Hok Hmax Hc Ho Ht Hw] Hlen d. unfold start_request, self, gets, mbind, st_bind.
  rewrite (proj2 (Z.ltb_ge _ _)) by (simpl; lia). unfold map_error, setDeadline, get, mbind, st_bind.
  fold d. rewrite (view_intro t n c Hc). unfold SetDeadline. rewrite on_conn_view, Ho.
  change (tcp_idleTimeout (view t n c (n_now n)).1) with (tcp_idleTimeout t).
  destruct (writeFrame_ok req t n (set_c_deadline d c) d (n_now n))
    as (ws & now' & E & Hws & Hn); [by split_and!|done|lia|].
  simpl. fold d. rewrite E. eexists ws, now'. split; [done|]. split; [|done]. split_and!; [done|done|lia].
Qed.

(** What a request that expects one frame returns, against what was received. *)
Definition send_outcome (max d now : Z) (rxs rest : list rx) (now' : Z) (o : outcome bytes) : Prop :=
  match unframe max (available d rxs) with
  | Whole p _ => o = Ret p /\ after (4 + length p) d rxs rest /\ now <= now' < d
  | Oversize v _ =>
      o = Fail (EWrap "%w: %d > %d" [FInt v; FInt max] errFrameTooLarge) /\
      after 4 d rxs rest /\ now <= now' < d
  | Partial =>
      exists e, o = Fail (normalizeConnectionError e) /\ gives_up d rxs e rest now now'
  end.

Lemma Send_spec ctx req t n c :
  ready ctx t n c -> Z.of_nat (length req) <= tcp_maxMessageSize t ->
  let d := deadline ctx (tcp_idleTimeout t) (n_now n) in
  exists o t' n' c',
    Send ctx req (t, n) = (o, (t', n')) /\
    tcp_connection t' = Some c' /\ c_closed c' = false /\ c_tx c' = c_tx c ++ frame req /\
    writable d c' /\ tcp_ok t' /\ same_config t t' /\ tcp_maxMessageSize t' = tcp_maxMessageSize t /\
    send_outcome (tcp_maxMessageSize t) d (n_now n) (c_rx c) (c_rx c') (n_now n') o.
Proof.
  intros Hr Hlen d. destruct (start_request_ok ctx req t n c Hr Hlen) as (ws & now1 & E1 & Hl & Hws & Hn1).
  fold d in E1, Hl, Hws, Hn1. destruct Hr as [Hok Hmax Hc Ho Ht Hw].
  unfold Send, mbind, st_bind. rewrite E1.
  destruct (bufferPool_Get_view t n (sent d ws req c) now1 Hok)
    as (b & t2 & n2 & E2 & Hb & Hok2 & Hs2 & Hm2 & _). rewrite E2. unfold self, gets.
  change (tcp_maxMessageSize (view t2 n2 (sent d ws req c) now1).1) with (tcp_maxMessageSize t2).
  rewrite Hm2.
  destruct (readFrameInto_spec (tcp_maxMessageSize t) b t2 n2 (sent d ws req c) d now1 Hl Hb Hmax)
    as (b3 & o & rest & now3 & E3 & Hb3 & Hout). rewrite E3.
  destruct (bufferPool_Put_view b3 t2 n2 (set_c_rx rest (sent d ws req c)) now3 Hok2)
    as (t4 & E4 & Hok4 & Hs4 & Hm4); [lia|]. rewrite E4.
  exists (match o with inl m => Ret m | inr e => Fail (normalizeConnectionError e) end),
    (set_connection (Some (set_c_rx rest (sent d ws req c))) t4), (set_now now3 n2),
    (set_c_rx rest (sent d ws req c)).
  split; [by destruct o|]. do 5 (split; [done|]).
  split; [destruct Hs2 as (?&?&?&?), Hs4 as (?&?&?&?); split_and!; simpl; congruence|].
  split; [simpl; congruence|].
  unfold send_outcome. unfold read_outcome in Hout. simpl in Hout |- *.
  destruct (unframe _ _) as [p r|v r|].
  - destruct Hout as (-> & Ha & ?). split_and!; [done|done|lia|lia].
  - destruct Hout as (-> & Ha & ?). split_and!; [done|done|lia|lia].
  - destruct Hout as (e & -> & (Ha & ? & Hs) & He). exists e. split; [done|]. split; [|done].
    split; [done|]. split; [lia|done].
Qed.

(** ** Several frames: SendChunked and Stream *)

Lemma available_mono d d' rxs : d <= d' -> exists extra, available d' rxs = available d rxs ++ extra.
Proof.
  intros Hd. induction rxs as [|[t b|t e] rxs [extra IH]]; simpl; [by exists []| |by exists []].
  destruct (Z.leb_spec d t); [by eexists|]. rewrite (proj2 (Z.leb_gt _ _)) by lia.
  rewrite IH. exists extra. by rewrite app_assoc.
Qed.

Lemma available_size d rxs : (length (available d rxs) <= rx_size rxs)%nat.
Proof.
  induction rxs as [|[t b|t e] rxs IH]; simpl; rewrite ?rx_size_cons; [lia| |simpl; lia].
  destruct (d <=? t); simpl; rewrite ?length_app; lia.
Qed.

Lemma after_weaken k d d' r1 r2 : after k d r1 r2 -> d <= d' -> after k d' r1 r2.
Proof. intros H Hd d'' Hd'. apply H. lia. Qed.

Lemma after_refl d r : after 0 d r r.
Proof. intros d' _. by rewrite drop_0. Qed.

(** After the first frame was read, the next ones are what is available. *)
Lemma after_available p d d' r1 r2 more :
  after (4 + length p) d r1 r2 -> d <= d' -> available d r1 = frame p ++ more ->
  exists extra, available d' r2 = more ++ extra.
Proof.
  intros Ha Hd Hav. destruct (Ha d' Hd) as [-> _].
  destruct (available_mono d d' r1 Hd) as [extra ->]. exists extra.
  rewrite Hav, <- app_assoc, drop_app_length'; [done|]. by rewrite length_frame.
Qed.

(** The deadline of a later instant is later, and ahead of it. *)
Lemma deadline_next ctx idle now now' :
  now <= now' < deadline ctx idle now ->
  deadline ctx idle now <= deadline ctx idle now' /\ now' < deadline ctx idle now'.
Proof.
  unfold deadline. destruct (ctx_deadline ctx) as [x|]; [|lia].
  destruct (Z.ltb_spec (now + idle) x), (Z.ltb_spec (now' + idle) x); lia.
Qed.

(** One iteration of the two loops: the deadline is renewed, one frame read. *)
Lemma next_frame_ok ctx buffer p more t n c now :
  let d := deadline ctx (tcp_idleTimeout t) now in
  c_closed c = false -> now < d -> available d (c_rx c) = frame p ++ more ->
  Z.of_nat (length p) <= tcp_maxMessageSize t < 2 ^ 32 ->
  Z.of_nat (length buffer) = tcp_maxMessageSize t ->
  exists buffer' rest now',
    setDeadline ctx (view t n c now) = (Ret (), view t n (set_c_deadline d c) now) /\
    readFrameInto (tcp_maxMessageSize t) buffer (view t n (set_c_deadline d c) now)
    = (Ret (buffer', inl p), view t n (set_c_rx rest (set_c_deadline d c)) now') /\
    length buffer' = length buffer /\ after (4 + length p) d (c_rx c) rest /\ now <= now' < d.
Proof.
  intros d Ho Hn Hav Hp Hb.
  destruct (readFrameInto_spec (tcp_maxMessageSize t) buffer t n (set_c_deadline d c) d now)
    as (buffer' & o & rest & now' & E & Hb' & Hout); [by split_and!|done|lia|].
  unfold read_outcome in Hout. simpl in Hout. rewrite Hav, unframe_frame in Hout by done.
  destruct Hout as (-> & Ha & Hn'). exists buffer', rest, now'. split; [|done].
  unfold setDeadline, get, mbind, st_bind, SetDeadline. unfold view at 1. cbv beta iota.
  fold (view t n c now). rewrite on_conn_view, Ho. done.
Qed.

Lemma IndexByte_status s data :
  s = frameStatusOK \/ s = frameStatusError \/ s = frameStatusNext ->
  IndexByte (joinStatusAndData s data) respDelimiter = Some (length s).
Proof. by intros [->|[->| ->]]. Qed.

Lemma take_status s data : take (length s) (joinStatusAndData s data) = s.
Proof. apply take_app_length. Qed.

Lemma drop_status s data : drop (S (length s)) (joinStatusAndData s data) = data.
Proof.
  unfold joinStatusAndData. rewrite app_assoc. apply drop_app_length'.
  rewrite length_app. simpl. lia.
Qed.

(** What a loop over frames that started at [now] leaves: [k] bytes were read
    before an instant that lies ahead and under the deadline in force. *)
Definition loop_left (ctx : context) (idle : Z) (c : conn) (now : Z) (k : nat) (c' : conn) (now' : Z) : Prop :=
  c_tx c' = c_tx c /\ c_closed c' = false /\ c_wr c' = c_wr c /\
  exists d', after k d' (c_rx c) (c_rx c') /\ deadline ctx idle now <= d' /\
    now' < d' <= deadline ctx idle now'.

Lemma loop_left_one ctx idle c now k rest now' :
  let d := deadline ctx idle now in
  c_closed c = false -> after k d (c_rx c) rest -> now <= now' < d ->
  loop_left ctx idle c now k (set_c_rx rest (set_c_deadline d c)) now'.
Proof.
  intros d Ho Ha Hn. do 3 (split; [done|]). exists d. split; [done|].
  destruct (deadline_next ctx idle now now' Hn). fold d in Hn. lia.
Qed.

Lemma loop_left_cons ctx idle c now k1 rest now1 k2 c' now' :
  let d := deadline ctx idle now in
  after k1 d (c_rx c) rest -> now <= now1 < d ->
  loop_left ctx idle (set_c_rx rest (set_c_deadline d c)) now1 k2 c' now' ->
  loop_left ctx idle c now (k1 + k2) c' now'.
Proof.
  intros d Ha Hn (Htx & Ho & Hw & d' & Ha' & Hd' & Hn'). do 3 (split; [done|]). exists d'.
  destruct (deadline_next ctx idle now now1 Hn) as [Hdd _]. split; [|fold d in Hdd; lia].
  eapply after_trans; [eapply after_weaken; [exact Ha|fold d in Hdd; lia]|exact Ha'].
Qed.

(** The frames of a chunked reply: the parts, then the closing frame. *)
Definition next_frames (parts : list bytes) : bytes :=
  mjoin ((fun x => frame (joinStatusAndData frameStatusNext x)) <$> parts).

Lemma next_frames_cons x parts :
  next_frames (x :: parts) = frame (joinStatusAndData frameStatusNext x) ++ next_frames parts.
Proof. done. Qed.

(** What [SendChunked] makes of the closing frame. *)
Definition chunked_reply (good : bool) (parts : list bytes) (final : bytes) : bytes :=
  if good then joinStatusAndData frameStatusOK (mjoin parts ++ final)
  else joinStatusAndData frameStatusError final.

Definition closing (good : bool) (final : bytes) : bytes :=
  joinStatusAndData (if good then frameStatusOK else frameStatusError) final.

(** Every frame fits the negotiated maximum. *)
Definition fits (t : TCPClient) (p : bytes) : Prop := Z.of_nat (length p) <= tcp_maxMessageSize t.

Lemma SendChunked_loop_ok fuel ctx t n c now body buffer parts good final more :
  let d := deadline ctx (tcp_idleTimeout t) now in
  c_closed c = false -> now < d ->
  available d (c_rx c) = next_frames parts ++ frame (closing good final) ++ more ->
  Forall (fits t) (joinStatusAndData frameStatusNext <$> parts) -> fits t (closing good final) ->
  tcp_maxMessageSize t < 2 ^ 32 -> Z.of_nat (length buffer) = tcp_maxMessageSize t ->
  (length parts < fuel)%nat ->
  exists buffer' c' now',
    SendChunked_loop fuel ctx body buffer (view t n c now)
    = (Ret (buffer', inl (if good then joinStatusAndData frameStatusOK (body ++ mjoin parts ++ final)
                          else joinStatusAndData frameStatusError final)), view t n c' now') /\
    length buffer' = length buffer /\
    loop_left ctx (tcp_idleTimeout t) c now (length (next_frames parts ++ frame (closing good final))) c' now'.
Proof.
  revert fuel c now body buffer more.
  induction parts as [|x parts IH]; intros [|fuel] c now body buffer more d Ho Hn Hav Hf Hl Hm Hb Hfuel;
    try (simpl in Hfuel; lia).
  - unfold next_frames in Hav. simpl in Hav.
    destruct (next_frame_ok ctx buffer (closing good final) more t n c now)
      as (b' & rest & now' & E1 & E2 & Hb' & Ha & Hn'); [done..|]. fold d in E1, E2, Ha, Hn'.
    cbn [SendChunked_loop]. unfold mbind, st_bind, catch. rewrite E1. unfold self, gets.
    change (tcp_maxMessageSize (view t n _ now).1) with (tcp_maxMessageSize t). rewrite E2.
    unfold closing. rewrite IndexByte_status, take_status, drop_status by (destruct good; auto).
    exists b', (set_c_rx rest (set_c_deadline d c)), now'. split; [by destruct good|].
    split; [done|]. apply loop_left_one; [done| |done].
    change (after (length (frame (closing good final))) d (c_rx c) rest). by rewrite length_frame.
  - apply Forall_cons in Hf as [Hx Hf]. rewrite next_frames_cons, <- app_assoc in Hav.
    destruct (next_frame_ok ctx buffer (joinStatusAndData frameStatusNext x)
      (next_frames parts ++ frame (closing good final) ++ more) t n c now)
      as (b' & rest & now' & E1 & E2 & Hb' & Ha & Hn'); [done..|]. fold d in E1, E2, Ha, Hn'.
    destruct (deadline_next ctx (tcp_idleTimeout t) now now' Hn') as [Hdd Hnn].
    destruct (after_available _ _ _ _ _ _ Ha Hdd Hav) as [extra Hav'].
    cbn [SendChunked_loop]. unfold mbind, st_bind, catch. rewrite E1. unfold self, gets.
    change (tcp_maxMessageSize (view t n _ now).1) with (tcp_maxMessageSize t). rewrite E2.
    rewrite IndexByte_status, take_status, drop_status by auto.
    destruct (IH fuel (set_c_rx rest (set_c_deadline d c)) now' (body ++ x) b' (more ++ extra))
      as (b'' & c'' & now'' & E3 & Hb'' & Hleft); [done|done| |done|done|done|lia|simpl in Hfuel; lia|].
    { simpl. rewrite Hav'. by rewrite <- !app_assoc. }
    rewrite decide_True by done. rewrite E3. exists b'', c'', now''. split.
    { destruct good; [|done]. cbn [mjoin list_join]. by rewrite <- !app_assoc. }
    split; [lia|]. rewrite next_frames_cons, <- app_assoc, length_app, length_frame.
    by eapply loop_left_cons.
Qed.

Lemma next_frames_length parts : (length parts <= length (next_frames parts))%nat.
Proof.
  induction parts as [|x parts IH]; [done|]. rewrite next_frames_cons, length_app, length_frame.
  simpl. lia.
Qed.

(** What an exchange under [ctx] leaves of the working connection [c]: it is
    open, [req] was sent, [k] bytes were read before [d'], and it works for the
    next exchange. *)
Record exchanged (t : TCPClient) (c : conn) (req : bytes) (k : nat) (d' : Z)
    (t' : TCPClient) (c' : conn) : Prop := {
  ex_conn : tcp_connection t' = Some c';
  ex_open : c_closed c' = false;
  ex_tx : c_tx c' = c_tx c ++ frame req;
  ex_writable : writable d' c';
  ex_ok : tcp_ok t';
  ex_config : same_config t t';
  ex_max : tcp_maxMessageSize t' = tcp_maxMessageSize t;
  ex_after : after k d' (c_rx c) (c_rx c') }.

(** From [now] to [n'] under [ctx]: [d'] is ahead, not before the first deadline
    and not behind the one in force. *)
Definition in_force (ctx : context) (t : TCPClient) (now : Z) (n' : net) (d' : Z) : Prop :=
  deadline ctx (tcp_idleTimeout t) now <= d' /\
  n_now n' < d' <= deadline ctx (tcp_idleTimeout t) (n_now n').

Lemma writable_mono d d' c : d <= d' -> writable d c -> writable d' c.
Proof.
  intros Hd Hw. eapply Forall_impl; [exact Hw|]. intros [t k|t k e]; [|done]. intros [??]. split; [lia|done].
Qed.

Lemma same_config_trans t1 t2 t3 : same_config t1 t2 -> same_config t2 t3 -> same_config t1 t3.
Proof. intros (?&?&?&?) (?&?&?&?). split_and!; congruence. Qed.

Lemma exchanged_ready ctx ctx' t n c req k d' t' n' c' :
  ready ctx t n c -> exchanged t c req k d' t' c' ->
  n_now n' < deadline ctx' (tcp_idleTimeout t) (n_now n') ->
  d' <= deadline ctx' (tcp_idleTimeout t) (n_now n') -> ready ctx' t' n' c'.
Proof.
  intros [? Hm _ _ _ _] [Hc Ho Htx Hw Hok (_ & Hi & _) Hm' Ha] Hn Hd.
  split; rewrite ?Hi, ?Hm'; try done. by eapply writable_mono.
Qed.

(** A loop after a request, and the buffer back in the pool. *)
Lemma loop_exchanged ctx req t n c ws t2 t4 now2 k c' now' n2 :
  let d := deadline ctx (tcp_idleTimeout t) (n_now n) in
  Forall (progresses d) ws -> same_config t t2 -> tcp_maxMessageSize t2 = tcp_maxMessageSize t ->
  d <= deadline ctx (tcp_idleTimeout t2) now2 ->
  loop_left ctx (tcp_idleTimeout t2) (sent d ws req c) now2 k c' now' ->
  tcp_ok t4 -> same_config t2 t4 -> tcp_maxMessageSize t4 = tcp_maxMessageSize t2 ->
  exists d', exchanged t c req k d' (set_connection (Some c') t4) c' /\ in_force ctx t (n_now n) (set_now now' n2) d'.
Proof.
  intros d Hws Hs2 Hm2 Hd (Htx & Ho & Hw & d' & Ha & Hdd & Hn) Hok4 Hs4 Hm4. exists d'. split.
  - split; try done; [|by destruct (same_config_trans _ _ _ Hs2 Hs4) as (?&?&?&?); split_and!
                      |simpl; congruence].
    unfold writable. rewrite Hw. apply (writable_mono d d' (sent d ws req c)); [lia|done].
  - unfold in_force. simpl. destruct Hs2 as (_ & Hi & _). rewrite Hi in Hd, Hdd, Hn. fold d. lia.
Qed.

(** A request followed by reads of several frames: the buffer and the loop's
    fuel, as [Stream] and [SendChunked] obtain them. *)
Lemma request_loop_ok ctx req t n c :
  ready ctx t n c -> Z.of_nat (length req) <= tcp_maxMessageSize t ->
  let d := deadline ctx (tcp_idleTimeout t) (n_now n) in
  exists b t' n' ws now',
    let c' := sent d ws req c in
    start_request ctx req (t, n) = (Ret (), view t n c' now') /\
    bufferPool_Get (view t n c' now') = (Ret b, view t' n' c' now') /\
    loop_fuel (view t' n' c' now') = (Ret (S (rx_size (c_rx c))), view t' n' c' now') /\
    Forall (progresses d) ws /\ Z.of_nat (length b) = tcp_maxMessageSize t' /\
    tcp_ok t' /\ same_config t t' /\ tcp_maxMessageSize t' = tcp_maxMessageSize t /\
    d <= deadline ctx (tcp_idleTimeout t') now' /\ now' < deadline ctx (tcp_idleTimeout t') now'.
Proof.
  intros Hr Hlen d. destruct (start_request_ok ctx req t n c Hr Hlen) as (ws & now1 & E1 & Hl & Hws & Hn1).
  fold d in E1, Hl, Hws, Hn1. destruct (bufferPool_Get_view t n (sent d ws req c) now1 (ready_ok _ _ _ _ Hr))
    as (b & t2 & n2 & E2 & Hb & Hok2 & Hs2 & Hm2 & _).
  exists b, t2, n2, ws, now1. simpl. do 4 (split; [done|]). split; [lia|]. do 3 (split; [done|]).
  destruct Hs2 as (_ & -> & _). by apply deadline_next.
Qed.

Lemma SendChunked_spec ctx req t n c parts good final more :
  ready ctx t n c -> Z.of_nat (length req) <= tcp_maxMessageSize t ->
  available (deadline ctx (tcp_idleTimeout t) (n_now n)) (c_rx c)
  = next_frames parts ++ frame (closing good final) ++ more ->
  Forall (fits t) (joinStatusAndData frameStatusNext <$> parts) -> fits t (closing good final) ->
  exists t' n' c' d',
    SendChunked ctx req (t, n) = (Ret (chunked_reply good parts final), (t', n')) /\
    exchanged t c req (length (next_frames parts ++ frame (closing good final))) d' t' c' /\ in_force ctx t (n_now n) n' d'.
Proof.
  intros Hr Hlen Hav Hf Hl.
  destruct (request_loop_ok ctx req t n c Hr Hlen)
    as (b & t2 & n2 & ws & now2 & E1 & E2 & E3 & Hws & Hb & Hok2 & Hs2 & Hm2 & Hd & Hn2).
  set (d := deadline ctx (tcp_idleTimeout t) (n_now n)) in *.
  destruct (available_mono _ _ (c_rx c) Hd) as [extra Hav'].
  destruct (SendChunked_loop_ok (S (rx_size (c_rx c))) ctx t2 n2 (sent d ws req c) now2 [] b parts good
              final (more ++ extra)) as (b' & c' & now' & E4 & Hb' & Hleft).
  - apply Hr.
  - done.
  - simpl. rewrite Hav', Hav. by rewrite <- !app_assoc.
  - unfold fits in *. by rewrite Hm2.
  - unfold fits in *. by rewrite Hm2.
  - rewrite Hm2. apply Hr.
  - done.
  - pose proof (available_size d (c_rx c)) as Hsz. rewrite Hav, !length_app in Hsz.
    pose proof (next_frames_length parts). lia.
  - destruct (bufferPool_Put_view b' t2 n2 c' now' Hok2) as (t4 & E5 & Hok4 & Hs4 & Hm4); [lia|].
    destruct (loop_exchanged ctx req t n c ws t2 t4 now2 _ c' now' n2 Hws Hs2 Hm2 Hd Hleft Hok4 Hs4 Hm4)
      as (d' & Hex). exists (set_connection (Some c') t4), (set_now now' n2), c', d'.
    split; [|done]. unfold SendChunked, mbind, st_bind. rewrite E1, E2, E3, E4, E5.
    by destruct good.
Qed.

(** Feeding frames to a callback until it returns an error: the frames it
    took, its final state and that error. *)
Fixpoint feed {H} (handle : handler H bytes) (h : H) (ps : list bytes) : option (list bytes * H * error) :=
  match ps with
  | [] => None
  | p :: ps =>
      match handle h p with
      | (h, Some e) => Some ([p], h, e)
      | (h, None) =>
          match feed handle h ps with
          | Some (seen, h, e) => Some (p :: seen, h, e)
          | None => None
          end
      end
  end.

Definition frames (ps : list bytes) : bytes := mjoin (frame <$> ps).

Lemma frames_cons p ps : frames (p :: ps) = frame p ++ frames ps.
Proof. done. Qed.

Lemma frames_length ps : (length ps <= length (frames ps))%nat.
Proof.
  induction ps as [|p ps IH]; [done|]. rewrite frames_cons, length_app, length_frame. simpl. lia.
Qed.

Lemma Stream_loop_ok {H} fuel ctx (handle : handler H bytes) t n c now h buffer ps seen h' e more :
  let d := deadline ctx (tcp_idleTimeout t) now in
  c_closed c = false -> now < d -> available d (c_rx c) = frames ps ++ more ->
  Forall (fits t) ps -> tcp_maxMessageSize t < 2 ^ 32 ->
  Z.of_nat (length buffer) = tcp_maxMessageSize t -> (length ps <= fuel)%nat ->
  feed handle h ps = Some (seen, h', e) ->
  exists buffer' c' now',
    Stream_loop fuel ctx handle h buffer (view t n c now) = (Ret (h', buffer', e), view t n c' now') /\
    length buffer' = length buffer /\
    loop_left ctx (tcp_idleTimeout t) c now (length (frames seen)) c' now'.
Proof.
  revert fuel c now h buffer more seen.
  induction ps as [|p ps IH]; intros [|fuel] c now h buffer more seen d Ho Hn Hav Hf Hm Hb Hfuel Hfeed;
    try done; [simpl in Hfuel; lia|].
  apply Forall_cons in Hf as [Hx Hf]. rewrite frames_cons, <- app_assoc in Hav.
  destruct (next_frame_ok ctx buffer p (frames ps ++ more) t n c now)
    as (b' & rest & now' & E1 & E2 & Hb' & Ha & Hn'); [done..|]. fold d in E1, E2, Ha, Hn'.
  destruct (deadline_next ctx (tcp_idleTimeout t) now now' Hn') as [Hdd Hnn].
  destruct (after_available _ _ _ _ _ _ Ha Hdd Hav) as [extra Hav'].
  cbn [Stream_loop]. unfold mbind, st_bind, catch. rewrite E1. unfold self, gets.
  change (tcp_maxMessageSize (view t n _ now).1) with (tcp_maxMessageSize t). rewrite E2.
  cbn [feed] in Hfeed. destruct (handle h p) as [h1 [e1|]].
  { simplify_eq. exists b', (set_c_rx rest (set_c_deadline d c)), now'. do 2 (split; [done|]).
    apply loop_left_one; [done| |done]. rewrite frames_cons, length_app, length_frame. simpl.
    by rewrite Nat.add_0_r. }
  destruct (feed handle h1 ps) as [[[seen1 h2] e2]|] eqn:Hfd; simplify_eq.
  destruct (IH fuel (set_c_rx rest (set_c_deadline d c)) now' h1 b' (more ++ extra) seen1)
    as (b'' & c'' & now'' & E3 & Hb'' & Hleft);
    [done|done| |done|done|lia|simpl in Hfuel; lia|done|].
  { simpl. rewrite Hav'. by rewrite <- !app_assoc. }
  rewrite E3. exists b'', c'', now''. split; [done|]. split; [lia|].
  rewrite frames_cons, length_app, length_frame. by eapply loop_left_cons.
Qed.

Lemma Stream_spec {H} ctx req (handle : handler H bytes) h t n c ps seen h' e more :
  ready ctx t n c -> Z.of_nat (length req) <= tcp_maxMessageSize t ->
  available (deadline ctx (tcp_idleTimeout t) (n_now n)) (c_rx c) = frames ps ++ more ->
  Forall (fits t) ps -> feed handle h ps = Some (seen, h', e) ->
  exists t' n' c' d',
    Stream ctx req handle h (t, n) = (Ret (h', e), (t', n')) /\
    exchanged t c req (length (frames seen)) d' t' c' /\ in_force ctx t (n_now n) n' d'.
Proof.
  intros Hr Hlen Hav Hf Hfeed.
  destruct (request_loop_ok ctx req t n c Hr Hlen)
    as (b & t2 & n2 & ws & now2 & E1 & E2 & E3 & Hws & Hb & Hok2 & Hs2 & Hm2 & Hd & Hn2).
  set (d := deadline ctx (tcp_idleTimeout t) (n_now n)) in *.
  destruct (available_mono _ _ (c_rx c) Hd) as [extra Hav'].
  destruct (Stream_loop_ok (S (rx_size (c_rx c))) ctx handle t2 n2 (sent d ws req c) now2 h b ps seen
              h' e (more ++ extra)) as (b' & c' & now' & E4 & Hb' & Hleft).
  - apply Hr.
  - done.
  - simpl. rewrite Hav', Hav. by rewrite <- !app_assoc.
  - unfold fits in *. by rewrite Hm2.
  - rewrite Hm2. apply Hr.
  - done.
  - pose proof (available_size d (c_rx c)) as Hsz. rewrite Hav, !length_app in Hsz.
    pose proof (frames_length ps). lia.
  - done.
  - destruct (bufferPool_Put_view b' t2 n2 c' now' Hok2) as (t4 & E5 & Hok4 & Hs4 & Hm4); [lia|].
    destruct (loop_exchanged ctx req t n c ws t2 t4 now2 _ c' now' n2 Hws Hs2 Hm2 Hd Hleft Hok4 Hs4 Hm4)
      as (d' & Hex). exists (set_connection (Some c') t4), (set_now now' n2), c', d'.
    split; [|done]. unfold Stream, mbind, st_bind, catch. by rewrite E1, E2, E3, E4, E5.
Qed.
