(* ===== verification/TcpSafe.v ===== *)
(** * TcpSafe: no method of the TCP client panics or blocks

    For every receive, write and dial script: each method returns, keeps the
    buffer pool consistent with the negotiated message size ([tcp_ok]), and
    the loops of [Stream] and [SendChunked] end within their fuel. *)

From S2P Require Import Prelude.
From S2P Require Import GoStd.
From S2P Require Import Strconv.
From S2P Require Import Types.
From S2P Require Import Commands.
From S2P Require Import Response.
From S2P Require Import ResponseFacts.
From S2P Require Import Options.
From S2P Require Import Pools.
From S2P Require Import Net.
From S2P Require Import Tcp.
From S2P Require Import TcpFacts.

(** A client that keeps the configuration and message size of [t0], has a
    connection with at most [k] units of script left, and, when [armed], a
    deadline. *)
Definition good (t0 : TCPClient) (n0 : net) (k : nat) (armed : bool) (s : TCPClient * net) : Prop :=
  let '(t, n) := s in
  tcp_ok t /\ same_config t0 t /\ tcp_maxMessageSize t = tcp_maxMessageSize t0 /\
  same_net n0 n /\
  exists c, tcp_connection t = Some c /\ (rx_size (c_rx c) <= k)%nat /\
    (armed = true -> c_deadline c <> None).

Lemma good_weaken t0 n0 k k' a s : good t0 n0 k a s -> (k <= k')%nat -> good t0 n0 k' false s.
Proof.
  destruct s as [t n]. intros (?&?&?&?&c&?&?&?) ?. split_and!; [done..|].
  exists c. split_and!; [done|lia|done].
Qed.

Lemma good_mono t0 n0 k k' a s : good t0 n0 k a s -> (k <= k')%nat -> good t0 n0 k' a s.
Proof.
  destruct s as [t n]. intros (?&?&?&?&c&?&?&?) ?. split_and!; [done..|].
  exists c. split_and!; [done|lia|done].
Qed.

Lemma good_conn t0 n0 k a c t (n' : net) :
  tcp_ok t -> same_config t0 t -> tcp_maxMessageSize t = tcp_maxMessageSize t0 ->
  same_net n0 n' -> (rx_size (c_rx c) <= k)%nat -> (a = true -> c_deadline c <> None) ->
  good t0 n0 k a (set_connection (Some c) t, n').
Proof. intros. split_and!; [done..|]. by exists c. Qed.

(** Operations on the connection keep [good]. *)
Lemma SetDeadline_triple t0 n0 k a d :
  triple (good t0 n0 k a) (SetDeadline d) (fun _ => good t0 n0 k true) (fun _ => good t0 n0 k false).
Proof.
  intros [t n] (Hok&Hs&Hm&Hn&c&Hc&Hk&Ha). unfold SetDeadline, on_conn. rewrite Hc.
  destruct (c_closed c); by apply good_conn.
Qed.

Lemma write_conn_same data c now :
  let '(k, e, c', _) := write_conn data c now in
  c_rx c' = c_rx c /\ c_deadline c' = c_deadline c /\ (k <= length data)%nat.
Proof.
  unfold write_conn. repeat case_match; simplify_eq; split_and!; simpl; try done; lia.
Qed.

Lemma Write_triple t0 n0 k a data :
  triple (good t0 n0 k a) (Write data)
    (fun '(n, _) s => (n <= length data)%nat /\ good t0 n0 k a s) (fun _ _ => False).
Proof.
  intros [t n] (Hok&Hs&Hm&Hn&c&Hc&Hk&Ha). unfold Write, on_conn. rewrite Hc.
  pose proof (write_conn_same data c (n_now n)) as Hw.
  destruct (write_conn data c (n_now n)) as [[[m e] c'] now']. destruct Hw as (Hr & Hd & Hlen).
  split; [done|]. apply good_conn; try done; [by rewrite Hr|by rewrite Hd].
Qed.

Lemma writeAll_triple t0 n0 k a fuel data :
  (length data <= fuel)%nat ->
  triple (good t0 n0 k a) (writeAll fuel data) (fun _ => good t0 n0 k a) (fun _ => good t0 n0 k a).
Proof.
  revert data. induction fuel as [|fuel IH]; intros [|b data] Hf; try (by apply triple_ret).
  { simpl in Hf. lia. }
  cbn [writeAll]. eapply triple_bind.
  { eapply triple_conseq; [apply Write_triple|done|intros ??; exact id|done]. }
  intros [m e]. apply triple_pre. intros Hm. destruct e; [by apply triple_fail|].
  case_decide; [by apply triple_fail|]. apply IH. rewrite length_drop. simpl in *. lia.
Qed.

Lemma writeFrame_triple t0 n0 k a p :
  triple (good t0 n0 k a) (writeFrame p) (fun _ => good t0 n0 k a) (fun _ => good t0 n0 k a).
Proof.
  unfold writeFrame. case_match; [by apply triple_fail|].
  eapply triple_bind; [by apply writeAll_triple|]. intros []. by apply writeAll_triple.
Qed.

Lemma ReadFull_triple t0 n0 k m :
  triple (good t0 n0 k true) (ReadFull m)
    (fun '(got, e) s => (length got <= m)%nat /\ (e = None -> length got = m /\ (m <= k)%nat) /\
       good t0 n0 (match e with None => k - m | Some _ => k end) true s) (fun _ _ => False).
Proof.
  intros [t n] (Hok&Hs&Hm&Hn&c&Hc&Hk&Ha). unfold ReadFull, on_conn. rewrite Hc.
  destruct (c_closed c).
  { case_decide; simpl; (split; [lia|]; split; [intros; split; lia || done|]);
      apply good_conn; try done; lia. }
  specialize (Ha eq_refl). destruct (c_deadline c) as [d|] eqn:Hd; [|done].
  pose proof (read_full_size (c_rx c) (Some d) (n_now n) m) as Hsize.
  pose proof (read_full_length (c_rx c) (Some d) (n_now n) m) as Hlen.
  pose proof (read_full_returns (c_rx c) d (n_now n) m) as Hret.
  destruct (read_full _ _ _ _) as [[[got o] rest] now']. simpl in *.
  destruct Hlen as [Hl1 Hl2].
  destruct o as [[]|e| |]; simpl in *; try done; [|case_decide];
    (split; [done|]; split; [intros ?; try done|apply good_conn];
     try done; simpl; try rewrite Hd; try done).
  all: try specialize (Hl1 eq_refl); lia.
Qed.

(** Use the triple of the next call. *)
Ltac tstep L :=
  eapply triple_bind; [eapply triple_conseq; [apply L|done|intros ??; exact id|done]|].

Lemma readFrameSize_triple t0 n0 k max :
  triple (good t0 n0 k true) (readFrameSize max)
    (fun v s => 0 <= v <= to_uint32 max /\ (4 <= k)%nat /\ good t0 n0 (k - 4) true s)
    (fun _ => good t0 n0 k true).
Proof.
  unfold readFrameSize. tstep ReadFull_triple.
  intros [header e]. apply triple_pre. intros _. apply triple_pre. intros Hlen.
  destruct e as [e|]; [by apply triple_fail|]. destruct (Hlen eq_refl) as [Hl Hk].
  unfold frameHeaderSize in *.
  destruct header as [|b0 [|b1 [|b2 [|b3 [|??]]]]]; try (simpl in Hl; lia).
  pose proof (Uint32_range b0 b1 b2 b3) as Hr. unfold uint in Hr.
  destruct (Z.ltb_spec (to_uint32 max) (Uint32 b0 b1 b2 b3)).
  - apply triple_fail. intros s Hs. eapply good_mono; [done|lia].
  - apply triple_ret. intros s Hs. split_and!; (done || lia).
Qed.

Lemma readFrameInto_triple t0 n0 k max buffer :
  to_uint32 max <= Z.of_nat (length buffer) ->
  triple (good t0 n0 k true) (readFrameInto max buffer)
    (fun '(buffer', r) s => length buffer' = length buffer /\
       match r with
       | inl _ => exists k', (k' < k)%nat /\ good t0 n0 k' true s
       | inr _ => good t0 n0 k true s
       end)
    (fun _ _ => False).
Proof.
  intros Hb. unfold readFrameInto. eapply triple_bind.
  { apply triple_catch, readFrameSize_triple. }
  intros [v|e]; [|by apply triple_ret]. apply triple_pre. intros Hv. apply triple_pre. intros Hk.
  rewrite (proj2 (Z.ltb_ge _ _)) by lia. tstep ReadFull_triple.
  intros [got e]. apply triple_pre. intros _. apply triple_pre. intros Hlen.
  destruct e as [e|]; apply triple_ret; intros s Hs; (split; [apply length_overwrite|]).
  - eapply good_mono; [done|lia].
  - exists (k - 4 - Z.to_nat v)%nat. split; [lia|done].
Qed.

Lemma next_pick_same n : same_net n (next_pick n).2.
Proof. unfold next_pick. by destruct (n_picks n). Qed.

Lemma same_net_trans n1 n2 n3 : same_net n1 n2 -> same_net n2 n3 -> same_net n1 n3.
Proof. intros [??] [??]. split; congruence. Qed.

Lemma bufferPool_Get_triple t0 n0 k a :
  triple (good t0 n0 k a) bufferPool_Get
    (fun b s => Z.of_nat (length b) = tcp_maxMessageSize t0 /\ good t0 n0 k a s) (fun _ _ => False).
Proof.
  intros [t n] ([Hp Hz]&Hs&Hm&Hn&Hc). unfold bufferPool_Get. pose proof (next_pick_same n) as Hn'. destruct (next_pick n) as [pick n'].
  destruct (bytesPool_Get_ok pick _ Hp) as (Hb & Hp' & Hz').
  destruct (bytesPool_Get pick (tcp_bufferPool t)) as [b p]. simpl in *.
  split; [rewrite Hb, length_zeros; congruence|].
  split_and!; [split; [done|simpl; congruence]|done|done|by eapply same_net_trans|done].
Qed.

Lemma bufferPool_Put_triple t0 n0 k a b :
  Z.of_nat (length b) = tcp_maxMessageSize t0 ->
  triple (good t0 n0 k a) (bufferPool_Put b) (fun _ => good t0 n0 k a) (fun _ _ => False).
Proof.
  intros Hb [t n] ([Hp Hz]&Hs&Hm&Hn&Hc). simpl.
  destruct (bytesPool_Put_ok b _ Hp) as [Hp' Hz']; [lia|].
  split_and!; [split; [done|simpl; congruence]|done|done|done|done].
Qed.

Lemma setDeadline_triple t0 n0 k a ctx :
  triple (good t0 n0 k a) (setDeadline ctx) (fun _ => good t0 n0 k true) (fun _ => good t0 n0 k false).
Proof. intros [t n] Hs. by apply SetDeadline_triple with (a := a). Qed.

Lemma good_false t0 n0 k a s : good t0 n0 k a s -> good t0 n0 k false s.
Proof. intros. by eapply good_weaken. Qed.

Lemma start_request_triple t0 n0 k a ctx req :
  triple (good t0 n0 k a) (start_request ctx req) (fun _ => good t0 n0 k true) (fun _ => good t0 n0 k false).
Proof.
  unfold start_request. eapply triple_bind.
  { instantiate (1 := fun _ => good t0 n0 k a). by intros [t n]. }
  intros t. case_match.
  { apply triple_fail. intros ?. apply good_false. }
  eapply triple_bind; [apply triple_map_error; by apply setDeadline_triple|].
  intros []. apply triple_map_error. eapply triple_conseq; [apply writeFrame_triple|done|done|].
  intros ??. apply good_false.
Qed.

Lemma self_triple t0 n0 k a :
  triple (good t0 n0 k a) self
    (fun t s => tcp_maxMessageSize t = tcp_maxMessageSize t0 /\ good t0 n0 k a s) (fun _ _ => False).
Proof. intros [t n] Hs. split; [by destruct Hs as (_&_&?&_)|done]. Qed.

Lemma to_uint32_le m : 0 <= m -> to_uint32 m <= m.
Proof. intros. unfold to_uint32. apply Z.mod_le; lia. Qed.

Lemma max_fits m (b : bytes) : Z.of_nat (length b) = m -> to_uint32 m <= Z.of_nat (length b).
Proof. intros <-. apply to_uint32_le. lia. Qed.

Lemma Send_triple t0 n0 k a ctx req :
  triple (good t0 n0 k a) (Send ctx req) (fun _ => good t0 n0 k false) (fun _ => good t0 n0 k false).
Proof.
  unfold Send. eapply triple_bind; [apply start_request_triple|]. intros [].
  tstep bufferPool_Get_triple. intros response. apply triple_pre. intros Hb.
  tstep self_triple. intros t. apply triple_pre. intros Ht.
  tstep (readFrameInto_triple t0 n0 k (tcp_maxMessageSize t) response);
    [rewrite Ht; by apply max_fits|].
  intros [response' message]. apply triple_pre. intros Hb'. eapply triple_bind.
  { eapply triple_conseq;
      [apply (bufferPool_Put_triple t0 n0 k true response'); lia| |intros ??; exact id|done].
    destruct message; [|done]. intros s (k' & ? & Hs). eapply good_mono; [done|lia]. }
  intros []. destruct message; [apply triple_ret|apply triple_fail]; intros ?; apply good_false.
Qed.

(** ** The receive loops *)

Lemma Stream_loop_triple {H} t0 n0 k a fuel ctx (handle : handler H bytes) h response :
  (k < fuel)%nat -> Z.of_nat (length response) = tcp_maxMessageSize t0 ->
  triple (good t0 n0 k a) (Stream_loop fuel ctx handle h response)
    (fun '(_, response', _) s => Z.of_nat (length response') = tcp_maxMessageSize t0 /\
                                 good t0 n0 k false s)
    (fun _ _ => False).
Proof.
  revert k a h response. induction fuel as [|fuel IH]; intros k a h response Hk Hb; [lia|].
  cbn [Stream_loop]. eapply triple_bind; [apply triple_catch, setDeadline_triple|].
  intros [[]|e]; [|by apply triple_ret].
  tstep self_triple. intros t. apply triple_pre. intros Ht.
  tstep (readFrameInto_triple t0 n0 k (tcp_maxMessageSize t) response);
    [rewrite Ht; by apply max_fits|].
  intros [response' message]. apply triple_pre. intros Hb'.
  destruct message as [m|e]; [|apply triple_ret; intros ??; split; [lia|by eapply good_false]].
  apply triple_exists. intros k'. apply triple_pre. intros Hk'.
  destruct (handle h m) as [h' [e|]].
  - apply triple_ret. intros s Hs. split; [lia|]. eapply good_weaken; [done|lia].
  - eapply triple_conseq; [apply (IH k' true)|done| |done]; [lia|lia|].
    intros [[??]?] s [??]. split; [done|]. eapply good_mono; [done|lia].
Qed.

Lemma SendChunked_loop_triple t0 n0 k a fuel ctx body response :
  (k < fuel)%nat -> Z.of_nat (length response) = tcp_maxMessageSize t0 ->
  triple (good t0 n0 k a) (SendChunked_loop fuel ctx body response)
    (fun '(response', _) s => Z.of_nat (length response') = tcp_maxMessageSize t0 /\
                              good t0 n0 k false s)
    (fun _ _ => False).
Proof.
  revert k a body response. induction fuel as [|fuel IH]; intros k a body response Hk Hb; [lia|].
  cbn [SendChunked_loop]. eapply triple_bind; [apply triple_catch, setDeadline_triple|].
  intros [[]|e]; [|by apply triple_ret].
  tstep self_triple. intros t. apply triple_pre. intros Ht.
  tstep (readFrameInto_triple t0 n0 k (tcp_maxMessageSize t) response);
    [rewrite Ht; by apply max_fits|].
  intros [response' message]. apply triple_pre. intros Hb'.
  destruct message as [m|e]; [|apply triple_ret; intros ??; split; [lia|by eapply good_false]].
  apply triple_exists. intros k'. apply triple_pre. intros Hk'.
  assert (Hret : forall r : bytes + error, triple (good t0 n0 k' true)
            (mret (response', r) : T (bytes * (bytes + error)))
            (fun '(response', _) s => Z.of_nat (length response') = tcp_maxMessageSize t0 /\
                                      good t0 n0 k false s) (fun _ _ => False)).
  { intros r. apply triple_ret. intros s Hs. split; [lia|]. eapply good_weaken; [done|lia]. }
  destruct (IndexByte m respDelimiter); [|done].
  case_decide; [|by repeat case_decide].
  eapply triple_conseq; [apply (IH k' true)|done| |done]; [lia|lia|].
  intros [response2 r2] s [??]. split; [done|]. eapply good_mono; [done|lia].
Qed.

(** The fuel of a loop covers the script the connection has left. *)
Lemma loop_fuel_triple t0 n0 k a :
  triple (good t0 n0 k a) loop_fuel
    (fun fuel s => exists k', (k' < fuel)%nat /\ (k' <= k)%nat /\ good t0 n0 k' a s) (fun _ _ => False).
Proof.
  intros [t n] (?&?&?&?&c&Hc&?&?). unfold loop_fuel, gets. rewrite Hc.
  exists (rx_size (c_rx c)). split_and!; [lia|done|]. split_and!; [done..|]. by exists c.
Qed.

Lemma Stream_triple {H} t0 n0 k a ctx req (handle : handler H bytes) h :
  triple (good t0 n0 k a) (Stream ctx req handle h) (fun _ => good t0 n0 k false) (fun _ _ => False).
Proof.
  unfold Stream. eapply triple_bind; [apply triple_catch, start_request_triple|].
  intros [[]|e]; [|by apply triple_ret].
  tstep bufferPool_Get_triple. intros response. apply triple_pre. intros Hb.
  tstep loop_fuel_triple. intros fuel. apply triple_exists. intros k'.
  apply triple_pre. intros Hf. apply triple_pre. intros Hk.
  tstep (Stream_loop_triple (H := H) t0 n0 k' true fuel); [done|done|].
  intros [[h' response'] e]. apply triple_pre. intros Hb'.
  tstep (bufferPool_Put_triple t0 n0 k' false response'); [done|].
  intros []. apply triple_ret. intros s Hs. eapply good_mono; [done|lia].
Qed.

Lemma SendChunked_triple t0 n0 k a ctx req :
  triple (good t0 n0 k a) (SendChunked ctx req) (fun _ => good t0 n0 k false) (fun _ => good t0 n0 k false).
Proof.
  unfold SendChunked. eapply triple_bind; [apply start_request_triple|]. intros [].
  tstep bufferPool_Get_triple. intros response. apply triple_pre. intros Hb.
  tstep loop_fuel_triple. intros fuel. apply triple_exists. intros k'.
  apply triple_pre. intros Hf. apply triple_pre. intros Hk.
  tstep (SendChunked_loop_triple t0 n0 k' true fuel); [done|done|].
  intros [response' result]. apply triple_pre. intros Hb'.
  tstep (bufferPool_Put_triple t0 n0 k' false response'); [done|].
  intros []. destruct result; [apply triple_ret|apply triple_fail];
    intros s Hs; (eapply good_mono; [done|lia]).
Qed.

(** ** Connecting *)

Definition consistent (t0 : TCPClient) (s : TCPClient * net) : Prop :=
  tcp_ok s.1 /\ same_config t0 s.1.

Definition connected (t0 : TCPClient) (n0 : net) (s : TCPClient * net) : Prop :=
  consistent t0 s /\ same_net n0 s.2 /\ is_Some (tcp_connection s.1).

Lemma connected_good t0 n0 s :
  connected t0 n0 s -> exists t1 k, same_config t0 t1 /\ good t1 n0 k false s.
Proof.
  destruct s as [t n]. intros ([Hok Hs] & Hn & [c Hc]). exists t, (rx_size (c_rx c)). split; [done|].
  split_and!; [done|apply same_config_refl|done|done|]. exists c. by split_and!.
Qed.

Lemma good_connected t0 t1 n0 k a s : same_config t0 t1 -> good t1 n0 k a s -> connected t0 n0 s.
Proof.
  destruct s as [t n]. intros (A1&A2&A3&A4) (Hok&(B1&B2&B3&B4)&_&Hn&c&Hc&_).
  unfold connected, consistent. simpl. split_and!; [done|split_and!; congruence|done|by exists c].
Qed.

(** An exchange from a connected client, in terms of [connected] alone. *)
Lemma connected_triple {A} t0 n0 (m : T A) :
  (forall t1 k, triple (good t1 n0 k false) m (fun _ => good t1 n0 k false)
                  (fun _ => good t1 n0 k false)) ->
  triple (connected t0 n0) m (fun _ => connected t0 n0) (fun _ => connected t0 n0).
Proof.
  intros Hm s Hs. destruct (connected_good t0 n0 s Hs) as (t1 & k & Ht & Hg).
  specialize (Hm t1 k s Hg).
  destruct (m s) as [[] s']; simpl in *; try done; by eapply good_connected.
Qed.

Lemma Send_connected t0 n0 ctx req :
  triple (connected t0 n0) (Send ctx req) (fun _ => connected t0 n0) (fun _ => connected t0 n0).
Proof. apply connected_triple. intros. apply Send_triple. Qed.

Lemma SendChunked_connected t0 n0 ctx req :
  triple (connected t0 n0) (SendChunked ctx req) (fun _ => connected t0 n0)
    (fun _ => connected t0 n0).
Proof. apply connected_triple. intros. apply SendChunked_triple. Qed.

Lemma Stream_connected {H} t0 n0 ctx req (handle : handler H bytes) h :
  triple (connected t0 n0) (Stream ctx req handle h) (fun _ => connected t0 n0)
    (fun _ => connected t0 n0).
Proof.
  apply connected_triple. intros. eapply triple_conseq; [apply Stream_triple|done|done|done].
Qed.

Lemma SetMax_triple t0 n0 size :
  0 <= size ->
  triple (connected t0 n0) (SetMaxMessageSizeUnsafe size)
    (fun _ s => connected t0 n0 s /\ tcp_maxMessageSize s.1 = size) (fun _ _ => False).
Proof.
  intros Hsz [t n] ([_ Hs] & Hn & [c Hc]). unfold SetMaxMessageSizeUnsafe, newBytesPool.
  rewrite (proj2 (Z.ltb_ge _ _)) by done. simpl in *. split; [|done].
  split_and!; [|done|by exists c]. split; [|done]. split; [|simpl; lia].
  split; [done|apply Forall_nil_2].
Qed.

(** The negotiated maximum is positive and fits 31 bits. *)
Definition negotiated (s : TCPClient * net) : Prop := 0 < tcp_maxMessageSize s.1 < 2 ^ 31.

Lemma hello_triple t0 n0 ctx :
  triple (connected t0 n0) (hello ctx) (fun _ s => connected t0 n0 s /\ negotiated s)
    (fun _ => connected t0 n0).
Proof.
  unfold hello. eapply triple_bind.
  { instantiate (1 := fun _ => connected t0 n0). by intros [t n]. }
  intros t. eapply triple_bind; [apply triple_map_error, Send_connected|]. intros resp.
  eapply triple_bind.
  { instantiate (1 := fun info s => parseHelloResponse resp = Ret info /\ connected t0 n0 s).
    intros s Hs. unfold map_error, lift. pose proof (parseHello_classified resp) as Hc.
    by destruct (parseHelloResponse resp) eqn:E. }
  intros info. apply triple_pre. intros Hi.
  destruct (decide (status info = ResponseStatusError)) as [Es|Es].
  { pose proof (parseHello_classified resp) as Hc. rewrite Hi in Hc.
    destruct Hc as [(Hs&_)|(_&_&e&He&_)]; [congruence|]. rewrite Es, He.
    case_match; by apply triple_fail. }
  pose proof (parseHello_success _ _ Hi Es) as Hm.
  destruct (status info); [| |done];
    (case_match; [by apply triple_fail|];
     eapply triple_conseq; [apply SetMax_triple; lia|done| |done];
     intros _ s [Hs Hmax]; split; [done|unfold negotiated; lia]).
Qed.

(** Every connection that was given up is closed. *)
Definition no_leak (n : net) : Prop := Forall (fun c => c_closed c = true) (n_dropped n).

(** The client's own connection, if any, is closed. *)
Definition conn_closed (t : TCPClient) : Prop :=
  forall c, tcp_connection t = Some c -> c_closed c = true.

Lemma dial_cases address cfg n :
  (exists e, (dial address cfg n).1 = Fail e /\ n_dropped (dial address cfg n).2 = n_dropped n /\
     (length (n_dials (dial address cfg n).2) <= length (n_dials n))%nat) \/
  (exists c, (dial address cfg n).1 = Ret c /\ n_dropped (dial address cfg n).2 = n_dropped n /\
     (length (n_dials (dial address cfg n).2) < length (n_dials n))%nat /\
     c_closed c = false /\ c_tx c = [] /\ c_addr c = address /\ c_tls c = cfg).
Proof.
  unfold dial. destruct (n_dials n) as [|[|] ?] eqn:E; simpl; rewrite ?E; [left|left|right];
    eexists; split_and!; try done; simpl; lia.
Qed.

(** At most [k] dials are left in the script. *)
Definition dials (k : nat) (s : TCPClient * net) : Prop := (length (n_dials s.2) <= k)%nat.

(** [had]: whether a connection was there before. *)
Lemma connect_triple t0 k (had : Prop) :
  triple (fun s => consistent t0 s /\ no_leak s.2 /\ conn_closed s.1 /\
            (had -> is_Some (tcp_connection s.1)) /\ dials k s)
    connect
    (fun _ s => consistent t0 s /\ no_leak s.2 /\ is_Some (tcp_connection s.1) /\ negotiated s /\
       dials (pred k) s /\ (0 < k)%nat)
    (fun _ s => consistent t0 s /\ no_leak s.2 /\ conn_closed s.1 /\
       (had -> is_Some (tcp_connection s.1)) /\ dials k s).
Proof.
  unfold dials. intros [t n] ([Hok Hs] & Hl & Hcl & Hhad & Hk). unfold connect, mbind, st_bind, self, gets, on_net. simpl in *.
  destruct (dial_cases (tcp_address t) (tcp_tlsConfig t) n) as [(e & E & Ed & Hd)|(c & E & Ed & Hd & _)];
    destruct (dial (tcp_address t) (tcp_tlsConfig t) n) as [o n'] eqn:En; simpl in *; rewrite E.
  { simpl. split; [by split|]. split; [unfold no_leak; simpl; by rewrite Ed|]. split_and!; [done|done|lia]. }
  set (n1 := mkNet _ _ _ _). set (t1 := set_connection (Some c) t).
  assert (Hl1 : no_leak n1).
  { unfold no_leak; simpl. rewrite Ed. destruct (tcp_connection t) eqn:Ec; [|done].
    constructor; [by apply Hcl|done]. }
  assert (Hc1 : connected t0 n1 (t1, n1)) by (split; [by split|split; [by split|by exists c]]).
  unfold catch. pose proof (hello_triple t0 n1 (context_WithTimeout (n_now n1) connectTimeout) _ Hc1) as Hh.
  destruct (hello _ _) as [[[]|e| |] [t2 n2]]; simpl in *; [| |done|done].
  - destruct Hh as ((Hco & [Hdl Hdr] & Hi) & Hng). simpl in Hdl, Hdr. split; [done|].
    split; [unfold no_leak in *; simpl in *; by rewrite Hdr|].
    split; [done|]. split; [done|]. rewrite Hdl. lia.
  - destruct Hh as (Hco & [Hdl Hdr] & [c2 Hc2]). simpl in Hc2, Hdl, Hdr. unfold Close_conn, on_conn.
    rewrite Hc2. simpl in *.
    destruct (c_closed c2); simpl;
      (split; [apply Hco|]; split; [unfold no_leak in *; simpl in *; by rewrite Hdr|];
       split; [by intros ? [= <-]|]; split; [intros _; by eexists|]; rewrite Hdl; lia).
Qed.

(** A client between two calls: its pool matches the message size, it has a
    connection, no connection was given up open; at most [k] dials are left. *)
Definition usable (t0 : TCPClient) (k : nat) (s : TCPClient * net) : Prop :=
  consistent t0 s /\ no_leak s.2 /\ is_Some (tcp_connection s.1) /\ dials k s.

Lemma usable_weaken t0 k k' s : usable t0 k s -> (k <= k')%nat -> usable t0 k' s.
Proof. intros (?&?&?&?) ?. unfold usable, dials in *. split_and!; try apply H; try done; lia. Qed.

Lemma Close_triple t0 k :
  triple (usable t0 k) Close (fun _ s => usable t0 k s /\ conn_closed s.1)
    (fun _ s => usable t0 k s /\ conn_closed s.1).
Proof.
  intros [t n] (Hco & Hl & [c Hc] & Hk). unfold Close, Close_conn, on_conn. simpl in *. rewrite Hc.
  destruct (c_closed c); simpl;
    (split; [split; [apply Hco|split; [apply Hl|split; [by eexists|done]]]|by intros ? [= <-]]).
Qed.

(** A reconnection that succeeds used up a dial. *)
Lemma Reconnect_triple t0 k :
  triple (usable t0 k) Reconnect
    (fun _ s => usable t0 (pred k) s /\ (0 < k)%nat /\ negotiated s) (fun _ => usable t0 k).
Proof.
  unfold Reconnect. eapply triple_bind.
  - eapply triple_conseq; [apply triple_catch, (Close_triple t0 k)|done| |done].
    intros r s H. instantiate (1 := fun _ s => usable t0 k s /\ conn_closed s.1). by destruct r.
  - intros r. eapply triple_conseq; [apply (connect_triple t0 k True)| | |].
    + intros s ((?&?&?&?)&?). by split_and!.
    + intros a s (?&?&?&?&?&?). split; [split; [done|by split]|done].
    + intros e s (?&?&?&?&?). split; [done|]. split; [done|auto].
Qed.

(** An exchange keeps a client usable. *)
Lemma connected_usable {A} t0 k (m : T A) :
  (forall n0, triple (connected t0 n0) m (fun _ => connected t0 n0) (fun _ => connected t0 n0)) ->
  triple (usable t0 k) m (fun _ => usable t0 k) (fun _ => usable t0 k).
Proof.
  intros Hm s (Hco & Hl & Hc & Hd). specialize (Hm s.2 s).
  assert (Hk : forall s', connected t0 s.2 s' -> usable t0 k s').
  { intros s' (?&[Hdl Hdr]&?). split; [done|]. split; [unfold no_leak in *; by rewrite Hdr|].
    split; [done|]. unfold dials in *. by rewrite Hdl. }
  destruct (m s) as [[] s'] eqn:E; simpl in *; try (apply Hk); by apply Hm; split_and!.
Qed.

(** ** Sequences of calls *)

Inductive tcp_call :=
  | CallSend (ctx : context) (request : bytes)
  | CallSendChunked (ctx : context) (request : bytes)
  | CallStream {H} (ctx : context) (request : bytes) (handle : handler H bytes) (h : H)
  | CallReconnect
  | CallClose.

(** One call, its result or error ignored by the caller. *)
Definition tcp_run (c : tcp_call) : T () :=
  match c with
  | CallSend ctx request => catch (Send ctx request);; mret ()
  | CallSendChunked ctx request => catch (SendChunked ctx request);; mret ()
  | CallStream ctx request handle h => catch (Stream ctx request handle h);; mret ()
  | CallReconnect => catch Reconnect;; mret ()
  | CallClose => catch Close;; mret ()
  end.

Fixpoint tcp_runs (cs : list tcp_call) : T () :=
  match cs with
  | [] => mret ()
  | c :: cs => tcp_run c;; tcp_runs cs
  end.

Lemma ignore_triple {S A} (I : S -> Prop) (m : st S A) :
  triple I m (fun _ => I) (fun _ => I) ->
  triple I (catch m;; mret ()) (fun _ => I) (fun _ _ => False).
Proof.
  intros Hm. eapply triple_bind; [by apply triple_catch|]. intros r. apply triple_ret. by destruct r.
Qed.

Lemma tcp_run_triple t0 k c :
  triple (usable t0 k) (tcp_run c) (fun _ => usable t0 k) (fun _ _ => False).
Proof.
  destruct c; apply ignore_triple.
  - apply connected_usable. intros. apply Send_connected.
  - apply connected_usable. intros. apply SendChunked_connected.
  - apply connected_usable. intros. apply Stream_connected.
  - eapply triple_conseq; [apply Reconnect_triple|done| |done].
    intros ? s [Hu ?]. eapply usable_weaken; [done|lia].
  - eapply triple_conseq; [apply Close_triple|done| |]; by intros ?? [].
Qed.

Lemma tcp_runs_triple t0 k cs :
  triple (usable t0 k) (tcp_runs cs) (fun _ => usable t0 k) (fun _ _ => False).
Proof.
  induction cs as [|c cs IH]; [by apply triple_ret|].
  eapply triple_bind; [apply tcp_run_triple|]. by intros [].
Qed.

(** [NewTCPClient] by cases: the options fail or panic, or the client it
    builds connects or not. *)
Lemma NewTCPClient_spec address max idle opts n settings :
  applyOptions opts = Ret settings -> 0 <= max -> no_leak n ->
  exists p, newBytesPool max = Ret p /\
  let c := mkTCPClient None address max idle p (co_token settings) (co_tlsConfig settings) in
  match NewTCPClient address max idle opts n with
  | (Ret t, n') => connect (c, n) = (Ret (), (t, n')) /\ usable c (length (n_dials n)) (t, n') /\ negotiated (t, n')
  | (Fail e, n') => no_leak n'
  | _ => False
  end.
Proof.
  intros Ho Hm Hl. unfold NewTCPClient. rewrite Ho. unfold newBytesPool.
  rewrite (proj2 (Z.ltb_ge _ _)) by done. eexists. split; [done|]. simpl.
  set (c := mkTCPClient _ _ _ _ _ _ _). pose proof (connect_triple c (length (n_dials n)) False (c, n)) as H.
  assert (Hc : consistent c (c, n)).
  { split; [|apply same_config_refl]. split; [split; [done|apply Forall_nil_2]|simpl; lia]. }
  specialize (H ltac:(split; [done|]; split_and!; try done; unfold dials; simpl; lia)).
  destruct (connect (c, n)) as [[[]|e| |] [t n']]; simpl in *; [|  |done|done].
  - destruct H as (?&?&?&?&?&?). split; [done|]. split; [|done].
    split; [done|]. split_and!; [done|done|]. unfold dials in *. lia.
  - destruct H as (Hco&Hl'&Hcl&_&_). unfold no_leak in *. simpl.
    destruct (tcp_connection t) eqn:E; [|done]. constructor; [by apply Hcl|done].
Qed.
