(* ===== verification/TcpWire.v ===== *)
(** * TcpWire: what a client puts on the wire

    [wire s] is what the peer of the client's connection can observe: the bytes
    sent, the address and TLS configuration it was dialled with, whether it is
    closed.  Reading never changes it; a request that returns added exactly one
    frame.  The handshake theorem follows: a connection that [connect] or
    [Reconnect] hands out was dialled with the client's address and TLS
    configuration and has sent the HELLO request with the client's token and
    nothing else. *)

From S2P Require Import Prelude.
From S2P Require Import GoStd.
From S2P Require Import Strconv.
From S2P Require Import Types.
From S2P Require Import Commands.
From S2P Require Import Response.
From S2P Require Import ResponseFacts.
From S2P Require Import Options.
From S2P Require Import Pools.
From S2P Require Import Net.
From S2P Require Import Tcp.
From S2P Require Import TcpFacts.
From S2P Require Import TcpSafe.

Definition wire (s : TCPClient * net) : option (bytes * bytes * option tls_Config * bool) :=
  (fun c => (c_tx c, c_addr c, c_tls c, c_closed c)) <$> tcp_connection s.1.

(** ** Operations that leave the wire alone *)

Definition keeps {A} (m : T A) : Prop := forall s, wire (m s).2 = wire s.

Lemma keeps_ret {A} (a : A) : keeps (mret a).
Proof. done. Qed.

Lemma keeps_fail {A} e : keeps (@fail _ A e).
Proof. done. Qed.

Lemma keeps_panic {A} : keeps (@panic _ A).
Proof. done. Qed.

Lemma keeps_lift {A} (o : outcome A) : keeps (lift o).
Proof. done. Qed.

Lemma keeps_gets {A} (f : TCPClient * net -> A) : keeps (gets f).
Proof. done. Qed.

Lemma keeps_get : keeps get.
Proof. done. Qed.

Lemma keeps_bind {A B} (m : T A) (f : A -> T B) : keeps m -> (forall a, keeps (f a)) -> keeps (m ≫= f).
Proof.
  intros Hm Hf s. unfold mbind, st_bind. specialize (Hm s).
  destruct (m s) as [[a|e| |] s1]; simpl in *; [|done..]. by rewrite Hf.
Qed.

Lemma keeps_catch {A} (m : T A) : keeps m -> keeps (catch m).
Proof. intros Hm s. unfold catch. specialize (Hm s). by destruct (m s) as [[] ?]. Qed.

Lemma keeps_map_error {A} f (m : T A) : keeps m -> keeps (map_error f m).
Proof. intros Hm s. unfold map_error. specialize (Hm s). by destruct (m s) as [[] ?]. Qed.

Lemma keeps_ReadFull k : keeps (ReadFull k).
Proof.
  intros [t n]. unfold ReadFull, on_conn, wire. simpl. destruct (tcp_connection t) as [c|] eqn:E.
  - destruct (c_closed c) eqn:Ec; [case_decide; simpl; by rewrite Ec|].
    destruct (read_full _ _ _ _) as [[[??]?]?]. simpl. by rewrite Ec.
  - simpl. by rewrite E.
Qed.

Lemma keeps_SetDeadline d : keeps (SetDeadline d).
Proof.
  intros [t n]. unfold SetDeadline, on_conn, wire. simpl. destruct (tcp_connection t) as [c|] eqn:E.
  - destruct (c_closed c) eqn:Ec; simpl; by rewrite ?Ec.
  - simpl. by rewrite E.
Qed.

Lemma keeps_bufferPool_Get : keeps bufferPool_Get.
Proof.
  intros [t n]. unfold bufferPool_Get. destruct (next_pick n).
  by destruct (bytesPool_Get _ _).
Qed.

Lemma keeps_bufferPool_Put b : keeps (bufferPool_Put b).
Proof. by intros [t n]. Qed.

Lemma keeps_modify (f : TCPClient * net -> TCPClient * net) :
  (forall s, tcp_connection (f s).1 = tcp_connection s.1) -> keeps (modify f).
Proof. intros H s. unfold wire. simpl. by rewrite H. Qed.

#[export] Hint Resolve keeps_ret keeps_fail keeps_panic keeps_lift keeps_gets keeps_get keeps_bind
  keeps_catch keeps_map_error keeps_ReadFull keeps_SetDeadline keeps_bufferPool_Get
  keeps_bufferPool_Put : fq.

(** Decompose a method along its binds and matches. *)
Ltac keeps :=
  repeat (intros; first
    [ assumption | solve [auto with fq nocore]
    | apply keeps_bind | apply keeps_catch | apply keeps_map_error
    | match goal with |- keeps (match ?x with _ => _ end) => destruct x end ]).

Lemma keeps_readFrameInto max b : keeps (readFrameInto max b).
Proof. unfold readFrameInto, readFrameSize. keeps. Qed.

Lemma keeps_setDeadline ctx : keeps (setDeadline ctx).
Proof. unfold setDeadline. keeps. Qed.

#[export] Hint Resolve keeps_readFrameInto keeps_setDeadline : fq.

Lemma keeps_SetMax size : keeps (SetMaxMessageSizeUnsafe size).
Proof.
  unfold SetMaxMessageSizeUnsafe. apply keeps_bind; [by apply keeps_modify; intros []|].
  intros. apply keeps_bind; [keeps|]. intros. by apply keeps_modify; intros [].
Qed.

#[export] Hint Resolve keeps_SetMax : fq.

(** ** Operations that send *)

(** When [m] returns a value it has added exactly [x] to the bytes sent. *)
Definition writes {A} (m : T A) (x : bytes) : Prop :=
  forall s a s' tx ad tls cl, wire s = Some (tx, ad, tls, cl) -> m s = (Ret a, s') ->
    wire s' = Some (tx ++ x, ad, tls, cl).

Lemma writes_nil {A} (m : T A) : keeps m -> writes m [].
Proof. intros Hm s a s' tx ad tls cl Hw E. rewrite app_nil_r, <- Hw, <- (Hm s). by rewrite E. Qed.

Lemma writes_bind {A B} (m : T A) (f : A -> T B) x y :
  writes m x -> (forall a, writes (f a) y) -> writes (m ≫= f) (x ++ y).
Proof.
  intros Hm Hf s b s' tx ad tls cl Hw. unfold mbind, st_bind.
  destruct (m s) as [[a|e| |] s1] eqn:E; try done. intros E'. rewrite app_assoc.
  eapply Hf; [|done]. by eapply Hm.
Qed.

Lemma writes_keeps_bind {A B} (m : T A) (f : A -> T B) y :
  keeps m -> (forall a, writes (f a) y) -> writes (m ≫= f) y.
Proof. intros Hm Hf. apply (writes_bind m f [] y); [by apply writes_nil|done]. Qed.

Lemma writes_bind_keeps {A B} (m : T A) (f : A -> T B) x :
  writes m x -> (forall a, keeps (f a)) -> writes (m ≫= f) x.
Proof.
  intros Hm Hf. rewrite <- (app_nil_r x). apply writes_bind; [done|]. intros. by apply writes_nil.
Qed.

Lemma writes_fail {A} e x : writes (@fail _ A e) x.
Proof. by intros s a s' tx ad tls cl _ [=]. Qed.

Lemma writes_map_error {A} f (m : T A) x : writes m x -> writes (map_error f m) x.
Proof.
  intros Hm s a s' tx ad tls cl Hw. unfold map_error.
  destruct (m s) as [[b|e| |] s1] eqn:E; try done. intros [= <- <-]. by eapply Hm.
Qed.

(** A write reports how much of the data went out. *)
Lemma Write_wire data s k err s' tx ad tls cl :
  wire s = Some (tx, ad, tls, cl) -> Write data s = (Ret (k, err), s') ->
  (k <= length data)%nat /\ wire s' = Some (tx ++ take k data, ad, tls, cl).
Proof.
  destruct s as [t n]. unfold wire, Write, on_conn, write_conn. simpl.
  destruct (tcp_connection t) as [c|] eqn:E; [|done]. simpl. intros [= <- <- <- <-].
  destruct (c_closed c) eqn:Ec; [intros [= <- <- <-]; simpl; by rewrite Ec, take_0, app_nil_r; split; [lia|]|].
  destruct (past _ _); [intros [= <- <- <-]; simpl; by rewrite Ec, take_0, app_nil_r; split; [lia|]|].
  destruct (c_wr c) as [|[w j|w j e] ws].
  - intros [= <- <- <-]. simpl. by rewrite Ec, firstn_all.
  - destruct (past _ _); intros [= <- <- <-]; simpl; rewrite Ec, ?take_0, ?app_nil_r; split; (lia || done).
  - destruct (past _ _); intros [= <- <- <-]; simpl; rewrite Ec, ?take_0, ?app_nil_r; split; (lia || done).
Qed.

Lemma writeAll_writes fuel data : writes (writeAll fuel data) data.
Proof.
  revert data. induction fuel as [|fuel IH]; intros [|b data]; try (apply writes_nil; done); [done|].
  intros s a s' tx ad tls cl Hw. cbn [writeAll]. unfold mbind, st_bind.
  destruct (Write (b :: data) s) as [[[k err]|e| |] s1] eqn:E; try done.
  destruct (Write_wire _ _ _ _ _ _ _ _ _ Hw E) as [Hk Hw1].
  destruct err; [done|]. case_decide; [done|]. intros E2.
  rewrite (IH _ _ _ _ _ _ _ _ Hw1 E2). by rewrite <- app_assoc, take_drop.
Qed.

Lemma writeFrame_writes p : Z.of_nat (length p) < 2 ^ 64 -> writes (writeFrame p) (frame p).
Proof.
  intros Hp. unfold writeFrame. rewrite to_uint64_id by (unfold uint; lia).
  destruct (Z.ltb_spec maxFramePayloadSize (Z.of_nat (length p))) as [|Hl]; [apply writes_fail|].
  unfold maxFramePayloadSize in Hl. rewrite to_uint32_id by (unfold uint; lia).
  apply writes_bind; [apply writeAll_writes|]. intros []. apply writeAll_writes.
Qed.

(** The request fits: its guard has compared it with the maximum. *)
Lemma start_request_writes ctx req :
  Z.of_nat (length req) < 2 ^ 64 -> writes (start_request ctx req) (frame req).
Proof.
  intros Hlen. unfold start_request. apply writes_keeps_bind; [apply keeps_gets|]. intros t.
  destruct (_ <? _); [apply writes_fail|].
  apply writes_keeps_bind; [keeps|]. intros []. by apply writes_map_error, writeFrame_writes.
Qed.

Lemma Send_writes ctx req : Z.of_nat (length req) < 2 ^ 64 -> writes (Send ctx req) (frame req).
Proof. intros Hlen. unfold Send. apply writes_bind_keeps; [by apply start_request_writes|keeps]. Qed.

Lemma keeps_SendChunked_loop fuel ctx body response : keeps (SendChunked_loop fuel ctx body response).
Proof.
  revert body response. induction fuel as [|fuel IH]; intros body response; [apply keeps_lift|].
  cbn [SendChunked_loop]. keeps.
Qed.

Lemma SendChunked_writes ctx req : Z.of_nat (length req) < 2 ^ 64 -> writes (SendChunked ctx req) (frame req).
Proof.
  intros Hlen. unfold SendChunked. apply writes_bind_keeps; [by apply start_request_writes|]. intros [].
  apply keeps_bind; [keeps|]. intros response. apply keeps_bind; [apply keeps_gets|]. intros fuel.
  apply keeps_bind; [apply keeps_SendChunked_loop|keeps].
Qed.

(** ** The handshake *)

(** The wire of a connection on which only the handshake has taken place. *)
Definition greeted (token address : bytes) (cfg : option tls_Config) (s : TCPClient * net) : Prop :=
  wire s = Some (frame (hello_request token), address, cfg, false).

(** A token whose HELLO request has a length the machine can represent. *)
Definition token_ok (token : bytes) : Prop := Z.of_nat (length (hello_request token)) < 2 ^ 64.

Lemma hello_wire ctx s s' a tx ad tls cl :
  token_ok (tcp_token s.1) -> wire s = Some (tx, ad, tls, cl) -> hello ctx s = (Ret a, s') ->
  wire s' = Some (tx ++ frame (hello_request (tcp_token s.1)), ad, tls, cl).
Proof.
  intros Ht Hw E. unfold hello, self in E. unfold mbind at 1, st_bind at 1, gets in E.
  eapply writes_bind_keeps in E; [exact E|by apply writes_map_error, Send_writes|intros; keeps|done].
Qed.

Lemma connect_wire s s' a :
  token_ok (tcp_token s.1) -> connect s = (Ret a, s') ->
  greeted (tcp_token s.1) (tcp_address s.1) (tcp_tlsConfig s.1) s'.
Proof.
  destruct s as [t n]. intros Ht. unfold connect, mbind, st_bind, self, gets, on_net. simpl in *.
  destruct (dial_cases (tcp_address t) (tcp_tlsConfig t) n)
    as [(e & E & _ & _)|(c & E & _ & _ & Hcl & Htx & Had & Htls)];
    destruct (dial (tcp_address t) (tcp_tlsConfig t) n) as [o n'] eqn:En; simpl in *; rewrite E; [done|].
  simpl. unfold catch. set (s1 := (set_connection (Some c) t, _)).
  destruct (hello _ s1) as [[[]|e| |] s2] eqn:Eh; [|by destruct (Close_conn s2) as [[] ?]|done|done].
  intros [= <- <-]. unfold greeted.
  eapply (hello_wire _ s1 s2 () [] (tcp_address t) (tcp_tlsConfig t) false) in Eh; [exact Eh|done|].
  unfold wire. simpl. congruence.
Qed.

Lemma Close_conn_config s : same_config s.1 ((catch Close_conn s).2).1.
Proof.
  destruct s as [t n]. unfold catch, Close_conn, on_conn. simpl.
  destruct (tcp_connection t) as [c|]; [|by split_and!]. by destruct (c_closed c); split_and!.
Qed.

Lemma Reconnect_wire s s' a :
  token_ok (tcp_token s.1) -> Reconnect s = (Ret a, s') ->
  greeted (tcp_token s.1) (tcp_address s.1) (tcp_tlsConfig s.1) s'.
Proof.
  intros Ht. unfold Reconnect, mbind, st_bind. pose proof (Close_conn_config s) as (Ha & _ & Htk & Htls).
  destruct (catch Close_conn s) as [[r|e| |] s1]; try done. simpl in *.
  intros E. rewrite <- Ha, <- Htk, <- Htls. apply (connect_wire _ _ a); [by rewrite Htk|done].
Qed.

(** ** Samples *)

Definition sample_hello : bytes :=
  frame (ok_frame (hello_fields (mkHelloInfo 1 64 true (str "rw")))).

(** A server that accepts a connection and answers the handshake. *)
Definition sample_dial : dialing := DialOk 5 [RxData 8 sample_hello] [].

Definition sample_start : net := mkNet 0 [sample_dial; sample_dial] [] [].

Definition sample_opts : list (option Option) := [Some (WithToken (str "secret"))].

Definition sample_new : outcome TCPClient * net :=
  NewTCPClient (str "db:1945") 4096 1000 sample_opts sample_start.


