(* ===== verification/TcpTheorems.v ===== *)
(** * TcpTheorems: what callers of the TCP client rely on

    The theorems about one exchange ([Send], [SendChunked], [Stream]) and about
    any sequence of calls on one client, each with a run on a sample
    connection. *)

From S2P Require Import Prelude.
From S2P Require Import GoStd.
From S2P Require Import Strconv.
From S2P Require Import Types.
From S2P Require Import Commands.
From S2P Require Import Response.
From S2P Require Import ResponseFacts.
From S2P Require Import Options.
From S2P Require Import Pools.
From S2P Require Import Net.
From S2P Require Import Tcp.
From S2P Require Import TcpFacts.
From S2P Require Import TcpSafe.
From S2P Require Import TcpWire.

(** ** Samples *)

Definition sample_conn (rxs : list rx) : conn :=
  mkConn rxs [WrOk 1 3] [] false None (str "db:1945") None.

Definition sample_tcp (rxs : list rx) : TCPClient :=
  mkTCPClient (Some (sample_conn rxs)) (str "db:1945") 64 1000
    (mkBytesPool 64 [] (zeros 64)) [] None.

Definition sample_net : net := mkNet 0 [] [] [].

(** Two replies that arrive in three pieces. *)
Definition sample_rx : list rx :=
  [RxData 5 (take 3 (frame (str "ok|7"))); RxData 9 (drop 3 (frame (str "ok|7")) ++ [x00]);
   RxData 20 (drop 1 (frame (str "ok|8")))].

Lemma sample_ready rxs : ready context_Background (sample_tcp rxs) sample_net (sample_conn rxs).
Proof.
  split; [split; [split; [done|apply Forall_nil_2]|done]|done|done|done|done|].
  constructor; [split; [done|lia]|constructor].
Qed.

(** ** One exchange *)

(** C5. [Send] implements "one frame out, one frame in": on a working
    connection it adds exactly the frame of the request to the bytes sent, and
    its result is decided by the bytes that arrive before the deadline, however
    the network cuts them: the payload of the first whole frame, and then
    exactly that frame is consumed and everything behind it is left for the
    next call; or [errFrameTooLarge] when its header announces more than the
    negotiated maximum; or the network's error, as a closed connection, and then the
    bytes that had arrived are consumed. *)
Theorem Send_exchange ctx req t n c :
  ready ctx t n c -> Z.of_nat (length req) <= tcp_maxMessageSize t ->
  let d := deadline ctx (tcp_idleTimeout t) (n_now n) in
  exists o t' n' c',
    Send ctx req (t, n) = (o, (t', n')) /\
    tcp_connection t' = Some c' /\ c_closed c' = false /\ c_tx c' = c_tx c ++ frame req /\
    writable d c' /\ tcp_ok t' /\ same_config t t' /\ tcp_maxMessageSize t' = tcp_maxMessageSize t /\
    send_outcome (tcp_maxMessageSize t) d (n_now n) (c_rx c) (c_rx c') (n_now n') o.
Proof. apply Send_spec. Qed.

Lemma Send_exchange_witness :
  exists t' n' c', Send context_Background (str "GET k 1") (sample_tcp sample_rx, sample_net)
    = (Ret (str "ok|7"), (t', n')) /\ tcp_connection t' = Some c' /\
    c_tx c' = frame (str "GET k 1") /\ available 2000 (c_rx c') = frame (str "ok|8").
Proof.
  destruct (Send_exchange context_Background (str "GET k 1") (sample_tcp sample_rx) sample_net
    (sample_conn sample_rx) (sample_ready _) ltac:(vm_compute; discriminate))
    as (o & t' & n' & c' & E & Hc & _ & Htx & _ & _ & _ & _ & Ho).
  exists t', n', c'. destruct Ho as (-> & Ha & _). split; [exact E|]. split; [exact Hc|].
  split; [exact Htx|]. exact (proj1 (Ha 2000 ltac:(vm_compute; discriminate))).
Defined.

(** C6. [SendChunked] reassembles a chunked reply: for any number of [nxt]
    frames followed by an [ok] frame it returns one [ok] response whose payload
    is the concatenation of the parts, in order; an [err] frame at the end
    replaces the parts; exactly those frames are consumed, within the loop's
    fuel. *)
Theorem SendChunked_reassembles ctx req t n c parts good final more :
  ready ctx t n c -> Z.of_nat (length req) <= tcp_maxMessageSize t ->
  available (deadline ctx (tcp_idleTimeout t) (n_now n)) (c_rx c)
  = next_frames parts ++ frame (closing good final) ++ more ->
  Forall (fits t) (joinStatusAndData frameStatusNext <$> parts) -> fits t (closing good final) ->
  exists t' n' c' d',
    SendChunked ctx req (t, n) = (Ret (chunked_reply good parts final), (t', n')) /\
    exchanged t c req (length (next_frames parts ++ frame (closing good final))) d' t' c' /\ in_force ctx t (n_now n) n' d'.
Proof. apply SendChunked_spec. Qed.

Definition sample_chunks : list rx :=
  [RxData 3 (next_frames [str "{"; str "a|b"] ++ frame (closing true (str "}")) ++ str "rest")].

Lemma SendChunked_reassembles_witness :
  exists t' n', SendChunked context_Background (str "INSPECT") (sample_tcp sample_chunks, sample_net)
    = (Ret (str "ok|{a|b}"), (t', n')).
Proof.
  destruct (SendChunked_reassembles context_Background (str "INSPECT") (sample_tcp sample_chunks)
    sample_net (sample_conn sample_chunks) [str "{"; str "a|b"] true (str "}") (str "rest")
    (sample_ready _) ltac:(vm_compute; discriminate) ltac:(vm_compute; reflexivity)
    ltac:(repeat constructor; vm_compute; discriminate) ltac:(vm_compute; discriminate))
    as (t' & n' & _ & _ & E & _).
  exists t', n'. exact E.
Defined.

(** C10. [Stream] hands the received frames to its callback one by one, in
    order, and ends with the callback's error as soon as it returns one: the
    frames behind the last one handled stay on the connection. *)
Theorem Stream_delivers {H} ctx req (handle : handler H bytes) h t n c ps seen h' e more :
  ready ctx t n c -> Z.of_nat (length req) <= tcp_maxMessageSize t ->
  available (deadline ctx (tcp_idleTimeout t) (n_now n)) (c_rx c) = frames ps ++ more ->
  Forall (fits t) ps -> feed handle h ps = Some (seen, h', e) ->
  exists t' n' c' d',
    Stream ctx req handle h (t, n) = (Ret (h', e), (t', n')) /\
    exchanged t c req (length (frames seen)) d' t' c' /\ in_force ctx t (n_now n) n' d'.
Proof. apply Stream_spec. Qed.

(** A callback that collects frames and gives up at the second one. *)
Definition sample_handler : handler (list bytes) bytes := fun h p =>
  (h ++ [p], match h with [] => None | _ => Some (EOther 1) end).

Definition sample_events : list rx := [RxData 3 (frames [str "ok|1"; str "ok|2"; str "ok|3"])].

Lemma Stream_delivers_witness :
  exists t' n', Stream context_Background (str "STREAM") sample_handler []
      (sample_tcp sample_events, sample_net)
    = (Ret ([str "ok|1"; str "ok|2"], EOther 1), (t', n')).
Proof.
  destruct (Stream_delivers context_Background (str "STREAM") sample_handler [] (sample_tcp sample_events)
    sample_net (sample_conn sample_events) [str "ok|1"; str "ok|2"; str "ok|3"]
    [str "ok|1"; str "ok|2"] [str "ok|1"; str "ok|2"] (EOther 1) []
    (sample_ready _) ltac:(vm_compute; discriminate) ltac:(vm_compute; reflexivity)
    ltac:(repeat constructor; vm_compute; discriminate) ltac:(vm_compute; reflexivity))
    as (t' & n' & _ & _ & E & _).
  exists t', n'. exact E.
Defined.

(** C31. A request longer than the negotiated maximum is refused by all three
    methods with the same error, before anything is sent, read or changed. *)
Theorem oversize_request_refused {H} ctx req (handle : handler H bytes) h t n :
  tcp_maxMessageSize t < Z.of_nat (length req) ->
  Send ctx req (t, n) = (Fail (request_too_large (tcp_maxMessageSize t)), (t, n)) /\
  SendChunked ctx req (t, n) = (Fail (request_too_large (tcp_maxMessageSize t)), (t, n)) /\
  Stream ctx req handle h (t, n) = (Ret (h, request_too_large (tcp_maxMessageSize t)), (t, n)).
Proof.
  intros Hl. unfold Send, SendChunked, Stream, start_request, mbind, st_bind, catch, self, gets. simpl.
  by rewrite (proj2 (Z.ltb_lt _ _)).
Qed.

Lemma oversize_request_refused_witness :
  (Send context_Background (zeros 65) (sample_tcp [], sample_net)).1 = Fail (request_too_large 64).
Proof.
  rewrite (proj1 (oversize_request_refused context_Background (zeros 65) sample_handler []
    (sample_tcp []) sample_net ltac:(vm_compute; reflexivity))).
  reflexivity.
Defined.

(** ** The life of a client *)


