(* ===== verification/ConnPool.v ===== *)
(** * ConnPool: the connection pool (conn_pool.go)

    The [world] holds the objects that are shared through pointers: the TCP
    clients and the connection pools live in tables and a pointer is an index
    ([None] for nil); [w_bufs] is the content of the package variable
    [bytesBufferPool].  [M] is the state and outcome monad over it.

    This file has the pool of one goroutine: a channel operation that would
    block, with nobody to unblock it, is [Hang].  The channel is its buffer, in
    FIFO order, with its capacity. *)

From S2P Require Import Prelude GoStd Options Pools Net Tcp.

(** [make(chan, size)], [sync.WaitGroup], [atomic.Bool] and the closure. *)
Record ConnectionPool := mkConnectionPool {
  cp_cap : nat; cp_connections : list (option nat); cp_chanClosed : bool;
  cp_wg : Z; cp_closed : bool; cp_newConn : st net TCPClient }.

Record world := mkWorld {
  w_net : net; w_clients : list TCPClient; w_bufs : list bytes; w_pools : list ConnectionPool }.

Abbreviation M := (st world).

Definition set_net (n : net) (w : world) : world := mkWorld n (w_clients w) (w_bufs w) (w_pools w).
Definition set_clients (cs : list TCPClient) (w : world) : world := mkWorld (w_net w) cs (w_bufs w) (w_pools w).
Definition set_bufs (bs : list bytes) (w : world) : world := mkWorld (w_net w) (w_clients w) bs (w_pools w).
Definition set_pools (ps : list ConnectionPool) (w : world) : world :=
  mkWorld (w_net w) (w_clients w) (w_bufs w) ps.

(** A method call on a TCP client through a pointer. *)
Definition on_client {A} (p : option nat) (m : T A) : M A := fun w =>
  match p ≫= (w_clients w !!.) with
  | Some t =>
      let '(o, (t', n')) := m (t, w_net w) in
      (o, set_net n' (set_clients (match p with Some i => <[i := t']> (w_clients w) | None => w_clients w end) w))
  | None => (Panic, w)
  end.

Lemma on_client_eq {A} i (m : T A) w t :
  w_clients w !! i = Some t ->
  on_client (Some i) m w =
  let '(o, (t', n')) := m (t, w_net w) in (o, set_net n' (set_clients (<[i := t']> (w_clients w)) w)).
Proof. intros H. unfold on_client. simpl. by rewrite H. Qed.

(** ** Fields of a pool *)

Definition set_connections (l : list (option nat)) (cp : ConnectionPool) : ConnectionPool :=
  mkConnectionPool (cp_cap cp) l (cp_chanClosed cp) (cp_wg cp) (cp_closed cp) (cp_newConn cp).
Definition set_wg (n : Z) (cp : ConnectionPool) : ConnectionPool :=
  mkConnectionPool (cp_cap cp) (cp_connections cp) (cp_chanClosed cp) n (cp_closed cp) (cp_newConn cp).
Definition set_closed (b : bool) (cp : ConnectionPool) : ConnectionPool :=
  mkConnectionPool (cp_cap cp) (cp_connections cp) (cp_chanClosed cp) (cp_wg cp) b (cp_newConn cp).
Definition set_chanClosed (cp : ConnectionPool) : ConnectionPool :=
  mkConnectionPool (cp_cap cp) (cp_connections cp) true (cp_wg cp) (cp_closed cp) (cp_newConn cp).

(** [cp.f] through a pointer to the pool. *)
Definition the_pool (p : nat) : M ConnectionPool := fun w =>
  match w_pools w !! p with Some cp => (Ret cp, w) | None => (Panic, w) end.

Definition update_pool (p : nat) (f : ConnectionPool -> ConnectionPool) : M () :=
  modify (fun w => set_pools (alter f p (w_pools w)) w).

(** [cp.wg.Add(1)] *)
Definition wg_Add (p : nat) : M () := update_pool p (fun cp => set_wg (cp_wg cp + 1) cp).

(** [cp.wg.Done()]; a negative counter panics. *)
Definition wg_Done (p : nat) : M () :=
  cp ← the_pool p;
  if cp_wg cp <=? 0 then panic else update_pool p (fun cp => set_wg (cp_wg cp - 1) cp).

(** [cp.newConn()]: a new TCP client in the table. *)
Definition newConn (cp : ConnectionPool) : M (option nat) := fun w =>
  match cp_newConn cp (w_net w) with
  | (Ret t, n') => (Ret (Some (length (w_clients w))), set_net n' (set_clients (w_clients w ++ [t]) w))
  | (Fail e, n') => (Fail e, set_net n' w)
  | (Panic, n') => (Panic, set_net n' w)
  | (Hang, n') => (Hang, set_net n' w)
  end.

(** ** Operations *)

(** [NewConnectionPool]; [make(chan, size)] panics on a negative size. *)
Definition NewConnectionPool (size : Z) (newConn : st net TCPClient) : M nat := fun w =>
  if size <? 0 then (Panic, w)
  else (Ret (length (w_pools w)),
        set_pools (w_pools w ++ [mkConnectionPool (Z.to_nat size) [] false 0 false newConn]) w).

(** The [select]: a buffered connection, nil from a closed and drained
    channel, otherwise the default branch. *)
Definition GetConnection (p : nat) : M (option nat) :=
  cp ← the_pool p;
  if cp_closed cp then fail ErrConnPoolClosed
  else
    match cp_connections cp with
    | conn :: rest =>
        update_pool p (set_connections rest);;
        wg_Add p;;
        mret conn
    | [] =>
        if cp_chanClosed cp then
          wg_Add p;;
          mret None
        else
          wg_Add p;;
          r ← catch (newConn cp);
          match r with
          | inr e => wg_Done p;; fail (EWrap "new connection: %w" [] e)
          | inl conn => mret conn
          end
    end.

(** [cp.connections <- conn] panics on a closed channel and blocks on a full
    one. *)
Definition ReleaseConnection (p : nat) (conn : option nat) : M () :=
  cp ← the_pool p;
  if cp_closed cp then mret ()
  else if cp_chanClosed cp then panic
  else if (cp_cap cp <=? length (cp_connections cp))%nat then lift Hang
  else
    update_pool p (fun cp => set_connections (cp_connections cp ++ [conn]) cp);;
    wg_Done p.

(** [for conn := range cp.connections { _ = conn.Close() }] *)
Fixpoint close_all (conns : list (option nat)) : M () :=
  match conns with
  | [] => mret ()
  | conn :: conns => catch (on_client conn Close);; close_all conns
  end.

(** [cp.wg.Wait()] blocks while the counter is positive; closing a closed
    channel panics. *)
Definition Close_pool (p : nat) : M () :=
  cp ← the_pool p;
  if 0 <? cp_wg cp then lift Hang
  else
    update_pool p (set_closed true);;
    (if cp_chanClosed cp then panic
     else
       update_pool p set_chanClosed;;
       update_pool p (set_connections []);;
       close_all (cp_connections cp)).

(** ** What the operations do to an open pool *)

Lemma alter_insert {A} (f : A -> A) (l : list A) i x : l !! i = Some x -> alter f i l = <[i := f x]> l.
Proof. revert i. induction l as [|a l IH]; intros [|i] H; simplify_eq/=; [done|]. f_equal. by apply IH. Qed.

Lemma update_pool_eq p f w cp :
  w_pools w !! p = Some cp -> update_pool p f w = (Ret (), set_pools (<[p := f cp]> (w_pools w)) w).
Proof. intros H. unfold update_pool, modify. by rewrite (alter_insert _ _ _ _ H). Qed.

Lemma the_pool_eq p w cp : w_pools w !! p = Some cp -> the_pool p w = (Ret cp, w).
Proof. intros H. unfold the_pool. by rewrite H. Qed.

Lemma pools_set_pools p cp cp0 w :
  w_pools w !! p = Some cp0 -> w_pools (set_pools (<[p := cp]> (w_pools w)) w) !! p = Some cp.
Proof. intros H. simpl. apply list_lookup_insert_eq. by eapply lookup_lt_Some. Qed.

Lemma set_pools_twice p cp cp' w :
  set_pools (<[p := cp']> (w_pools (set_pools (<[p := cp]> (w_pools w)) w)))
    (set_pools (<[p := cp]> (w_pools w)) w)
  = set_pools (<[p := cp']> (w_pools w)) w.
Proof. unfold set_pools. simpl. by rewrite list_insert_insert_eq. Qed.

(** Taking the oldest buffered connection. *)
Lemma GetConnection_buffered p w cp conn rest :
  w_pools w !! p = Some cp -> cp_closed cp = false -> cp_connections cp = conn :: rest ->
  GetConnection p w
  = (Ret conn, set_pools (<[p := set_wg (cp_wg cp + 1) (set_connections rest cp)]> (w_pools w)) w).
Proof.
  intros Hp Hc Hl. unfold GetConnection, mbind, st_bind. rewrite (the_pool_eq _ _ _ Hp), Hc, Hl.
  rewrite (update_pool_eq _ _ _ _ Hp). unfold wg_Add.
  by rewrite (update_pool_eq _ _ _ _ (pools_set_pools _ _ _ _ Hp)), set_pools_twice.
Qed.

(** Giving a connection back puts it behind the others. *)
Lemma ReleaseConnection_open p w cp conn :
  w_pools w !! p = Some cp -> cp_closed cp = false -> cp_chanClosed cp = false ->
  (length (cp_connections cp) < cp_cap cp)%nat -> 0 < cp_wg cp ->
  ReleaseConnection p conn w
  = (Ret (), set_pools (<[p := set_wg (cp_wg cp - 1) (set_connections (cp_connections cp ++ [conn]) cp)]>
               (w_pools w)) w).
Proof.
  intros Hp Hc Hch Hl Hw. unfold ReleaseConnection, mbind, st_bind.
  rewrite (the_pool_eq _ _ _ Hp), Hc, Hch, (proj2 (Nat.leb_gt _ _)) by done.
  rewrite (update_pool_eq _ _ _ _ Hp). unfold wg_Done, mbind, st_bind.
  rewrite (the_pool_eq _ _ _ (pools_set_pools _ _ _ _ Hp)). simpl cp_wg.
  rewrite (proj2 (Z.leb_gt _ _)) by done.
  by rewrite (update_pool_eq _ _ _ _ (pools_set_pools _ _ _ _ Hp)), set_pools_twice.
Qed.

(** A release into a full channel blocks. *)
Lemma ReleaseConnection_full p w cp conn :
  w_pools w !! p = Some cp -> cp_closed cp = false -> cp_chanClosed cp = false ->
  (cp_cap cp <= length (cp_connections cp))%nat -> ReleaseConnection p conn w = (Hang, w).
Proof.
  intros Hp Hc Hch Hl. unfold ReleaseConnection, mbind, st_bind.
  by rewrite (the_pool_eq _ _ _ Hp), Hc, Hch, (proj2 (Nat.leb_le _ _)) by done.
Qed.

(** With nothing buffered a new connection is made; a failure leaves the
    counter as it was. *)
Lemma GetConnection_empty p w cp :
  w_pools w !! p = Some cp -> cp_closed cp = false -> cp_chanClosed cp = false ->
  cp_connections cp = [] -> 0 <= cp_wg cp ->
  GetConnection p w =
  let w1 := set_pools (<[p := set_wg (cp_wg cp + 1) cp]> (w_pools w)) w in
  match cp_newConn cp (w_net w) with
  | (Ret t, n') =>
      (Ret (Some (length (w_clients w))), set_net n' (set_clients (w_clients w ++ [t]) w1))
  | (Fail e, n') =>
      (Fail (EWrap "new connection: %w" [] e),
       set_net n' (set_pools (<[p := set_wg (cp_wg cp + 1 - 1) cp]> (w_pools w)) w))
  | (Panic, n') => (Panic, set_net n' w1)
  | (Hang, n') => (Hang, set_net n' w1)
  end.
Proof.
  intros Hp Hc Hch Hl Hw. unfold GetConnection, mbind, st_bind.
  rewrite (the_pool_eq _ _ _ Hp), Hc, Hl, Hch. unfold wg_Add.
  rewrite (update_pool_eq _ _ _ _ Hp). unfold catch, newConn. simpl.
  destruct (cp_newConn cp (w_net w)) as [[t|e| |] n']; try done.
  unfold wg_Done, mbind, st_bind.
  set (w2 := set_net n' (set_pools _ _)).
  assert (Hp2 : w_pools w2 !! p = Some (set_wg (cp_wg cp + 1) cp)).
  { apply list_lookup_insert_eq. by eapply lookup_lt_Some. }
  rewrite (the_pool_eq _ _ _ Hp2). cbn [cp_wg set_wg]. rewrite (proj2 (Z.leb_gt (cp_wg cp + 1) 0)) by lia.
  rewrite (update_pool_eq _ _ _ _ Hp2). unfold fail, w2, set_pools, set_net. simpl.
  by rewrite list_insert_insert_eq.
Qed.
