(* ===== verification/Client.v ===== *)
(** * Client: the client API (client.go, and Inspect of inspect.go)

    A [Client] is the pointer to its pool.  Every method is the same handler
    with its own writer and parser: take a buffer from the shared buffer pool
    and write the command, take a connection, send with reconnection, parse,
    switch on the status; the deferred calls give the connection back and then
    the buffer.  [command] is that handler from the connection on; [with_buf]
    the buffer around it.

    The document decoder [json.Unmarshal] of Inspect is a parameter. *)

From S2P Require Import Prelude GoStd Strconv Types Commands Response Options Pools Net Tcp ConnPool.

Definition maxReconnectAttempts : nat := 16.

(** ** Sending with reconnection *)

Definition now : T Z := gets (fun '(_, n) => n_now n).

(** The [for attempt] loop shared by [sendWithReconnect] and
    [sendChunkedWithReconnect]; [send] is the method they call. *)
Fixpoint reconnect_loop (attempts : nat) (attempt : Z) (ctx : context) (send : T bytes)
    (lastErr : error) : T bytes :=
  match attempts with
  | O => fail (EWrap "reconnect attempts exceeded: %w" [] lastErr)
  | S attempts =>
      t ← now;
      match ctx_Err ctx t with
      | Some e => fail e
      | None =>
          r ← catch Reconnect;
          match r with
          | inr e =>
              reconnect_loop attempts (attempt + 1) ctx send
                (EWrap "reconnect attempt %d: %w" [FInt attempt] e)
          | inl _ =>
              r ← catch send;
              match r with
              | inl resp => mret resp
              | inr e =>
                  if negb (errors_Is e ErrConnClosed) then fail e
                  else reconnect_loop attempts (attempt + 1) ctx send e
              end
          end
      end
  end.

Definition with_reconnect (ctx : context) (send : T bytes) : T bytes :=
  r ← catch send;
  match r with
  | inl resp => mret resp
  | inr e =>
      if negb (errors_Is e ErrConnClosed) then fail e
      else reconnect_loop maxReconnectAttempts 1 ctx send e
  end.

Definition sendWithReconnect (ctx : context) (data : bytes) : T bytes :=
  with_reconnect ctx (Send ctx data).

Definition sendChunkedWithReconnect (ctx : context) (data : bytes) : T bytes :=
  with_reconnect ctx (SendChunked ctx data).

(** ** The shared parts of the methods *)

Definition Client : Type := nat.

(** [bytesBufferPool.Get()] and [bytesBufferPool.Put(buf)] *)
Definition bytesBufferPool_Get : M bytes := fun w =>
  let '(pick, n) := next_pick (w_net w) in
  let '(b, items) := bytesBuffer_Get pick (w_bufs w) in
  (Ret b, set_net n (set_bufs items w)).

Definition bytesBufferPool_Put (buf : bytes) : M () :=
  modify (fun w => set_bufs (bytesBuffer_Put buf (w_bufs w)) w).

(** [buf := bytesBufferPool.Get(); defer bytesBufferPool.Put(buf); write(buf)];
    the body gets [buf.Bytes()]. *)
Definition with_buf {R} (write : bytes -> bytes) (body : bytes -> M R) : M R :=
  buf ← bytesBufferPool_Get;
  let buf := write buf in
  finally (body buf) (bytesBufferPool_Put buf).

(** The switch on the status of a parsed response. *)
Definition result_of {A R} `{Zero R} (f : A -> R) (r : response A) : outcome R :=
  match status r with
  | ResponseStatusSuccess => Ret (f (payload r))
  | ResponseStatusError => match err r with Some e => Fail e | None => Ret zero end
  | ResponseStatusUnknown => Fail ErrUnknownRespStatus
  end.

Definition command {A R} `{Zero R} (c : Client) (send : T bytes)
    (parse : bytes -> outcome (response A)) (f : A -> R) : M R :=
  conn ← map_error (fun e => EWrap "get connection: %w" [] e) (GetConnection c);
  finally
    (resp ← map_error (fun e => EWrap "send: %w" [] e) (on_client conn send);
     result ← map_error (fun e => EWrap "parse response: %w" [] e) (lift (parse resp));
     lift (result_of f result))
    (ReleaseConnection c conn).

(** ** Construction *)

(** [for i := 0; i < poolSize; i++ { c, err := pool.GetConnection() ... }] *)
Fixpoint New_get (n : nat) (pool : nat) : M (list (option nat)) :=
  match n with
  | O => mret []
  | S n =>
      c ← GetConnection pool;
      cs ← New_get n pool;
      mret (c :: cs)
  end.

Fixpoint New_release (conns : list (option nat)) (pool : nat) : M () :=
  match conns with
  | [] => mret ()
  | conn :: conns => ReleaseConnection pool conn;; New_release conns pool
  end.

Definition New (address : bytes) (idleTimeout poolSize : Z) (opts : list (option Option)) : M Client :=
  pool ← NewConnectionPool poolSize (NewTCPClient address 4096 idleTimeout opts);
  conns ← New_get (Z.to_nat poolSize) pool;
  New_release conns pool;;
  mret pool.

Definition Close_client (c : Client) : M () := Close_pool c.

(** ** Counters *)

Definition id_value (v : Z) : Z := v.
Definition is_one (v : Z) : bool := v =? 1.

Definition Incr (c : Client) (ctx : context) (key : CappingKey) : M Z :=
  with_buf (fun buf => writeCommand buf CommandIncr key) (fun cmd =>
    command c (sendWithReconnect ctx cmd) parseResponse id_value).

Definition Get (c : Client) (ctx : context) (key : CappingKey) : M Z :=
  with_buf (fun buf => writeCommand buf CommandGet key) (fun cmd =>
    command c (sendWithReconnect ctx cmd) parseResponse id_value).

Definition Watch (c : Client) (ctx : context) (key : CappingKey) : M Z :=
  with_buf (fun buf => writeCommand buf CommandWatch key) (fun cmd =>
    command c (sendWithReconnect ctx cmd) parseResponse id_value).

Definition Del (c : Client) (ctx : context) (key : CappingKey) : M bool :=
  with_buf (fun buf => writeCommand buf CommandDel key) (fun cmd =>
    command c (sendWithReconnect ctx cmd) parseResponse is_one).

Definition MDel (c : Client) (ctx : context) (keys : list CappingKey) : M (list bool) :=
  with_buf (fun buf => writeMultiCommand buf CommandMDel keys) (fun cmd =>
    command c (sendWithReconnect ctx cmd) parseMultiResponse valuesToBools).

(** ** Rate limits *)

Definition rlimit (c : Client) (ctx : context) (cmd : bytes) : M RateLimitResult :=
  command c (sendWithReconnect ctx cmd) parseRateLimitResponse (fun r => r).

Definition RLimitFixedWindow (c : Client) (ctx : context) (key : LimitKey) (limit : Z) : M RateLimitResult :=
  with_buf (fun buf => writeRLimitWindowCommand buf RLimitAlgorithmFW key limit) (rlimit c ctx).

Definition RLimitSlidingWindow (c : Client) (ctx : context) (key : LimitKey) (limit : Z) : M RateLimitResult :=
  with_buf (fun buf => writeRLimitWindowCommand buf RLimitAlgorithmSW key limit) (rlimit c ctx).

Definition RLimitTokenBucket (c : Client) (ctx : context) (key : LimitKey) (capacity refillAmount : Z)
    : M RateLimitResult :=
  with_buf (fun buf => writeRLimitTokenBucketCommand buf key capacity refillAmount) (rlimit c ctx).

(** ** Quotas *)

Definition quotaAcquire (c : Client) (ctx : context) (cmd : bytes) : M QuotaAcquireResult :=
  command c (sendWithReconnect ctx cmd) parseQuotaAcquireResponse (fun r => r).

Definition boolCommand (c : Client) (ctx : context) (cmd : bytes) : M bool :=
  command c (sendWithReconnect ctx cmd) parseResponse is_one.

Definition quotaBool (c : Client) (ctx : context) (cmd : bytes) : M bool := boolCommand c ctx cmd.

Definition QuotaAcquire (c : Client) (ctx : context) (name : bytes) (amount : Z) (clientID : bytes)
    (ttl : list Z) : M QuotaAcquireResult :=
  with_buf (fun buf => writeQuotaAcquireCommand buf name amount clientID ttl) (quotaAcquire c ctx).

Definition QuotaAcquireLease (c : Client) (ctx : context) (name : bytes) (limit amount : Z)
    (clientID : bytes) (ttl : list Z) : M QuotaAcquireResult :=
  with_buf (fun buf => writeQuotaAcquireLeaseCommand buf name limit amount clientID ttl) (quotaAcquire c ctx).

Definition QuotaAcquireN (c : Client) (ctx : context) (name clientID : bytes) (ttl : list Z)
    : M QuotaAcquireResult :=
  with_buf (fun buf => writeQuotaAcquireNCommand buf name clientID ttl) (quotaAcquire c ctx).

Definition QuotaSet (c : Client) (ctx : context) (name : bytes) (limit : Z) : M bool :=
  with_buf (fun buf => writeQuotaSetCommand buf name limit) (quotaBool c ctx).

Definition QuotaSetN (c : Client) (ctx : context) (name : bytes) (limit clients : Z) : M bool :=
  with_buf (fun buf => writeQuotaSetNCommand buf name limit clients) (quotaBool c ctx).

Definition QuotaRelease (c : Client) (ctx : context) (name clientID : bytes) : M bool :=
  with_buf (fun buf => writeQuotaReleaseCommand buf name clientID) (quotaBool c ctx).

Definition QuotaDelete (c : Client) (ctx : context) (name : bytes) : M bool :=
  with_buf (fun buf => writeQuotaDeleteCommand buf name) (quotaBool c ctx).

Definition QuotaInfo_ (c : Client) (ctx : context) (name : bytes) : M QuotaInfo :=
  with_buf (fun buf => writeQuotaInfoCommand buf name) (fun cmd =>
    command c (sendWithReconnect ctx cmd) parseQuotaInfoResponse (fun r => r)).

(** ** Scans and whole-database commands *)

Definition scan (c : Client) (ctx : context) (cmd : bytes) : M ScanResult :=
  command c (sendWithReconnect ctx cmd) parseScanResponse (fun r => r).

Definition Scan (c : Client) (ctx : context) (cursor : bytes) (count : Z) : M ScanResult :=
  with_buf (fun buf => writeScanCommand buf cursor count) (scan c ctx).

Definition PScan (c : Client) (ctx : context) (prefix cursor : bytes) (count : Z) : M ScanResult :=
  with_buf (fun buf => writePScanCommand buf prefix cursor count) (scan c ctx).

Definition FlushDB (c : Client) (ctx : context) : M bool := boolCommand c ctx CommandFlushDB.

Definition Truncate (c : Client) (ctx : context) : M bool := boolCommand c ctx CommandTruncate.

(** ** Streams *)

(** The callback given to [conn.Stream].  The parsers neither panic nor loop
    ([parsers_classified]), so the last branch is dead. *)
Definition event_handler {H E} (parse : bytes -> outcome (response E)) (handle : handler H E)
    : handler H bytes := fun h resp =>
  match parse resp with
  | Ret result =>
      match status result with
      | ResponseStatusSuccess => handle h (payload result)
      | ResponseStatusError => (h, err result)
      | ResponseStatusUnknown => (h, Some (ESentinel ErrUnknownRespStatus))
      end
  | Fail e => (h, Some (EWrap "parse response: %w" [] e))
  | Panic | Hang => (h, Some (ESentinel ErrUnknownRespStatus))
  end.

(** The inner [for attempt] loop: [inl ()] when a reconnection succeeded,
    otherwise the error the stream ends with. *)
Fixpoint stream_reconnect (attempts : nat) (ctx : context) (reconnectErr : option error) : T (() + error) :=
  match attempts with
  | O =>
      mret (match reconnectErr with
            | Some e => inr (EWrap "stream reconnect attempts exceeded: %w" [] e)
            | None => inl ()
            end)
  | S attempts =>
      t ← now;
      match ctx_Err ctx t with
      | Some e => mret (inr e)
      | None =>
          r ← catch Reconnect;
          match r with
          | inl _ => mret (inl ())
          | inr e => stream_reconnect attempts ctx (Some e)
          end
      end
  end.

(** The outer [for] loop.  [conn.Stream] only ends with an error, so the branch
    [err == nil] is not taken. *)
Fixpoint stream_loop {H} (fuel : nat) (ctx : context) (cmd : bytes) (handle : handler H bytes) (h : H)
    : T (H * error) :=
  match fuel with
  | O => lift Hang
  | S fuel =>
      '(h, e) ← Stream ctx cmd handle h;
      t ← now;
      match ctx_Err ctx t with
      | Some ctxErr => mret (h, ctxErr)
      | None =>
          if negb (errors_Is e ErrConnClosed) then mret (h, e)
          else
            r ← stream_reconnect maxReconnectAttempts ctx None;
            match r with
            | inl _ => stream_loop fuel ctx cmd handle h
            | inr e => mret (h, e)
            end
      end
  end.

(** Each further iteration took a successful dial. *)
Definition stream_fuel : T nat := gets (fun '(_, n) => S (length (n_dials n))).

(** [stream] and [qstream]: the callback's final state and the error. *)
Definition stream_with {H E} (parse : bytes -> outcome (response E)) (c : Client) (ctx : context)
    (cmd : bytes) (handle : handler H E) (h : H) : M (H * error) :=
  r ← catch (GetConnection c);
  match r with
  | inr e => mret (h, EWrap "get connection: %w" [] e)
  | inl conn =>
      finally
        (on_client conn (fuel ← stream_fuel; stream_loop fuel ctx cmd (event_handler parse handle) h))
        (ReleaseConnection c conn)
  end.

Definition stream {H} : Client -> context -> bytes -> handler H LimitEvent -> H -> M (H * error) :=
  stream_with parseLimitEventResponse.

Definition qstream {H} : Client -> context -> bytes -> handler H QuotaEvent -> H -> M (H * error) :=
  stream_with parseQuotaEventResponse.

Definition Stream_ {H} (c : Client) (ctx : context) (handle : handler H LimitEvent) (h : H) : M (H * error) :=
  stream c ctx CommandStream handle h.

Definition PStream {H} (c : Client) (ctx : context) (prefix : bytes) (handle : handler H LimitEvent) (h : H)
    : M (H * error) :=
  with_buf (fun buf => buf ++ CommandPStream ++ [sp] ++ prefix) (fun cmd => stream c ctx cmd handle h).

Definition QStream {H} (c : Client) (ctx : context) (handle : handler H QuotaEvent) (h : H) : M (H * error) :=
  qstream c ctx CommandQStream handle h.

Definition QPStream {H} (c : Client) (ctx : context) (prefix : bytes) (handle : handler H QuotaEvent) (h : H)
    : M (H * error) :=
  with_buf (fun buf => buf ++ CommandQPStream ++ [sp] ++ prefix) (fun cmd => qstream c ctx cmd handle h).

(** ** Inspect *)

(** [json.Unmarshal] into an [InspectReport]. *)
Class Json := {
  InspectReport : Type;
  json_Unmarshal : bytes -> InspectReport + error;
  Zero_InspectReport :: Zero InspectReport }.

Section inspect.
Context `{Json}.

Definition parseInspectResponse : bytes -> outcome (response InspectReport) :=
  parse_frame (fun data =>
    match json_Unmarshal data with
    | inl report => Ret report
    | inr e => Fail (EWrap2 ErrCorruptedResponse e)
    end).

Definition Inspect (c : Client) (ctx : context) (section : bytes) : M InspectReport :=
  with_buf (fun buf => writeInspectCommand buf section) (fun cmd =>
    command c (sendChunkedWithReconnect ctx cmd) parseInspectResponse (fun r => r)).

End inspect.
