(* ===== verification/ClientSafe.v ===== *)
(** * ClientSafe: the client API between calls

    One goroutine using a client: every method returns, whatever the network
    does, gives its connection and its buffer back, and leaves the pool with
    the connections it had, in rotation.  The state between calls is
    [idle_world]; [calls] runs any sequence of methods. *)

From S2P Require Import Prelude.
From S2P Require Import GoStd.
From S2P Require Import Strconv.
From S2P Require Import Types.
From S2P Require Import Commands.
From S2P Require Import Response.
From S2P Require Import ResponseFacts.
From S2P Require Import Options.
From S2P Require Import Pools.
From S2P Require Import Net.
From S2P Require Import Tcp.
From S2P Require Import TcpFacts.
From S2P Require Import TcpSafe.
From S2P Require Import TcpWire.
From S2P Require Import ConnPool.
From S2P Require Import Client.

(** ** Sending with reconnection keeps a TCP client usable *)

(** [m] returns a value or an error and keeps the client usable. *)
Definition keeps_usable {A} (m : T A) : Prop :=
  forall t0 k, triple (usable t0 k) m (fun _ => usable t0 k) (fun _ => usable t0 k).

Lemma Send_keeps_usable ctx req : keeps_usable (Send ctx req).
Proof. intros t0 k. apply connected_usable. intros. apply Send_connected. Qed.

Lemma SendChunked_keeps_usable ctx req : keeps_usable (SendChunked ctx req).
Proof. intros t0 k. apply connected_usable. intros. apply SendChunked_connected. Qed.

Lemma now_triple (I : TCPClient * net -> Prop) : triple I now (fun _ => I) (fun _ _ => False).
Proof. by intros [t n]. Qed.

Lemma reconnect_loop_usable attempts attempt ctx send lastErr :
  keeps_usable send -> keeps_usable (reconnect_loop attempts attempt ctx send lastErr).
Proof.
  intros Hs. revert attempt lastErr. induction attempts as [|a IH]; intros attempt lastErr t0 k.
  { by apply triple_fail. }
  cbn [reconnect_loop]. eapply triple_bind; [apply triple_weaken_fail, now_triple|]. intros t.
  destruct (ctx_Err ctx t); [by apply triple_fail|].
  eapply triple_bind; [apply triple_weaken_fail, triple_catch, Reconnect_triple|].
  intros [[]|e]; [|apply IH].
  apply (triple_weaken_pre (usable t0 k)); [intros s [Hu ?]; eapply usable_weaken; [done|lia]|].
  eapply triple_bind; [apply triple_weaken_fail, triple_catch, Hs|].
  intros [resp|e]; [by apply triple_ret|]. destruct (negb _); [by apply triple_fail|apply IH].
Qed.

Lemma with_reconnect_usable ctx send : keeps_usable send -> keeps_usable (with_reconnect ctx send).
Proof.
  intros Hs t0 k. unfold with_reconnect.
  eapply triple_bind; [apply triple_weaken_fail, triple_catch, Hs|].
  intros [resp|e]; [by apply triple_ret|]. destruct (negb _); [by apply triple_fail|].
  by apply reconnect_loop_usable.
Qed.

Lemma sendWithReconnect_usable ctx data : keeps_usable (sendWithReconnect ctx data).
Proof. apply with_reconnect_usable, Send_keeps_usable. Qed.

Lemma sendChunkedWithReconnect_usable ctx data : keeps_usable (sendChunkedWithReconnect ctx data).
Proof. apply with_reconnect_usable, SendChunked_keeps_usable. Qed.

(** A stream that goes on took a dial; so the outer loop ends within its fuel. *)
Lemma stream_reconnect_usable attempts ctx e t0 k :
  (0 < attempts)%nat \/ e <> None ->
  triple (usable t0 k) (stream_reconnect attempts ctx e)
    (fun r s => match r with inl _ => usable t0 (pred k) s /\ (0 < k)%nat | inr _ => usable t0 k s end)
    (fun _ _ => False).
Proof.
  revert e. induction attempts as [|a IH]; intros e He.
  { destruct e; [by apply triple_ret|]. destruct He; [lia|done]. }
  cbn [stream_reconnect]. eapply triple_bind; [apply now_triple|]. intros t.
  destruct (ctx_Err ctx t); [by apply triple_ret|].
  eapply triple_bind; [apply triple_catch, Reconnect_triple|].
  intros [[]|e']; [|apply IH; by right]. apply triple_ret. intros s (?&?&?). by split.
Qed.

Lemma Stream_keeps_usable {H} ctx cmd (handle : handler H bytes) h :
  keeps_usable (Stream ctx cmd handle h).
Proof. intros t0 k. apply connected_usable. intros. apply Stream_connected. Qed.

Lemma stream_loop_usable {H} fuel ctx cmd (handle : handler H bytes) h t0 k :
  (k < fuel)%nat ->
  triple (usable t0 k) (stream_loop fuel ctx cmd handle h) (fun _ => usable t0 k) (fun _ => usable t0 k).
Proof.
  revert h k. induction fuel as [|fuel IH]; intros h k Hk; [lia|]. cbn [stream_loop].
  eapply triple_bind; [apply Stream_keeps_usable|].
  intros [h' e]. eapply triple_bind; [apply triple_weaken_fail, now_triple|]. intros t.
  destruct (ctx_Err ctx t); [by apply triple_ret|]. destruct (negb _); [by apply triple_ret|].
  eapply triple_bind.
  { apply triple_weaken_fail, stream_reconnect_usable. left. unfold maxReconnectAttempts. lia. }
  intros [[]|e']; [|by apply triple_ret]. intros s [Hu Hk'].
  apply (triple_conseq (usable t0 (pred k)) (usable t0 (pred k)) _
    (fun _ => usable t0 (pred k)) (fun _ => usable t0 k) (fun _ => usable t0 (pred k)) (fun _ => usable t0 k));
    [apply IH; lia|done|intros; eapply usable_weaken; [done|lia]..|done].
Qed.

Lemma stream_usable {H} ctx cmd (handle : handler H bytes) h :
  keeps_usable (fuel ← stream_fuel; stream_loop fuel ctx cmd handle h).
Proof.
  intros t0 k s Hs. unfold mbind, st_bind, stream_fuel, gets. destruct s as [t n].
  assert (Hs' : usable t0 (length (n_dials n)) (t, n)).
  { destruct Hs as (?&?&?&?). split; [done|]. split_and!; [done|done|]. unfold dials. simpl. lia. }
  pose proof (stream_loop_usable (S (length (n_dials n))) ctx cmd handle h t0 (length (n_dials n))
    ltac:(lia) (t, n) Hs') as Hr.
  assert (Hk : forall s', usable t0 (length (n_dials n)) s' -> usable t0 k s').
  { intros s' Hu. eapply usable_weaken; [done|]. by destruct Hs as (_&_&_&?). }
  destruct (stream_loop _ _ _ _ _ _) as [[] s']; auto.
Qed.

(** ** The world between calls *)

(** A TCP client in the table: its buffers match its message size and it has a
    connection. *)
Definition client_ok (t : TCPClient) : Prop := tcp_ok t /\ is_Some (tcp_connection t).

(** The pools are exactly [ps], [k] TCP clients exist, every pooled buffer is
    empty and no connection was given up open. *)
Definition ok (ps : list ConnectionPool) (k : nat) (w : world) : Prop :=
  bufferPool_ok (w_bufs w) /\ Forall client_ok (w_clients w) /\ no_leak (w_net w) /\
  w_pools w = ps /\ length (w_clients w) = k.

Lemma on_client_triple {A} ps k i (m : T A) :
  keeps_usable m -> (i < k)%nat ->
  triple (ok ps k) (on_client (Some i) m) (fun _ => ok ps k) (fun _ => ok ps k).
Proof.
  intros Hm Hi w (Hb & Hc & Hl & Hp & Hk).
  destruct (lookup_lt_is_Some_2 (w_clients w) i) as [t Ht]; [lia|]. rewrite (on_client_eq _ _ _ _ Ht).
  destruct (Forall_lookup_1 _ _ _ _ Hc Ht) as [Htk Htc].
  pose proof (Hm t (length (n_dials (w_net w))) (t, w_net w)) as Hr.
  destruct (m (t, w_net w)) as [o [t' n']].
  assert (Hu : usable t (length (n_dials (w_net w))) (t, w_net w)).
  { split; [split; [done|apply same_config_refl]|]. split_and!; [done|done|]. unfold dials. simpl. lia. }
  specialize (Hr Hu).
  assert (Hok : usable t (length (n_dials (w_net w))) (t', n') ->
    ok ps k (set_net n' (set_clients (<[i:=t']> (w_clients w)) w))).
  { intros ((Hco & _) & Hl' & Hi' & _). split_and!; try done.
    - apply Forall_insert; [done|by split].
    - simpl. by rewrite length_insert. }
  destruct o; auto.
Qed.

(** An open pool at rest that holds the TCP clients [conns], of [k]. *)
Definition idle_pool (k : nat) (conns : list nat) (cp : ConnectionPool) : Prop :=
  cp_connections cp = Some <$> conns /\ cp_wg cp = 0 /\ cp_closed cp = false /\
  cp_chanClosed cp = false /\ (0 < length conns <= cp_cap cp)%nat /\ Forall (fun i => (i < k)%nat) conns.

(** The pool [c] of [ps] is at rest with the connections [conns], in some order;
    the other pools are as in [ps]. *)
Definition at_rest (ps : list ConnectionPool) (c : Client) (k : nat) (conns : list nat) (w : world) : Prop :=
  exists conns' cp', conns' ≡ₚ conns /\ idle_pool k conns' cp' /\ ok (<[c := cp']> ps) k w.

(** A pool at rest minus the connection [i], which is in use. *)
Definition in_use (ps : list ConnectionPool) (c : Client) (k : nat) (conns : list nat) (i : nat) (w : world) : Prop :=
  exists conns' cp', i :: conns' ≡ₚ conns /\ (i < k)%nat /\
    cp_connections cp' = Some <$> conns' /\ cp_wg cp' = 1 /\ cp_closed cp' = false /\
    cp_chanClosed cp' = false /\ (length conns' < cp_cap cp')%nat /\ Forall (fun i => (i < k)%nat) conns' /\
    ok (<[c := cp']> ps) k w.

Lemma ok_lookup ps c cp k w :
  (c < length ps)%nat -> ok (<[c := cp]> ps) k w -> w_pools w !! c = Some cp.
Proof. intros Hc (_&_&_&Hp&_). rewrite Hp. by apply list_lookup_insert_eq. Qed.

Lemma ok_set_pools ps c cp cp' k w :
  ok (<[c := cp]> ps) k w -> ok (<[c := cp']> ps) k (set_pools (<[c := cp']> (w_pools w)) w).
Proof.
  intros (?&?&?&Hp&?). split_and!; try done. simpl. by rewrite Hp, list_insert_insert_eq.
Qed.

Lemma GetConnection_at_rest ps c k conns :
  (c < length ps)%nat ->
  triple (at_rest ps c k conns) (GetConnection c)
    (fun conn w => exists i, conn = Some i /\ in_use ps c k conns i w) (fun _ _ => False).
Proof.
  intros Hc w (conns' & cp & Hperm & (Hcs & Hwg & Hcl & Hch & Hlen & Hall) & Hok).
  destruct conns' as [|i conns']; [simpl in Hlen; lia|]. apply Forall_cons in Hall as [Hi Hall].
  rewrite (GetConnection_buffered c w cp (Some i) (Some <$> conns')); [|by eapply ok_lookup|done|done].
  exists i. split; [done|]. exists conns', (set_wg (cp_wg cp + 1) (set_connections (Some <$> conns') cp)).
  do 3 (split; [done|]). split; [simpl; lia|]. do 2 (split; [done|]). split; [simpl in *; lia|]. split; [done|].
  by eapply ok_set_pools.
Qed.

Lemma ReleaseConnection_in_use ps c k conns i :
  (c < length ps)%nat ->
  triple (in_use ps c k conns i) (ReleaseConnection c (Some i))
    (fun _ => at_rest ps c k conns) (fun _ _ => False).
Proof.
  intros Hc w (conns' & cp & Hperm & Hi & Hcs & Hwg & Hcl & Hch & Hlen & Hall & Hok).
  rewrite (ReleaseConnection_open c w cp);
    [|by eapply ok_lookup|done|done|rewrite Hcs, length_fmap; done|lia].
  exists (conns' ++ [i]), (set_wg (cp_wg cp - 1) (set_connections (cp_connections cp ++ [Some i]) cp)).
  split; [by rewrite <- Hperm, Permutation_app_comm|]. split.
  - split; [simpl; by rewrite Hcs, fmap_app|]. split; [simpl; lia|]. do 2 (split; [done|]).
    split; [rewrite length_app; simpl; lia|]. by apply Forall_app_2; [|constructor].
  - by eapply ok_set_pools.
Qed.

Lemma on_client_in_use {A} ps c k conns i (m : T A) :
  keeps_usable m ->
  triple (in_use ps c k conns i) (on_client (Some i) m)
    (fun _ => in_use ps c k conns i) (fun _ => in_use ps c k conns i).
Proof.
  intros Hm w (conns' & cp & Hperm & Hi & Hcs & Hwg & Hcl & Hch & Hlen & Hall & Hok).
  pose proof (on_client_triple _ k i m Hm Hi w Hok) as Hr.
  destruct (on_client _ _ _) as [[] w']; try done; exists conns', cp; by repeat (split; [done|]).
Qed.

Lemma triple_finally {S A} (P C R : S -> Prop) (m : st S A) (cleanup : st S ()) :
  triple P m (fun _ => C) (fun _ => C) -> triple C cleanup (fun _ => R) (fun _ => R) ->
  triple P (finally m cleanup) (fun _ => R) (fun _ => R).
Proof.
  intros Hm Hc s Hs. unfold finally. specialize (Hm s Hs). destruct (m s) as [[] s']; try done;
    specialize (Hc s' Hm); by destruct (cleanup s') as [[] s''].
Qed.

Lemma triple_lift {S A} (P : S -> Prop) (o : outcome A) :
  returns o -> triple P (lift o) (fun _ => P) (fun _ => P).
Proof. intros Ho s Hs. unfold lift. by destruct o. Qed.

(** [m] is a method that one goroutine can call on the client [c] at any time:
    it returns and leaves the pool at rest with the same connections. *)
Definition serves {A} (ps : list ConnectionPool) (c : Client) (m : M A) : Prop :=
  forall k conns, triple (at_rest ps c k conns) m (fun _ => at_rest ps c k conns) (fun _ => at_rest ps c k conns).

Lemma result_of_returns {A R} `{Zero R} (f : A -> R) r : returns (result_of f r).
Proof. unfold result_of. destruct (status r); [done|done|]. by destruct (err r). Qed.

Lemma command_serves {A R} `{Zero R} ps c send (parse : bytes -> outcome (response A)) (f : A -> R) :
  (c < length ps)%nat -> keeps_usable send -> (forall resp, returns (parse resp)) ->
  serves ps c (command c send parse f).
Proof.
  intros Hc Hs Hp k conns. unfold command. eapply triple_bind.
  { apply triple_map_error, triple_weaken_fail, (GetConnection_at_rest ps c k conns Hc). }
  intros conn. apply triple_exists. intros i. apply triple_pre. intros ->.
  eapply triple_finally; [|by apply triple_weaken_fail, (ReleaseConnection_in_use ps c k conns i)].
  eapply triple_bind; [by apply triple_map_error, on_client_in_use|]. intros resp.
  eapply triple_bind; [by apply triple_map_error, triple_lift|]. intros r.
  apply triple_lift, result_of_returns.
Qed.

Lemma stream_with_serves {H E} (parse : bytes -> outcome (response E)) ps c ctx cmd (handle : handler H E) h :
  (c < length ps)%nat -> serves ps c (stream_with parse c ctx cmd handle h).
Proof.
  intros Hc k conns. unfold stream_with. eapply triple_bind.
  { by apply triple_weaken_fail, triple_catch, (GetConnection_at_rest ps c k conns). }
  intros [conn|e]; [|by apply triple_ret]. apply triple_exists. intros i. apply triple_pre. intros ->.
  eapply triple_finally; [|by apply triple_weaken_fail, (ReleaseConnection_in_use ps c k conns i)].
  apply on_client_in_use, stream_usable.
Qed.

Lemma at_rest_world ps c k conns w w' :
  at_rest ps c k conns w -> bufferPool_ok (w_bufs w') -> w_clients w' = w_clients w ->
  same_net (w_net w) (w_net w') -> w_pools w' = w_pools w -> at_rest ps c k conns w'.
Proof.
  intros (conns' & cp & Hperm & Hidle & (_&Hcl&Hl&Hp&Hk)) Hb Hc [_ Hd] Hp'.
  exists conns', cp. split; [done|]. split; [done|].
  split_and!; [done|by rewrite Hc|unfold no_leak in *; by rewrite Hd|by rewrite Hp'|by rewrite Hc].
Qed.

(** The buffer a call gets is empty; only the buffer pool changes. *)
Lemma bytesBufferPool_Get_ok w :
  bufferPool_ok (w_bufs w) ->
  exists n items, bytesBufferPool_Get w = (Ret [], set_net n (set_bufs items w)) /\
    same_net (w_net w) n /\ n_now n = n_now (w_net w) /\ bufferPool_ok items.
Proof.
  intros Hb. unfold bytesBufferPool_Get. pose proof (next_pick_same (w_net w)) as [Hd Hdr].
  assert (Ht : n_now (next_pick (w_net w)).2 = n_now (w_net w)).
  { unfold next_pick. by destruct (n_picks (w_net w)). }
  destruct (next_pick (w_net w)) as [pick n].
  destruct (bytesBuffer_Get_ok pick _ Hb) as [Hg Hi].
  destruct (bytesBuffer_Get pick (w_bufs w)) as [b items]. simpl in *. subst b. by exists n, items.
Qed.

Lemma with_buf_serves {R} ps c write (body : bytes -> M R) :
  (forall cmd, serves ps c (body cmd)) -> serves ps c (with_buf write body).
Proof.
  intros Hbody k conns. unfold with_buf. eapply triple_bind.
  - intros w Hw. assert (Hb : bufferPool_ok (w_bufs w)) by (by destruct Hw as (?&?&_&_&?&_)).
    destruct (bytesBufferPool_Get_ok w Hb) as (n & items & E & Hn & _ & Hi). rewrite E.
    instantiate (1 := fun _ => at_rest ps c k conns). by eapply at_rest_world.
  - intros buf. eapply triple_finally; [apply Hbody|]. intros w Hw. simpl.
    eapply at_rest_world; [done| |done|done|done].
    apply bytesBuffer_Put_ok. by destruct Hw as (?&?&_&_&?&_).
Qed.

(** ** Construction *)

(** A pool under construction: [j] connections have been taken from it. *)
Definition growing (cap : nat) (nc : st net TCPClient) (j : nat) : ConnectionPool :=
  mkConnectionPool cap [] false (Z.of_nat j) false nc.

Lemma NewTCPClient_cases address max idle opts n :
  returns (applyOptions opts) -> 0 <= max -> no_leak n ->
  match NewTCPClient address max idle opts n with
  | (Ret t, n') => client_ok t /\ no_leak n'
  | (Fail _, n') => no_leak n'
  | _ => False
  end.
Proof.
  intros Ho Hm Hl. destruct (applyOptions opts) as [settings|e| |] eqn:E; [|by unfold NewTCPClient; rewrite E|done..].
  destruct (NewTCPClient_spec address max idle opts n settings E Hm Hl) as (p & _ & H).
  destruct (NewTCPClient _ _ _ _ _) as [[t|e'| |] n']; try done.
  destruct H as (_ & ((Hok & _) & Hl' & Hc & _) & _). by split.
Qed.

Section construction.
Context (address : bytes) (idle : Z) (opts : list (option Option)) (Hopts : returns (applyOptions opts)).
Context (ps : list ConnectionPool) (k cap : nat).

Definition nc : st net TCPClient := NewTCPClient address 4096 idle opts.

Lemma insert_last {A} (l : list A) x y : <[length l := x]> (l ++ [y]) = l ++ [x].
Proof. rewrite insert_app_r_alt, Nat.sub_diag by lia. done. Qed.

Lemma GetConnection_growing j :
  triple (ok (ps ++ [growing cap nc j]) (k + j)) (GetConnection (length ps))
    (fun conn w => conn = Some (k + j)%nat /\ ok (ps ++ [growing cap nc (S j)]) (k + S j) w)
    (fun _ => ok (ps ++ [growing cap nc j]) (k + j)).
Proof.
  intros w (Hb & Hcl & Hl & Hp & Hk).
  assert (Hlook : w_pools w !! length ps = Some (growing cap nc j))
    by (rewrite Hp; apply list_lookup_middle; done).
  rewrite (GetConnection_empty _ _ _ Hlook); [|done|done|done|simpl; lia]. cbv zeta. simpl cp_newConn.
  pose proof (NewTCPClient_cases address 4096 idle opts (w_net w) Hopts ltac:(lia) Hl) as Hn.
  unfold nc in *. destruct (NewTCPClient _ _ _ _ _) as [[t|e| |] n']; try done.
  - destruct Hn as [Ht Hl']. split; [by rewrite Hk|]. split_and!; simpl; try done.
    + by apply Forall_app_2; [|constructor].
    + rewrite Hp, insert_last. do 3 f_equal. unfold growing, set_wg. simpl. f_equal. lia.
    + rewrite length_app. simpl. lia.
  - split_and!; simpl; try done. rewrite Hp, insert_last. do 3 f_equal. unfold growing, set_wg. simpl.
    f_equal. lia.
Qed.

Lemma New_get_growing n j :
  triple (ok (ps ++ [growing cap nc j]) (k + j)) (New_get n (length ps))
    (fun conns w => conns = Some <$> seq (k + j) n /\ ok (ps ++ [growing cap nc (j + n)]) (k + (j + n)) w)
    (fun _ w => exists j', (j' < j + n)%nat /\ ok (ps ++ [growing cap nc j']) (k + j') w).
Proof.
  revert j. induction n as [|n IH]; intros j.
  { apply triple_ret. intros s Hs. by rewrite Nat.add_0_r. }
  cbn [New_get]. eapply triple_bind.
  { eapply triple_conseq; [apply (GetConnection_growing j)|done|done|].
    intros e s Hs. exists j. split; [lia|done]. }
  intros c. apply triple_pre. intros ->. eapply triple_bind.
  { eapply triple_conseq; [apply (IH (S j))|done|done|]. intros e s (j' & ? & ?). exists j'. split; [lia|done]. }
  intros cs. apply triple_pre. intros ->. apply triple_ret. intros s Hs.
  replace (j + S n)%nat with (S j + n)%nat by lia. split; [|done].
  cbn [seq]. rewrite fmap_cons. by rewrite Nat.add_succ_r.
Qed.

Lemma New_release_triple pre conns :
  (length pre + length conns <= cap)%nat ->
  triple (ok (ps ++ [mkConnectionPool cap (Some <$> pre) false (Z.of_nat (length conns)) false nc]) k)
    (New_release (Some <$> conns) (length ps))
    (fun _ => ok (ps ++ [mkConnectionPool cap (Some <$> pre ++ conns) false 0 false nc]) k)
    (fun _ _ => False).
Proof.
  revert pre. induction conns as [|c conns IH]; intros pre Hlen.
  { apply triple_ret. by rewrite app_nil_r. }
  rewrite fmap_cons. cbn [New_release]. eapply triple_bind.
  - intros w Hw. pose proof Hw as (_&_&_&Hp&_).
    rewrite (ReleaseConnection_open _ w
      (mkConnectionPool cap (Some <$> pre) false (Z.of_nat (length (c :: conns))) false nc));
      [|rewrite Hp; by apply list_lookup_middle|done|done|simpl in *; rewrite length_fmap; lia|simpl; lia].
    rewrite Hp, insert_last.
    instantiate (1 := fun _ => ok (ps ++ [mkConnectionPool cap (Some <$> (pre ++ [c])) false
                                           (Z.of_nat (length conns)) false nc]) k).
    destruct Hw as (?&?&?&_&?). split_and!; try done. simpl. do 3 f_equal. unfold set_wg, set_connections. simpl.
    rewrite fmap_app. f_equal. lia.
  - intros []. replace (pre ++ c :: conns) with ((pre ++ [c]) ++ conns) by by rewrite <- app_assoc.
    apply IH. rewrite length_app. simpl in *. lia.
Qed.

End construction.

Lemma New_triple address idle (poolSize : Z) opts ps k :
  returns (applyOptions opts) -> 0 < poolSize ->
  triple (ok ps k) (New address idle poolSize opts)
    (fun c w => c = length ps /\ exists cp, at_rest (ps ++ [cp]) c (k + Z.to_nat poolSize)
                                              (seq k (Z.to_nat poolSize)) w)
    (fun _ w => exists j, (j < Z.to_nat poolSize)%nat /\
       ok (ps ++ [growing (Z.to_nat poolSize) (NewTCPClient address 4096 idle opts) j]) (k + j) w).
Proof.
  intros Ho Hs. unfold New. set (sz := Z.to_nat poolSize). eapply triple_bind.
  { intros w Hw. unfold NewConnectionPool. rewrite (proj2 (Z.ltb_ge _ _)) by lia.
    instantiate (1 := fun c w => c = length ps /\ ok (ps ++ [growing sz (nc address idle opts) 0]) (k + 0) w).
    destruct Hw as (?&?&?&Hp&?). rewrite Hp. split; [done|]. split_and!; simpl; try done; (lia || by rewrite Hp). }
  intros c. apply triple_pre. intros ->.
  eapply triple_bind; [apply New_get_growing; done|]. intros conns. apply triple_pre. intros ->.
  rewrite Nat.add_0_r. simpl. eapply triple_bind.
  { apply triple_weaken_fail.
    eapply triple_weaken_pre; [|apply (New_release_triple address idle opts ps (k + sz) sz [] (seq k sz))].
    - intros s. unfold growing. by rewrite length_seq.
    - rewrite length_seq. simpl. lia. }
  intros []. apply triple_ret. intros w Hw. split; [done|].
  set (cp := mkConnectionPool _ _ _ _ _ _) in Hw. exists cp, (seq k sz), cp. split; [done|].
  rewrite insert_last. split; [|exact Hw].
  do 4 (split; [done|]). rewrite length_seq. split; [simpl; unfold sz; lia|].
  apply Forall_forall. intros i Hi. apply elem_of_seq in Hi. lia.
Qed.

(** ** Closing *)

(** The TCP client [i] has closed its connection. *)
Definition closed_at (w : world) (i : nat) : Prop :=
  exists t, w_clients w !! i = Some t /\ conn_closed t.

Lemma Close_keeps_usable : keeps_usable Close.
Proof. intros t0 k. eapply triple_conseq; [apply (Close_triple t0 k)|done| |]; by intros ?? []. Qed.

Lemma Close_shuts t n : client_ok t -> conn_closed ((Close (t, n)).2).1.
Proof.
  intros [_ [c Hc]]. unfold Close, Close_conn, on_conn. rewrite Hc.
  destruct (c_closed c); by intros ? [= <-].
Qed.

Lemma close_one ps k i shut w :
  (i < k)%nat -> ok ps k w -> Forall (closed_at w) shut ->
  exists r w', catch (on_client (Some i) Close) w = (Ret r, w') /\ ok ps k w' /\
    Forall (closed_at w') (shut ++ [i]).
Proof.
  intros Hi Hok Hs. pose proof (on_client_triple ps k i Close Close_keeps_usable Hi w Hok) as Hr.
  destruct Hok as (_ & Hcl & _ & _ & Hk).
  destruct (lookup_lt_is_Some_2 (w_clients w) i) as [t Ht]; [lia|].
  unfold catch. rewrite (on_client_eq _ _ _ _ Ht) in Hr |- *.
  pose proof (Close_shuts t (w_net w) (Forall_lookup_1 _ _ _ _ Hcl Ht)) as Hsh.
  destruct (Close (t, w_net w)) as [o [t' n']]. simpl in Hsh.
  set (w' := set_net n' _) in *.
  assert (Hall : Forall (closed_at w') (shut ++ [i])).
  { apply Forall_app_2.
    - eapply Forall_impl; [exact Hs|]. intros j (tj & Htj & Hcj). unfold closed_at. simpl.
      destruct (decide (i = j)) as [<-|Hne].
      + exists t'. split; [apply list_lookup_insert_eq; lia|done].
      + exists tj. by rewrite list_lookup_insert_ne.
    - constructor; [|constructor]. exists t'. split; [apply list_lookup_insert_eq; lia|done]. }
  destruct o; try done; by eexists _, w'.
Qed.

Lemma close_all_triple ps k conns shut :
  Forall (fun i => (i < k)%nat) conns ->
  triple (fun w => ok ps k w /\ Forall (closed_at w) shut) (close_all (Some <$> conns))
    (fun _ w => ok ps k w /\ Forall (closed_at w) (shut ++ conns)) (fun _ _ => False).
Proof.
  revert shut. induction conns as [|i conns IH]; intros shut Hall.
  { apply triple_ret. by rewrite app_nil_r. }
  apply Forall_cons in Hall as [Hi Hall]. intros w [Hok Hs].
  rewrite fmap_cons. cbn [close_all]. unfold mbind, st_bind.
  destruct (close_one ps k i shut w Hi Hok Hs) as (r & w' & E & Hok' & Hs'). rewrite E.
  specialize (IH (shut ++ [i]) Hall w' (conj Hok' Hs')). by rewrite <- app_assoc in IH.
Qed.

(** A closed pool: empty, closed for good. *)
Definition shut_pool (cp : ConnectionPool) : Prop :=
  cp_closed cp = true /\ cp_chanClosed cp = true /\ cp_connections cp = [] /\ cp_wg cp = 0.

Lemma Close_client_triple ps c k conns shut :
  (c < length ps)%nat ->
  triple (fun w => at_rest ps c k conns w /\ Forall (closed_at w) shut) (Close_client c)
    (fun _ w => (exists cp, shut_pool cp /\ ok (<[c := cp]> ps) k w) /\ Forall (closed_at w) (shut ++ conns))
    (fun _ _ => False).
Proof.
  intros Hc w [(conns' & cp & Hperm & (Hcs & Hwg & Hcl & Hch & Hlen & Hall) & Hok) Hshut].
  pose proof (ok_lookup _ _ _ _ _ Hc Hok) as Hp.
  unfold Close_client, Close_pool, mbind, st_bind. rewrite (the_pool_eq _ _ _ Hp), Hwg, Hch.
  change (0 <? 0) with false. cbv beta iota. rewrite (update_pool_eq _ _ _ _ Hp).
  rewrite (update_pool_eq _ _ _ _ (pools_set_pools _ _ _ _ Hp)), set_pools_twice.
  rewrite (update_pool_eq _ _ _ _ (pools_set_pools _ _ _ _ Hp)), set_pools_twice.
  set (cp' := set_connections [] _). rewrite Hcs.
  pose proof (close_all_triple (<[c := cp']> ps) k conns' shut Hall
    (set_pools (<[c := cp']> (w_pools w)) w) (conj (ok_set_pools _ _ _ cp' _ _ Hok) Hshut)) as Hr.
  destruct (close_all _ _) as [[[]|e| |] w']; try done. destruct Hr as [Hok' Hs].
  split; [exists cp'; split; [by split_and!|done]|]. by rewrite <- Hperm.
Qed.

(** Every method of a closed client fails the same way. *)
Lemma GetConnection_shut c w cp :
  w_pools w !! c = Some cp -> cp_closed cp = true -> GetConnection c w = (Fail ErrConnPoolClosed, w).
Proof. intros Hp Hc. unfold GetConnection, mbind, st_bind. by rewrite (the_pool_eq _ _ _ Hp), Hc. Qed.
