(* ===== verification/ClientExchange.v ===== *)
(** * ClientExchange: what a client call sends and what it returns

    [decode r] is what the method that issues [r] makes of a response.
    [api_exchange]: on a working connection a call sends exactly the rendered
    request and returns exactly the decoding of the next frame.
    [inspect_exchange_spec] is the same for INSPECT and its chunks.  The lemmas
    on [calls] hold for any outcome of the transmission; [ClientSession] uses
    them for calls that fail. *)

From S2P Require Import Prelude.
From S2P Require Import GoStd.
From S2P Require Import Strconv.
From S2P Require Import Types.
From S2P Require Import Commands.
From S2P Require Import Response.
From S2P Require Import ResponseFacts.
From S2P Require Import Options.
From S2P Require Import Pools.
From S2P Require Import Net.
From S2P Require Import Tcp.
From S2P Require Import TcpFacts.
From S2P Require Import TcpSafe.
From S2P Require Import TcpWire.
From S2P Require Import TcpTheorems.
From S2P Require Import ConnPool.
From S2P Require Import Client.
From S2P Require Import ClientSafe.
From S2P Require Import ClientApi.

(** What a method makes of the bytes of a response. *)
Definition decode_with {A R B} `{Zero R} (parse : bytes -> outcome (response A)) (f : A -> R) (g : R -> B)
    (resp : bytes) : outcome B :=
  match parse resp with
  | Ret r => g <$> result_of f r
  | Fail e => Fail (EWrap "parse response: %w" [] e)
  | Panic => Panic
  | Hang => Hang
  end.

Section exchange.
Context `{Json}.

Definition decode (r : request) : bytes -> outcome reply :=
  match r with
  | RIncr _ | RGet _ | RWatch _ => decode_with parseResponse id_value ReplyCount
  | RMDel _ => decode_with parseMultiResponse valuesToBools ReplyBools
  | RRLimitFixedWindow _ _ | RRLimitSlidingWindow _ _ | RRLimitTokenBucket _ _ _ =>
      decode_with parseRateLimitResponse (fun r => r) ReplyLimit
  | RQuotaAcquire _ _ _ _ | RQuotaAcquireLease _ _ _ _ _ | RQuotaAcquireN _ _ _ =>
      decode_with parseQuotaAcquireResponse (fun r => r) ReplyAcquire
  | RQuotaInfo _ => decode_with parseQuotaInfoResponse (fun r => r) ReplyInfo
  | RScan _ _ | RPScan _ _ _ => decode_with parseScanResponse (fun r => r) ReplyScan
  | RInspect _ => decode_with parseInspectResponse (fun r => r) ReplyReport
  | _ => decode_with parseResponse is_one ReplyBool
  end.

(** The method of a request sends it with [Send], or, for INSPECT, with
    [SendChunked]. *)
Definition transmit (ctx : context) (r : request) : T bytes :=
  match r with
  | RInspect _ => sendChunkedWithReconnect ctx (render r)
  | _ => sendWithReconnect ctx (render r)
  end.

(** ** A call, given what its TCP client does *)

(** The pool [c] hands out the TCP client [i] next. *)
Definition next_up (c : Client) (i : nat) (rest : list (option nat)) (w : world) : Prop :=
  exists cp, w_pools w !! c = Some cp /\ cp_closed cp = false /\ cp_chanClosed cp = false /\
    cp_connections cp = Some i :: rest /\ (length rest < cp_cap cp)%nat /\ cp_wg cp = 0.

(** After the call: the TCP client is [t'] and went to the end of the queue. *)
Definition served (c : Client) (i : nat) (rest : list (option nat)) (t' : TCPClient) (w : world) : Prop :=
  w_clients w !! i = Some t' /\ bufferPool_ok (w_bufs w) /\
  exists cp, w_pools w !! c = Some cp /\ cp_connections cp = rest ++ [Some i] /\ cp_wg cp = 0 /\
    cp_closed cp = false /\ cp_chanClosed cp = false /\ (length rest < cp_cap cp)%nat.

(** What a method makes of the outcome of its transmission. *)
Definition answer_with {A R B} `{Zero R} (parse : bytes -> outcome (response A)) (f : A -> R) (g : R -> B)
    (o : outcome bytes) : outcome B :=
  match o with
  | Ret p => decode_with parse f g p
  | Fail e => Fail (EWrap "send: %w" [] e)
  | Panic => Panic
  | Hang => Hang
  end.

Lemma decode_returns {A R B} `{Zero R} (parse : bytes -> outcome (response A)) (f : A -> R) (g : R -> B) p :
  returns (parse p) -> returns (decode_with parse f g p).
Proof.
  unfold decode_with. destruct (parse p) as [r|e| |]; try done. intros _.
  pose proof (result_of_returns f r). by destruct (result_of f r).
Qed.

Lemma answer_returns {A R B} `{Zero R} (parse : bytes -> outcome (response A)) (f : A -> R) (g : R -> B) o :
  returns o -> (forall p, returns (parse p)) -> returns (answer_with parse f g o).
Proof. intros Ho Hr. destruct o; try done. by apply decode_returns. Qed.

(** Borrowing the connection for [body], which runs on the TCP client alone. *)
Lemma borrow_call {R} c i rest (body : M R) w t o t' n' :
  next_up c i rest w -> w_clients w !! i = Some t -> bufferPool_ok (w_bufs w) -> returns o ->
  (forall w1, w_clients w1 = w_clients w -> w_net w1 = w_net w ->
     body w1 = (o, set_net n' (set_clients (<[i := t']> (w_clients w1)) w1))) ->
  exists w1 w', GetConnection c w = (Ret (Some i), w1) /\
    finally body (ReleaseConnection c (Some i)) w1 = (o, w') /\ served c i rest t' w' /\ w_net w' = n'.
Proof.
  intros (cp & Hp & Hc & Hch & Hl & Hcap & Hwg) Ht Hb Ho Hbody.
  eexists _, _. split; [exact (GetConnection_buffered _ _ _ _ _ Hp Hc Hl)|]. unfold finally. rewrite Hbody by done.
  set (w2 := set_net n' _). set (cp1 := set_wg (cp_wg cp + 1) (set_connections rest cp)).
  assert (Hp2 : w_pools w2 !! c = Some cp1) by (apply list_lookup_insert_eq; by eapply lookup_lt_Some).
  rewrite (ReleaseConnection_open c w2 cp1 (Some i) Hp2 Hc Hch Hcap ltac:(simpl; lia)).
  split; [destruct o; (reflexivity || done)|]. split; [|done].
  split; [simpl; apply list_lookup_insert_eq; by eapply lookup_lt_Some|]. split; [done|].
  eexists. split; [simpl; apply list_lookup_insert_eq; rewrite ?length_insert; by eapply lookup_lt_Some|].
  split_and!; [done|simpl; lia|done..].
Qed.

Lemma command_call {A R} `{Zero R} c i rest send (parse : bytes -> outcome (response A)) (f : A -> R) w t o t' n' :
  next_up c i rest w -> w_clients w !! i = Some t -> bufferPool_ok (w_bufs w) ->
  send (t, w_net w) = (o, (t', n')) -> returns o -> (forall p, returns (parse p)) ->
  exists w', command c send parse f w = (answer_with parse f (fun r => r) o, w') /\
    served c i rest t' w' /\ w_net w' = n'.
Proof.
  intros Hn Ht Hb Hs Ho Hr. edestruct (borrow_call c i rest
    (resp ← map_error (fun e => EWrap "send: %w" [] e) (on_client (Some i) send);
     result ← map_error (fun e => EWrap "parse response: %w" [] e) (lift (parse resp));
     lift (result_of f result)) w t (answer_with parse f (fun r => r) o) t' n' Hn Ht Hb)
    as (w1 & w' & E & E' & Hd).
  - by apply answer_returns.
  - intros w1 Hc1 Hn1. rewrite <- Hc1 in Ht. unfold mbind, st_bind, map_error.
    rewrite (on_client_eq _ _ _ _ Ht), Hn1, Hs. unfold answer_with, decode_with, lift.
    destruct o as [p|e| |]; try done. destruct (parse p) as [r|e| |]; try done. by destruct (result_of f r).
  - exists w'. split; [|done]. unfold command, mbind at 1, st_bind at 1, map_error at 1. by rewrite E.
Qed.

(** A method given what its transmission does to the TCP client, whatever the
    buffer pool chose before. *)
Definition transmits (send : T bytes) (t : TCPClient) (now : Z) (o : outcome bytes)
    (P : TCPClient -> net -> Prop) : Prop :=
  forall n, n_now n = now -> exists t' n', send (t, n) = (o, (t', n')) /\ P t' n'.

Definition calls {R} (m : M R) (o : outcome R) (c : Client) (i : nat) (rest : list (option nat))
    (P : TCPClient -> net -> Prop) (w : world) : Prop :=
  exists w' t', m w = (o, w') /\ served c i rest t' w' /\ P t' (w_net w').

Lemma command_calls {A R} `{Zero R} c i rest send (parse : bytes -> outcome (response A)) (f : A -> R) w t o P :
  next_up c i rest w -> w_clients w !! i = Some t -> bufferPool_ok (w_bufs w) ->
  transmits send t (n_now (w_net w)) o P -> returns o -> (forall p, returns (parse p)) ->
  calls (command c send parse f) (answer_with parse f (fun r => r) o) c i rest P w.
Proof.
  intros Hn Ht Hb Hs Ho Hr. destruct (Hs (w_net w) eq_refl) as (t' & n' & E & HP).
  destruct (command_call c i rest send parse f w t o t' n' Hn Ht Hb E Ho Hr) as (w' & E' & Hd & <-).
  by exists w', t'.
Qed.

Lemma with_buf_calls {R} c i rest write (body : bytes -> M R) (o : outcome R) P w :
  bufferPool_ok (w_bufs w) -> returns o ->
  (forall n items, n_now n = n_now (w_net w) -> bufferPool_ok items ->
     calls (body (write [])) o c i rest P (set_net n (set_bufs items w))) ->
  calls (with_buf write body) o c i rest P w.
Proof.
  intros Hb Ho Hbody. destruct (bytesBufferPool_Get_ok w Hb) as (n & items & E & _ & Hn & Hi).
  destruct (Hbody n items Hn Hi) as (w' & t' & E' & (Ht & Hb' & Hs) & HP).
  exists (set_bufs (bytesBuffer_Put (write []) (w_bufs w')) w'), t'.
  unfold with_buf, mbind, st_bind. rewrite E. unfold finally. rewrite E'.
  split; [by destruct o|]. split; [|done]. split; [done|]. split; [by apply bytesBuffer_Put_ok|done].
Qed.

Lemma ret_as_calls {A R B} `{Zero R} (parse : bytes -> outcome (response A)) (f : A -> R) (g : R -> B)
    m c i rest P w o :
  calls m (answer_with parse f (fun r => r) o) c i rest P w ->
  calls (ret_as g m)
    match o with
    | Ret p => decode_with parse f g p
    | Fail e => Fail (EWrap "send: %w" [] e)
    | Panic => Panic
    | Hang => Hang
    end c i rest P w.
Proof.
  intros (w' & t' & E & Hs). exists w', t'. split; [|done]. unfold ret_as, mbind, st_bind. rewrite E.
  destruct o as [p|e| |]; try done. unfold answer_with, decode_with.
  destruct (parse p) as [r|e| |]; try done. by destruct (result_of f r).
Qed.

Ltac parser_returns_at := intros ?p; revert p; parser_returns.

Ltac method_calls :=
  lazymatch goal with
  | |- calls (with_buf _ _) _ _ _ _ _ _ =>
      apply with_buf_calls;
        [done|apply answer_returns; [done|parser_returns_at]|intros ?n ?items ?Hn ?Hi; cbv beta; method_calls]
  | |- calls (command _ _ _ _) _ _ _ _ _ _ =>
      eapply command_calls; [done|done|done| |done|parser_returns_at]
  end.

(** What the method of [r] returns, given the outcome of its transmission. *)
Definition answer (r : request) (o : outcome bytes) : outcome reply :=
  match o with
  | Ret p => decode r p
  | Fail e => Fail (EWrap "send: %w" [] e)
  | Panic => Panic
  | Hang => Hang
  end.

Lemma execute_calls c ctx r m i rest w t o P :
  execute c ctx r = Some m -> next_up c i rest w -> w_clients w !! i = Some t ->
  bufferPool_ok (w_bufs w) -> transmits (transmit ctx r) t (n_now (w_net w)) o P -> returns o ->
  calls m (answer r o) c i rest P w.
Proof.
  intros Hm Hn Ht Hb Hs Ho. destruct r; cbn [execute] in Hm; (discriminate || injection Hm as <-);
    cbn [transmit render] in Hs; unfold answer; cbn [decode]; apply ret_as_calls; unfold_method; method_calls; simpl; rewrite ?Hn0; exact Hs.
Qed.

End exchange.

(** ** The exchange theorems *)

Lemma ready_now ctx t n n' c : ready ctx t n c -> n_now n' = n_now n -> ready ctx t n' c.
Proof. intros [] Hn. split; rewrite ?Hn; done. Qed.

(** What a call of [t] on the connection [c] leaves: an exchange in which
    [request] was sent and [k] bytes were consumed. *)
Definition left_behind (ctx : context) (t : TCPClient) (now : Z) (c : conn) (request : bytes) (k : nat)
    (t' : TCPClient) (n' : net) : Prop :=
  exists c' d, exchanged t c request k d t' c' /\ in_force ctx t now n' d.

Lemma with_reconnect_first ctx send s p s' :
  send s = (Ret p, s') -> with_reconnect ctx send s = (Ret p, s').
Proof. intros E. unfold with_reconnect, mbind, st_bind, catch. by rewrite E. Qed.

Definition is_inspect (r : request) : bool := match r with RInspect _ => true | _ => false end.

Lemma transmit_ok ctx r t n c p more :
  is_inspect r = false -> ready ctx t n c -> fits t (render r) -> fits t p ->
  available (deadline ctx (tcp_idleTimeout t) (n_now n)) (c_rx c) = frame p ++ more ->
  transmits (transmit ctx r) t (n_now n) (Ret p) (left_behind ctx t (n_now n) c (render r) (4 + length p)).
Proof.
  intros Hi Hr Hreq Hp Hav n1 Hn1. rewrite <- Hn1 in Hav. apply (ready_now _ _ _ n1) in Hr; [|done].
  destruct (Send_spec ctx (render r) t n1 c Hr Hreq)
    as (o & t' & n' & c' & E & Hc & Hcl & Htx & Hw & Hok & Hs & Hm & Ho).
  unfold send_outcome in Ho. rewrite Hav, unframe_frame in Ho by (split; [done|apply Hr]).
  destruct Ho as (-> & Ha & Hn'). exists t', n'. split; [destruct r; try done; by apply with_reconnect_first|].
  exists c', (deadline ctx (tcp_idleTimeout t) (n_now n1)). split; [done|].
  rewrite <- Hn1. split; [done|]. split; [apply Hn'|]. by apply deadline_next.
Qed.

Lemma transmit_inspect_ok ctx section t n c parts good final more :
  ready ctx t n c -> fits t (render (RInspect section)) ->
  available (deadline ctx (tcp_idleTimeout t) (n_now n)) (c_rx c)
  = next_frames parts ++ frame (closing good final) ++ more ->
  Forall (fits t) (joinStatusAndData frameStatusNext <$> parts) -> fits t (closing good final) ->
  transmits (transmit ctx (RInspect section)) t (n_now n) (Ret (chunked_reply good parts final))
    (left_behind ctx t (n_now n) c (render (RInspect section))
       (length (next_frames parts ++ frame (closing good final)))).
Proof.
  intros Hr Hreq Hav Hf Hl n1 Hn1. rewrite <- Hn1 in Hav. apply (ready_now _ _ _ n1) in Hr; [|done].
  destruct (SendChunked_spec ctx (render (RInspect section)) t n1 c parts good final more Hr Hreq Hav Hf Hl)
    as (t' & n' & c' & d' & E & Hex).
  exists t', n'. split; [by apply with_reconnect_first|]. exists c', d'. by rewrite <- Hn1.
Qed.

Section theorems.
Context `{Json}.

(** C1. The client refines its protocol: for every method of the API (INSPECT
    apart), when the connection whose turn it is works and a whole frame
    arrives in time, the call sends exactly one frame, the rendered request,
    returns exactly what that method decodes the frame to, errors included,
    consumes exactly that frame, and puts the connection at the end of the
    pool's queue. *)
Theorem api_exchange c ctx r m i rest w t cn p more :
  execute c ctx r = Some m -> is_inspect r = false ->
  next_up c i rest w -> w_clients w !! i = Some t -> bufferPool_ok (w_bufs w) ->
  ready ctx t (w_net w) cn -> fits t (render r) -> fits t p ->
  available (deadline ctx (tcp_idleTimeout t) (n_now (w_net w))) (c_rx cn) = frame p ++ more ->
  exists w' t', m w = (decode r p, w') /\ served c i rest t' w' /\
    left_behind ctx t (n_now (w_net w)) cn (render r) (4 + length p) t' (w_net w').
Proof.
  intros Hm Hi Hn Ht Hb Hr Hreq Hp Hav.
  apply (execute_calls c ctx r m i rest w t (Ret p) _ Hm Hn Ht Hb); [|done]. by eapply transmit_ok.
Qed.

(** INSPECT reassembles its report: with any number of [nxt] frames before the
    closing frame, the call returns the decoded concatenation of all parts, or
    the server's error when the closing frame is one, having consumed exactly
    those frames. *)
Lemma inspect_exchange_spec c ctx section m i rest w t cn parts good final more :
  execute c ctx (RInspect section) = Some m ->
  next_up c i rest w -> w_clients w !! i = Some t -> bufferPool_ok (w_bufs w) ->
  ready ctx t (w_net w) cn -> fits t (render (RInspect section)) ->
  available (deadline ctx (tcp_idleTimeout t) (n_now (w_net w))) (c_rx cn)
  = next_frames parts ++ frame (closing good final) ++ more ->
  Forall (fits t) (joinStatusAndData frameStatusNext <$> parts) -> fits t (closing good final) ->
  exists w' t',
    m w = (if good then
             match json_Unmarshal (mjoin parts ++ final) with
             | inl report => Ret (ReplyReport report)
             | inr e => Fail (EWrap "parse response: %w" [] (EWrap2 ErrCorruptedResponse e))
             end
           else Fail (parseError final), w') /\
    served c i rest t' w' /\
    left_behind ctx t (n_now (w_net w)) cn (render (RInspect section))
      (length (next_frames parts ++ frame (closing good final))) t' (w_net w').
Proof.
  intros Hm Hn Ht Hb Hr Hreq Hav Hf Hl.
  destruct (execute_calls c ctx (RInspect section) m i rest w t _ _ Hm Hn Ht Hb
    (transmit_inspect_ok ctx section t _ cn parts good final more Hr Hreq Hav Hf Hl) I) as (w' & t' & E & Hs).
  exists w', t'. split; [|done]. rewrite E. f_equal.
  unfold answer, decode, decode_with, chunked_reply, parseInspectResponse, parse_frame. destruct good.
  - rewrite IndexByte_status, take_status, drop_status by auto.
    rewrite decide_True by done. by destruct (json_Unmarshal _).
  - rewrite IndexByte_status, take_status, drop_status by auto.
    rewrite decide_False, decide_True by done. done.
Qed.

End theorems.

(** ** Samples *)

(** A client whose only connection receives [rxs]. *)
Definition sample_client_world (rxs : list rx) : world :=
  mkWorld sample_net [sample_tcp rxs] []
    [mkConnectionPool 1 [Some 0%nat] false 0 false (NewTCPClient (str "db:1945") 4096 1000 [])].

Lemma sample_next_up rxs : next_up 0%nat 0%nat [] (sample_client_world rxs).
Proof. eexists. split; [reflexivity|]. do 3 (split; [done|]). split; [simpl; lia|done]. Qed.

Lemma api_exchange_witness :
  exists m w', execute (H := sample_json) 0%nat context_Background (RGet (mkCappingKey (str "k") 60)) = Some m /\
    m (sample_client_world sample_rx) = (Ret (ReplyCount 7), w').
Proof.
  eexists. destruct (api_exchange (H := sample_json) 0%nat context_Background
    (RGet (mkCappingKey (str "k") 60)) _ 0%nat [] (sample_client_world sample_rx) (sample_tcp sample_rx)
    (sample_conn sample_rx) (str "ok|7") (frame (str "ok|8")) eq_refl eq_refl (sample_next_up _) eq_refl
    ltac:(apply Forall_nil_2) (sample_ready _) ltac:(vm_compute; discriminate)
    ltac:(vm_compute; discriminate) ltac:(vm_compute; reflexivity)) as (w' & t' & E & _).
  exists w'. split; [reflexivity|]. exact E.
Defined.
