(* ===== verification/ClientSession.v ===== *)
(** * ClientSession: calls one after another on one connection

    A reply has no number that says which request it answers: replies are
    matched with calls by their order alone.  [session_in_order]: on a working
    connection every call of a session gets the reply that is due to it.
    [connection_out_of_step]: a call that fails and leaves the connection open
    shifts that order, and every later call gets bytes that were meant for
    another one. *)

From S2P Require Import Prelude.
From S2P Require Import GoStd.
From S2P Require Import Strconv.
From S2P Require Import Types.
From S2P Require Import Commands.
From S2P Require Import Response.
From S2P Require Import ResponseFacts.
From S2P Require Import Options.
From S2P Require Import Pools.
From S2P Require Import Net.
From S2P Require Import Tcp.
From S2P Require Import TcpFacts.
From S2P Require Import TcpSafe.
From S2P Require Import TcpWire.
From S2P Require Import TcpTheorems.
From S2P Require Import ConnPool.
From S2P Require Import Client.
From S2P Require Import ClientSafe.
From S2P Require Import ClientApi.
From S2P Require Import ClientExchange.

(** ** What a server sends *)

(** The reply to one request: a frame, or the frames of a chunked reply. *)
Inductive sending :=
  | One (p : bytes)
  | Chunks (parts : list bytes) (good : bool) (final : bytes).

Definition wire (a : sending) : bytes :=
  match a with
  | One p => frame p
  | Chunks parts good final => next_frames parts ++ frame (closing good final)
  end.

(** The response the parser gets. *)
Definition response_of (a : sending) : bytes :=
  match a with
  | One p => p
  | Chunks parts good final => chunked_reply good parts final
  end.

(** [a] has the form of a reply to [r], and everything fits the maximum. *)
Definition acceptable (max : Z) (r : request) (a : sending) : Prop :=
  let fits p := Z.of_nat (length p) <= max in
  fits (render r) /\
  match a with
  | One p => is_inspect r = false /\ fits p
  | Chunks parts good final =>
      is_inspect r = true /\ Forall fits (joinStatusAndData frameStatusNext <$> parts) /\ fits (closing good final)
  end.

Lemma transmit_answer ctx r t n c a more :
  ready ctx t n c -> acceptable (tcp_maxMessageSize t) r a ->
  available (deadline ctx (tcp_idleTimeout t) (n_now n)) (c_rx c) = wire a ++ more ->
  transmits (transmit ctx r) t (n_now n) (Ret (response_of a))
    (left_behind ctx t (n_now n) c (render r) (length (wire a))).
Proof.
  intros Hr [Hreq Ha] Hav. destruct a as [p|parts good final]; cbn [wire response_of] in *.
  - destruct Ha as [Hi Hp]. rewrite length_frame. by eapply transmit_ok.
  - destruct Ha as (Hi & Hf & Hl). destruct r; try done. rewrite <- app_assoc in Hav.
    by eapply transmit_inspect_ok.
Qed.

(** ** Sessions *)

Section session.
Context `{Json}.

(** The calls one after another, each error a value. *)
Fixpoint session (ms : list (M reply)) : M (list (reply + error)) :=
  match ms with
  | [] => mret []
  | m :: ms =>
      r ← catch m;
      rs ← session ms;
      mret (r :: rs)
  end.

Definition of_result {A} (r : A + error) : outcome A :=
  match r with inl a => Ret a | inr e => Fail e end.

Lemma returns_result {A} (o : outcome A) : returns o -> exists r, o = of_result r.
Proof. destruct o as [a|e| |]; try done; intros _; [by exists (inl a)|by exists (inr e)]. Qed.

(** A client with one pooled connection, that works: what a session needs. *)
Definition working (c : Client) (i : nat) (ctx : context) (w : world) (t : TCPClient) (cn : conn) : Prop :=
  next_up c i [] w /\ w_clients w !! i = Some t /\ bufferPool_ok (w_bufs w) /\ ready ctx t (w_net w) cn.

(** The bytes a connection has for a call that starts now. *)
Definition offered (ctx : context) (w : world) (t : TCPClient) (cn : conn) : bytes :=
  available (deadline ctx (tcp_idleTimeout t) (n_now (w_net w))) (c_rx cn).

Lemma served_again c i t w : served c i [] t w ->
  next_up c i [] w /\ w_clients w !! i = Some t /\ bufferPool_ok (w_bufs w).
Proof.
  intros (Ht & Hb & cp & Hp & Hl & Hwg & Hc & Hch & Hcap). split; [|done]. exists cp. by split_and!.
Qed.

(** What an exchange leaves is what the next one needs. *)
Lemma exchanged_working ctx ctx' c i w t cn req k d w' t' cn' bytes more :
  working c i ctx w t cn -> exchanged t cn req k d t' cn' -> served c i [] t' w' ->
  let d' := deadline ctx' (tcp_idleTimeout t) (n_now (w_net w')) in
  n_now (w_net w') < d' -> d <= d' ->
  available d' (c_rx cn) = bytes ++ more -> length bytes = k ->
  working c i ctx' w' t' cn' /\ offered ctx' w' t' cn' = more.
Proof.
  intros (_ & _ & _ & Hr) Hex Hs d' Hn Hd Hav Hk. destruct (served_again _ _ _ _ Hs) as (Hn' & Ht' & Hb').
  split; [split_and!; try done; by eapply exchanged_ready|].
  unfold offered. destruct (ex_config _ _ _ _ _ _ _ Hex) as (_ & -> & _). fold d'.
  destruct (ex_after _ _ _ _ _ _ _ Hex d' Hd) as [-> _]. by rewrite Hav, <- Hk, drop_app_length.
Qed.

(** What a whole session sends and consumes. *)
Definition requests_sent (xs : list (request * sending)) : bytes := mjoin ((fun x => frame (render x.1)) <$> xs).
Definition replies_sent (xs : list (request * sending)) : bytes := mjoin ((fun x => wire x.2) <$> xs).

Definition decoded (x : request * sending) : outcome reply := decode x.1 (response_of x.2).

(** The methods of the requests, on a client with the maximum [max]. *)
Definition session_of (c : Client) (ctx : context) (max : Z) (xs : list (request * sending))
    (ms : list (M reply)) : Prop :=
  Forall2 (fun x m => execute c ctx x.1 = Some m /\ acceptable max x.1 x.2) xs ms.

Lemma execute_returns c ctx r m p : execute c ctx r = Some m -> returns (decode r p).
Proof.
  intros Hm. destruct r; try done; cbn [decode]; apply decode_returns; revert p; parser_returns.
Qed.

Lemma session_spec c i ctx xs ms :
  forall w t cn more,
  session_of c ctx (tcp_maxMessageSize t) xs ms -> working c i ctx w t cn ->
  offered ctx w t cn = replies_sent xs ++ more ->
  exists results w' t' cn' more',
    session ms w = (Ret results, w') /\ (of_result <$> results) = (decoded <$> xs) /\
    working c i ctx w' t' cn' /\ c_tx cn' = c_tx cn ++ requests_sent xs /\
    offered ctx w' t' cn' = more ++ more'.
Proof.
  revert ms. induction xs as [|x xs IH]; intros ms w t cn more Hms Hw Hav;
    inversion Hms as [|? m ? ms' [Hm Hacc] Hms']; subst.
  { exists [], w, t, cn, []. rewrite !app_nil_r. by split_and!. }
  pose proof Hw as (Hn & Ht & Hb & Hr). unfold offered in Hav.
  change (replies_sent (x :: xs)) with (wire x.2 ++ replies_sent xs) in Hav. rewrite <- app_assoc in Hav.
  destruct (execute_calls c ctx x.1 m i [] w t _ _ Hm Hn Ht Hb (transmit_answer ctx x.1 t _ cn x.2 _ Hr Hacc Hav) I)
    as (w1 & t1 & E1 & Hs1 & cn1 & d & Hex & Hdd & Hn1 & Hd).
  destruct (returns_result _ (execute_returns c ctx x.1 m (response_of x.2) Hm)) as (res & Hres).
  destruct (available_mono _ _ (c_rx cn) (Z.le_trans _ _ _ Hdd Hd)) as [extra Hav1]. rewrite Hav, <- app_assoc in Hav1.
  destruct (exchanged_working ctx ctx c i w t cn _ _ d w1 t1 cn1 _ _ Hw Hex Hs1 ltac:(lia) Hd Hav1 eq_refl)
    as (Hw1 & Hav2).
  rewrite <- app_assoc in Hav2. rewrite <- (ex_max _ _ _ _ _ _ _ Hex) in Hms'.
  destruct (IH ms' w1 t1 cn1 (more ++ extra) Hms' Hw1 Hav2) as (results & w' & t' & cn' & more' & E & Ho & Hw' & Htx & Hoff).
  exists (res :: results), w', t', cn', (extra ++ more'). split; [|split_and!].
  - cbn [session]. unfold mbind, st_bind, catch. rewrite E1. unfold answer. rewrite Hres.
    destruct res; simpl; by rewrite E.
  - cbn [fmap list_fmap]. by rewrite Ho, <- Hres.
  - done.
  - rewrite Htx, (ex_tx _ _ _ _ _ _ _ Hex), <- app_assoc. done.
  - by rewrite Hoff, <- app_assoc.
Qed.

(** C9. A session.  On the one connection of a client, as long as it works and the
    replies arrive in time, in whatever pieces: each call of any sequence of
    calls of the API, INSPECT included, gets exactly the reply that is due to
    it, errors of the server included; exactly the requests were sent, in
    order; and the connection works for the next call and has exactly the bytes
    that were not asked for. *)
Theorem session_in_order c i ctx xs ms w t cn more :
  session_of c ctx (tcp_maxMessageSize t) xs ms -> working c i ctx w t cn ->
  offered ctx w t cn = replies_sent xs ++ more ->
  exists results w' t' cn' more',
    session ms w = (Ret results, w') /\ (of_result <$> results) = (decoded <$> xs) /\
    working c i ctx w' t' cn' /\ c_tx cn' = c_tx cn ++ requests_sent xs /\
    offered ctx w' t' cn' = more ++ more'.
Proof. apply session_spec. Qed.

(** ** Calls that fail and leave the connection open *)

Lemma obstacle_silent d rxs : silent d rxs -> obstacle d rxs = timeout_error.
Proof. intros [|[t b|t e] l Ht Hs]; simpl; [done|..]; by rewrite (proj2 (Z.leb_le _ _)). Qed.

Lemma with_reconnect_fails ctx send s s' e :
  send s = (Fail e, s') -> errors_Is e ErrConnClosed = false -> with_reconnect ctx send s = (Fail e, s').
Proof. intros E He. unfold with_reconnect, mbind, st_bind, catch. by rewrite E, He. Qed.

Lemma reconnect_loop_done attempts attempt ctx send lastErr t n e :
  ctx_Err ctx (n_now n) = Some e -> reconnect_loop (S attempts) attempt ctx send lastErr (t, n) = (Fail e, (t, n)).
Proof. intros He. cbn [reconnect_loop]. unfold mbind, st_bind, now, gets. by rewrite He. Qed.

(** A broken connection, found when the context is done. *)
Lemma with_reconnect_done ctx send s e0 t' n' e :
  send s = (Fail e0, (t', n')) -> errors_Is e0 ErrConnClosed = true -> ctx_Err ctx (n_now n') = Some e ->
  with_reconnect ctx send s = (Fail e, (t', n')).
Proof.
  intros E Hc He. unfold with_reconnect, mbind, st_bind, catch. rewrite E, Hc.
  exact (reconnect_loop_done 15 1 ctx send e0 t' n' e He).
Qed.

(** Nothing arrived before the caller's deadline. *)
Lemma transmit_late ctx r t n c e :
  let d := deadline ctx (tcp_idleTimeout t) (n_now n) in
  is_inspect r = false -> ready ctx t n c -> fits t (render r) ->
  silent d (c_rx c) -> ctx_Err ctx d = Some e ->
  transmits (transmit ctx r) t (n_now n) (Fail e)
    (fun t' n' => n_now n' = d /\ exists c', exchanged t c (render r) 0 d t' c').
Proof.
  intros d Hi Hr Hreq Hs He n1 Hn1. apply (ready_now _ _ _ n1) in Hr; [|done].
  destruct (Send_spec ctx (render r) t n1 c Hr Hreq)
    as (o & t' & n' & c' & E & Hc & Hcl & Htx & Hw & Hok & Hcf & Hm & Ho).
  rewrite Hn1 in Hw, Ho. fold d in Hw, Ho. unfold send_outcome in Ho.
  rewrite (available_silent _ _ Hs) in Ho. simpl in Ho.
  destruct Ho as (e' & -> & (_ & _ & Hq) & Ho). destruct (Hq Hs) as [Hrx Hnow].
  rewrite (obstacle_silent _ _ Hs) in Ho. destruct Ho as [->|[Ho _]]; [|done].
  exists t', n'. split; [|split; [done|]; exists c'; split; try done; rewrite Hrx; apply after_refl].
  pose proof (with_reconnect_done ctx _ _ _ t' n' e E eq_refl) as Hgo. rewrite Hnow in Hgo.
  specialize (Hgo He). destruct r; first [discriminate Hi | exact Hgo].
Qed.

(** The frame that came is larger than the negotiated maximum. *)
Lemma transmit_refused ctx r t n c v more :
  is_inspect r = false -> ready ctx t n c -> fits t (render r) -> tcp_maxMessageSize t < v < 2 ^ 32 ->
  available (deadline ctx (tcp_idleTimeout t) (n_now n)) (c_rx c) = PutUint32 v ++ more ->
  transmits (transmit ctx r) t (n_now n)
    (Fail (EWrap "%w: %d > %d" [FInt v; FInt (tcp_maxMessageSize t)] errFrameTooLarge))
    (left_behind ctx t (n_now n) c (render r) 4).
Proof.
  intros Hi Hr Hreq Hv Hav n1 Hn1. rewrite <- Hn1 in Hav |- *. apply (ready_now _ _ _ n1) in Hr; [|done].
  destruct (Send_spec ctx (render r) t n1 c Hr Hreq)
    as (o & t' & n' & c' & E & Hc & Hcl & Htx & Hw & Hok & Hs & Hm & Ho).
  assert (Hmax : 0 <= tcp_maxMessageSize t) by (unfold fits in Hreq; lia).
  unfold send_outcome in Ho. rewrite Hav in Ho. unfold PutUint32 in Ho. cbn [app unframe] in Ho.
  rewrite Uint32_PutUint32, (proj2 (Z.ltb_lt _ _)) in Ho by (unfold uint; lia).
  destruct Ho as (-> & Ha & Hn'). exists t', n'. split.
  - pose proof (with_reconnect_fails ctx _ _ _ _ E eq_refl) as Hgo. destruct r; first [discriminate Hi | exact Hgo].
  - exists c', (deadline ctx (tcp_idleTimeout t) (n_now n1)). split; [done|]. split; [done|].
    split; [apply Hn'|]. by apply deadline_next.
Qed.

(** A stream on a working connection, under a context that is never done: the
    callback takes the events in order until it stops, or one does not parse. *)
Lemma stream_calls {A E} (parse : bytes -> outcome (response E)) c i rest ctx cmd (handle : handler A E) h
    w t cn ps seen h' e more :
  next_up c i rest w -> w_clients w !! i = Some t -> bufferPool_ok (w_bufs w) ->
  ready ctx t (w_net w) cn -> fits t cmd -> ctx_done ctx = None ->
  available (deadline ctx (tcp_idleTimeout t) (n_now (w_net w))) (c_rx cn) = frames ps ++ more ->
  Forall (fits t) ps -> feed (event_handler parse handle) h ps = Some (seen, h', e) ->
  errors_Is e ErrConnClosed = false ->
  calls (stream_with parse c ctx cmd handle h) (Ret (h', e)) c i rest
    (left_behind ctx t (n_now (w_net w)) cn cmd (length (frames seen))) w.
Proof.
  intros Hn Ht Hb Hr Hc Hctx Hav Hf Hfeed He.
  destruct (Stream_spec ctx cmd (event_handler parse handle) h t (w_net w) cn ps seen h' e more Hr Hc Hav Hf Hfeed)
    as (t' & n' & cn' & d & E1 & Hex & Hin).
  edestruct (borrow_call c i rest
    (on_client (Some i) (fuel ← stream_fuel; stream_loop fuel ctx cmd (event_handler parse handle) h))
    w t (Ret (h', e)) t' n' Hn Ht Hb I) as (w1 & w' & E2 & E3 & Hs & Hnet).
  - intros w1 Hc1 Hn1. rewrite <- Hc1 in Ht. rewrite (on_client_eq _ _ _ _ Ht), Hn1.
    unfold mbind at 1, st_bind at 1, stream_fuel, gets. cbn [stream_loop].
    unfold mbind, st_bind. rewrite E1. unfold now, gets, ctx_Err. by rewrite Hctx, He.
  - exists w', t'. rewrite Hnet. split; [|split; [done|by exists cn', d]].
    unfold stream_with, mbind at 1, st_bind at 1, catch. by rewrite E2.
Qed.

(** [m], and the session behind it. *)
Definition then_session {A} (m : M A) (ms : list (M reply)) : M ((A + error) * list (reply + error)) :=
  r ← catch m;
  rs ← session ms;
  mret (r, rs).

Lemma then_session_spec {A} c i ctx0 ctx xs ms (m0 : M A) o res0 req k d w t cn w1 t1 cn1 skipped more :
  working c i ctx0 w t cn -> m0 w = (o, w1) -> o = of_result res0 ->
  served c i [] t1 w1 -> exchanged t cn req k d t1 cn1 ->
  let d' := deadline ctx (tcp_idleTimeout t) (n_now (w_net w1)) in
  n_now (w_net w1) < d' -> d <= d' ->
  available d' (c_rx cn) = skipped ++ replies_sent xs ++ more -> length skipped = k ->
  session_of c ctx (tcp_maxMessageSize t) xs ms ->
  exists results w', then_session m0 ms w = (Ret (res0, results), w') /\ (of_result <$> results) = (decoded <$> xs).
Proof.
  intros Hw E -> Hs Hex d' Hn Hd Hav Hk Hms.
  destruct (exchanged_working ctx0 ctx c i w t cn req k d w1 t1 cn1 skipped _ Hw Hex Hs Hn Hd Hav Hk) as (Hw1 & Hoff).
  rewrite <- (ex_max _ _ _ _ _ _ _ Hex) in Hms.
  destruct (session_spec c i ctx xs ms w1 t1 cn1 more Hms Hw1 Hoff) as (results & w' & _ & _ & _ & E' & Ho & _).
  exists results, w'. split; [|done]. unfold then_session, mbind, st_bind, catch. rewrite E.
  destruct res0; simpl; by rewrite E'.
Qed.

(** C36. A connection out of step.  A reply is matched with a call by its place in
    the stream alone, and a call that fails without breaking its connection
    gives it back to the pool as it is.  Whatever the calls are:
    - a call whose reply is not there at the caller's deadline fails with the
      context's error, and every call of the next session gets the reply that
      was due to the call before it, the first one the late reply;
    - a call whose reply is refused for its size leaves the payload, and the
      next session decodes that payload as its replies;
    - a stream that its callback ended leaves the subscription, and the next
      session decodes the events that follow as its replies. *)
Theorem connection_out_of_step {A} c i ctx0 ctx xs ms0 ms w t cn r0 m0 :
  working c i ctx0 w t cn -> execute c ctx0 r0 = Some m0 -> is_inspect r0 = false -> fits t (render r0) ->
  session_of c ctx0 (tcp_maxMessageSize t) xs ms0 -> session_of c ctx (tcp_maxMessageSize t) xs ms ->
  let d0 := deadline ctx0 (tcp_idleTimeout t) (n_now (w_net w)) in
  let d := deadline ctx (tcp_idleTimeout t) d0 in
  (forall e more, silent d0 (c_rx cn) -> ctx_Err ctx0 d0 = Some e -> d0 < d ->
     available d (c_rx cn) = replies_sent xs ++ more ->
     exists results w', then_session m0 ms w = (Ret (inr (EWrap "send: %w" [] e), results), w') /\
       (of_result <$> results) = (decoded <$> xs)) /\
  (forall v more, tcp_maxMessageSize t < v < 2 ^ 32 ->
     offered ctx0 w t cn = PutUint32 v ++ replies_sent xs ++ more ->
     exists results w', then_session m0 ms0 w
       = (Ret (inr (EWrap "send: %w" [] (EWrap "%w: %d > %d" [FInt v; FInt (tcp_maxMessageSize t)] errFrameTooLarge)),
               results), w') /\
       (of_result <$> results) = (decoded <$> xs)) /\
  (forall (handle : handler A LimitEvent) h ps h' e more, ctx_done ctx0 = None -> fits t CommandStream ->
     Forall (fits t) ps -> feed (event_handler parseLimitEventResponse handle) h ps = Some (ps, h', e) ->
     errors_Is e ErrConnClosed = false ->
     offered ctx0 w t cn = frames ps ++ replies_sent xs ++ more ->
     exists results w', then_session (Stream_ c ctx0 handle h) ms0 w = (Ret (inl (h', e), results), w') /\
       (of_result <$> results) = (decoded <$> xs)).
Proof.
  intros Hw Hm Hi Hfit Hms0 Hms d0 d. pose proof Hw as (Hn & Ht & Hb & Hr). split_and!.
  - intros e more Hs He Hlt Hav.
    destruct (execute_calls c ctx0 r0 m0 i [] w t _ _ Hm Hn Ht Hb
      (transmit_late ctx0 r0 t (w_net w) cn e Hi Hr Hfit Hs He) I) as (w1 & t1 & E1 & Hs1 & Hnow & cn1 & Hex).
    fold d0 in Hnow. subst d. rewrite <- Hnow in Hlt, Hav.
    eapply (then_session_spec c i ctx0 ctx xs ms m0 _ (inr _) _ 0 _ w t cn w1 t1 cn1 [] more); try done; [lia..].
  - intros v more Hv Hav.
    destruct (execute_calls c ctx0 r0 m0 i [] w t _ _ Hm Hn Ht Hb
      (transmit_refused ctx0 r0 t (w_net w) cn v _ Hi Hr Hfit Hv Hav) I)
      as (w1 & t1 & E1 & Hs1 & cn1 & d1 & Hex & Hd0 & Hn1 & Hd1).
    destruct (available_mono _ _ (c_rx cn) (Z.le_trans _ _ _ Hd0 Hd1)) as [extra Hav1].
    unfold offered in Hav. rewrite Hav, <- !app_assoc in Hav1.
    eapply (then_session_spec c i ctx0 ctx0 xs ms0 m0 _ (inr _) _ 4 _ w t cn w1 t1 cn1); try done; lia.
  - intros handle h ps h' e more Hctx Hcmd Hf Hfeed He Hav.
    destruct (stream_calls parseLimitEventResponse c i [] ctx0 CommandStream handle h w t cn ps ps h' e _
      Hn Ht Hb Hr Hcmd Hctx Hav Hf Hfeed He) as (w1 & t1 & E1 & Hs1 & cn1 & d1 & Hex & Hd0 & Hn1 & Hd1).
    destruct (available_mono _ _ (c_rx cn) (Z.le_trans _ _ _ Hd0 Hd1)) as [extra Hav1].
    unfold offered in Hav. rewrite Hav, <- !app_assoc in Hav1.
    eapply (then_session_spec c i ctx0 ctx0 xs ms0 _ _ (inl _) _ _ _ w t cn w1 t1 cn1); try done; lia.
Qed.

End session.

(** ** Samples *)

Definition sample_two : list (request * sending) :=
  [(RGet (mkCappingKey (str "k") 60), One (str "ok|7")); (RGet (mkCappingKey (str "l") 60), One (str "err|3001|no"))].

Definition sample_calls (ctx : context) : list (M (@reply sample_json)) :=
  omap (fun x => execute (H := sample_json) 0%nat ctx x.1) sample_two.

Lemma sample_session ctx : session_of (H := sample_json) 0%nat ctx 64 sample_two (sample_calls ctx).
Proof. repeat constructor; vm_compute; discriminate. Qed.

Lemma sample_working rxs :
  working 0%nat 0%nat context_Background (sample_client_world rxs) (sample_tcp rxs) (sample_conn rxs).
Proof. split; [apply sample_next_up|]. split; [done|]. split; [apply Forall_nil_2|apply sample_ready]. Qed.

Lemma session_in_order_witness :
  exists w', session (H := sample_json) (sample_calls context_Background)
      (sample_client_world [RxData 5 (replies_sent sample_two)])
    = (Ret [inl (ReplyCount 7); inr (EProtocol 3001 (str "no"))], w').
Proof.
  destruct (session_in_order (H := sample_json) 0%nat 0%nat context_Background sample_two
    (sample_calls context_Background) (sample_client_world [RxData 5 (replies_sent sample_two)])
    (sample_tcp [RxData 5 (replies_sent sample_two)]) (sample_conn [RxData 5 (replies_sent sample_two)]) []
    (sample_session _) (sample_working _)
    ltac:(vm_compute; reflexivity)) as (results & w' & _ & _ & _ & E & Ho & _).
  exists w'. rewrite E. clear E. vm_compute in Ho.
  destruct results as [|[?|?] [|[?|?] [|? ?]]]; simplify_eq/=. reflexivity.
Defined.

(** A caller's context with a deadline at 3. *)
Definition sample_short : context := mkCtx (Some 3) (Some (3, ESentinel context_DeadlineExceeded)).

(** The reply to the first call arrives at 5. *)
Definition sample_late : list rx := [RxData 5 (replies_sent sample_two)].

Lemma sample_working_short :
  working 0%nat 0%nat sample_short (sample_client_world sample_late) (sample_tcp sample_late) (sample_conn sample_late).
Proof.
  split; [apply sample_next_up|]. split; [done|]. split; [apply Forall_nil_2|].
  split; [split; [split; [done|apply Forall_nil_2]|done]|done|done|done|done|].
  constructor; [split; [done|lia]|constructor].
Qed.

Lemma connection_out_of_step_witness :
  exists m0 w',
    execute (H := sample_json) 0%nat sample_short (RGet (mkCappingKey (str "j") 60)) = Some m0 /\
    then_session (H := sample_json) m0 (sample_calls context_Background) (sample_client_world sample_late)
    = (Ret (inr (EWrap "send: %w" [] context_DeadlineExceeded),
            [inl (ReplyCount 7); inr (EProtocol 3001 (str "no"))]), w').
Proof.
  eexists. destruct (proj1 (connection_out_of_step (A := unit) (H := sample_json) 0%nat 0%nat sample_short
    context_Background sample_two (sample_calls sample_short) (sample_calls context_Background)
    (sample_client_world sample_late) (sample_tcp sample_late) (sample_conn sample_late)
    (RGet (mkCappingKey (str "j") 60)) _ sample_working_short eq_refl eq_refl ltac:(vm_compute; discriminate)
    (sample_session _) (sample_session _)) context_DeadlineExceeded []
    ltac:(repeat constructor; vm_compute; discriminate) eq_refl ltac:(vm_compute; reflexivity)
    ltac:(vm_compute; reflexivity)) as (results & w' & E & Ho).
  exists w'. split; [reflexivity|]. rewrite E. clear E. vm_compute in Ho.
  destruct results as [|[?|?] [|[?|?] [|? ?]]]; simplify_eq/=. reflexivity.
Defined.
