(* ===== verification/ClientResend.v ===== *)
(** * ClientResend: everything a call puts on the wire

    [sendWithReconnect] sends its request again on a new connection when the
    old one broke.  [request_on_the_wire]: for every network, the connections
    a call uses are at most 17, and each carries at most one copy of the
    request, behind the handshake, and nothing else. *)

From S2P Require Import Prelude.
From S2P Require Import GoStd.
From S2P Require Import Strconv.
From S2P Require Import Types.
From S2P Require Import Commands.
From S2P Require Import Response.
From S2P Require Import ResponseFacts.
From S2P Require Import Options.
From S2P Require Import Pools.
From S2P Require Import Net.
From S2P Require Import Tcp.
From S2P Require Import TcpFacts.
From S2P Require Import TcpSafe.
From S2P Require Import TcpWire.
From S2P Require Import TcpTheorems.
From S2P Require Import ConnPool.
From S2P Require Import Client.
From S2P Require Import ClientSafe.
From S2P Require Import ClientApi.
From S2P Require Import ClientExchange.

(** ** What an operation adds to its connection *)

(** From [s] to [s'] a prefix of [x] was sent on the connection, which is still
    the client's. *)
Definition grows (x : bytes) (s s' : TCPClient * net) : Prop :=
  forall c, tcp_connection s.1 = Some c ->
    exists c' p, tcp_connection s'.1 = Some c' /\ c_tx c' = c_tx c ++ p /\ p `prefix_of` x /\
      n_dropped s'.2 = n_dropped s.2 /\ same_config s.1 s'.1.

(** Whatever the outcome of [m]. *)
Definition touches {A} (m : T A) (x : bytes) : Prop := forall s, grows x s (m s).2.

Lemma grows_refl x s : grows x s s.
Proof.
  intros c Hc. exists c, []. rewrite app_nil_r. split_and!; [done|done|apply prefix_nil|done|].
  apply same_config_refl.
Qed.

Lemma grows_app x y s1 s2 s3 p :
  (forall c, tcp_connection s1.1 = Some c -> exists c', tcp_connection s2.1 = Some c' /\ c_tx c' = c_tx c ++ p /\
     n_dropped s2.2 = n_dropped s1.2 /\ same_config s1.1 s2.1) ->
  (forall q, q `prefix_of` y -> p ++ q `prefix_of` x) -> grows y s2 s3 -> grows x s1 s3.
Proof.
  intros H1 Hp H2 c Hc. destruct (H1 c Hc) as (c' & Hc' & Htx & Hd & Hs).
  destruct (H2 c' Hc') as (c'' & q & Hc'' & Htx' & Hq & Hd' & Hs'). exists c'', (p ++ q).
  split_and!; [done|by rewrite Htx', Htx, app_assoc|by apply Hp|congruence|by eapply same_config_trans].
Qed.

Lemma grows_nil s1 s2 : grows [] s1 s2 ->
  forall c, tcp_connection s1.1 = Some c -> exists c', tcp_connection s2.1 = Some c' /\ c_tx c' = c_tx c ++ [] /\
     n_dropped s2.2 = n_dropped s1.2 /\ same_config s1.1 s2.1.
Proof.
  intros H c Hc. destruct (H c Hc) as (c' & p & Hc' & Htx & Hp & Hd & Hs). apply prefix_nil_inv in Hp as ->.
  by exists c'.
Qed.

Lemma touches_bind_quiet {A B} (m : T A) (f : A -> T B) x :
  touches m [] -> (forall a, touches (f a) x) -> touches (m ≫= f) x.
Proof.
  intros Hm Hf s. unfold mbind, st_bind. specialize (Hm s). destruct (m s) as [[a|e| |] s1]; simpl in *.
  all: eapply (grows_app _ x _ s1 _ []); [by apply grows_nil|by intros|].
  all: first [apply Hf | apply grows_refl].
Qed.

(** Nothing is sent after [m]. *)
Lemma touches_bind_last {A B} (m : T A) (f : A -> T B) x :
  touches m x -> (forall a, touches (f a) []) -> touches (m ≫= f) x.
Proof.
  intros Hm Hf s. unfold mbind, st_bind. specialize (Hm s). destruct (m s) as [[a|e| |] s1]; simpl in *; try done.
  intros c Hc. destruct (Hm c Hc) as (c' & p & Hc' & Htx & Hp & Hd & Hs).
  destruct (grows_nil _ _ (Hf a s1) c' Hc') as (c'' & Hc'' & Htx' & Hd' & Hs'). exists c'', p.
  rewrite app_nil_r in Htx'. split_and!; try congruence. by eapply same_config_trans.
Qed.

Lemma touches_catch {A} (m : T A) x : touches m x -> touches (catch m) x.
Proof. intros Hm s. unfold catch. specialize (Hm s). by destruct (m s) as [[] ?]. Qed.

Lemma touches_map_error {A} f (m : T A) x : touches m x -> touches (map_error f m) x.
Proof. intros Hm s. unfold map_error. specialize (Hm s). by destruct (m s) as [[] ?]. Qed.

Lemma touches_same {A} (m : T A) x : (forall s, (m s).2 = s) -> touches m x.
Proof. intros Hm s. rewrite Hm. apply grows_refl. Qed.

Lemma touches_modify (f : TCPClient * net -> TCPClient * net) x :
  (forall s, tcp_connection (f s).1 = tcp_connection s.1 /\ n_dropped (f s).2 = n_dropped s.2 /\
     same_config s.1 (f s).1) -> touches (modify f) x.
Proof.
  intros H s c Hc. destruct (H s) as (Hf & Hd & Hs). exists c, []. simpl. rewrite app_nil_r.
  split_and!; [congruence|done|apply prefix_nil|done|done].
Qed.

Lemma touches_on_conn {A} (f : conn -> Z -> outcome A * conn * Z) x :
  (forall c now, exists p, c_tx (f c now).1.2 = c_tx c ++ p /\ p `prefix_of` x) -> touches (on_conn f) x.
Proof.
  intros H [t n] c Hc. unfold on_conn. simpl in *. rewrite Hc. destruct (H c (n_now n)) as (p & Htx & Hp).
  destruct (f c (n_now n)) as [[o c'] now']. exists c', p. by split_and!.
Qed.

Lemma touches_ReadFull k x : touches (ReadFull k) x.
Proof.
  apply touches_on_conn. intros c now. exists []. rewrite app_nil_r. split; [|apply prefix_nil].
  destruct (c_closed c); [by case_decide|]. by destruct (read_full _ _ _ _) as [[[??]?]?].
Qed.

Lemma touches_SetDeadline d x : touches (SetDeadline d) x.
Proof.
  apply touches_on_conn. intros c now. exists []. rewrite app_nil_r. split; [|apply prefix_nil].
  by destruct (c_closed c).
Qed.

Lemma touches_Close_conn x : touches Close_conn x.
Proof.
  apply touches_on_conn. intros c now. exists []. rewrite app_nil_r. split; [done|apply prefix_nil].
Qed.

Lemma touches_bufferPool_Get x : touches bufferPool_Get x.
Proof.
  intros [t n] c Hc. unfold bufferPool_Get, next_pick. exists c, []. rewrite app_nil_r.
  destruct (n_picks n); destruct (bytesPool_Get _ _); simpl; (split_and!; try done; apply prefix_nil).
Qed.

Lemma touches_bufferPool_Put b x : touches (bufferPool_Put b) x.
Proof. apply touches_modify. intros [t n]. by split_and!. Qed.

#[export] Hint Resolve touches_catch touches_map_error touches_ReadFull touches_SetDeadline touches_Close_conn
  touches_bufferPool_Get touches_bufferPool_Put : fq.

(** Decompose a method of which no part sends. *)
Ltac touch :=
  repeat (intros; first
    [ assumption | solve [auto with fq nocore] | by apply touches_same
    | apply touches_bind_quiet | apply touches_catch | apply touches_map_error
    | match goal with |- touches (match ?x with _ => _ end) _ => destruct x end ]).

Lemma touches_readFrameInto max b : touches (readFrameInto max b) [].
Proof. unfold readFrameInto, readFrameSize. touch. Qed.

Lemma touches_setDeadline ctx : touches (setDeadline ctx) [].
Proof. unfold setDeadline. touch. Qed.

#[export] Hint Resolve touches_readFrameInto touches_setDeadline : fq.

Lemma touches_SetMax size : touches (SetMaxMessageSizeUnsafe size) [].
Proof.
  unfold SetMaxMessageSizeUnsafe. apply touches_bind_quiet; [apply touches_modify; by intros []; split_and!|].
  intros []. apply touches_bind_quiet; [by apply touches_same|]. intros p.
  apply touches_modify. by intros []; split_and!.
Qed.

#[export] Hint Resolve touches_SetMax : fq.

(** ** The operations that send *)

(** [m] has sent all of [x] when it returns a value. *)
Lemma touches_bind_writes {A B} (m : T A) (f : A -> T B) x y :
  writes m x -> touches m x -> (forall a, touches (f a) y) -> touches (m ≫= f) (x ++ y).
Proof.
  intros Hw Hm Hf s. unfold mbind, st_bind. specialize (Hm s). destruct (m s) as [[a|e| |] s1] eqn:E; simpl in *.
  2-4: intros c Hc; destruct (Hm c Hc) as (c' & p & ? & ? & Hp & ? & ?); exists c', p; split_and!; try done;
    by apply prefix_app_r.
  eapply (grows_app _ y s s1 _ x); [|intros; by apply prefix_app|apply Hf].
  intros c Hc. destruct (Hm c Hc) as (c' & p & Hc' & Htx & _ & Hd & Hs). exists c'. split_and!; try done.
  assert (Hws : wire s = Some (c_tx c, c_addr c, c_tls c, c_closed c)) by (unfold wire; by rewrite Hc).
  pose proof (Hw _ _ _ _ _ _ _ Hws E) as H'. unfold wire in H'. rewrite Hc' in H'. by injection H'.
Qed.

Lemma write_conn_tx data c now :
  let '(k, _, c', _) := write_conn data c now in c_tx c' = c_tx c ++ take k data.
Proof.
  unfold write_conn. destruct (c_closed c); [by rewrite take_0, app_nil_r|].
  destruct (past _ _); [by rewrite take_0, app_nil_r|]. destruct (c_wr c) as [|[w j|w j e] ws].
  - by rewrite firstn_all.
  - destruct (past _ _); [by rewrite take_0, app_nil_r|done].
  - destruct (past _ _); [by rewrite take_0, app_nil_r|done].
Qed.

Lemma touches_writeAll fuel data : touches (writeAll fuel data) data.
Proof.
  revert data. induction fuel as [|fuel IH]; intros [|b data]; try (by apply touches_same).
  intros [t n] c Hc. cbn [writeAll]. unfold mbind, st_bind, Write, on_conn. simpl in Hc. rewrite Hc.
  pose proof (write_conn_tx (b :: data) c (n_now n)) as Htx.
  destruct (write_conn (b :: data) c (n_now n)) as [[[k err] c1] now1].
  set (s1 := (set_connection (Some c1) t, set_now now1 n)).
  assert (Hgo : forall m : T (), touches m (drop k (b :: data)) ->
    exists c' p, tcp_connection (m s1).2.1 = Some c' /\ c_tx c' = c_tx c ++ p /\ p `prefix_of` b :: data /\
      n_dropped (m s1).2.2 = n_dropped n /\ same_config t (m s1).2.1).
  { intros m Hm. refine (grows_app (b :: data) (drop k (b :: data)) (t, n) s1 _ (take k (b :: data)) _ _ (Hm s1) c Hc).
    - intros c0 Hc0. simpl in Hc0. simplify_eq. exists c1. by split_and!.
    - intros q Hq. rewrite <- (take_drop k (b :: data)) at 2. by apply prefix_app. }
  destruct err as [e|]; [by apply Hgo, touches_same|].
  case_decide; [by apply Hgo, touches_same|]. apply Hgo, IH.
Qed.

Lemma touches_writeFrame p : Z.of_nat (length p) < 2 ^ 64 -> touches (writeFrame p) (frame p).
Proof.
  intros Hp. unfold writeFrame. rewrite to_uint64_id by (unfold uint; lia).
  destruct (Z.ltb_spec maxFramePayloadSize (Z.of_nat (length p))) as [|Hl]; [by apply touches_same|].
  unfold maxFramePayloadSize in Hl. rewrite to_uint32_id by (unfold uint; lia).
  apply touches_bind_writes; [apply writeAll_writes|apply touches_writeAll|]. intros []. apply touches_writeAll.
Qed.

Lemma touches_start_request ctx req :
  Z.of_nat (length req) < 2 ^ 64 -> touches (start_request ctx req) (frame req).
Proof.
  intros Hlen. unfold start_request. apply touches_bind_quiet; [by apply touches_same|]. intros t.
  destruct (_ <? _); [by apply touches_same|].
  apply touches_bind_quiet; [touch|]. intros []. by apply touches_map_error, touches_writeFrame.
Qed.

Lemma touches_SendChunked_loop fuel ctx body response : touches (SendChunked_loop fuel ctx body response) [].
Proof.
  revert body response. induction fuel as [|fuel IH]; intros body response; [by apply touches_same|].
  cbn [SendChunked_loop]. touch.
Qed.

Lemma touches_Send ctx req : Z.of_nat (length req) < 2 ^ 64 -> touches (Send ctx req) (frame req).
Proof. intros Hlen. unfold Send. apply touches_bind_last; [by apply touches_start_request|]. touch. Qed.

Lemma touches_SendChunked ctx req : Z.of_nat (length req) < 2 ^ 64 -> touches (SendChunked ctx req) (frame req).
Proof.
  intros Hlen. unfold SendChunked. apply touches_bind_last; [by apply touches_start_request|]. intros [].
  apply touches_bind_quiet; [touch|]. intros response. apply touches_bind_quiet; [by apply touches_same|].
  intros fuel. apply touches_bind_quiet; [apply touches_SendChunked_loop|]. touch.
Qed.

Lemma touches_hello ctx s :
  token_ok (tcp_token s.1) -> grows (frame (hello_request (tcp_token s.1))) s (hello ctx s).2.
Proof.
  intros Ht. unfold hello, self. unfold mbind at 1, st_bind at 1, gets.
  refine (touches_bind_last _ _ _ _ _ s); [by apply touches_map_error, touches_Send|touch].
Qed.

(** ** Reconnecting *)

(** What [connect] does to a client with the connection [c]: no dial, and
    nothing changes; or a new connection takes its place, on which at most the
    handshake was sent, all of it when it succeeded. *)
Definition connects (s : TCPClient * net) (c : conn) (r : outcome () * (TCPClient * net)) : Prop :=
  let hello := frame (hello_request (tcp_token s.1)) in
  same_config s.1 r.2.1 /\
  (tcp_connection r.2.1 = Some c /\ n_dropped r.2.2 = n_dropped s.2 /\ r.1 <> Ret () \/
   exists c', tcp_connection r.2.1 = Some c' /\ n_dropped r.2.2 = c :: n_dropped s.2 /\
     c_tx c' `prefix_of` hello /\ (r.1 = Ret () -> c_tx c' = hello)).

Lemma connect_connects s c :
  token_ok (tcp_token s.1) -> tcp_connection s.1 = Some c -> connects s c (connect s).
Proof.
  intros Ht Hc. pose proof (fun s' => connect_wire s s' ()) as Hwire. destruct s as [t n]. simpl in *.
  unfold connect, mbind, st_bind, self, gets, on_net in *. simpl in *.
  destruct (dial_cases (tcp_address t) (tcp_tlsConfig t) n)
    as [(e & E & Hd & _)|(c1 & E & Hd & _ & Hcl & Htx & Had & Htls)];
    destruct (dial (tcp_address t) (tcp_tlsConfig t) n) as [o n'] eqn:En; simpl in *; rewrite E in *.
  { split; [apply same_config_refl|]. by left. }
  simpl in *. unfold catch in *. set (s1 := (set_connection (Some c1) t, _)) in *.
  assert (Hn1 : n_dropped s1.2 = c :: n_dropped n) by (simpl; by rewrite Hc, Hd).
  set (ctx := context_WithTimeout _ _) in *.
  destruct (touches_hello ctx s1 Ht c1 eq_refl) as (c2 & p & Hc2 & Htx2 & Hp & Hd2 & Hs2).
  rewrite Htx in Htx2. simpl in Htx2. rewrite Hn1 in Hd2. clear Hn1.
  destruct (hello ctx s1) as [[[]|e| |] s2] eqn:Eh; simpl in *.
  - specialize (Hwire _ Ht eq_refl). unfold greeted, wire in Hwire. rewrite Hc2 in Hwire. injection Hwire as Hall _ _ _.
    split; [done|]. right. exists c2. split_and!; [done|exact Hd2|by rewrite Htx2|by intros].
  - destruct (grows_nil _ _ (touches_Close_conn [] s2) c2 Hc2) as (c3 & Hc3 & Htx3 & Hd3 & Hs3).
    rewrite app_nil_r in Htx3. destruct (Close_conn s2) as [[[]|e'| |] s3]; simpl in *;
      (split; [by eapply same_config_trans|]; right; exists c3; split_and!; [done|simpl; congruence|by rewrite Htx3, Htx2|done]).
  - split; [done|]. right. exists c2. split_and!; [done|simpl; congruence|by rewrite Htx2|done].
  - split; [done|]. right. exists c2. split_and!; [done|simpl; congruence|by rewrite Htx2|done].
Qed.

Lemma Reconnect_connects s c :
  token_ok (tcp_token s.1) -> tcp_connection s.1 = Some c ->
  exists c1, c_tx c1 = c_tx c /\ connects s c1 (Reconnect s).
Proof.
  intros Ht Hc. unfold Reconnect, mbind, st_bind.
  destruct (grows_nil _ _ (touches_catch _ _ (touches_Close_conn []) s) c Hc) as (c1 & Hc1 & Htx & Hd & Hs).
  pose proof Hs as (_ & _ & Htk & _). rewrite app_nil_r in Htx.
  assert (Hret : exists r s1, catch Close_conn s = (Ret r, s1)).
  { destruct s as [t n]. unfold catch, Close_conn, on_conn. simpl in *. rewrite Hc.
    destruct (c_closed c); by eexists _, _. }
  destruct Hret as (r & s1 & E). rewrite E in *. simpl in *. exists c1. split; [done|].
  destruct (connect_connects s1 c1) as (Hs1 & H1); [by rewrite Htk|done|]. rewrite Htk, Hd in H1.
  split; [by eapply same_config_trans|done].
Qed.

(** ** The trail of a call *)

Section trail.
Context (t0 : TCPClient) (tx0 req : bytes) (base : list conn).
Let hello := frame (hello_request (tcp_token t0)).

(** What was sent on the connections used so far, the newest first: the first
    one had sent [tx0] before. *)
Definition trail (k : nat) (txs : list bytes) : Prop :=
  exists later p, txs = later ++ [tx0 ++ p] /\ p `prefix_of` req /\ (length later <= k)%nat /\
    Forall (fun tx => tx `prefix_of` hello ++ req) later.

(** The connections used so far are the client's and the ones dropped since. *)
Definition on_trail (k : nat) (s : TCPClient * net) : Prop :=
  exists c new, tcp_connection s.1 = Some c /\ n_dropped s.2 = new ++ base /\ same_config t0 s.1 /\
    trail k (c_tx <$> c :: new).

(** The client's connection has only carried the handshake. *)
Definition fresh_trail (k : nat) (s : TCPClient * net) : Prop :=
  exists c new, tcp_connection s.1 = Some c /\ n_dropped s.2 = new ++ base /\ same_config t0 s.1 /\
    c_tx c = hello /\ trail k (c_tx <$> new).

Lemma trail_weaken k k' txs : trail k txs -> (k <= k')%nat -> trail k' txs.
Proof. intros (later & p & ? & ? & ? & ?) ?. exists later, p. split_and!; (done || lia). Qed.

Lemma trail_cons k tx txs : trail k txs -> tx `prefix_of` hello ++ req -> trail (S k) (tx :: txs).
Proof.
  intros (later & p & -> & ? & ? & ?) ?. exists (tx :: later), p. split_and!; [done|done|simpl; lia|by constructor].
Qed.

Lemma on_trail_weaken k k' s : on_trail k s -> (k <= k')%nat -> on_trail k' s.
Proof. intros (c & new & ? & ? & ? & ?) ?. exists c, new. split_and!; try done. by eapply trail_weaken. Qed.

Hypothesis Htoken : token_ok (tcp_token t0).

Lemma Reconnect_trail k s :
  on_trail k s -> on_trail (S k) (Reconnect s).2 /\ ((Reconnect s).1 = Ret () -> fresh_trail k (Reconnect s).2).
Proof.
  intros (c & new & Hc & Hd & Hs & Ht). pose proof Hs as (_ & _ & Htk & _).
  destruct (Reconnect_connects s c) as (c1 & Htx & Hs1 & H1); [by rewrite Htk|done|].
  rewrite Htk in H1. fold hello in H1. assert (Htr : trail k (c_tx <$> c1 :: new)) by (cbn; by rewrite Htx).
  assert (Hs' : same_config t0 (Reconnect s).2.1) by (by eapply same_config_trans).
  destruct H1 as [(Hc1 & Hd1 & Hf)|(c2 & Hc2 & Hd2 & Hp & Hall)].
  - split; [|by intros]. exists c1, new. split_and!; [done|congruence|done|]. eapply trail_weaken; [exact Htr|lia].
  - assert (Hd3 : n_dropped (Reconnect s).2.2 = (c1 :: new) ++ base) by (rewrite Hd2, Hd; done). split.
    + exists c2, (c1 :: new). split_and!; [done..|]. cbn. apply trail_cons; [done|]. by apply prefix_app_r.
    + intros Hr. exists c2, (c1 :: new). split_and!; [done|done|done|by apply Hall|done].
Qed.

(** A call that returned a reply has sent the whole request on the connection
    that answered. *)
Definition whole (s : TCPClient * net) : Prop :=
  exists c pre, tcp_connection s.1 = Some c /\ c_tx c = pre ++ req.

Definition ends (k : nat) (r : outcome bytes * (TCPClient * net)) : Prop :=
  on_trail k r.2 /\ forall p, r.1 = Ret p -> whole r.2.

Lemma ends_stopped k k' o s : on_trail k s -> (k <= k')%nat -> (forall p, o <> Ret p) -> ends k' (o, s).
Proof. intros Hk ? Ho. split; [by eapply on_trail_weaken|]. intros p Hp. by destruct (Ho p). Qed.

Context (send : T bytes) (Htouch : touches send req) (Hwrites : writes send req).

Lemma send_whole s : is_Some (tcp_connection s.1) -> forall p, (send s).1 = Ret p -> whole (send s).2.
Proof.
  intros [c Hc] p Hp. destruct (send s) as [o s'] eqn:E. simpl in *. subst o.
  assert (Hw : wire s = Some (c_tx c, c_addr c, c_tls c, c_closed c)) by (unfold wire; by rewrite Hc).
  pose proof (Hwrites _ _ _ _ _ _ _ Hw E) as H'. unfold wire in H'.
  destruct (tcp_connection s'.1) as [c'|] eqn:Hc'; simplify_eq/=. by exists c', (c_tx c).
Qed.

Lemma send_trail k s : fresh_trail k s -> ends (S k) (send s).
Proof.
  intros (c & new & Hc & Hd & Hs & Htx & Ht). split; [|by apply send_whole].
  destruct (Htouch s c Hc) as (c' & p & Hc' & Htx' & Hp & Hd' & Hs'). exists c', new.
  split_and!; [done|congruence|by eapply same_config_trans|]. cbn. apply trail_cons; [done|].
  rewrite Htx', Htx. by apply prefix_app.
Qed.

Lemma reconnect_loop_trail attempts attempt ctx lastErr k s :
  on_trail k s -> ends (k + attempts) (reconnect_loop attempts attempt ctx send lastErr s).
Proof.
  revert attempt lastErr k s. induction attempts as [|attempts IH]; intros attempt lastErr k s Hk.
  { eapply ends_stopped; [exact Hk|lia|done]. }
  cbn [reconnect_loop]. unfold mbind at 1, st_bind at 1, now, gets.
  destruct (ctx_Err ctx _) as [e|]; [by eapply ends_stopped; [exact Hk|lia|]|].
  destruct (Reconnect_trail k s Hk) as [Hk1 Hf].
  unfold mbind at 1, st_bind at 1, catch at 1.
  destruct (Reconnect s) as [[[]|e| |] s1]; cbn [fst snd] in Hk1, Hf |- *.
  2: { replace (k + S attempts)%nat with (S k + attempts)%nat by lia. by apply IH. }
  2, 3: by eapply ends_stopped; [exact Hk1|lia|].
  specialize (Hf eq_refl). pose proof (send_trail k s1 Hf) as Hk2.
  unfold mbind at 1, st_bind at 1, catch at 1.
  destruct (send s1) as [[p|e| |] s2]; destruct Hk2 as [Hk2 Hw]; cbn [fst snd] in Hk2, Hw |- *;
    try (by eapply ends_stopped; [exact Hk2|lia|]).
  { split; [eapply on_trail_weaken; [exact Hk2|lia]|exact Hw]. }
  destruct (negb _); [by eapply ends_stopped; [exact Hk2|lia|]|].
  replace (k + S attempts)%nat with (S k + attempts)%nat by lia. by apply IH.
Qed.

Lemma with_reconnect_trail ctx s c :
  tcp_connection s.1 = Some c -> c_tx c = tx0 -> n_dropped s.2 = base -> same_config t0 s.1 ->
  ends maxReconnectAttempts (with_reconnect ctx send s).
Proof.
  intros Hc Htx Hd Hs. destruct (Htouch s c Hc) as (c' & p & Hc' & Htx' & Hp & Hd' & Hs').
  assert (H0 : on_trail 0 (send s).2).
  { exists c', []. split_and!; [done|by rewrite Hd'|by eapply same_config_trans|]. exists [], p. cbn.
    split_and!; [|done|done|done]. by rewrite Htx', Htx. }
  pose proof (send_whole s (mk_is_Some _ _ Hc)) as Hw. unfold with_reconnect, mbind, st_bind, catch.
  destruct (send s) as [[r|e| |] s1]; cbn [fst snd] in H0, Hw |- *;
    try (by eapply ends_stopped; [exact H0|lia|]).
  { split; [eapply on_trail_weaken; [exact H0|lia]|exact Hw]. }
  destruct (negb _); [by eapply ends_stopped; [exact H0|apply Nat.le_0_l|]|].
  exact (reconnect_loop_trail maxReconnectAttempts 1 ctx e 0 s1 H0).
Qed.

End trail.

(** ** The theorem *)


(** The connection is lost after the request; the next one answers. *)
Definition sample_lost : list rx := [RxErr 50 io_EOF].
Definition sample_answer : net :=
  mkNet 0 [DialOk 0 [RxData 8 sample_hello; RxData 90 (frame (str "ok|2"))] []] [] [].

