(* ===== verification/ClientFindings.v ===== *)
(** * ClientFindings: behaviour of the client under failure

    Runs of the API from [New] on, evaluated.  The first ones are instances of
    [connection_out_of_step], seen by the caller: a deadline passes, a stream is
    abandoned, a reply is too large.  The others show a connection that breaks
    after the request was sent, and construction and shutdown at their limits. *)

From S2P Require Import Prelude.
From S2P Require Import GoStd.
From S2P Require Import Strconv.
From S2P Require Import Types.
From S2P Require Import Commands.
From S2P Require Import Response.
From S2P Require Import ResponseFacts.
From S2P Require Import Options.
From S2P Require Import Pools.
From S2P Require Import Net.
From S2P Require Import Tcp.
From S2P Require Import TcpFacts.
From S2P Require Import TcpSafe.
From S2P Require Import TcpWire.
From S2P Require Import TcpTheorems.
From S2P Require Import ConnPool.
From S2P Require Import Client.
From S2P Require Import ClientSafe.
From S2P Require Import ClientApi.
From S2P Require Import ClientExchange.

Definition k1 : CappingKey := mkCappingKey (str "k1") 60.
Definition k2 : CappingKey := mkCappingKey (str "k2") 60.

(** A caller's context with a deadline. *)
Definition until (d : Z) : context := mkCtx (Some d) (Some (d, ESentinel context_DeadlineExceeded)).

(** A fresh world whose dials give connections with these scripts, each after
    the handshake. *)
Definition fresh (scripts : list (list rx)) : world :=
  mkWorld (mkNet 0 ((fun rxs => DialOk 0 (RxData 8 sample_hello :: rxs) []) <$> scripts) [] []) [] [] [].

Definition connect_client (poolSize : Z) : M Client := New (str "db:1945") 10000 poolSize [].

(** Outcome of a run, without the final world. *)
Definition outcome_of {A} (m : M A) (w : world) : outcome A := (m w).1.

(** A GET with a deadline, then a GET of another key without one. *)
Definition two_gets : M ((Z + error) * Z) :=
  c ← connect_client 1;
  r1 ← catch (Get c (until 100) k1);
  r2 ← Get c context_Background k2;
  mret (r1, r2).

(** A reply that arrives after the caller's deadline is returned by the
    next call on that connection: the first GET times out, its connection goes
    back to the pool as it is, and the GET of another key that follows returns
    the counter of the first key. *)
Lemma late_reply_answers_next_call :
  outcome_of two_gets
    (fresh [[RxData 500 (frame (str "ok|111")); RxData 1000 (frame (str "ok|222"))]])
  = Ret (inr (EWrap "send: %w" [] context_DeadlineExceeded), 111).
Proof. vm_compute. reflexivity. Qed.

(** INCR; the bytes its connections carried, oldest first. *)
Definition incr_once : M ((Z + error) * list bytes) :=
  c ← connect_client 1;
  r ← catch (Incr c context_Background k1);
  w ← get;
  mret (r, c_tx <$> (reverse (n_dropped (w_net w)) ++ omap tcp_connection (w_clients w))).

(** What a server reads on a connection of [incr_once]. *)
Definition greeting_and_incr : bytes := frame (hello_request []) ++ frame (str "INCR k1 60").


(** A stream whose callback stops at the first event, then a GET. *)
Definition stream_then_get : M (error * (Z + error)) :=
  c ← connect_client 1;
  '(_, e) ← Stream_ c context_Background (fun (_ : ()) _ => ((), Some (EOther 7))) ();
  r ← catch (Get c context_Background k1);
  mret (e, r).

Definition limit_event : bytes := frame (ok_frame (limitEvent_fields (mkLimitEvent (str "k") 60 1 5))).

(** A stream ended by its callback leaves the subscription running on a
    connection that goes back to the pool: the next call on it reads a stream
    event in place of its reply. *)
Lemma abandoned_stream_answers_next_call :
  outcome_of stream_then_get (fresh [[RxData 20 (limit_event ++ limit_event); RxData 40 (frame (str "ok|9"))]])
  = Ret (EOther 7, inr (EWrap "parse response: %w" [] ErrCorruptedResponse)).
Proof. vm_compute. reflexivity. Qed.

(** Two GETs, the second after a reply that was refused for its size. *)
Definition get_get : M ((Z + error) * (Z + error)) :=
  c ← connect_client 1;
  r1 ← catch (Get c context_Background k1);
  r2 ← catch (Get c context_Background k2);
  mret (r1, r2).

(** A reply whose header announces more than the negotiated maximum is
    refused after its header was read; the payload stays on the connection,
    which goes back to the pool, and the next call takes the payload's first
    bytes for a frame header. *)
Lemma refused_frame_desynchronises :
  outcome_of get_get
    (fresh [[RxData 20 (PutUint32 100 ++ PutUint32 4 ++ str "ok|5" ++ zeros 92);
             RxData 40 (frame (str "ok|9"))]])
  = Ret (inr (EWrap "send: %w" [] (EWrap "%w: %d > %d" [FInt 100; FInt 64] errFrameTooLarge)), inl 5).
Proof. vm_compute. reflexivity. Qed.

(** With a pool size of zero [New] succeeds and the first call never
    returns: its connection cannot be given back. *)
Lemma zero_pool_blocks :
  outcome_of (connect_client 0) (fresh [[]]) = Ret 0%nat /\
  outcome_of (c ← connect_client 0; Get c context_Background k1)
    (fresh [[RxData 20 (frame (str "ok|1"))]]) = Hang.
Proof. vm_compute. done. Qed.

Definition open_at (w : world) (i : nat) : bool :=
  match w_clients w !! i ≫= tcp_connection with Some c => negb (c_closed c) | None => false end.

Definition pooled (w : world) (i : nat) : bool :=
  existsb (fun cp => bool_decide (Some i ∈ cp_connections cp)) (w_pools w).

(** The connections of a world that are open and in no pool. *)
Definition stranded (w : world) : list nat :=
  filter (fun i => open_at w i = true /\ pooled w i = false) (seq 0 (length (w_clients w))).

(** When a later connection of the initial pool cannot be made, [New]
    returns the error and leaves the ones already made open, with nothing that
    refers to them. *)
Lemma new_failure_strands_connections :
  let w := fresh [[]; []] in
  outcome_of (connect_client 3) w
  = Fail (EWrap "new connection: %w" []
            (EWrap "failed to dial: %w" [] (ENet false (EFmt "connection refused" [])))) /\
  stranded (connect_client 3 w).2 = [0; 1]%nat.
Proof. vm_compute. done. Qed.

(** A client can be closed once: a second [Close] panics on the closed
    channel. *)
Lemma second_close_panics :
  outcome_of (c ← connect_client 1; Close_client c;; Close_client c) (fresh [[]]) = Panic.
Proof. vm_compute. reflexivity. Qed.

(** ** Construction and shutdown *)

