(* ===== verification/Sharded.v ===== *)
(** * Sharded: the sharded client (sharded_client.go)

    A [ShardedClient] is the list of its clients and the caller's sharding
    function.  Go leaves the iteration order of a map open: [MDel] takes the
    order in which it visits the groups as an argument ([order]), and its
    theorems hold for every permutation.  The merged streams ([streamEvents])
    run one goroutine per shard; they are in [ShardedStream]. *)

From S2P Require Import Prelude.
From S2P Require Import GoStd.
From S2P Require Import Strconv.
From S2P Require Import Types.
From S2P Require Import Commands.
From S2P Require Import Response.
From S2P Require Import Options.
From S2P Require Import Pools.
From S2P Require Import Net.
From S2P Require Import Tcp.
From S2P Require Import ConnPool.
From S2P Require Import Client.

Definition shardedScanCursorSeparator : byte := ":"%byte.

Record ShardedClient := mkShardedClient {
  sc_shards : list Client; sc_shardingFunc : bytes -> Z -> Z }.

(** ** Construction *)

(** [for _, initialized := range shards { initialized.Close() }], also the body
    of [ShardedClient.Close]. *)
Fixpoint Close_shards (shards : list Client) : M () :=
  match shards with
  | [] => mret ()
  | shard :: shards => Close_client shard;; Close_shards shards
  end.

Fixpoint NewSharded_loop (addresses : list bytes) (idleTimeout poolSize : Z)
    (opts : list (option Option)) (shards : list Client) : M (list Client) :=
  match addresses with
  | [] => mret shards
  | address :: addresses =>
      r ← catch (New address idleTimeout poolSize opts);
      match r with
      | inr e =>
          Close_shards shards;;
          fail (EWrap "create shard %q: %w" [FStr address] e)
      | inl shard => NewSharded_loop addresses idleTimeout poolSize opts (shards ++ [shard])
      end
  end.

(** A nil function is [None]. *)
Definition NewSharded (addresses : list bytes) (idleTimeout poolSize : Z)
    (shardingFunc : option (bytes -> Z -> Z)) (opts : list (option Option)) : M ShardedClient :=
  if decide (addresses = []) then fail ErrNoShards
  else
    match shardingFunc with
    | None => fail ErrNilShardingFunc
    | Some f =>
        shards ← NewSharded_loop addresses idleTimeout poolSize opts [];
        mret (mkShardedClient shards f)
    end.

Definition Close_sharded (c : ShardedClient) : M () := Close_shards (sc_shards c).

Definition ShardCount (c : ShardedClient) : Z := Z.of_nat (length (sc_shards c)).

(** [c.shards[i]] for an index that was checked; out of range it panics. *)
Definition shard_at (c : ShardedClient) (i : Z) : outcome Client :=
  if i <? 0 then Panic
  else match sc_shards c !! Z.to_nat i with Some s => Ret s | None => Panic end.

Definition out_of_range (i : Z) : error := EWrap "%w: %d" [FInt i] ErrShardIndexOutOfRange.

Definition Shard (c : ShardedClient) (i : Z) : outcome Client :=
  if (i <? 0) || (ShardCount c <=? i) then Fail (out_of_range i) else shard_at c i.

(** ** Routing *)

Definition shardIndexByKey (c : ShardedClient) (key : bytes) : outcome Z :=
  let i := sc_shardingFunc c key (ShardCount c) in
  if (i <? 0) || (ShardCount c <=? i) then Fail (out_of_range i) else Ret i.

Definition shardByKey (c : ShardedClient) (key : bytes) : outcome Client :=
  i ← shardIndexByKey c key; shard_at c i.

(** [shard, err := c.shardByKey(key); if err != nil {...}; return f(shard)] *)
Definition on_shard {A} (c : ShardedClient) (key : bytes) (f : Client -> M A) : M A :=
  shard ← lift (shardByKey c key); f shard.

Definition S_Incr c ctx (key : CappingKey) : M Z := on_shard c (ck_Key key) (fun s => Incr s ctx key).
Definition S_Get c ctx (key : CappingKey) : M Z := on_shard c (ck_Key key) (fun s => Get s ctx key).
Definition S_Watch c ctx (key : CappingKey) : M Z := on_shard c (ck_Key key) (fun s => Watch s ctx key).
Definition S_Del c ctx (key : CappingKey) : M bool := on_shard c (ck_Key key) (fun s => Del s ctx key).

Definition S_RLimitFixedWindow c ctx (key : LimitKey) limit : M RateLimitResult :=
  on_shard c (lk_Key key) (fun s => RLimitFixedWindow s ctx key limit).
Definition S_RLimitSlidingWindow c ctx (key : LimitKey) limit : M RateLimitResult :=
  on_shard c (lk_Key key) (fun s => RLimitSlidingWindow s ctx key limit).
Definition S_RLimitTokenBucket c ctx (key : LimitKey) capacity refillAmount : M RateLimitResult :=
  on_shard c (lk_Key key) (fun s => RLimitTokenBucket s ctx key capacity refillAmount).

Definition S_QuotaAcquire c ctx name amount clientID ttl : M QuotaAcquireResult :=
  on_shard c name (fun s => QuotaAcquire s ctx name amount clientID ttl).
Definition S_QuotaAcquireLease c ctx name limit amount clientID ttl : M QuotaAcquireResult :=
  on_shard c name (fun s => QuotaAcquireLease s ctx name limit amount clientID ttl).
Definition S_QuotaAcquireN c ctx name clientID ttl : M QuotaAcquireResult :=
  on_shard c name (fun s => QuotaAcquireN s ctx name clientID ttl).
Definition S_QuotaSet c ctx name limit : M bool := on_shard c name (fun s => QuotaSet s ctx name limit).
Definition S_QuotaSetN c ctx name limit clients : M bool :=
  on_shard c name (fun s => QuotaSetN s ctx name limit clients).
Definition S_QuotaRelease c ctx name clientID : M bool :=
  on_shard c name (fun s => QuotaRelease s ctx name clientID).
Definition S_QuotaDelete c ctx name : M bool := on_shard c name (fun s => QuotaDelete s ctx name).
Definition S_QuotaInfo c ctx name : M QuotaInfo := on_shard c name (fun s => QuotaInfo_ s ctx name).

(** ** MDEL over the shards *)

Definition indexedCappingKey : Type := CappingKey * nat.

(** The first loop: [grouped[shardIndex] = append(grouped[shardIndex], ...)]. *)
Fixpoint MDel_group (c : ShardedClient) (i : nat) (keys : list CappingKey)
    (grouped : gmap Z (list indexedCappingKey)) : outcome (gmap Z (list indexedCappingKey)) :=
  match keys with
  | [] => Ret grouped
  | key :: keys =>
      shardIndex ← shardIndexByKey c (ck_Key key);
      MDel_group c (S i) keys
        (<[shardIndex := default [] (grouped !! shardIndex) ++ [(key, i)]]> grouped)
  end.

(** [results[i] = b] panics out of range. *)
Definition set_result (results : list bool) (i : nat) (b : bool) : outcome (list bool) :=
  if decide (i < length results)%nat then Ret (<[i := b]> results) else Panic.

(** [for i, shardResult := range shardResults { results[...] = shardResult }] *)
Fixpoint MDel_scatter (indexedKeys : list indexedCappingKey) (shardResults results : list bool)
    : outcome (list bool) :=
  match shardResults, indexedKeys with
  | [], _ => Ret results
  | b :: shardResults, (_, i) :: indexedKeys =>
      results ← set_result results i b; MDel_scatter indexedKeys shardResults results
  | _ :: _, [] => Panic
  end.

(** The second loop, over the groups in the order it visits them; [mdel] is the
    shard's method. *)
Fixpoint MDel_loop (mdel : Client -> list CappingKey -> M (list bool)) (c : ShardedClient)
    (groups : list (Z * list indexedCappingKey)) (results : list bool) : M (list bool) :=
  match groups with
  | [] => mret results
  | (shardIndex, indexedKeys) :: groups =>
      shard ← lift (shard_at c shardIndex);
      shardResults ← mdel shard (fst <$> indexedKeys);
      if decide (length shardResults <> length indexedKeys) then fail ErrCorruptedResponse
      else
        results ← lift (MDel_scatter indexedKeys shardResults results);
        MDel_loop mdel c groups results
  end.

Definition MDel_with (mdel : Client -> list CappingKey -> M (list bool))
    (order : list (Z * list indexedCappingKey) -> list (Z * list indexedCappingKey))
    (c : ShardedClient) (keys : list CappingKey) : M (list bool) :=
  grouped ← lift (MDel_group c 0 keys ∅);
  MDel_loop mdel c (order (map_to_list grouped)) (replicate (length keys) false).

Definition S_MDel order (c : ShardedClient) (ctx : context) (keys : list CappingKey) : M (list bool) :=
  MDel_with (fun s => MDel s ctx) order c keys.

(** ** Scans over the shards *)

Definition parseScanCursor (c : ShardedClient) (cursor : bytes) : outcome (Z * bytes) :=
  if decide (cursor = [] \/ cursor = ScanCursorInitial) then Ret (0, ScanCursorInitial)
  else
    match SplitN2 cursor shardedScanCursorSeparator with
    | [p0; p1] =>
        if decide (p1 = []) then Fail ErrCorruptedResponse
        else
          match Atoi p0 with
          | Ret shardIndex =>
              if (shardIndex <? 0) || (ShardCount c <=? shardIndex) then Fail ErrCorruptedResponse
              else Ret (shardIndex, p1)
          | _ => Fail ErrCorruptedResponse
          end
    | _ => Fail ErrCorruptedResponse
    end.

Definition makeScanCursor (c : ShardedClient) (shardIndex : Z) (shardCursor : bytes) : bytes :=
  if ShardCount c <=? shardIndex then ScanCursorInitial
  else Itoa shardIndex ++ [shardedScanCursorSeparator] ++ shardCursor.

(** The [for] loop; every iteration that does not return moves to the next
    shard, so the number of shards is enough fuel. *)
Fixpoint scan_loop (fuel : nat) (scanShard : Client -> bytes -> Z -> M ScanResult) (c : ShardedClient)
    (count shardIndex : Z) (shardCursor : bytes) (keys : list ScanKey) : M ScanResult :=
  if (shardIndex <? ShardCount c) && (Z.of_nat (length keys) <? count) then
    match fuel with
    | O => lift Hang
    | S fuel =>
        let remaining := to_uint32 (count - to_uint32 (Z.of_nat (length keys))) in
        shard ← lift (shard_at c shardIndex);
        result ← scanShard shard shardCursor remaining;
        let keys := keys ++ sr_Keys result in
        if decide (sr_Cursor result <> ScanCursorInitial) then
          mret (mkScanResult (makeScanCursor c shardIndex (sr_Cursor result)) keys)
        else scan_loop fuel scanShard c count (shardIndex + 1) ScanCursorInitial keys
    end
  else mret (mkScanResult (makeScanCursor c shardIndex ScanCursorInitial) keys).

Definition S_scan (scanShard : Client -> bytes -> Z -> M ScanResult) (c : ShardedClient)
    (cursor : bytes) (count : Z) : M ScanResult :=
  if count =? 0 then
    shard ← lift (shard_at c 0); scanShard shard ScanCursorInitial count
  else
    '(shardIndex, shardCursor) ← lift (parseScanCursor c cursor);
    scan_loop (length (sc_shards c)) scanShard c count shardIndex shardCursor [].

Definition S_Scan (c : ShardedClient) (ctx : context) (cursor : bytes) (count : Z) : M ScanResult :=
  S_scan (fun s cursor count => Scan s ctx cursor count) c cursor count.

Definition S_PScan (c : ShardedClient) (ctx : context) (prefix cursor : bytes) (count : Z) : M ScanResult :=
  S_scan (fun s cursor count => PScan s ctx prefix cursor count) c cursor count.

(** ** Commands on all shards *)

Fixpoint boolCommand_loop (command : Client -> M bool) (shards : list Client) (result : bool) : M bool :=
  match shards with
  | [] => mret result
  | shard :: shards =>
      shardResult ← command shard;
      boolCommand_loop command shards (result && shardResult)
  end.

Definition boolCommandOnAllShards (c : ShardedClient) (command : Client -> M bool) : M bool :=
  boolCommand_loop command (sc_shards c) true.

Definition S_FlushDB (c : ShardedClient) (ctx : context) : M bool :=
  boolCommandOnAllShards c (fun s => FlushDB s ctx).

Definition S_Truncate (c : ShardedClient) (ctx : context) : M bool :=
  boolCommandOnAllShards c (fun s => Truncate s ctx).

Fixpoint Inspect_loop `{Json} (ctx : context) (section : bytes) (shards : list Client) : M (list InspectReport) :=
  match shards with
  | [] => mret []
  | shard :: shards =>
      report ← Inspect shard ctx section;
      reports ← Inspect_loop ctx section shards;
      mret (report :: reports)
  end.

Definition S_Inspect `{Json} (c : ShardedClient) (ctx : context) (section : bytes) : M (list InspectReport) :=
  Inspect_loop ctx section (sc_shards c).
