(* ===== verification/ShardedFacts.v ===== *)
(** * ShardedFacts: routing, scans and MDEL over shards

    The theorems about scans and MDEL are proved against what a shard promises
    ([ScanLaw], and the relation a shard's MDEL results satisfy), so they hold
    for any shard that keeps the promise; the sharded scan keeps the same
    [ScanLaw] for the concatenation of the shards. *)

From S2P Require Import Prelude.
From S2P Require Import GoStd.
From S2P Require Import Strconv.
From S2P Require Import Types.
From S2P Require Import Commands.
From S2P Require Import Response.
From S2P Require Import Options.
From S2P Require Import Pools.
From S2P Require Import Net.
From S2P Require Import Tcp.
From S2P Require Import ConnPool.
From S2P Require Import Client.
From S2P Require Import Sharded.

(** ** Routing *)

Lemma shard_at_lookup c i s :
  0 <= i -> sc_shards c !! Z.to_nat i = Some s -> shard_at c i = Ret s.
Proof. intros Hi Hs. unfold shard_at. by rewrite (proj2 (Z.ltb_ge _ _)), Hs. Qed.

Lemma in_range_lookup c i :
  0 <= i < ShardCount c -> exists s, sc_shards c !! Z.to_nat i = Some s.
Proof. intros Hi. apply lookup_lt_is_Some_2. unfold ShardCount in Hi. lia. Qed.

Lemma range_test c i : (i <? 0) || (ShardCount c <=? i) = false <-> 0 <= i < ShardCount c.
Proof. rewrite orb_false_iff, Z.ltb_ge, Z.leb_gt. lia. Qed.


(** ** Scan cursors *)

Lemma Itoa_no_colon n : 0 <= n -> shardedScanCursorSeparator ∉ Itoa n.
Proof.
  intros Hn. unfold Itoa. rewrite (proj2 (Z.ltb_ge _ _)) by done. by apply FormatUint_not_in.
Qed.

Lemma cursor_not_initial c i sc :
  i < ShardCount c -> makeScanCursor c i sc <> [] /\ makeScanCursor c i sc <> ScanCursorInitial.
Proof.
  intros Hi. unfold makeScanCursor. rewrite (proj2 (Z.leb_gt _ _)) by done.
  assert (Hc : shardedScanCursorSeparator ∈ Itoa i ++ [shardedScanCursorSeparator] ++ sc) by set_solver.
  split; intros E; rewrite E in Hc; [by apply not_elem_of_nil in Hc|]. revert Hc.
  apply (bool_decide_eq_false_1 (shardedScanCursorSeparator ∈ ScanCursorInitial)). reflexivity.
Qed.

Lemma parse_make c i sc :
  0 <= i < ShardCount c -> ShardCount c < 2 ^ 63 -> sc <> [] ->
  parseScanCursor c (makeScanCursor c i sc) = Ret (i, sc).
Proof.
  intros Hi Hn Hsc. destruct (cursor_not_initial c i sc) as [Hc1 Hc2]; [lia|].
  unfold parseScanCursor. rewrite decide_False by tauto. unfold makeScanCursor.
  rewrite (proj2 (Z.leb_gt _ _)) by lia.
  change ([shardedScanCursorSeparator] ++ sc) with (shardedScanCursorSeparator :: sc).
  rewrite SplitN2_app by (apply Itoa_no_colon; lia). rewrite decide_False by done.
  rewrite Atoi_Itoa by lia. by rewrite (proj2 (range_test c i) Hi).
Qed.

(** C29. A composite cursor is parsed back to the shard and the shard's own
    cursor, whatever bytes that cursor holds; it is never taken for the start
    of a scan. *)
Theorem scan_cursor_roundtrip c i sc :
  0 <= i < ShardCount c -> ShardCount c < 2 ^ 63 -> sc <> [] ->
  parseScanCursor c (makeScanCursor c i sc) = Ret (i, sc) /\
  makeScanCursor c i sc <> ScanCursorInitial.
Proof. intros Hi Hn Hsc. split; [by apply parse_make|apply cursor_not_initial; lia]. Qed.

Lemma scan_cursor_roundtrip_witness :
  parseScanCursor (mkShardedClient [0; 1; 2]%nat (fun _ _ => 0))
    (makeScanCursor (mkShardedClient [0; 1; 2]%nat (fun _ _ => 0)) 2 (str "a:7")) = Ret (2, str "a:7").
Proof.
  exact (proj1 (scan_cursor_roundtrip (mkShardedClient [0; 1; 2]%nat (fun _ _ => 0)) 2 (str "a:7")
    ltac:(vm_compute; split; [discriminate|reflexivity]) ltac:(vm_compute; reflexivity) ltac:(discriminate))).
Defined.

(** ** Scans *)

(** What a scan promises while nothing changes the data: [rest cursor ks] says
    that [ks] is what is left to scan from [cursor].  A page returns some of it,
    in order and at most [count] keys, and a cursor for the remainder; the
    initial cursor means that nothing is left. *)
Class ScanLaw (I : world -> Prop) (page : bytes -> Z -> M ScanResult)
    (rest : bytes -> list ScanKey -> Prop) : Prop :=
  scan_page cursor count ks :
    rest cursor ks -> 0 < count < 2 ^ 32 ->
    triple I (page cursor count)
      (fun r w => I w /\ sr_Cursor r <> [] /\ Z.of_nat (length (sr_Keys r)) <= count /\
         exists ks', ks = sr_Keys r ++ ks' /\
           (if decide (sr_Cursor r = ScanCursorInitial) then ks' = [] else rest (sr_Cursor r) ks'))
      (fun _ => I).

Section scan.
Context (I : world -> Prop) (scanShard : Client -> bytes -> Z -> M ScanResult).
Context (all : Client -> list ScanKey) (rest : Client -> bytes -> list ScanKey -> Prop).
Context (c : ShardedClient) (Hcount : ShardCount c < 2 ^ 63).
Context (Hlaw : forall s, s ∈ sc_shards c -> ScanLaw I (scanShard s) (rest s)).
Context (Hstart : forall s, s ∈ sc_shards c -> rest s ScanCursorInitial (all s)).

(** What is left from shard [i] at its cursor [sc]. *)
Definition rest_from (i : Z) (sc : bytes) (ks : list ScanKey) : Prop :=
  0 <= i /\
  ((exists s ks0, sc_shards c !! Z.to_nat i = Some s /\ rest s sc ks0 /\
      ks = ks0 ++ mjoin (all <$> drop (S (Z.to_nat i)) (sc_shards c))) \/
   (i = ShardCount c /\ ks = [])).

(** What is left from a composite cursor. *)
Definition sharded_rest (cursor : bytes) (ks : list ScanKey) : Prop :=
  exists i sc, parseScanCursor c cursor = Ret (i, sc) /\ i < ShardCount c /\ rest_from i sc ks.

Lemma rest_from_next i s :
  0 <= i -> sc_shards c !! Z.to_nat i = Some s ->
  rest_from (i + 1) ScanCursorInitial (mjoin (all <$> drop (S (Z.to_nat i)) (sc_shards c))).
Proof.
  intros Hi Hs. split; [lia|]. assert (E : Z.to_nat (i + 1) = S (Z.to_nat i)) by lia.
  destruct (sc_shards c !! S (Z.to_nat i)) as [s'|] eqn:Hs'.
  - left. exists s', (all s'). rewrite E. split; [done|]. split.
    + apply Hstart. by eapply list_elem_of_lookup_2.
    + by rewrite (drop_S _ s' _ Hs'), fmap_cons.
  - right. apply lookup_ge_None in Hs'. apply lookup_lt_Some in Hs. unfold ShardCount.
    split; [lia|]. by rewrite drop_ge by lia.
Qed.

Lemma make_rest i sc ks :
  0 <= i -> sc <> [] -> i < ShardCount c -> rest_from i sc ks -> sharded_rest (makeScanCursor c i sc) ks.
Proof. intros Hi Hsc Hlt Hr. exists i, sc. split; [by apply parse_make|done]. Qed.

Definition page_post (count : Z) (ks : list ScanKey) (r : ScanResult) (w : world) : Prop :=
  I w /\ sr_Cursor r <> [] /\ Z.of_nat (length (sr_Keys r)) <= count /\
  exists ks', ks = sr_Keys r ++ ks' /\
    (if decide (sr_Cursor r = ScanCursorInitial) then ks' = [] else sharded_rest (sr_Cursor r) ks').

(** The loop stops between two shards. *)
Lemma scan_stop count i acc ks w :
  I w -> 0 <= i <= ShardCount c -> rest_from i ScanCursorInitial ks -> Z.of_nat (length acc) <= count ->
  page_post count (acc ++ ks) (mkScanResult (makeScanCursor c i ScanCursorInitial) acc) w.
Proof.
  intros HI Hi Hr Hacc. destruct (decide (i = ShardCount c)) as [Ei|Hne].
  - assert (Em : makeScanCursor c i ScanCursorInitial = ScanCursorInitial).
    { unfold makeScanCursor. by rewrite (proj2 (Z.leb_le _ _)) by lia. }
    split; [done|]. simpl. rewrite Em. split; [done|]. split; [done|]. exists ks. split; [done|].
    rewrite decide_True by done. destruct Hr as [_ [(s & ks0 & Hs & _)|[_ ->]]]; [|done].
    apply lookup_lt_Some in Hs. unfold ShardCount in Ei. lia.
  - destruct (cursor_not_initial c i ScanCursorInitial) as [H1 H2]; [lia|].
    split; [done|]. simpl. split; [done|]. split; [done|]. exists ks. split; [done|].
    rewrite decide_False by done. apply make_rest; [lia|done|lia|done].
Qed.

Lemma scan_loop_law fuel count i sc acc ks :
  0 < count < 2 ^ 32 -> 0 <= i <= ShardCount c -> ShardCount c - i <= Z.of_nat fuel ->
  rest_from i sc ks -> Z.of_nat (length acc) <= count ->
  sc = ScanCursorInitial \/ Z.of_nat (length acc) < count /\ i < ShardCount c ->
  triple I (scan_loop fuel scanShard c count i sc acc) (page_post count (acc ++ ks)) (fun _ => I).
Proof.
  intros Hc. revert i sc acc ks. induction fuel as [|fuel IH]; intros i sc acc ks Hi Hf Hr Hacc Hsc.
  all: cbn [scan_loop]; destruct ((i <? ShardCount c) && (Z.of_nat (length acc) <? count)) eqn:Eb.
  2, 4: apply triple_ret; intros w HI; destruct Hsc as [->|Hsc];
    [by apply scan_stop|apply andb_false_iff in Eb as [Eb|Eb]; apply Z.ltb_ge in Eb; lia].
  { apply andb_true_iff in Eb as [Eb _]. apply Z.ltb_lt in Eb. lia. }
  to_prop. destruct Hr as [_ [(s & ks0 & Hs & Hr & ->)|[Hr _]]]; [|lia].
  rewrite (shard_at_lookup c i s) by (lia || done). unfold to_uint32.
  rewrite !Z.mod_small by (rewrite ?Z.mod_small; lia).
  assert (Hin : s ∈ sc_shards c) by by eapply list_elem_of_lookup_2.
  eapply triple_bind; [apply (triple_ret I s (fun a w => a = s /\ I w)); done|].
  intros a. apply triple_pre. intros ->.
  eapply triple_bind; [apply (Hlaw s Hin sc _ ks0 Hr); lia|]. intros [cur keys]. simpl.
  intros w (HI & Hne & Hlen & ks' & -> & Hks'). destruct (decide (cur = ScanCursorInitial)) as [->|Hcur].
  - rewrite decide_False by tauto. subst ks'. rewrite app_nil_r, app_assoc.
    apply (IH (i + 1) ScanCursorInitial (acc ++ keys) (mjoin (all <$> drop (S (Z.to_nat i)) (sc_shards c))));
      [lia|lia|apply (rest_from_next i s); [lia|done]| |by left|done].
    rewrite length_app. lia.
  - rewrite decide_True by done. destruct (cursor_not_initial c i cur) as [H1 H2]; [lia|].
    split; [done|]. simpl. split; [done|]. split; [rewrite length_app; lia|].
    eexists. split; [by rewrite <- !app_assoc|]. rewrite decide_False by done.
    apply make_rest; [lia|done|lia|]. split; [lia|]. left. by exists s, ks'.
Qed.

(** The sharded scan keeps the promise of a scan for all shards together. *)
Lemma S_scan_law : ScanLaw I (S_scan scanShard c) sharded_rest.
Proof.
  intros cursor count ks (i & sc & Hp & Hlt & Hr) Hc. unfold S_scan.
  rewrite (proj2 (Z.eqb_neq _ _)) by lia. rewrite Hp.
  eapply triple_bind; [apply (triple_ret I (i, sc) (fun a w => a = (i, sc) /\ I w)); done|].
  intros a. apply triple_pre. intros ->. destruct Hr as [Hi Hr].
  apply (scan_loop_law _ count i sc [] ks); [done|lia|unfold ShardCount; lia|by split|simpl; lia|].
  right. simpl. lia.
Qed.

(** It starts with everything there is to scan. *)
Lemma sharded_rest_start : sc_shards c <> [] -> sharded_rest ScanCursorInitial (mjoin (all <$> sc_shards c)).
Proof using Hstart.
  clear Hlaw Hcount. intros Hne. exists 0, ScanCursorInitial. split; [done|].
  destruct (sc_shards c) as [|s shards] eqn:E; [done|].
  split; [unfold ShardCount; rewrite E; simpl; lia|]. split; [done|]. left.
  exists s, (all s). rewrite E. split; [done|]. split; [apply Hstart; rewrite ?E; left|].
  by rewrite fmap_cons.
Qed.

End scan.

(** C25. Scanning a sharded client is scanning its shards one after the other:
    if every shard's scan keeps [ScanLaw] (pages of what is left, in order, at
    most [count] keys, a usable cursor), the sharded scan returns, keeps the
    same law for the concatenation of all shards, and the initial cursor stands
    for all of it; so no key is skipped or repeated at a shard boundary. *)
Theorem sharded_scan_lawful (I : world -> Prop) scanShard all rest c :
  ShardCount c < 2 ^ 63 -> sc_shards c <> [] ->
  (forall s, s ∈ sc_shards c -> ScanLaw I (scanShard s) (rest s)) ->
  (forall s, s ∈ sc_shards c -> rest s ScanCursorInitial (all s)) ->
  ScanLaw I (S_scan scanShard c) (sharded_rest all rest c) /\
  sharded_rest all rest c ScanCursorInitial (mjoin (all <$> sc_shards c)).
Proof. intros Hn Hne Hlaw Hstart. split; [by apply S_scan_law|by apply sharded_rest_start]. Qed.

(** Shards with one key each, returned in one page. *)
Definition sample_keys (s : Client) : list ScanKey := [mkScanKey (str "k") (Z.of_nat s)].

Definition sample_scan (s : Client) (cursor : bytes) (count : Z) : M ScanResult :=
  mret (mkScanResult ScanCursorInitial (sample_keys s)).

Definition sample_rest (s : Client) (cursor : bytes) (ks : list ScanKey) : Prop := ks = sample_keys s.

Definition sample_sharded : ShardedClient :=
  mkShardedClient [0; 1; 2]%nat (fun key n => Z.of_nat (length key) mod n).

Lemma sample_scan_law s : ScanLaw (fun _ => True) (sample_scan s) (sample_rest s).
Proof.
  intros cursor count ks -> Hc w _. split; [done|]. split; [done|]. split; [simpl; lia|].
  exists []. rewrite app_nil_r, decide_True by done. done.
Qed.

Lemma sharded_scan_lawful_witness :
  ScanLaw (fun _ => True) (S_scan sample_scan sample_sharded)
    (sharded_rest sample_keys sample_rest sample_sharded) /\
  sharded_rest sample_keys sample_rest sample_sharded ScanCursorInitial
    (sample_keys 0%nat ++ sample_keys 1%nat ++ sample_keys 2%nat).
Proof.
  exact (sharded_scan_lawful (fun _ => True) sample_scan sample_keys sample_rest sample_sharded
    ltac:(vm_compute; reflexivity) ltac:(discriminate) (fun s _ => sample_scan_law s)
    (fun s _ => eq_refl)).
Defined.

(** ** MDEL *)

Definition route (c : ShardedClient) (key : CappingKey) : Z :=
  sc_shardingFunc c (ck_Key key) (ShardCount c).

(** The keys of the shard [s], with their positions from [i] on. *)
Fixpoint group (c : ShardedClient) (s : Z) (i : nat) (keys : list CappingKey) : list indexedCappingKey :=
  match keys with
  | [] => []
  | key :: keys =>
      if decide (route c key = s) then (key, i) :: group c s (S i) keys else group c s (S i) keys
  end.

(** The keys of the shard [s], and the results at their places. *)
Definition keys_of (c : ShardedClient) (s : Z) (keys : list CappingKey) : list CappingKey :=
  filter (fun key => route c key = s) keys.

Definition results_of (c : ShardedClient) (s : Z) (keys : list CappingKey) (results : list bool) : list bool :=
  snd <$> filter (fun kb => route c (fst kb) = s) (zip keys results).

Lemma group_keys c s i keys : fst <$> group c s i keys = keys_of c s keys.
Proof.
  unfold keys_of. revert i. induction keys as [|key keys IH]; intros i; [done|]. cbn [group].
  rewrite filter_cons. case_decide; [|done]. rewrite fmap_cons. by rewrite IH.
Qed.

Lemma group_elem c s i keys key j :
  (key, j) ∈ group c s i keys -> (i <= j < i + length keys)%nat /\ keys !! (j - i)%nat = Some key /\ route c key = s.
Proof.
  revert i. induction keys as [|k keys IH]; intros i; cbn [group]; [by intros ?%not_elem_of_nil|].
  assert (Hrec : (key, j) ∈ group c s (S i) keys ->
    (i <= j < i + length (k :: keys))%nat /\ (k :: keys) !! (j - i)%nat = Some key /\ route c key = s).
  { intros Hin. destruct (IH (S i) Hin) as (Hj & Hk & Hr). split; [simpl; lia|]. split; [|done].
    replace (j - i)%nat with (S (j - S i)) by lia. done. }
  case_decide; [|done]. intros [Heq|Hin]%elem_of_cons; [|by apply Hrec]. simplify_eq.
  split; [simpl; lia|]. by rewrite Nat.sub_diag.
Qed.

Lemma group_NoDup c s i keys : NoDup (snd <$> group c s i keys).
Proof.
  revert i. induction keys as [|k keys IH]; intros i; cbn [group]; [constructor|].
  case_decide; [|done]. rewrite fmap_cons. constructor; [|done].
  intros ([k' j] & Heq & Hin)%list_elem_of_fmap. apply group_elem in Hin. simpl in *. lia.
Qed.

(** Reading the results at the places of a group. *)
Lemma group_results c s keys pre results :
  length results = length keys ->
  (fun kj => (pre ++ results) !! snd kj) <$> group c s (length pre) keys
  = Some <$> results_of c s keys results.
Proof.
  unfold results_of. revert pre results. induction keys as [|k keys IH]; intros pre [|b results] Hlen;
    simplify_eq/=; [done|].
  specialize (IH (pre ++ [b]) results Hlen).
  rewrite length_app, Nat.add_1_r, <- app_assoc in IH. simpl in IH.
  rewrite filter_cons. simpl. case_decide; [|done]. rewrite !fmap_cons. simpl.
  rewrite list_lookup_middle by done. by rewrite IH.
Qed.

(** The first loop groups the keys by shard, in order. *)
Lemma MDel_group_spec c i keys grouped :
  Forall (fun key => 0 <= route c key < ShardCount c) keys ->
  exists g, MDel_group c i keys grouped = Ret g /\
    forall s, g !! s = if decide (group c s i keys = []) then grouped !! s
                       else Some (default [] (grouped !! s) ++ group c s i keys).
Proof.
  revert i grouped. induction keys as [|k keys IH]; intros i grouped Hall.
  { exists grouped. by split; [|intros s; rewrite decide_True]. }
  apply Forall_cons in Hall as [Hk Hall]. cbn [MDel_group]. unfold shardIndexByKey.
  fold (route c k). rewrite (proj2 (range_test c (route c k)) Hk). cbn [mbind outcome_bind].
  destruct (IH (S i) (<[route c k := default [] (grouped !! route c k) ++ [(k, i)]]> grouped) Hall)
    as (g & Hg & Hs). exists g. split; [done|]. intros s. rewrite Hs. cbn [group].
  destruct (decide (route c k = s)) as [<-|Hne].
  - rewrite lookup_insert_eq. rewrite (decide_False (P := (k, i) :: _ = [])) by done.
    case_decide as E; [by rewrite E|]. simpl. by rewrite <- app_assoc.
  - by rewrite lookup_insert_ne.
Qed.

Lemma MDel_group_out_of_range c i keys grouped :
  Exists (fun key => ~ 0 <= route c key < ShardCount c) keys ->
  exists j, MDel_group c i keys grouped = Fail (out_of_range j).
Proof.
  revert i grouped. induction keys as [|k keys IH]; intros i grouped Hex; [by inversion Hex|].
  cbn [MDel_group]. unfold shardIndexByKey. fold (route c k).
  destruct ((route c k <? 0) || (ShardCount c <=? route c k)) eqn:E; [by eexists|].
  apply range_test in E. cbn [mbind outcome_bind]. apply IH. by apply Exists_cons in Hex as [?|?].
Qed.

(** Writing a shard's results back to the places of its keys. *)
Lemma MDel_scatter_spec (ixs : list indexedCappingKey) bs results :
  length bs = length ixs -> NoDup (snd <$> ixs) -> Forall (fun kj => (snd kj < length results)%nat) ixs ->
  exists results', MDel_scatter ixs bs results = Ret results' /\ length results' = length results /\
    (fun kj => results' !! snd kj) <$> ixs = Some <$> bs /\
    (forall j, j ∉ snd <$> ixs -> results' !! j = results !! j).
Proof.
  revert bs results. induction ixs as [|[k j] ixs IH]; intros [|b bs] results Hlen Hnd Hall; simplify_eq/=.
  { by exists results. }
  apply NoDup_cons in Hnd as [Hj Hnd]. apply Forall_cons in Hall as [Hjl Hall]. simpl in Hjl.
  unfold set_result. rewrite decide_True by done. cbn [mbind outcome_bind].
  destruct (IH bs (<[j := b]> results) Hlen Hnd) as (results' & E & Hl & Hr & Ho).
  { by rewrite length_insert. }
  exists results'. split; [done|]. split; [by rewrite Hl, length_insert|]. split.
  - f_equal; [|done]. rewrite Ho by done. by apply list_lookup_insert_eq.
  - intros j' Hj'. apply not_elem_of_cons in Hj' as [Hne Hj'].
    rewrite Ho by done. by apply list_lookup_insert_ne.
Qed.

Section mdel.
Context (I : world -> Prop) (mdel : Client -> list CappingKey -> M (list bool)).
Context (R : Client -> list CappingKey -> list bool -> Prop).
Context (c : ShardedClient) (keys : list CappingKey).
Context (Hmdel : forall s ks, s ∈ sc_shards c ->
  triple I (mdel s ks) (fun bs w => R s ks bs /\ I w) (fun _ => I)).

(** The places of the keys of [s] in [results] hold what the shard answered. *)
Definition answered (results : list bool) (s : Z) : Prop :=
  exists shard bs, shard_at c s = Ret shard /\ R shard (keys_of c s keys) bs /\
    (fun kj => results !! snd kj) <$> group c s 0 keys = Some <$> bs.

(** Two shards never share a place. *)
Lemma group_disjoint s s' j :
  j ∈ snd <$> group c s 0 keys -> j ∈ snd <$> group c s' 0 keys -> s = s'.
Proof.
  intros ([k1 j1] & -> & H1)%list_elem_of_fmap ([k2 j2] & Heq & H2)%list_elem_of_fmap. simpl in *. subst j2.
  apply group_elem in H1 as (_ & Hk1 & <-). apply group_elem in H2 as (_ & Hk2 & <-). congruence.
Qed.

Lemma answered_ext results results' s :
  answered results s -> (forall j, j ∈ snd <$> group c s 0 keys -> results' !! j = results !! j) ->
  answered results' s.
Proof.
  intros (shard & bs & Hs & HR & Hb) Hext. exists shard, bs. do 2 (split; [done|]). rewrite <- Hb.
  apply list_fmap_ext. intros ? kj Hkj. apply Hext. apply list_elem_of_fmap. exists kj. split; [done|].
  by eapply list_elem_of_lookup_2.
Qed.

Lemma MDel_loop_spec groups results :
  NoDup (groups.*1) ->
  (forall s ixs, (s, ixs) ∈ groups -> ixs = group c s 0 keys /\ 0 <= s < ShardCount c) ->
  length results = length keys ->
  triple I (MDel_loop mdel c groups results)
    (fun results' w => (length results' = length keys /\ (forall s, s ∈ groups.*1 -> answered results' s) /\
       (forall j, (forall s, s ∈ groups.*1 -> j ∉ snd <$> group c s 0 keys) -> results' !! j = results !! j)) /\
       I w)
    (fun _ => I).
Proof.
  revert results. induction groups as [|[s ixs] groups IH]; intros results Hnd Hg Hlen.
  { apply triple_ret. intros w HI. split; [|done]. split; [done|]. split; [|done].
    by intros s ?%not_elem_of_nil. }
  rewrite fmap_cons in Hnd. apply NoDup_cons in Hnd as [Hs Hnd].
  destruct (Hg s ixs) as [-> Hr]; [by left|]. destruct (in_range_lookup c s Hr) as [shard Hsh].
  cbn [MDel_loop]. rewrite (shard_at_lookup c s shard) by (lia || done).
  eapply triple_bind; [apply (triple_ret I shard (fun a w => a = shard /\ I w)); done|].
  intros a. apply triple_pre. intros ->. rewrite group_keys.
  eapply triple_bind; [apply Hmdel; by eapply list_elem_of_lookup_2|]. intros bs. apply triple_pre. intros HR.
  destruct (decide (length bs <> length (group c s 0 keys))) as [|Hl]; [by apply triple_fail|].
  destruct (MDel_scatter_spec (group c s 0 keys) bs results) as (results1 & E1 & Hl1 & Hb1 & Ho1).
  { by apply dec_stable. } { apply group_NoDup. }
  { apply Forall_forall. intros [k j] Hin. apply group_elem in Hin. simpl. lia. }
  rewrite E1. eapply triple_bind; [apply (triple_ret I results1 (fun a w => a = results1 /\ I w)); done|].
  intros a. apply triple_pre. intros ->.
  eapply triple_conseq; [apply (IH results1)|done| |done]; [done| |congruence|].
  { intros s' ixs' Hin. apply Hg. by right. }
  intros results' w ((Hl' & Ha & Ho) & HI). split; [|done]. split; [done|]. rewrite fmap_cons. split.
  - intros s' [Heq|Hin]%elem_of_cons; [simpl in Heq; subst s'|by apply Ha].
    apply (answered_ext results1).
    { exists shard, bs. split; [apply shard_at_lookup; [lia|done]|done]. }
    intros j Hj. apply Ho. intros s' Hin Hj'. by rewrite (group_disjoint s s' j Hj Hj') in Hs.
  - intros j Hj. rewrite Ho; [|intros s' Hin; apply Hj; by right]. apply Ho1, Hj. by left.
Qed.

Lemma MDel_with_spec order :
  (forall l, order l ≡ₚ l) ->
  triple I (MDel_with mdel order c keys)
    (fun results w => (length results = length keys /\ forall s, keys_of c s keys <> [] ->
        exists shard, shard_at c s = Ret shard /\ R shard (keys_of c s keys) (results_of c s keys results)) /\ I w)
    (fun _ => I).
Proof.
  intros Hord. unfold MDel_with. destruct (decide (Forall (fun key => 0 <= route c key < ShardCount c) keys)) as [Hall|Hno].
  - destruct (MDel_group_spec c 0 keys ∅ Hall) as (g & Eg & Hg). rewrite Eg.
    eapply triple_bind; [apply (triple_ret I g (fun a w => a = g /\ I w)); done|].
    intros a. apply triple_pre. intros ->.
    assert (Hgrp : forall s ixs, g !! s = Some ixs <-> ixs = group c s 0 keys /\ group c s 0 keys <> []).
    { intros s ixs. rewrite Hg, lookup_empty. simpl. case_decide as E.
      - rewrite E. split; [done|by intros [_ ?]].
      - split; [by intros [= <-]|by intros [-> _]]. }
    eapply triple_conseq; [apply MDel_loop_spec|done| |done].
    + rewrite Hord. apply NoDup_fst_map_to_list.
    + intros s ixs Hin. rewrite Hord in Hin. apply elem_of_map_to_list, Hgrp in Hin as [-> Hne].
      split; [done|]. destruct (group c s 0 keys) as [|[k j] l] eqn:E; [done|].
      assert (Hk : (k, j) ∈ group c s 0 keys) by (rewrite E; left).
      apply group_elem in Hk as (_ & Hk & <-). by eapply (Forall_lookup_1 _ _ _ _ Hall Hk).
    + apply length_replicate.
    + intros results w ((Hl & Ha & _) & HI). split; [|done]. split; [done|]. intros s Hne.
      destruct (Ha s) as (shard & bs & Hs & HR & Hb).
      { rewrite Hord. apply list_elem_of_fmap. exists (s, group c s 0 keys). split; [done|].
        apply elem_of_map_to_list, Hgrp. split; [done|]. intros E. by rewrite <- (group_keys c s 0 keys), E in Hne. }
      exists shard. split; [done|]. pose proof (group_results c s keys [] results Hl) as Hres. simpl in Hres.
      rewrite Hb in Hres. apply (inj (fmap Some)) in Hres. by rewrite <- Hres.
  - apply not_Forall_Exists in Hno; [|apply _].
    destruct (MDel_group_out_of_range c 0 keys ∅ Hno) as [j E]. rewrite E. by apply triple_fail.
Qed.

End mdel.

(** C24. MDEL over shards merges the shards' answers back into the caller's
    order, for every order in which the map of groups is visited: each shard
    that owns some of the keys is asked for exactly those, in order, and its
    answers stand at the places of its keys; a shard that answers with another
    number of results, fails, or lies out of range makes the whole call fail.
    [R s ks bs] is any relation that the answers [bs] of shard [s] to [ks]
    satisfy. *)
Theorem sharded_mdel_merges (I : world -> Prop) mdel R c keys order :
  (forall l, order l ≡ₚ l) ->
  (forall s ks, s ∈ sc_shards c -> triple I (mdel s ks) (fun bs w => R s ks bs /\ I w) (fun _ => I)) ->
  triple I (MDel_with mdel order c keys)
    (fun results w => (length results = length keys /\ forall s, keys_of c s keys <> [] ->
        exists shard, shard_at c s = Ret shard /\ R shard (keys_of c s keys) (results_of c s keys results)) /\ I w)
    (fun _ => I).
Proof. intros Hord Hm. by apply MDel_with_spec. Qed.

(** A shard that deletes the keys whose capping is its own number. *)
Definition sample_mdel (s : Client) (ks : list CappingKey) : M (list bool) :=
  mret ((fun k => ck_Capping k =? Z.of_nat s) <$> ks).

Definition sample_mdel_keys : list CappingKey :=
  [mkCappingKey (str "a") 1; mkCappingKey (str "bb") 7; mkCappingKey (str "c") 2; mkCappingKey (str "ddd") 0].

Lemma sharded_mdel_merges_witness :
  triple (fun _ => True) (MDel_with sample_mdel reverse sample_sharded sample_mdel_keys)
    (fun results w => (length results = 4%nat /\ forall s, keys_of sample_sharded s sample_mdel_keys <> [] ->
        exists shard, shard_at sample_sharded s = Ret shard /\
          results_of sample_sharded s sample_mdel_keys results
          = ((fun k => ck_Capping k =? Z.of_nat shard) <$> keys_of sample_sharded s sample_mdel_keys)) /\ True)
    (fun _ _ => True).
Proof.
  exact (sharded_mdel_merges (fun _ => True) sample_mdel
    (fun s ks bs => bs = ((fun k => ck_Capping k =? Z.of_nat s) <$> ks)) sample_sharded sample_mdel_keys
    reverse (fun l => reverse_Permutation l) (fun s ks _ w _ => conj eq_refl I)).
Defined.

(** ** Commands on all shards *)

Lemma boolCommand_loop_spec (I : world -> Prop) (command : Client -> M bool) (Q : Client -> bool -> Prop) shards acc :
  (forall s, s ∈ shards -> triple I (command s) (fun b w => Q s b /\ I w) (fun _ => I)) ->
  triple I (boolCommand_loop command shards acc)
    (fun b w => (exists bs, Forall2 Q shards bs /\ b = acc && forallb id bs) /\ I w) (fun _ => I).
Proof.
  revert acc. induction shards as [|s shards IH]; intros acc Hc.
  { apply triple_ret. intros w HI. split; [|done]. exists []. split; [constructor|]. by rewrite andb_true_r. }
  cbn [boolCommand_loop]. eapply triple_bind; [apply Hc; by left|]. intros b. apply triple_pre. intros Hb.
  eapply triple_conseq; [apply (IH (acc && b)); intros; apply Hc; by right|done| |done].
  intros r w ((bs & Hbs & ->) & HI). split; [|done]. exists (b :: bs). split; [by constructor|].
  simpl. by rewrite andb_assoc.
Qed.

(** C30. FLUSHDB and TRUNCATE on a sharded client run on every shard and report
    success exactly when every shard reported it; an error of one shard is the
    error of the call. *)
Theorem bool_on_all_shards (I : world -> Prop) c (command : Client -> M bool) (Q : Client -> bool -> Prop) :
  (forall s, s ∈ sc_shards c -> triple I (command s) (fun b w => Q s b /\ I w) (fun _ => I)) ->
  triple I (boolCommandOnAllShards c command)
    (fun b w => (exists bs, Forall2 Q (sc_shards c) bs /\ (b = true <-> Forall (eq true) bs)) /\ I w)
    (fun _ => I).
Proof.
  intros Hc. eapply triple_conseq; [apply (boolCommand_loop_spec I command Q (sc_shards c) true Hc)|done| |done].
  intros b w ((bs & Hbs & ->) & HI). split; [|done]. exists bs. split; [done|]. simpl.
  rewrite forallb_forall, Forall_forall. split; intros Hb x Hx; specialize (Hb x).
  - symmetry. by apply Hb, list_elem_of_In.
  - symmetry. by apply Hb, list_elem_of_In.
Qed.

Lemma bool_on_all_shards_witness :
  triple (fun _ => True) (boolCommandOnAllShards sample_sharded (fun s => mret (bool_decide (s = 1%nat))))
    (fun b w => (exists bs, Forall2 (fun s b => b = bool_decide (s = 1%nat)) [0; 1; 2]%nat bs /\
                   (b = true <-> Forall (eq true) bs)) /\ True)
    (fun _ _ => True).
Proof.
  exact (bool_on_all_shards (fun _ => True) sample_sharded (fun s => mret (bool_decide (s = 1%nat)))
    (fun s b => b = bool_decide (s = 1%nat)) (fun s _ w _ => conj eq_refl I)).
Defined.
