(* ===== verification/PoolConc.v ===== *)
(** * PoolConc: the connection pool under interleaving (conn_pool.go)

    Several goroutines share a pool.  Each runs calls (GetConnection, use,
    ReleaseConnection) and possibly Close; one step is one synchronisation
    operation of the source: a load or store of [closed], a channel operation,
    an operation on the wait group.  [step] has one rule per such operation and
    branch; [may_close] says whether goroutines may call Close.

    Connections are numbered in the order they were made.  [p_lost] are the
    connections that ReleaseConnection dropped because the pool was closed (or
    could not send),
    [p_shut] the ones Close closed.  A GetConnection that finds the pool closed
    returns an error at once and is not a step. *)

From stdpp Require Import relations.
From S2P Require Import Prelude.

#[local] Open Scope Z_scope.

(** Where a goroutine is. *)
Inductive local :=
  | LIdle                        (* between calls *)
  | LSelect                      (* GetConnection: [closed] was false *)
  | LReceived (c : option nat)   (* received from the channel, before [wg.Add(1)] *)
  | LDefault                     (* default branch, before [wg.Add(1)] *)
  | LDial                        (* in [newConn()] *)
  | LHold (c : option nat)       (* GetConnection returned; nil is [None] *)
  | LSend (c : nat)              (* ReleaseConnection: [closed] was false *)
  | LSent                        (* sent, before [wg.Done()] *)
  | LWait                        (* Close: in [wg.Wait()] *)
  | LStore                       (* before [closed.Store(true)] *)
  | LCloseChan                   (* before [close(connections)] *)
  | LDrain                       (* ranging over the channel *)
  | LNil                         (* panicked: used a nil connection *)
  | LPanic.                      (* panicked: closed channel or negative counter *)

Record pstate := mkP {
  p_cap : nat; p_buf : list nat; p_chan : bool; p_wg : Z; p_flag : bool;
  p_next : nat; p_shut : list nat; p_lost : list nat; p_gs : list local }.

Definition at_ (s : pstate) (i : nat) (l : local) : Prop := p_gs s !! i = Some l.

(** Updates of one field, with the new place of goroutine [i]. *)
Definition go (i : nat) (l : local) (s : pstate) : pstate :=
  mkP (p_cap s) (p_buf s) (p_chan s) (p_wg s) (p_flag s) (p_next s) (p_shut s) (p_lost s) (<[i := l]> (p_gs s)).
Definition set_buf (b : list nat) (s : pstate) : pstate :=
  mkP (p_cap s) b (p_chan s) (p_wg s) (p_flag s) (p_next s) (p_shut s) (p_lost s) (p_gs s).
Definition add_wg (d : Z) (s : pstate) : pstate :=
  mkP (p_cap s) (p_buf s) (p_chan s) (p_wg s + d) (p_flag s) (p_next s) (p_shut s) (p_lost s) (p_gs s).
Definition raise_flag (s : pstate) : pstate :=
  mkP (p_cap s) (p_buf s) (p_chan s) (p_wg s) true (p_next s) (p_shut s) (p_lost s) (p_gs s).
Definition close_chan (s : pstate) : pstate :=
  mkP (p_cap s) (p_buf s) true (p_wg s) (p_flag s) (p_next s) (p_shut s) (p_lost s) (p_gs s).
Definition fresh (s : pstate) : pstate :=
  mkP (p_cap s) (p_buf s) (p_chan s) (p_wg s) (p_flag s) (S (p_next s)) (p_shut s) (p_lost s) (p_gs s).
Definition shut (c : nat) (s : pstate) : pstate :=
  mkP (p_cap s) (p_buf s) (p_chan s) (p_wg s) (p_flag s) (p_next s) (c :: p_shut s) (p_lost s) (p_gs s).
Definition lose (c : nat) (s : pstate) : pstate :=
  mkP (p_cap s) (p_buf s) (p_chan s) (p_wg s) (p_flag s) (p_next s) (p_shut s) (c :: p_lost s) (p_gs s).

(** [cp.wg.Done()] panics on a counter that would become negative. *)
Definition wg_done (i : nat) (s : pstate) : pstate :=
  if p_wg s <=? 0 then go i LPanic s else add_wg (-1) (go i LIdle s).

Inductive step (may_close : bool) (s : pstate) : pstate -> Prop :=
  (* GetConnection *)
  | step_load i : at_ s i LIdle -> p_flag s = false -> step may_close s (go i LSelect s)
  | step_recv i c rest :
      at_ s i LSelect -> p_buf s = c :: rest -> step may_close s (set_buf rest (go i (LReceived (Some c)) s))
  | step_recv_nil i :
      at_ s i LSelect -> p_buf s = [] -> p_chan s = true -> step may_close s (go i (LReceived None) s)
  | step_default i :
      at_ s i LSelect -> p_buf s = [] -> p_chan s = false -> step may_close s (go i LDefault s)
  | step_add_recv i c : at_ s i (LReceived c) -> step may_close s (add_wg 1 (go i (LHold c) s))
  | step_add_dial i : at_ s i LDefault -> step may_close s (add_wg 1 (go i LDial s))
  | step_dial_ok i : at_ s i LDial -> step may_close s (fresh (go i (LHold (Some (p_next s))) s))
  | step_dial_fail i : at_ s i LDial -> step may_close s (wg_done i s)
  (* using a nil connection *)
  | step_use_nil i : at_ s i (LHold None) -> step may_close s (go i LNil s)
  (* ReleaseConnection *)
  | step_release_closed i c :
      at_ s i (LHold (Some c)) -> p_flag s = true -> step may_close s (lose c (go i LIdle s))
  | step_release i c :
      at_ s i (LHold (Some c)) -> p_flag s = false -> step may_close s (go i (LSend c) s)
  | step_send i c :
      at_ s i (LSend c) -> p_chan s = false -> (length (p_buf s) < p_cap s)%nat ->
      step may_close s (set_buf (p_buf s ++ [c]) (go i LSent s))
  | step_send_closed i c : at_ s i (LSend c) -> p_chan s = true -> step may_close s (lose c (go i LPanic s))
  | step_done i : at_ s i LSent -> step may_close s (wg_done i s)
  (* Close *)
  | step_close i : at_ s i LIdle -> may_close = true -> step may_close s (go i LWait s)
  | step_wait i : at_ s i LWait -> p_wg s = 0 -> step may_close s (go i LStore s)
  | step_store i : at_ s i LStore -> step may_close s (raise_flag (go i LCloseChan s))
  | step_close_chan i :
      at_ s i LCloseChan -> p_chan s = false -> step may_close s (close_chan (go i LDrain s))
  | step_close_twice i : at_ s i LCloseChan -> p_chan s = true -> step may_close s (go i LPanic s)
  | step_drain i c rest :
      at_ s i LDrain -> p_buf s = c :: rest -> step may_close s (set_buf rest (shut c s))
  | step_drained i : at_ s i LDrain -> p_buf s = [] -> step may_close s (go i LIdle s).

(** A new pool with [n] goroutines. *)
Definition init (cap n : nat) : pstate := mkP cap [] false 0 false 0 [] [] (replicate n LIdle).

Definition reachable (may_close : bool) (cap n : nat) : pstate -> Prop := rtc (step may_close) (init cap n).

(** ** Counting over the goroutines *)

Lemma sum_idle (f : local -> nat) n : f LIdle = 0%nat -> sum_list (f <$> replicate n LIdle) = 0%nat.
Proof. intros Hf. induction n as [|n IH]; simpl; [done|]. by rewrite Hf. Qed.

(** The connection a goroutine owns. *)
Definition owned (l : local) : list nat :=
  match l with LReceived (Some c) | LHold (Some c) | LSend c => [c] | _ => [] end.

Lemma owned_insert gs i l l' :
  gs !! i = Some l -> exists rest, gs ≫= owned ≡ₚ owned l ++ rest /\ <[i := l']> gs ≫= owned ≡ₚ owned l' ++ rest.
Proof.
  revert i. induction gs as [|g gs IH]; intros [|i] H; simplify_eq/=.
  - by exists (gs ≫= owned).
  - destruct (IH i H) as (rest & E & E'). exists (owned g ++ rest). rewrite E, E'. split; solve_Permutation.
Qed.

(** Where connections are. *)
Definition places (s : pstate) : list nat := p_buf s ++ (p_gs s ≫= owned) ++ p_shut s ++ p_lost s.

(** A goroutine that moves from [l] to [l'] while connections change places. *)
Lemma places_move s i l l' new buf sh lo :
  at_ s i l ->
  owned l' ++ buf ++ sh ++ lo ≡ₚ new ++ owned l ++ p_buf s ++ p_shut s ++ p_lost s ->
  buf ++ (<[i := l']> (p_gs s) ≫= owned) ++ sh ++ lo ≡ₚ new ++ places s.
Proof.
  intros Hi Hp. destruct (owned_insert (p_gs s) i l l' Hi) as (rest & E & E'). unfold places. rewrite E, E'.
  transitivity (rest ++ owned l' ++ buf ++ sh ++ lo); [solve_Permutation|]. rewrite Hp. solve_Permutation.
Qed.

Lemma wg_done_places s i l : at_ s i l -> owned l = [] -> places (wg_done i s) ≡ₚ places s.
Proof.
  intros Hi Hl. unfold wg_done. destruct (p_wg s <=? 0);
    (eapply (places_move s i l _ []); [done|]); by rewrite Hl.
Qed.

Lemma wg_done_next s i : p_next (wg_done i s) = p_next s.
Proof. unfold wg_done. by destruct (p_wg s <=? 0). Qed.

(** A step moves a connection from one place to another or makes a new one. *)
Lemma step_places b s s' :
  step b s s' ->
  (places s' ≡ₚ places s /\ p_next s' = p_next s) \/
  (places s' ≡ₚ p_next s :: places s /\ p_next s' = S (p_next s)).
Proof.
  intros Hs. destruct Hs as [| | | | | |i Hi| | | | | | | | | | | | |i c rest Hi Hb|];
    try (left; split; [by eapply wg_done_places|apply wg_done_next]);
    try (left; split; [|done]; eapply (places_move s _ _ _ []); [eassumption|];
         simpl; repeat match goal with Hq : p_buf s = _ |- _ => rewrite Hq; clear Hq end;
         simpl; solve_Permutation).
  - right. split; [|done]. eapply (places_move s _ _ _ [p_next s]); [eassumption|]. done.
  - left. split; [|done]. unfold places. simpl. rewrite Hb. solve_Permutation.
Qed.

(** Each connection is in one place. *)
Definition one_place (s : pstate) : Prop :=
  NoDup (places s) /\ Forall (fun c => (c < p_next s)%nat) (places s).

Lemma one_place_step b s s' : one_place s -> step b s s' -> one_place s'.
Proof.
  intros [Hnd Hlt] Hs. destruct (step_places b s s' Hs) as [[E En]|[E En]]; unfold one_place; rewrite E, En.
  - done.
  - split.
    + constructor; [|done]. intros Hin. apply (proj1 (Forall_forall _ _) Hlt) in Hin. lia.
    + constructor; [lia|]. eapply Forall_impl; [done|]. simpl. lia.
Qed.

(** Invariants by induction on the steps. *)
Lemma reachable_ind b cap n (Inv : pstate -> Prop) :
  Inv (init cap n) -> (forall s s', Inv s -> step b s s' -> Inv s') ->
  forall s, reachable b cap n s -> Inv s.
Proof. intros H0 Hstep s Hr. by apply (rtc_ind_r Inv (init cap n)) in Hr; [|done|eauto]. Qed.

Lemma init_owned n : replicate n LIdle ≫= owned = [].
Proof. by induction n. Qed.

Lemma one_place_reachable b cap n s : reachable b cap n s -> one_place s.
Proof.
  apply reachable_ind; [|intros; by eapply one_place_step].
  unfold one_place, places. simpl. rewrite init_owned. split; constructor.
Qed.

(** ** Accounting of the wait group *)

(** Whether the wait group counts the goroutine. *)
Definition counted (l : local) : nat :=
  match l with LDial | LHold _ | LSend _ | LSent | LNil => 1 | _ => 0 end.

Definition accounted (s : pstate) : Prop :=
  p_wg s = Z.of_nat (sum_list (counted <$> p_gs s) + length (p_lost s)) /\
  (length (p_buf s) <= p_cap s)%nat.

(** Arithmetic over the goroutine that moves. *)
Ltac count_move f s :=
  match goal with
  | H : at_ s ?i ?l |- context [<[?i := ?l']> (p_gs s)] =>
      let Hsum := fresh in
      pose proof (sum_insert f (p_gs s) i l l' H) as Hsum; simpl in Hsum
  | _ => idtac
  end;
  repeat match goal with Hq : p_buf s = _ |- _ => rewrite Hq in *; clear Hq end;
  simpl in *; rewrite ?length_app; simpl; lia.

Lemma accounted_step b s s' : accounted s -> step b s s' -> accounted s'.
Proof.
  intros [Hw Hb] Hs. destruct Hs; unfold accounted, wg_done; try (simpl; count_move counted s);
    (match goal with H : at_ s ?i ?l |- _ => pose proof (sum_lookup_le counted (p_gs s) i l H) as Hc end;
     simpl in Hc; rewrite (proj2 (Z.leb_gt _ _)) by lia; simpl; count_move counted s).
Qed.

Lemma accounted_reachable b cap n s : reachable b cap n s -> accounted s.
Proof.
  apply reachable_ind; [|intros; by eapply accounted_step]. unfold accounted. simpl.
  rewrite (sum_idle counted n) by done. simpl. lia.
Qed.

(** ** Without Close *)

(** Places of a goroutine in a pool that nobody closes. *)
Definition calm_local (l : local) : Prop :=
  match l with
  | LReceived None | LHold None | LWait | LStore | LCloseChan | LDrain | LNil | LPanic => False
  | _ => True
  end.

Definition calm (s : pstate) : Prop :=
  p_flag s = false /\ p_chan s = false /\ p_shut s = [] /\ p_lost s = [] /\ Forall calm_local (p_gs s).

Lemma calm_at s i l : calm s -> at_ s i l -> calm_local l.
Proof. intros (_&_&_&_&Hall) Hi. by eapply Forall_lookup_1 in Hall. Qed.

Lemma calm_step s s' : accounted s -> calm s -> step false s s' -> calm s'.
Proof.
  intros [Hw _] Hc Hs. pose proof Hc as (Hf & Hch & Hsh & Hlo & Hall).
  destruct Hs; match goal with H : at_ s ?i ?l |- _ =>
      pose proof (calm_at s i l Hc H) as Hl; pose proof (sum_lookup_le counted (p_gs s) i l H) as Hk end;
    simpl in Hl, Hk; try done; try congruence;
    try (unfold wg_done; rewrite (proj2 (Z.leb_gt _ _)) by lia);
    split_and!; simpl; try done; try (apply Forall_insert; [done|]); simpl; try done; by destruct c.
Qed.

Lemma calm_reachable cap n s : reachable false cap n s -> calm s.
Proof.
  intros Hr. assert (H : accounted s /\ calm s); [|by destruct H]. revert s Hr. apply reachable_ind.
  - split; [apply (accounted_reachable false cap n); constructor|]. split_and!; try done.
    by apply Forall_replicate.
  - intros s s' [Ha Hc] Hs. split; [by eapply accounted_step|by eapply calm_step].
Qed.

(** Connections that are in the channel, in use, or about to be made. *)
Definition weight (l : local) : nat :=
  match l with LReceived _ | LDefault | LDial | LHold _ | LSend _ => 1 | _ => 0 end.

Lemma weight_le gs : (sum_list (weight <$> gs) <= length gs)%nat.
Proof.
  induction gs as [|g gs IH]; [simpl; lia|]. rewrite fmap_cons.
  change (weight g + sum_list (weight <$> gs) <= S (length gs))%nat.
  assert (weight g <= 1)%nat by (destruct g; simpl; lia). lia.
Qed.

Definition bounded (s : pstate) : Prop :=
  (length (p_buf s) + sum_list (weight <$> p_gs s) <= p_cap s)%nat.

Lemma bounded_step s s' :
  accounted s -> calm s -> (length (p_gs s) <= p_cap s)%nat -> bounded s -> step false s s' -> bounded s'.
Proof.
  intros [Hw _] Hc Hn Hb Hs. pose proof Hc as (Hf & Hch & _). unfold bounded in *.
  destruct Hs; match goal with H : at_ s ?i ?l |- _ =>
      pose proof (calm_at s i l Hc H) as Hl; pose proof (sum_lookup_le counted (p_gs s) i l H) as Hk end;
    simpl in Hl, Hk; try done; try congruence;
    try (unfold wg_done; rewrite (proj2 (Z.leb_gt _ _)) by lia);
    try (simpl; count_move weight s).
  pose proof (weight_le (<[i := LDefault]> (p_gs s))) as Hle. rewrite length_insert in Hle. simpl.
  match goal with Hq : p_buf s = [] |- _ => rewrite Hq end. simpl. lia.
Qed.

Lemma step_size b s s' : step b s s' -> length (p_gs s') = length (p_gs s) /\ p_cap s' = p_cap s.
Proof.
  intros Hs. destruct Hs; simpl; rewrite ?length_insert; try done;
    unfold wg_done; destruct (p_wg s <=? 0); simpl; by rewrite length_insert.
Qed.

Lemma bounded_reachable cap n s :
  (n <= cap)%nat -> reachable false cap n s -> bounded s /\ p_cap s = cap.
Proof.
  intros Hn Hr.
  assert (H : (accounted s /\ calm s) /\ (length (p_gs s) = n /\ p_cap s = cap) /\ bounded s);
    [|by destruct H as (_ & [_ ?] & ?)].
  revert s Hr. apply reachable_ind.
  - split; [split; [by apply (accounted_reachable false cap n), rtc_refl|]|].
    { split_and!; try done. by apply Forall_replicate. }
    split; [split; [apply length_replicate|done]|]. unfold bounded. simpl.
    rewrite (sum_idle weight n) by done. lia.
  - intros s s' ((Ha & Hc) & (Hl & Hcap) & Hb) Hs. destruct (step_size _ _ _ Hs) as [El Ec].
    split; [split; [by eapply accounted_step|by eapply calm_step]|]. split; [split; congruence|].
    eapply bounded_step; [done|done|lia|done|done].
Qed.

(** ** The theorems *)

Lemma owned_twice gs i j l l' c :
  gs !! i = Some l -> gs !! j = Some l' -> i <> j -> c ∈ owned l -> c ∈ owned l' -> ~ NoDup (gs ≫= owned).
Proof.
  intros Hi Hj Hne Hc Hc' Hnd. destruct (owned_insert gs i l LIdle Hi) as (rest & E & E').
  rewrite E in Hnd. apply NoDup_app in Hnd as (_ & Hdis & _). apply (Hdis c Hc).
  change (owned LIdle) with (@nil nat) in E'. rewrite app_nil_l in E'. rewrite <- E'.
  apply list_elem_of_bind. exists l'. split; [done|]. apply (list_elem_of_lookup_2 _ j).
  by rewrite list_lookup_insert_ne.
Qed.

(** C14. Under every interleaving of any number of goroutines, Close included, a
    connection has one owner: no two goroutines hold the same connection, and a
    connection that is held is neither in the channel nor closed by the pool. *)
Theorem exclusive_ownership may_close cap n s i l c :
  reachable may_close cap n s -> at_ s i l -> c ∈ owned l ->
  c ∉ p_buf s /\ c ∉ p_shut s /\ forall j l', at_ s j l' -> j <> i -> c ∉ owned l'.
Proof.
  intros Hr Hi Hc. destruct (one_place_reachable _ _ _ _ Hr) as [Hnd _]. unfold places in Hnd.
  apply NoDup_app in Hnd as (_ & Hbuf & Hnd). apply NoDup_app in Hnd as (Hown & Hrest & _).
  assert (Hin : c ∈ p_gs s ≫= owned).
  { apply list_elem_of_bind. exists l. split; [done|]. by eapply list_elem_of_lookup_2. }
  split; [intros Hb; apply (Hbuf c Hb); set_solver|]. split; [intros Hb; apply (Hrest c Hin); set_solver|].
  intros j l' Hj Hne Hc'. by apply (owned_twice (p_gs s) i j l l' c Hi Hj).
Qed.


(** C13. With at most as many goroutines as the pool has room, and while nobody
    closes it, no goroutine panics, no connection is lost, and no goroutine is
    ever blocked: whatever the others do, each one can take its next step, so
    ReleaseConnection always finds room. *)
Theorem pool_progress cap n s i l :
  (n <= cap)%nat -> reachable false cap n s -> at_ s i l ->
  calm_local l /\ p_lost s = [] /\ exists l' s', step false s s' /\ p_gs s' = <[i := l']> (p_gs s).
Proof.
  intros Hn Hr Hi. pose proof (calm_reachable _ _ _ Hr) as Hc. pose proof Hc as (Hf & Hch & _ & Hlo & _).
  destruct (bounded_reachable cap n s Hn Hr) as [Hb _]. pose proof (calm_at s i l Hc Hi) as Hl.
  split; [done|]. split; [done|]. destruct l as [| |[c|]| | |[c|]|c| | | | | | |]; try done.
  - eexists _, _. by split; [apply (step_load _ _ i)|].
  - destruct (p_buf s) as [|c rest] eqn:Eb.
    + eexists _, _. by split; [apply (step_default _ _ i)|].
    + eexists _, _. by split; [by eapply (step_recv _ _ i)|].
  - eexists _, _. by split; [apply (step_add_recv _ _ i)|].
  - eexists _, _. by split; [apply (step_add_dial _ _ i)|].
  - eexists _, _. by split; [apply (step_dial_ok _ _ i)|].
  - eexists _, _. by split; [by eapply (step_release _ _ i)|].
  - eexists _, _. split; [eapply (step_send _ _ i c)|]; try done.
    pose proof (sum_insert weight (p_gs s) i _ LIdle Hi) as Hs. unfold bounded in Hb. simpl in Hs. lia.
  - destruct (accounted_reachable _ _ _ _ Hr) as [Hw _]. pose proof (sum_lookup_le counted _ _ _ Hi) as Hk. simpl in Hk.
    exists LIdle, (wg_done i s). split; [by apply (step_done _ _ i)|]. unfold wg_done.
    by rewrite (proj2 (Z.leb_gt _ _)) by lia.
Qed.

(** ** Runs *)

(** One more step of a run, by the named rule for goroutine [i]. *)
Ltac run rule i := eapply rtc_l; [eapply (rule _ _ i); (reflexivity || (simpl; lia))|]; cbn.

(** With one goroutine more than the pool has room the pool can deadlock: a
    release blocks on the full channel and Close waits for it forever; nothing
    can move. *)
Lemma pool_deadlock : exists s, reachable true 1 2 s /\ at_ s 0 LWait /\ forall s', ~ step true s s'.
Proof.
  eexists. split.
  { unfold reachable, init. cbn. run step_load 0%nat. run step_default 0%nat. run step_add_dial 0%nat.
    run step_load 1%nat. run step_default 1%nat. run step_add_dial 1%nat.
    run step_dial_ok 0%nat. run step_dial_ok 1%nat. run step_release 0%nat. run step_send 0%nat.
    run step_done 0%nat. run step_close 0%nat. run step_release 1%nat. apply rtc_refl. }
  split; [done|]. intros s' Hs.
  inversion Hs as [i Hi|i ?? Hi|i Hi|i Hi|i ? Hi|i Hi|i Hi|i Hi|i Hi|i ? Hi|i ? Hi|i ? Hi ? Hroom|i ? Hi|i Hi|i Hi
    |i Hi|i Hi|i Hi|i Hi|i ?? Hi|i Hi]; subst; unfold at_ in Hi; simpl in *;
    destruct i as [|[|i]]; simplify_eq/=; lia.
Qed.

(** Close races with calls that are between their load of [closed] and
    their next operation: GetConnection can return nil (and its caller then
    panics), ReleaseConnection can send on the closed channel and panic, and a
    connection can be dropped without being closed. *)
Lemma close_races :
  (exists s, reachable true 1 2 s /\ at_ s 0 (LHold None)) /\
  (exists s, reachable true 1 2 s /\ at_ s 0 LPanic) /\
  (exists s, reachable true 1 2 s /\ p_lost s = [0%nat] /\ p_shut s = [] /\ p_gs s = [LIdle; LIdle]).
Proof.
  split_and!.
  - eexists. split.
    { unfold reachable, init. cbn. run step_load 0%nat. run step_close 1%nat.
    run step_wait 1%nat. run step_store 1%nat. run step_close_chan 1%nat. run step_drained 1%nat.
    run step_recv_nil 0%nat. run step_add_recv 0%nat. apply rtc_refl. }
    reflexivity.
  - eexists. split.
    { unfold reachable, init. cbn. run step_load 0%nat. run step_default 0%nat.
    run step_close 1%nat. run step_wait 1%nat. run step_add_dial 0%nat. run step_dial_ok 0%nat.
    run step_release 0%nat. run step_store 1%nat. run step_close_chan 1%nat. run step_send_closed 0%nat.
    apply rtc_refl. }
    reflexivity.
  - eexists. split.
    { unfold reachable, init. cbn. run step_load 0%nat. run step_default 0%nat.
    run step_close 1%nat. run step_wait 1%nat. run step_add_dial 0%nat. run step_dial_ok 0%nat.
    run step_store 1%nat. run step_close_chan 1%nat. run step_drained 1%nat. run step_release_closed 0%nat.
    apply rtc_refl. }
    by split_and!.
Qed.


(** ** Witnesses *)

(** A pool with room for one, and one goroutine that holds a connection. *)
Definition sample_held : pstate := mkP 1 [] false 1 false 1 [] [] [LHold (Some 0%nat)].

Lemma sample_held_reachable may_close : reachable may_close 1 1 sample_held.
Proof.
  unfold reachable, init. cbn. run step_load 0%nat. run step_default 0%nat. run step_add_dial 0%nat.
  run step_dial_ok 0%nat. apply rtc_refl.
Qed.

Lemma exclusive_ownership_witness : 0%nat ∉ p_buf sample_held /\ 0%nat ∉ p_shut sample_held.
Proof.
  destruct (exclusive_ownership true 1 1 sample_held 0 (LHold (Some 0%nat)) 0 (sample_held_reachable true)
    eq_refl ltac:(left)) as (H1 & H2 & _).
  exact (conj H1 H2).
Defined.


Lemma pool_progress_witness :
  exists l' s', step false sample_held s' /\ p_gs s' = <[0%nat := l']> (p_gs sample_held).
Proof.
  exact (proj2 (proj2 (pool_progress 1 1 sample_held 0 (LHold (Some 0%nat)) ltac:(lia)
    (sample_held_reachable false) eq_refl))).
Defined.
