(* ===== verification/ShardedSafe.v ===== *)
(** * ShardedSafe: the sharded client between calls

    One goroutine using a sharded client: construction, every sequence of
    methods and closing return, whatever the networks of the shards do.
    [resting] is the state between calls: every shard's pool is at rest with
    its own connections. *)

From S2P Require Import Prelude GoStd Strconv Types Commands Response ResponseFacts.
From S2P Require Import Options Pools Net Tcp TcpFacts TcpSafe TcpWire TcpTheorems.
From S2P Require Import ConnPool Client ClientSafe ClientApi Sharded ShardedFacts.

(** A pool at rest with these connections, in some order. *)
Definition idle_perm (k : nat) (conns : list nat) (cp : ConnectionPool) : Prop :=
  exists conns', conns' ≡ₚ conns /\ idle_pool k conns' cp.

(** The pools behind [ps0] are at rest with the connections [css]. *)
Definition resting (ps0 : list ConnectionPool) (k : nat) (css : list (list nat)) (w : world) : Prop :=
  exists ps, Forall2 (idle_perm k) css ps /\ ok (ps0 ++ ps) k w.

Lemma idle_perm_mono k k' conns cp : (k <= k')%nat -> idle_perm k conns cp -> idle_perm k' conns cp.
Proof.
  intros Hk (conns' & Hp & (?&?&?&?&?&Hall)). exists conns'. split; [done|]. split_and!; try done; try apply H.
  all: try tauto. eapply Forall_impl; [done|]. simpl. lia.
Qed.

(** A method of the client, for every pool. *)
Ltac every_client := intros; unfold_method; method_serves.

(** A method of the [i]-th shard keeps all of them at rest. *)
Lemma serves_resting {A} ps0 k css i (m : M A) :
  (forall ps, (length ps0 + i < length ps)%nat -> serves ps (length ps0 + i)%nat m) -> (i < length css)%nat ->
  triple (resting ps0 k css) m (fun _ => resting ps0 k css) (fun _ => resting ps0 k css).
Proof.
  intros Hm Hi w (ps & HF & Hok). set (c := (length ps0 + i)%nat) in *.
  destruct (lookup_lt_is_Some_2 css i Hi) as [conns Hconns].
  destruct (Forall2_lookup_l _ _ _ _ _ HF Hconns) as (cp & Hcp & (conns' & Hperm & Hidle)).
  pose proof (Forall2_length _ _ _ HF) as Hlen.
  assert (Hc : (c < length (ps0 ++ ps))%nat) by (rewrite length_app; unfold c; lia).
  assert (Hlook : (ps0 ++ ps) !! c = Some cp).
  { unfold c. rewrite lookup_app_r by lia. by rewrite Nat.add_sub'. }
  assert (Hrest : at_rest (ps0 ++ ps) c k conns w).
  { exists conns', cp. split; [done|]. split; [done|]. by rewrite list_insert_id. }
  assert (Hback : forall w', at_rest (ps0 ++ ps) c k conns w' -> resting ps0 k css w').
  { intros w' (conns2 & cp2 & Hp2 & Hi2 & Hok2). exists (<[i := cp2]> ps). split.
    - rewrite <- (list_insert_id css i conns Hconns). apply Forall2_insert; [done|]. by exists conns2.
    - unfold c in Hok2. by rewrite insert_app_r in Hok2. }
  specialize (Hm _ Hc k conns w Hrest). destruct (m w) as [[] w']; auto.
Qed.

(** ** Methods of a sharded client over these pools *)

Section sharded.
Context `{Json} (ps0 : list ConnectionPool) (k : nat) (css : list (list nat)).
Context (c : ShardedClient) (Hshards : sc_shards c = seq (length ps0) (length css)) (Hne : css <> []).

Abbreviation I := (resting ps0 k css).

(** [m] returns and keeps the shards at rest. *)
Definition safe {A} (m : M A) : Prop := triple I m (fun _ => I) (fun _ => I).

Lemma shard_lookup s j : sc_shards c !! j = Some s -> s = (length ps0 + j)%nat /\ (j < length css)%nat.
Proof. rewrite Hshards. intros Hs. apply lookup_seq in Hs. done. Qed.

(** A method that serves every client serves every shard. *)
Lemma shard_safe {A} (f : Client -> M A) s :
  s ∈ sc_shards c -> (forall ps c, (c < length ps)%nat -> serves ps c (f c)) -> safe (f s).
Proof.
  intros Hs Hf. apply list_elem_of_lookup_1 in Hs as [j Hs]. apply shard_lookup in Hs as [-> Hj].
  apply (serves_resting ps0 k css j); [|done]. intros ps Hlen. by apply Hf.
Qed.

Lemma on_shard_safe {A} key (f : Client -> M A) :
  (forall ps c, (c < length ps)%nat -> serves ps c (f c)) -> safe (on_shard c key f).
Proof.
  intros Hf. unfold on_shard, shardByKey, shardIndexByKey.
  set (i := sc_shardingFunc c key (ShardCount c)).
  destruct ((i <? 0) || (ShardCount c <=? i)) eqn:E; [by intros w Hw|]. apply range_test in E.
  destruct (in_range_lookup c i E) as [s Hs]. simpl.
  rewrite (shard_at_lookup c i s) by (lia || done).
  eapply triple_bind; [apply (triple_ret I s (fun a w => a = s /\ I w)); done|].
  intros a. apply triple_pre. intros ->. apply shard_safe; [|done]. by eapply list_elem_of_lookup_2.
Qed.

Lemma MDel_serves ps s ctx keys : (s < length ps)%nat -> serves ps s (MDel s ctx keys).
Proof. revert ps s. every_client. Qed.

Lemma S_MDel_safe order ctx keys : (forall l, order l ≡ₚ l) -> safe (S_MDel order c ctx keys).
Proof.
  intros Hord. unfold safe, S_MDel. eapply triple_conseq;
    [apply (MDel_with_spec I (fun s => MDel s ctx) (fun _ _ _ => True) c keys)|done|by intros ?? []|done]; [|done].
  intros s ks Hs. eapply triple_conseq; [|exact (fun s H => H)|exact (fun a s H => conj Logic.I H)|exact (fun e s H => H)].
  apply (shard_safe (fun s => MDel s ctx ks) s Hs). intros. by apply MDel_serves.
Qed.

(** A scan keeps the shards at rest whatever pages they return. *)
Lemma scan_loop_safe scanShard fuel count i sc acc :
  (forall s cursor count, s ∈ sc_shards c -> safe (scanShard s cursor count)) ->
  0 <= i -> ShardCount c - i <= Z.of_nat fuel ->
  safe (scan_loop fuel scanShard c count i sc acc).
Proof.
  intros Hs. revert i sc acc. induction fuel as [|fuel IH]; intros i sc acc Hi Hf; cbn [scan_loop];
    destruct ((i <? ShardCount c) && (Z.of_nat (length acc) <? count)) eqn:Eb; try (by apply triple_ret).
  { to_prop. lia. }
  to_prop. destruct (in_range_lookup c i) as [s Hl]; [lia|]. rewrite (shard_at_lookup c i s) by (lia || done).
  eapply triple_bind; [apply (triple_ret I s (fun a w => a = s /\ I w)); done|].
  intros a. apply triple_pre. intros ->.
  eapply triple_bind; [apply Hs; by eapply list_elem_of_lookup_2|]. intros r.
  case_decide; [by apply triple_ret|]. apply IH; lia.
Qed.

Lemma shards_nonempty : 0 < ShardCount c.
Proof. unfold ShardCount. rewrite Hshards, length_seq. destruct css; [done|simpl; lia]. Qed.

Lemma parse_range cursor i sc : parseScanCursor c cursor = Ret (i, sc) -> 0 <= i.
Proof.
  unfold parseScanCursor. case_decide; [by intros [= <- _]|].
  destruct (SplitN2 _ _) as [|p0 [|p1 [|]]]; try done. case_decide; [done|].
  destruct (Atoi p0) as [j| | |]; try done. destruct ((j <? 0) || _) eqn:E; [done|].
  apply range_test in E. intros [= <- _]. lia.
Qed.

Lemma parse_returns cursor : returns (parseScanCursor c cursor).
Proof.
  unfold parseScanCursor. case_decide; [done|]. destruct (SplitN2 _ _) as [|p0 [|p1 [|]]]; try done.
  case_decide; [done|]. pose proof (Atoi_returns p0). destruct (Atoi p0); try done. by case_match.
Qed.

Lemma S_scan_safe scanShard cursor count :
  (forall s cursor count, s ∈ sc_shards c -> safe (scanShard s cursor count)) ->
  safe (S_scan scanShard c cursor count).
Proof.
  intros Hs. unfold S_scan. destruct (count =? 0).
  - pose proof shards_nonempty. destruct (in_range_lookup c 0) as [s Hl]; [lia|].
    rewrite (shard_at_lookup c 0 s) by (lia || done).
    eapply triple_bind; [apply (triple_ret I s (fun a w => a = s /\ I w)); done|].
    intros a. apply triple_pre. intros ->. apply Hs. by eapply list_elem_of_lookup_2.
  - pose proof (parse_returns cursor) as Hr.
    destruct (parseScanCursor c cursor) as [[i sc]|e| |] eqn:E; try done; [|by apply triple_fail].
    eapply triple_bind; [apply (triple_ret I (i, sc) (fun a w => a = (i, sc) /\ I w)); done|].
    intros a. apply triple_pre. intros ->. apply parse_range in E.
    apply scan_loop_safe; [done|done|unfold ShardCount; lia].
Qed.

Lemma bool_safe command :
  (forall s, s ∈ sc_shards c -> safe (command s)) -> safe (boolCommandOnAllShards c command).
Proof.
  intros Hc. eapply triple_conseq;
    [apply (boolCommand_loop_spec I command (fun _ _ => True) (sc_shards c) true)|done|by intros ?? []|done].
  intros s Hs. eapply triple_conseq; [apply (Hc s Hs)|done|done|done].
Qed.

Lemma Inspect_safe ctx section shards :
  (forall s, s ∈ shards -> s ∈ sc_shards c) -> safe (Inspect_loop ctx section shards).
Proof.
  induction shards as [|s shards IH]; intros Hin; [by apply triple_ret|]. cbn [Inspect_loop].
  eapply triple_bind.
  { apply (shard_safe (fun s => Inspect s ctx section)); [apply Hin; by left|].
    every_client. }
  intros report. eapply triple_bind; [apply IH; intros; apply Hin; by right|]. intros. by apply triple_ret.
Qed.

End sharded.

(** ** Sequences of calls *)

Section calls.
Context `{Json}.

(** The method of the sharded client that issues [r]; [order] is the order in
    which MDEL visits its groups. *)
Definition sharded_execute (c : ShardedClient) order (ctx : context) (r : request) : option (M ()) :=
  let any {A} (m : M A) := Some (ret_as (fun _ => ()) m) in
  match r with
  | RIncr key => any (S_Incr c ctx key)
  | RGet key => any (S_Get c ctx key)
  | RWatch key => any (S_Watch c ctx key)
  | RDel key => any (S_Del c ctx key)
  | RMDel keys => any (S_MDel order c ctx keys)
  | RRLimitFixedWindow key limit => any (S_RLimitFixedWindow c ctx key limit)
  | RRLimitSlidingWindow key limit => any (S_RLimitSlidingWindow c ctx key limit)
  | RRLimitTokenBucket key cap refill => any (S_RLimitTokenBucket c ctx key cap refill)
  | RQuotaAcquire name amount id ttl => any (S_QuotaAcquire c ctx name amount id ttl)
  | RQuotaAcquireLease name limit amount id ttl => any (S_QuotaAcquireLease c ctx name limit amount id ttl)
  | RQuotaAcquireN name id ttl => any (S_QuotaAcquireN c ctx name id ttl)
  | RQuotaSet name limit => any (S_QuotaSet c ctx name limit)
  | RQuotaSetN name limit clients => any (S_QuotaSetN c ctx name limit clients)
  | RQuotaRelease name id => any (S_QuotaRelease c ctx name id)
  | RQuotaDelete name => any (S_QuotaDelete c ctx name)
  | RQuotaInfo name => any (S_QuotaInfo c ctx name)
  | RScan cursor count => any (S_Scan c ctx cursor count)
  | RPScan prefix cursor count => any (S_PScan c ctx prefix cursor count)
  | RFlushDB => any (S_FlushDB c ctx)
  | RTruncate => any (S_Truncate c ctx)
  | RInspect section => any (S_Inspect c ctx section)
  | RStream | RPStream _ | RQStream | RQPStream _ | RHello _ => None
  end.

Record sharded_call := mkShardedCall {
  sa_order : list (Z * list indexedCappingKey) -> list (Z * list indexedCappingKey);
  sa_ctx : context; sa_request : request }.

(** Calls in sequence, their results and errors ignored by the caller. *)
Fixpoint sharded_runs (c : ShardedClient) (cs : list sharded_call) : M () :=
  match cs with
  | [] => mret ()
  | a :: cs =>
      match sharded_execute c (sa_order a) (sa_ctx a) (sa_request a) with
      | Some m => catch m;; sharded_runs c cs
      | None => sharded_runs c cs
      end
  end.

Definition any_order (a : sharded_call) : Prop := forall l, sa_order a l ≡ₚ l.

Section on_pools.
Context (ps0 : list ConnectionPool) (k : nat) (css : list (list nat)).
Context (c : ShardedClient) (Hshards : sc_shards c = seq (length ps0) (length css)) (Hne : css <> []).

Lemma safe_ret_as {A B} (f : A -> B) (m : M A) : safe ps0 k css m -> safe ps0 k css (ret_as f m).
Proof. intros Hm. eapply triple_bind; [apply Hm|]. intros. by apply triple_ret. Qed.

Lemma sharded_execute_safe order ctx r m :
  (forall l, order l ≡ₚ l) -> sharded_execute c order ctx r = Some m -> safe ps0 k css m.
Proof.
  intros Hord. destruct r; cbn [sharded_execute]; (discriminate || intros [= <-]); apply safe_ret_as;
    try (apply on_shard_safe; [done|]; every_client; fail).
  - by apply S_MDel_safe.
  - apply S_scan_safe; [done|done|]. intros s cur n Hs.
    apply (shard_safe ps0 k css c Hshards (fun s => Scan s ctx cur n)); [done|]. every_client.
  - apply S_scan_safe; [done|done|]. intros s cur n Hs.
    apply (shard_safe ps0 k css c Hshards (fun s => PScan s ctx _ cur n)); [done|]. every_client.
  - apply bool_safe. intros s Hs.
    apply (shard_safe ps0 k css c Hshards (fun s => FlushDB s ctx)); [done|]. every_client.
  - apply bool_safe. intros s Hs.
    apply (shard_safe ps0 k css c Hshards (fun s => Truncate s ctx)); [done|]. every_client.
  - by apply (Inspect_safe ps0 k css c Hshards).
Qed.

Lemma sharded_runs_triple cs :
  Forall any_order cs ->
  triple (resting ps0 k css) (sharded_runs c cs) (fun _ => resting ps0 k css) (fun _ _ => False).
Proof.
  induction 1 as [|a cs Ha Hcs IH]; [by apply triple_ret|]. cbn [sharded_runs].
  destruct (sharded_execute _ _ _ _) as [m|] eqn:E; [|done].
  eapply triple_bind; [apply triple_catch; by eapply sharded_execute_safe|]. by intros [].
Qed.

End on_pools.
End calls.

(** ** Construction and closing *)

Lemma closing_step ps0 ps k conns tail cp w :
  idle_perm k conns cp -> ok (ps0 ++ (cp :: ps) ++ tail) k w ->
  at_rest (ps0 ++ (cp :: ps) ++ tail) (length ps0) k conns w.
Proof.
  intros (conns' & Hp & Hi) Hok. exists conns', cp. split; [done|]. split; [done|].
  by rewrite list_insert_id by (by apply list_lookup_middle).
Qed.

Lemma Close_shards_triple ps0 tail k css shut :
  triple (fun w => (exists ps, Forall2 (idle_perm k) css ps /\ ok (ps0 ++ ps ++ tail) k w) /\
                   Forall (closed_at w) shut)
    (Close_shards (seq (length ps0) (length css)))
    (fun _ w => (exists ps, ok ps k w) /\ Forall (closed_at w) (shut ++ concat css)) (fun _ _ => False).
Proof.
  revert ps0 shut. induction css as [|conns css IH]; intros ps0 shut.
  { apply triple_ret. intros w [(ps & _ & Hok) Hs]. rewrite app_nil_r. by split; [eexists|]. }
  cbn [length seq Close_shards]. intros w [(ps & HF & Hok) Hs].
  apply Forall2_cons_inv_l in HF as (cp & ps' & Hcp & HF & ->).
  assert (Hc : (length ps0 < length (ps0 ++ (cp :: ps') ++ tail))%nat) by (rewrite length_app; simpl; lia).
  pose proof (Close_client_triple _ _ _ _ shut Hc w (conj (closing_step _ _ _ _ _ _ _ Hcp Hok) Hs)) as Hr.
  unfold mbind, st_bind. destruct (Close_client _ _) as [[[]|e| |] w1]; try done.
  destruct Hr as [(cp' & _ & Hok1) Hs1]. simpl app in Hok1. rewrite insert_app_r_alt, Nat.sub_diag in Hok1 by lia.
  specialize (IH (ps0 ++ [cp']) (shut ++ conns) w1).
  rewrite length_app, Nat.add_1_r in IH. rewrite concat_cons, app_assoc. apply IH.
  split; [|done]. exists ps'. split; [done|]. by rewrite <- app_assoc.
Qed.

(** [n] blocks of [sz] connections from [k] on. *)
Fixpoint blocks (sz k n : nat) : list (list nat) :=
  match n with O => [] | S n => seq k sz :: blocks sz (k + sz) n end.

Lemma concat_blocks sz k n : concat (blocks sz k n) = seq k (n * sz).
Proof. revert k. induction n as [|n IH]; intros k; [done|]. simpl. by rewrite IH, seq_app. Qed.

Lemma length_blocks sz k n : length (blocks sz k n) = n.
Proof. revert k. induction n as [|n IH]; intros k; [done|]. simpl. by rewrite IH. Qed.

Lemma blocks_lookup sz k n i : (i < n)%nat -> blocks sz k n !! i = Some (seq (k + i * sz) sz).
Proof.
  revert k i. induction n as [|n IH]; intros k [|i] Hi; try lia; simpl; [by rewrite Nat.add_0_r|].
  rewrite IH by lia. do 2 f_equal. lia.
Qed.

Section construct.
Context (idle poolSize : Z) (opts : list (option Option)).
Context (Hopts : returns (applyOptions opts)) (Hsize : 0 < poolSize) (ps0 : list ConnectionPool).

Abbreviation sz := (Z.to_nat poolSize).

(** What a construction that fails leaves: the shards made so far are closed. *)
Definition construction_failed (k : nat) (css : list (list nat)) (addresses : list bytes) (e : error) (w : world) : Prop :=
  exists i a e', addresses !! i = Some a /\ e = EWrap "create shard %q: %w" [FStr a] e' /\
    Forall (closed_at w) (concat (css ++ blocks sz k i)).

Lemma New_shard_triple k css address :
  triple (resting ps0 k css) (New address idle poolSize opts)
    (fun s w => s = (length ps0 + length css)%nat /\ resting ps0 (k + sz) (css ++ [seq k sz]) w)
    (fun _ w => exists k' cp ps, Forall2 (idle_perm k') css ps /\ ok (ps0 ++ ps ++ [cp]) k' w).
Proof.
  intros w (ps & HF & Hok). pose proof (Forall2_length _ _ _ HF) as Hlen.
  assert (Hmono : forall k', (k <= k')%nat -> Forall2 (idle_perm k') css ps).
  { intros k' Hk. eapply Forall2_impl; [exact HF|]. intros. by eapply idle_perm_mono. }
  pose proof (New_triple address idle poolSize opts _ _ Hopts Hsize w Hok) as Hn.
  destruct (New _ _ _ _ _) as [[s|e| |] w1]; try done.
  - destruct Hn as (-> & cp & conns & cp' & Hp & Hi & Hok1). split; [rewrite length_app; lia|].
    rewrite insert_last in Hok1. exists (ps ++ [cp']). split.
    + apply Forall2_app; [apply Hmono; lia|]. constructor; [|constructor]. by exists conns.
    + by rewrite app_assoc.
  - destruct Hn as (j & _ & Hok1). eexists (k + j)%nat, _, ps. split; [apply Hmono; lia|].
    rewrite app_assoc. exact Hok1.
Qed.

Lemma NewSharded_loop_triple addresses k css :
  triple (resting ps0 k css) (NewSharded_loop addresses idle poolSize opts (seq (length ps0) (length css)))
    (fun shards w => shards = seq (length ps0) (length css + length addresses) /\
       resting ps0 (k + length addresses * sz) (css ++ blocks sz k (length addresses)) w)
    (construction_failed k css addresses).
Proof.
  revert k css. induction addresses as [|a addresses IH]; intros k css.
  { apply triple_ret. intros w Hw. simpl. by rewrite !Nat.add_0_r, app_nil_r. }
  cbn [NewSharded_loop]. eapply triple_bind; [apply triple_weaken_fail, triple_catch, New_shard_triple|].
  intros [s|e].
  - apply triple_pre. intros ->.
    specialize (IH (k + sz)%nat (css ++ [seq k sz])). rewrite length_app, seq_app in IH.
    eapply triple_conseq; [exact IH|done| |].
    + intros shards w [-> Hw]. simpl. split; [f_equal; lia|].
      rewrite <- app_assoc in Hw. by rewrite Nat.add_assoc.
    + intros e w (i & a' & e' & Ha & -> & Hc). exists (S i), a', e'. split_and!; try done.
      by rewrite <- app_assoc in Hc.
  - intros w (k' & cp & ps & HF & Hok).
    pose proof (Close_shards_triple ps0 [cp] k' css [] w (conj (ex_intro _ ps (conj HF Hok)) (Forall_nil_2 _))) as Hr.
    unfold mbind, st_bind. destruct (Close_shards _ _) as [[[]|? | |] w1]; try done.
    exists O, a, e. split_and!; [done|done|]. simpl. rewrite app_nil_r. apply Hr.
Qed.

End construct.

(** Between calls each shard's pool holds its own connections, and closing
    closes all of them. *)
Lemma resting_closes ps k sz n c w :
  sc_shards c = seq (length ps) n -> resting ps (k + n * sz) (blocks sz k n) w ->
  exists w', bufferPool_ok (w_bufs w) /\ no_leak (w_net w) /\
    (forall i s, sc_shards c !! i = Some s ->
       exists cp conns, w_pools w !! s = Some cp /\ cp_connections cp = Some <$> conns /\
         conns ≡ₚ seq (k + i * sz) sz /\ cp_wg cp = 0 /\ cp_closed cp = false) /\
    Close_sharded c w = (Ret (), w') /\ Forall (closed_at w') (seq k (n * sz)).
Proof.
  intros Hsh (ps' & HF & Hok).
  assert (Hpre : (exists qs, Forall2 (idle_perm (k + n * sz)) (blocks sz k n) qs /\
                    ok (ps ++ qs ++ []) (k + n * sz) w) /\ Forall (closed_at w) []).
  { split; [|done]. exists ps'. by rewrite app_nil_r. }
  pose proof (Close_shards_triple ps [] _ _ [] w Hpre) as Hc. rewrite length_blocks, concat_blocks in Hc.
  unfold Close_sharded. rewrite Hsh. destruct (Close_shards _ w) as [[[]|e| |] w']; try done.
  destruct Hc as [_ Hc]. pose proof Hok as (Hb & _ & Hl & Hp & _). exists w'. split_and!; try done.
  intros i s Hs. apply lookup_seq in Hs as [-> Hi].
  destruct (Forall2_lookup_l _ _ _ _ _ HF (blocks_lookup sz k n i Hi)) as (cp & Hcp & conns & Hperm & Hcs & Hwg & Hcl & _).
  exists cp, conns. rewrite Hp, lookup_app_r, Nat.add_sub' by lia. by split_and!.
Qed.

(** C23. One goroutine using a sharded client with a positive pool size, against
    any networks and for every iteration order of MDEL's map.  [NewSharded]
    returns a client with one shard per address, or an error; when the shard of
    an address could not be created, the shards made before it are closed.
    From then on every sequence of unary methods returns (none panics, blocks
    or runs out of fuel) and afterwards each shard's pool holds exactly its own
    connections, none in use, all pooled buffers are empty and no connection
    was given up open; [Close] then returns and closes every connection of
    every shard. *)
Theorem sharded_calls_safe `{Json} addresses idle poolSize f opts ps k w :
  returns (applyOptions opts) -> 0 < poolSize -> ok ps k w ->
  let sz := Z.to_nat poolSize in
  match NewSharded addresses idle poolSize f opts w with
  | (Ret c, w1) =>
      ShardCount c = Z.of_nat (length addresses) /\
      forall cs, Forall any_order cs ->
        exists w2 w3, sharded_runs c cs w1 = (Ret (), w2) /\ bufferPool_ok (w_bufs w2) /\ no_leak (w_net w2) /\
          (forall i s, sc_shards c !! i = Some s ->
             exists cp conns, w_pools w2 !! s = Some cp /\ cp_connections cp = Some <$> conns /\
               conns ≡ₚ seq (k + i * sz) sz /\ cp_wg cp = 0 /\ cp_closed cp = false) /\
          Close_sharded c w2 = (Ret (), w3) /\ Forall (closed_at w3) (seq k (length addresses * sz))
  | (Fail e, w1) =>
      (addresses = [] /\ e = ErrNoShards) \/ (f = None /\ e = ErrNilShardingFunc) \/
      exists i a e', addresses !! i = Some a /\ e = EWrap "create shard %q: %w" [FStr a] e' /\
        Forall (closed_at w1) (seq k (i * sz))
  | _ => False
  end.
Proof.
  intros Ho Hs Hok sz. unfold NewSharded. case_decide as Hne; [by left|].
  destruct f as [f|]; [|by right; left].
  assert (Hr : resting ps k [] w) by (exists []; by rewrite app_nil_r).
  pose proof (NewSharded_loop_triple idle poolSize opts Ho Hs ps addresses k [] w Hr) as Hl.
  unfold mbind, st_bind. simpl length in Hl. simpl seq in Hl.
  destruct (NewSharded_loop _ _ _ _ _ _) as [[shards|e| |] w1]; try done.
  - destruct Hl as [-> Hw1]. simpl in Hw1. unfold mret, st_ret.
    set (c := mkShardedClient _ f). set (css := blocks sz k (length addresses)).
    assert (Hlen : length css = length addresses) by apply length_blocks.
    assert (Hsh : sc_shards c = seq (length ps) (length css)) by by rewrite Hlen.
    split; [unfold ShardCount; simpl; by rewrite length_seq|]. intros cs Hcs.
    pose proof (sharded_runs_triple ps _ css c Hsh ltac:(by destruct addresses) cs Hcs w1 Hw1) as Hrun.
    destruct (sharded_runs c cs w1) as [[[]|e| |] w2]; try done.
    destruct (resting_closes ps k sz (length addresses) c w2 eq_refl Hrun) as (w3 & Hend).
    exists w2, w3. by split.
  - destruct Hl as (i & a & e' & ? & ? & Hc). right; right. exists i, a, e'.
    rewrite app_nil_l, concat_blocks in Hc. by split_and!.
Qed.

Definition sample_route (key : bytes) (n : Z) : Z := Z.of_nat (length key) mod n.

Definition sample_sharded_calls : list sharded_call :=
  [mkShardedCall id context_Background (RIncr (mkCappingKey (str "k") 60));
   mkShardedCall reverse context_Background (RMDel [mkCappingKey (str "k") 60; mkCappingKey (str "kk") 60])].

Lemma sample_any_order : Forall any_order sample_sharded_calls.
Proof. repeat constructor; intros l; simpl; [done|]. apply reverse_Permutation. Qed.

Lemma sharded_calls_safe_witness :
  exists c w1 w2 w3,
    NewSharded [str "a:1"; str "b:1"] 1000 1 (Some sample_route) sample_opts sample_world = (Ret c, w1) /\
    ShardCount c = 2 /\ sharded_runs (H := sample_json) c sample_sharded_calls w1 = (Ret (), w2) /\
    Close_sharded c w2 = (Ret (), w3) /\ Forall (closed_at w3) [0; 1]%nat.
Proof.
  pose proof (sharded_calls_safe (H := sample_json) [str "a:1"; str "b:1"] 1000 1 (Some sample_route) sample_opts
    [] 0 sample_world ltac:(vm_compute; exact I) ltac:(lia) sample_world_ok) as Hs.
  pose proof (run_fst (NewSharded [str "a:1"; str "b:1"] 1000 1 (Some sample_route) sample_opts) sample_world
    (Ret (mkShardedClient [0; 1]%nat sample_route)) ltac:(vm_compute; reflexivity)) as E.
  set (w1 := (NewSharded _ _ _ _ _ sample_world).2) in E. cbv zeta in Hs. rewrite E in Hs.
  destruct Hs as [Hn Hs]. destruct (Hs sample_sharded_calls sample_any_order) as (w2 & w3 & E2 & _ & _ & _ & E3 & Hc).
  exists (mkShardedClient [0; 1]%nat sample_route), w1, w2, w3. by split_and!.
Defined.
