(* ===== verification/ShardedStream.v ===== *)
(** * ShardedStream: the merged streams (sharded_client.go, [streamEvents])

    [streamEvents] runs the stream of every shard in a goroutine of its own,
    serialises the callback with a mutex, collects the errors in a channel and
    returns the first one.  It is a step relation here: one rule per
    synchronisation operation of the source (spawning, the mutex, the channel,
    the wait group, the contexts), for every interleaving.

    The stream of a shard is a parameter of [streamEvents]; a [proc] is what
    that function does to its surroundings: it reads the error of its context,
    calls its callback and goes on with the callback's answer, or returns.  Its
    type is inductive: a stream that returns after finitely many of these,
    whatever the answers are.  [ShardedStreamProc] shows that the streams of
    client.go are of this form. *)

From stdpp Require Import relations.
From S2P Require Import Prelude GoStd Net Tcp.

(** ** The stream of one shard *)

Section procs.
Context {T : Type}.

Inductive proc :=
  | PReturn (r : option error)                       (* the stream returned *)
  | PEvent (e : T) (k : option error -> proc)        (* [handle(event)] *)
  | PCtx (k : option error -> proc).                 (* [ctx.Err()] *)

(** [runs ok p tr p']: from [p] to [p'] with the callbacks [tr] and their
    answers; the context answers are all [ok]. *)
Inductive runs (ok : option error -> Prop) (p : proc) : list (T * option error) -> proc -> Prop :=
  | runs_nil : runs ok p [] p
  | runs_event tr e k r : runs ok p tr (PEvent e k) -> runs ok p (tr ++ [(e, r)]) (k r)
  | runs_ctx tr k c : runs ok p tr (PCtx k) -> ok c -> runs ok p tr (k c).

(** A run in which the context was never done. *)
Abbreviation undisturbed := (runs (fun c => c = None)).

Lemma runs_weaken (ok ok' : option error -> Prop) p tr p' :
  (forall c, ok c -> ok' c) -> runs ok p tr p' -> runs ok' p tr p'.
Proof. intros Hok Hr. induction Hr; econstructor; eauto. Qed.

End procs.
Arguments proc : clear implicits.

Section streamEvents.
Context {H T : Type} (handle : handler H T).

(** ** States *)

(** Where the goroutine of a shard is. *)
Inductive gstate :=
  | GStream (p : proc T)                            (* in [stream(...)] *)
  | GLock (e : T) (k : option error -> proc T)      (* callback, before [handleMu.Lock()] *)
  | GHandle (e : T) (k : option error -> proc T)    (* before [handle(event)] *)
  | GUnlock (r : option error) (k : option error -> proc T)  (* before [handleMu.Unlock()] *)
  | GSend (e : error)                               (* before [errs <- err] *)
  | GCancel (e : error)                             (* before [cancel()] *)
  | GDone (r : option error)                        (* before [wg.Done()] *)
  | GEnd (r : option error)
  | GPanic.

(** The goroutine that closes the channel. *)
Inductive closer := CNone | CWait | CClose | CEnd | CPanic.

(** The caller. *)
Inductive main :=
  | MSpawn (todo : list (proc T))   (* in the loop over the shards *)
  | MRecv                           (* [firstStreamError]: before [<-errs] *)
  | MCheck (e : error)              (* received, before [ctx.Err()] *)
  | MCancel (r : option error)      (* before the deferred [cancel()] *)
  | MReturn (r : option error).

(** [s_sent] is every error sent so far and [s_log] every callback with its
    shard and its answer; both only serve the theorems. *)
Record sstate := mkS {
  s_main : main; s_closer : closer; s_gs : list gstate;
  s_mu : bool; s_wg : Z; s_cap : nat; s_buf : list error; s_chanClosed : bool;
  s_ctx : option error;      (* [streamCtx.Err()] *)
  s_parent : option error;   (* [ctx.Err()] *)
  s_h : H; s_sent : list error; s_log : list (nat * T * option error) }.

Definition set_main m s :=
  mkS m (s_closer s) (s_gs s) (s_mu s) (s_wg s) (s_cap s) (s_buf s) (s_chanClosed s)
    (s_ctx s) (s_parent s) (s_h s) (s_sent s) (s_log s).
Definition set_closer c s :=
  mkS (s_main s) c (s_gs s) (s_mu s) (s_wg s) (s_cap s) (s_buf s) (s_chanClosed s)
    (s_ctx s) (s_parent s) (s_h s) (s_sent s) (s_log s).
Definition set_gs gs s :=
  mkS (s_main s) (s_closer s) gs (s_mu s) (s_wg s) (s_cap s) (s_buf s) (s_chanClosed s)
    (s_ctx s) (s_parent s) (s_h s) (s_sent s) (s_log s).
Definition set_mu b s :=
  mkS (s_main s) (s_closer s) (s_gs s) b (s_wg s) (s_cap s) (s_buf s) (s_chanClosed s)
    (s_ctx s) (s_parent s) (s_h s) (s_sent s) (s_log s).
Definition add_wg d s :=
  mkS (s_main s) (s_closer s) (s_gs s) (s_mu s) (s_wg s + d) (s_cap s) (s_buf s)
    (s_chanClosed s) (s_ctx s) (s_parent s) (s_h s) (s_sent s) (s_log s).
Definition set_buf b s :=
  mkS (s_main s) (s_closer s) (s_gs s) (s_mu s) (s_wg s) (s_cap s) b (s_chanClosed s)
    (s_ctx s) (s_parent s) (s_h s) (s_sent s) (s_log s).
Definition close_errs s :=
  mkS (s_main s) (s_closer s) (s_gs s) (s_mu s) (s_wg s) (s_cap s) (s_buf s) true
    (s_ctx s) (s_parent s) (s_h s) (s_sent s) (s_log s).
Definition set_ctx c s :=
  mkS (s_main s) (s_closer s) (s_gs s) (s_mu s) (s_wg s) (s_cap s) (s_buf s)
    (s_chanClosed s) c (s_parent s) (s_h s) (s_sent s) (s_log s).
Definition set_parent c s :=
  mkS (s_main s) (s_closer s) (s_gs s) (s_mu s) (s_wg s) (s_cap s) (s_buf s)
    (s_chanClosed s) (s_ctx s) c (s_h s) (s_sent s) (s_log s).
Definition sends e s :=
  mkS (s_main s) (s_closer s) (s_gs s) (s_mu s) (s_wg s) (s_cap s) (s_buf s ++ [e])
    (s_chanClosed s) (s_ctx s) (s_parent s) (s_h s) (s_sent s ++ [e]) (s_log s).
Definition logs i e hr s :=
  mkS (s_main s) (s_closer s) (s_gs s) (s_mu s) (s_wg s) (s_cap s) (s_buf s)
    (s_chanClosed s) (s_ctx s) (s_parent s) hr.1 (s_sent s) (s_log s ++ [(i, e, hr.2)]).

Definition go (i : nat) (g : gstate) (s : sstate) : sstate := set_gs (<[i := g]> (s_gs s)) s.
Definition at_ (s : sstate) (i : nat) (g : gstate) : Prop := s_gs s !! i = Some g.

(** [cancel()] of a context that may be done already. *)
Definition cancel (s : sstate) : sstate :=
  set_ctx (Some (default (ESentinel context_Canceled) (s_ctx s))) s.

(** [wg.Done()] panics when the counter would become negative. *)
Definition wg_done (i : nat) (r : option error) (s : sstate) : sstate :=
  if s_wg s <=? 0 then go i GPanic s else add_wg (-1) (go i (GEnd r) s).

(** [streamEvents] at its start, with the streams of the shards. *)
Definition start (procs : list (proc T)) (parent : option error) (h : H) : sstate :=
  mkS (MSpawn procs) CNone [] false 0 (length procs) [] false parent parent h [] [].

(** ** Steps *)

(** [firstStreamError] *)
Inductive firstStreamError (s : sstate) : sstate -> Prop :=
  | step_recv e rest :
      s_main s = MRecv -> s_buf s = e :: rest -> firstStreamError s (set_buf rest (set_main (MCheck e) s))
  | step_recv_closed :
      s_main s = MRecv -> s_buf s = [] -> s_chanClosed s = true ->
      firstStreamError s (set_main (MCancel None) s)
  | step_check e :
      s_main s = MCheck e -> firstStreamError s (set_main (MCancel (Some (default e (s_parent s)))) s).

(** The body of the goroutine of shard [i]. *)
Inductive shard_step (i : nat) (s : sstate) : sstate -> Prop :=
  | step_ctx k : at_ s i (GStream (PCtx k)) -> shard_step i s (go i (GStream (k (s_ctx s))) s)
  | step_event e k : at_ s i (GStream (PEvent e k)) -> shard_step i s (go i (GLock e k) s)
  | step_lock e k :
      at_ s i (GLock e k) -> s_mu s = false -> shard_step i s (set_mu true (go i (GHandle e k) s))
  | step_handle e k :
      at_ s i (GHandle e k) ->
      shard_step i s (logs i e (handle (s_h s) e) (go i (GUnlock (handle (s_h s) e).2 k) s))
  | step_unlock r k : at_ s i (GUnlock r k) -> shard_step i s (set_mu false (go i (GStream (k r)) s))
  | step_return_err e : at_ s i (GStream (PReturn (Some e))) -> shard_step i s (go i (GSend e) s)
  | step_return_nil : at_ s i (GStream (PReturn None)) -> shard_step i s (go i (GDone None) s)
  | step_send e :
      at_ s i (GSend e) -> s_chanClosed s = false -> (length (s_buf s) < s_cap s)%nat ->
      shard_step i s (sends e (go i (GCancel e) s))
  | step_send_closed e : at_ s i (GSend e) -> s_chanClosed s = true -> shard_step i s (go i GPanic s)
  | step_cancel e : at_ s i (GCancel e) -> shard_step i s (cancel (go i (GDone (Some e)) s))
  | step_done r : at_ s i (GDone r) -> shard_step i s (wg_done i r s).

(** What the goroutines of [streamEvents] do. *)
Inductive step (s : sstate) : sstate -> Prop :=
  | step_spawn p todo :
      s_main s = MSpawn (p :: todo) ->
      step s (add_wg 1 (set_gs (s_gs s ++ [GStream p]) (set_main (MSpawn todo) s)))
  | step_spawned : s_main s = MSpawn [] -> step s (set_closer CWait (set_main MRecv s))
  | step_first s' : firstStreamError s s' -> step s s'
  | step_return r : s_main s = MCancel r -> step s (cancel (set_main (MReturn r) s))
  | step_shard i s' : shard_step i s s' -> step s s'
  | step_wait : s_closer s = CWait -> s_wg s = 0 -> step s (set_closer CClose s)
  | step_close : s_closer s = CClose -> s_chanClosed s = false -> step s (close_errs (set_closer CEnd s))
  | step_close_twice : s_closer s = CClose -> s_chanClosed s = true -> step s (set_closer CPanic s).

(** The caller's context becomes done, and then the derived one. *)
Inductive env_step (s : sstate) : sstate -> Prop :=
  | step_parent e : s_parent s = None -> env_step s (set_parent (Some e) s)
  | step_propagate e : s_parent s = Some e -> s_ctx s = None -> env_step s (set_ctx (Some e) s).

Inductive any_step (s s' : sstate) : Prop :=
  | any_prog : step s s' -> any_step s s'
  | any_env : env_step s s' -> any_step s s'.

Definition reachable procs parent h : sstate -> Prop := rtc any_step (start procs parent h).

(** Everything has ended. *)
Definition final (s : sstate) : Prop :=
  (exists r, s_main s = MReturn r) /\ s_closer s = CEnd /\
  Forall (fun g => exists r, g = GEnd r) (s_gs s).

End streamEvents.
