(* ===== verification/ShardedStreamFacts.v ===== *)
(** * ShardedStreamFacts: the merged streams under every interleaving

    Theorems about [streamEvents]: the callbacks are an interleaving of the
    shards' streams handled one at a time; every execution ends, with all
    goroutines gone; the error returned is the caller's context error or one
    that a shard's stream gives when nothing disturbs it. *)

From stdpp Require Import relations.
From S2P Require Import Prelude GoStd Net Tcp ShardedStream.

Section facts.
Context {H T : Type} (handle : handler H T).
Abbreviation sstate := (@sstate H T).
Abbreviation gstate := (@gstate T).
Abbreviation step := (step handle).
Abbreviation any_step := (any_step handle).
Implicit Types (s : sstate) (g : gstate).

(** Invariants by induction on the steps. *)
Lemma stream_reachable_ind procs parent h (Inv : sstate -> Prop) :
  Inv (start procs parent h) -> (forall s s', Inv s -> any_step s s' -> Inv s') ->
  forall s, reachable handle procs parent h s -> Inv s.
Proof. intros H0 Hstep s Hr. by apply (rtc_ind_r Inv (start procs parent h)) in Hr; [|done|eauto]. Qed.

(** ** Counting the goroutines *)

(** The wait group counts it. *)
Definition live g : nat := match g with GEnd _ | GPanic => 0 | _ => 1 end.
(** It may still send. *)
Definition unsent g : nat :=
  match g with GStream _ | GLock _ _ | GHandle _ _ | GUnlock _ _ | GSend _ => 1 | _ => 0 end.
(** It holds the mutex. *)
Definition holds g : nat := match g with GHandle _ _ | GUnlock _ _ => 1 | _ => 0 end.
Definition panicked g : nat := match g with GPanic => 1 | _ => 0 end.

Definition count (f : gstate -> nat) s : nat := sum_list (f <$> s_gs s).

(** The shards the loop has not reached. *)
Definition todo_of (m : @main T) : list (proc T) := match m with MSpawn todo => todo | _ => [] end.
Definition unspawned s : nat := length (todo_of (s_main s)).

(** The closing goroutine and the channel. *)
Definition closing s : Prop :=
  match s_closer s with
  | CNone => (exists todo, s_main s = MSpawn todo) /\ s_chanClosed s = false
  | CWait => (forall todo, s_main s <> MSpawn todo) /\ s_chanClosed s = false
  | CClose => (forall todo, s_main s <> MSpawn todo) /\ s_chanClosed s = false /\ count live s = 0%nat
  | CEnd => (forall todo, s_main s <> MSpawn todo) /\ s_chanClosed s = true /\ count live s = 0%nat
  | CPanic => False
  end.

Record counts s : Prop := {
  c_wg : s_wg s = Z.of_nat (count live s);
  c_room : (length (s_sent s) + count unsent s + unspawned s <= s_cap s)%nat;
  c_buf : (length (s_buf s) <= length (s_sent s))%nat;
  c_mu : count holds s = Nat.b2n (s_mu s);
  c_closing : closing s;
  c_calm : count panicked s = 0%nat }.

(** The four counts after goroutine [i] moved from [g] to [g']. *)
Lemma count_go f i g g' s : at_ s i g -> (count f (go i g' s) + f g = count f s + f g')%nat.
Proof. apply sum_insert. Qed.

Ltac counts_move :=
  match goal with
  | Hi : at_ ?s ?i ?g, C : counts ?s |- context [go ?i ?g' ?s] =>
      pose proof (count_go live i g g' s Hi); pose proof (count_go unsent i g g' s Hi);
      pose proof (count_go holds i g g' s Hi); pose proof (count_go panicked i g g' s Hi)
  end.

Lemma counts_shard i s s' : counts s -> shard_step handle i s s' -> counts s'.
Proof.
  intros C Hs. pose proof C as [Hwg Hroom Hbuf Hmu Hcl Hcalm].
  assert (Hlive : forall g, at_ s i g -> live g = 1%nat ->
    s_chanClosed s = false /\ (0 < count live s)%nat /\
    forall s', s_closer s' = s_closer s -> s_main s' = s_main s -> s_chanClosed s' = s_chanClosed s -> closing s').
  { intros g Hg Hl. pose proof (sum_lookup_le live _ _ _ Hg) as Hle. unfold closing, count in *.
    split; [destruct (s_closer s); intuition lia|]. split; [lia|].
    intros s1 -> -> ->. destruct (s_closer s); intuition lia. }
  destruct Hs; try (unfold wg_done; rewrite (proj2 (Z.leb_gt _ _)) by
      (match goal with Hi : at_ _ _ _ |- _ => destruct (Hlive _ Hi eq_refl) as (_ & ? & _) end; lia));
    match goal with Hi : at_ _ _ _ |- _ => destruct (Hlive _ Hi eq_refl) as (Hch & Hpos & Hkeep) end;
    try congruence; counts_move;
    (constructor; [| | | | by apply Hkeep |]);
    unfold count, unspawned in *; simpl in *; rewrite ?length_app; simpl in *; try lia;
    try (destruct (s_mu s); simpl in *; try done; lia).
Qed.

Lemma counts_first s s' : counts s -> firstStreamError s s' -> counts s'.
Proof.
  intros [Hwg Hroom Hbuf Hmu Hcl Hcalm] Hs.
  destruct Hs as [e rest Hm Hb|Hm Hb Hc|e Hm]; constructor; try done;
    try (unfold unspawned in *; simpl; rewrite Hm in Hroom; done);
    try (simpl; rewrite Hb in Hbuf; simpl in Hbuf; lia);
    unfold closing in *; simpl; rewrite Hm in Hcl; destruct (s_closer s); naive_solver.
Qed.

Lemma counts_step s s' : counts s -> any_step s s' -> counts s'.
Proof.
  intros C [Hs|Hs]; pose proof C as [Hwg Hroom Hbuf Hmu Hcl Hcalm];
    [destruct Hs as [p todo Hm|Hm|s' Hs|r Hm|i s' Hs|Hc Hw|Hc Hch|Hc Hch]|destruct Hs].
  - constructor; unfold count, unspawned, closing in *; simpl in *; rewrite ?sum_snoc; rewrite Hm in *;
      simpl in *; try lia. destruct (s_closer s); naive_solver.
  - constructor; try done; unfold count, unspawned, closing in *; simpl in *; rewrite Hm in *; simpl in *; [lia|].
    destruct (s_closer s); naive_solver.
  - by eapply counts_first.
  - constructor; try done; unfold count, unspawned, closing in *; simpl in *; rewrite Hm in *; simpl in *; [lia|].
    destruct (s_closer s); naive_solver.
  - by eapply counts_shard.
  - constructor; try done. unfold closing, count in *. simpl. rewrite Hc in Hcl. destruct Hcl. split_and!; try done. lia.
  - constructor; try done. unfold closing in *. simpl. rewrite Hc in Hcl. by destruct Hcl as (?&?&?).
  - unfold closing in Hcl. rewrite Hc in Hcl. destruct Hcl as (?&?&?). congruence.
  - by constructor.
  - by constructor.
Qed.

Lemma counts_reachable procs parent h s : reachable handle procs parent h s -> counts s.
Proof.
  apply stream_reachable_ind; [|intros; by eapply counts_step]. constructor; try done. simpl. split; [|done]. by eexists.
Qed.

(** ** Progress: only the final states are stuck *)

Lemma ended_or_busy g : (exists r, g = GEnd r) \/ g = GPanic \/ live g = 1%nat.
Proof. destruct g; eauto. Qed.

(** A goroutine that holds the mutex, or any when it is free, can go on. *)
Lemma shard_can_step s i g :
  counts s -> at_ s i g -> live g = 1%nat -> s_mu s = false \/ holds g = 1%nat ->
  exists s', shard_step handle i s s'.
Proof.
  intros [Hwg Hroom Hbuf Hmu Hcl Hcalm] Hi Hl Hm. pose proof (sum_lookup_le unsent _ _ _ Hi) as Hu.
  pose proof (sum_lookup_le live _ _ _ Hi) as Hlv.
  destruct g as [[[e|]|e k|k]|e k|e k|r k|e|e|r|r|]; try done; try (by eexists; econstructor).
  - destruct Hm as [Hm|Hm]; [|done]. by eexists; econstructor.
  - simpl in Hu, Hlv. unfold closing in *. unfold count in *. destruct (s_chanClosed s) eqn:Hc.
    + exfalso. destruct (s_closer s); destruct_and?; (done || lia).
    + eexists. econstructor; [done|done|]. lia.
Qed.

Lemma some_shard_steps s :
  counts s -> (0 < count live s)%nat -> exists i s', shard_step handle i s s'.
Proof.
  intros C Hl. destruct (s_mu s) eqn:Hm.
  - assert (Hh : (0 < count holds s)%nat) by (rewrite (c_mu s C), Hm; simpl; lia).
    destruct (sum_positive holds _ Hh) as (i & g & Hi & Hg). exists i.
    apply (shard_can_step s i g C Hi); [destruct g; simpl in *; lia|]. right. destruct g; simpl in *; lia.
  - destruct (sum_positive live _ Hl) as (i & g & Hi & Hg). exists i.
    apply (shard_can_step s i g C Hi); [destruct g; simpl in *; lia|by left].
Qed.

Lemma all_ended s : counts s -> count live s = 0%nat -> Forall (fun g => exists r, g = GEnd r) (s_gs s).
Proof.
  intros C Hl. apply Forall_lookup. intros i g Hi. pose proof (sum_zero live _ _ _ Hl Hi) as Hlg.
  pose proof (sum_zero panicked _ _ _ (c_calm s C) Hi) as Hp. destruct g; try done. by eexists.
Qed.

Lemma stuck_final s : counts s -> (forall s', ~ step s s') -> final s.
Proof.
  intros C Hstuck. assert (Hl : count live s = 0%nat).
  { destruct (decide (0 < count live s)%nat) as [Hl|]; [|lia].
    destruct (some_shard_steps s C Hl) as (i & s' & Hs). destruct (Hstuck s'). by eapply step_shard. }
  pose proof (c_closing s C) as Hcl. pose proof (c_wg s C) as Hwg. unfold closing in Hcl.
  assert (Hend : s_closer s = CEnd /\ s_chanClosed s = true).
  { destruct (s_closer s) eqn:Ec; try done.
    - destruct Hcl as ([[|p todo] Hm] & _); edestruct Hstuck; [by apply step_spawned|by eapply step_spawn].
    - edestruct Hstuck. apply step_wait; [done|lia].
    - edestruct Hstuck. apply step_close; [done|by destruct Hcl as (?&?&?)].
    - by destruct Hcl as (?&?&?). }
  destruct Hend as [Ec Ech]. rewrite Ec in Hcl. split; [|split; [done|by apply all_ended]].
  destruct (s_main s) as [todo| |e|r|r] eqn:Em; [by destruct Hcl as (Hn&_); destruct (Hn todo)| | | |by eexists].
  - destruct (s_buf s) eqn:Eb; edestruct Hstuck; apply step_first; [by eapply step_recv_closed|by eapply step_recv].
  - edestruct Hstuck. by eapply step_first, step_check.
  - edestruct Hstuck. by eapply step_return.
Qed.

(** ** Termination *)

(** The next places of a goroutine, whatever the others do. *)
Inductive moves : gstate -> gstate -> Prop :=
  | mv_ctx k c : moves (GStream (k c)) (GStream (PCtx k))
  | mv_event e k : moves (GLock e k) (GStream (PEvent e k))
  | mv_lock e k : moves (GHandle e k) (GLock e k)
  | mv_handle e k r : moves (GUnlock r k) (GHandle e k)
  | mv_unlock r k : moves (GStream (k r)) (GUnlock r k)
  | mv_err e : moves (GSend e) (GStream (PReturn (Some e)))
  | mv_nil : moves (GDone None) (GStream (PReturn None))
  | mv_send e : moves (GCancel e) (GSend e)
  | mv_panic e : moves GPanic (GSend e)
  | mv_cancel e : moves (GDone (Some e)) (GCancel e)
  | mv_done r : moves (GEnd r) (GDone r)
  | mv_done_panic r : moves GPanic (GDone r).

Ltac acc_cases := constructor; intros ?g Hmv; inversion Hmv; subst; clear Hmv.

Lemma moves_wf : well_founded moves.
Proof.
  assert (Hend : forall r, Acc moves (GEnd r)) by (intros; acc_cases).
  assert (Hpanic : Acc moves GPanic) by acc_cases.
  assert (Hdone : forall r, Acc moves (GDone r)) by (intros; acc_cases; done).
  assert (Hcancel : forall e, Acc moves (GCancel e)) by (intros; acc_cases; done).
  assert (Hsend : forall e, Acc moves (GSend e)) by (intros; acc_cases; done).
  assert (Hstream : forall p, Acc moves (GStream p)).
  { induction p as [r|e k IH|k IH].
    - acc_cases; auto.
    - do 4 acc_cases. apply IH.
    - acc_cases. apply IH. }
  intros [p|e k|e k|r k|e|e|r|r|]; auto; [do 3 acc_cases|do 2 acc_cases|acc_cases]; auto.
Qed.

(** One goroutine of the list moves. *)
Definition one_moves (gs' gs : list gstate) : Prop :=
  exists i g g', gs !! i = Some g /\ moves g' g /\ gs' = <[i := g']> gs.

Lemma one_moves_acc gs : Acc one_moves gs.
Proof.
  induction gs as [|g gs IH].
  { constructor. intros gs' (i & g & g' & Hi & _). done. }
  revert gs IH. induction (moves_wf g) as [g _ IHg]. intros gs Hgs. induction Hgs as [gs Hacc IHgs].
  constructor. intros gs' ([|i] & g1 & g1' & Hi & Hmv & ->); simplify_eq/=.
  - apply IHg; [done|by constructor].
  - apply IHgs. by exists i, g1, g1'.
Qed.

(** What the other parties can still do. *)
Definition main_weight (m : @main T) : nat :=
  match m with MSpawn todo => length todo + 6 | MRecv => 3 | MCheck _ => 2 | MCancel _ => 1 | MReturn _ => 0 end.
Definition closer_weight (c : closer) : nat :=
  match c with CNone => 3 | CWait => 2 | CClose => 1 | CEnd | CPanic => 0 end.
Definition ctx_weight (c : option error) : nat := match c with None => 1 | Some _ => 0 end.

Definition others s : nat :=
  main_weight (s_main s) + closer_weight (s_closer s) + ctx_weight (s_parent s) + ctx_weight (s_ctx s).

Lemma shard_step_moves i s s' : shard_step handle i s s' -> one_moves (s_gs s') (s_gs s) /\ (others s' <= others s)%nat.
Proof.
  intros Hs. destruct Hs;
    try (split; [eexists i, _, _; split_and!; [done|constructor|done]|unfold others; simpl; lia]).
  unfold wg_done. destruct (s_wg s <=? 0);
    (split; [eexists i, _, _; split_and!; [done|constructor|done]|unfold others; simpl; lia]).
Qed.

Lemma step_decreases s s' :
  any_step s s' -> (others s' < others s)%nat \/ (one_moves (s_gs s') (s_gs s) /\ (others s' <= others s)%nat).
Proof.
  unfold others. intros [Hs|Hs];
    [destruct Hs as [p todo Hm|Hm|s' Hs|r Hm|i s' Hs|Hc Hw|Hc Hch|Hc Hch]|destruct Hs as [e He|e He Hx]].
  - left. simpl. rewrite Hm. simpl. lia.
  - left. simpl. rewrite Hm. simpl. destruct (s_closer s); simpl; lia.
  - left. destruct Hs as [e rest Hm Hb|Hm Hb Hc|e Hm]; simpl; rewrite Hm; simpl; lia.
  - left. simpl. rewrite Hm. simpl. lia.
  - right. by eapply shard_step_moves.
  - left. simpl. rewrite Hc. simpl. lia.
  - left. simpl. rewrite Hc. simpl. lia.
  - left. simpl. rewrite Hc. simpl. lia.
  - left. simpl. rewrite He. simpl. lia.
  - left. simpl. rewrite Hx. simpl. lia.
Qed.

(** No infinite executions. *)
Lemma step_terminates s : Acc (flip any_step) s.
Proof.
  remember (others s) as n eqn:Hn. assert (Hle : (others s <= n)%nat) by lia. clear Hn.
  revert s Hle. induction (lt_wf n) as [n _ IHn]. intros s Hle.
  remember (s_gs s) as gs eqn:Hgs. revert s Hle Hgs. induction (one_moves_acc gs) as [gs _ IHgs].
  intros s Hle ->. constructor. intros s' Hs. destruct (step_decreases s s' Hs) as [Hlt|[Hmv Hle']].
  - apply (IHn (others s')); lia.
  - apply (IHgs (s_gs s')); [done|lia|done].
Qed.

(** ** The callbacks *)

(** The callback on a sequence of events: its final state and its answers. *)
Fixpoint handle_all (h : H) (es : list T) : H * list (option error) :=
  match es with
  | [] => (h, [])
  | e :: es =>
      let '(h1, r) := handle h e in
      let '(h2, rs) := handle_all h1 es in (h2, r :: rs)
  end.

Lemma handle_all_snoc h es e h1 rs :
  handle_all h es = (h1, rs) -> handle_all h (es ++ [e]) = ((handle h1 e).1, rs ++ [(handle h1 e).2]).
Proof.
  revert h rs. induction es as [|e0 es IH]; intros h rs Hall; simplify_eq/=.
  { by destruct (handle h1 e). }
  destruct (handle h e0) as [h2 r]. destruct (handle_all h2 es) as [h3 rs'] eqn:E. simplify_eq/=.
  by rewrite (IH h2 rs' E).
Qed.

(** What the callbacks did is what the log says, in its order. *)
Definition serial (h : H) s : Prop :=
  handle_all h ((fun x => x.1.2) <$> s_log s) = (s_h s, (fun x => x.2) <$> s_log s).

Lemma serial_step h s s' : serial h s -> any_step s s' -> serial h s'.
Proof.
  intros Hser [Hs|Hs]; [|by destruct Hs]. destruct Hs as [| |s' Hs| |i s' Hs| | |]; try done; [by destruct Hs|].
  destruct Hs; try done; [|unfold wg_done; by destruct (s_wg s <=? 0)].
  unfold serial. simpl. rewrite !fmap_app. by apply handle_all_snoc.
Qed.

(** The callbacks of shard [i]. *)
Definition log_of (i : nat) (log : list (nat * T * option error)) : list (T * option error) :=
  (fun x => (x.1.2, x.2)) <$> filter (fun x => x.1.1 = i) log.

Lemma log_of_snoc i j e r log :
  log_of i (log ++ [(j, e, r)]) = log_of i log ++ (if decide (j = i) then [(e, r)] else []).
Proof.
  unfold log_of. rewrite filter_app, fmap_app. f_equal. rewrite filter_cons, filter_nil. simpl.
  by destruct (decide (j = i)).
Qed.

Lemma log_of_fresh i log : Forall (fun x => (x.1.1 < i)%nat) log -> log_of i log = [].
Proof.
  unfold log_of. induction 1 as [|x log Hx _ IH]; [done|]. rewrite filter_cons, decide_False by lia. done.
Qed.

(** What is left of the stream of a goroutine. *)
Definition residual g : proc T :=
  match g with
  | GStream p => p
  | GLock e k | GHandle e k => PEvent e k
  | GUnlock r k => k r
  | GSend e | GCancel e => PReturn (Some e)
  | GDone r | GEnd r => PReturn r
  | GPanic => PReturn None
  end.

Section traces.
Context (procs : list (proc T)).

(** Every goroutine has run its shard's stream, with the callbacks in the log
    and context answers that are all [ok]. *)
Record traced (ok : option error -> Prop) s : Prop := {
  t_todo : drop (length (s_gs s)) procs = todo_of (s_main s);
  t_log : Forall (fun x => (x.1.1 < length (s_gs s))%nat) (s_log s);
  t_runs : forall i g, at_ s i g -> exists p, procs !! i = Some p /\ runs ok p (log_of i (s_log s)) (residual g) }.

(** A goroutine that moves without a callback. *)
Lemma traced_go ok s s' i g g' :
  traced ok s -> at_ s i g -> s_gs s' = <[i := g']> (s_gs s) -> s_log s' = s_log s -> s_main s' = s_main s ->
  (forall p tr, runs ok p tr (residual g) -> runs ok p tr (residual g')) -> traced ok s'.
Proof.
  intros [Ht Hl Hr] Hi Hgs Hlog Hm Hres. constructor.
  - rewrite Hm, Hgs, length_insert. done.
  - by rewrite Hgs, Hlog, length_insert.
  - unfold at_. rewrite Hgs, Hlog. intros j gj Hj. apply list_lookup_insert_Some in Hj as [(<- & <- & _)|[Hne Hj]].
    + destruct (Hr i g Hi) as (p & Hp & Hrun). exists p. eauto.
    + by apply Hr.
Qed.

(** Nothing that [traced] speaks of changed. *)
Lemma traced_same ok s s' :
  traced ok s -> s_gs s' = s_gs s -> s_log s' = s_log s ->
  todo_of (s_main s') = todo_of (s_main s) -> traced ok s'.
Proof.
  intros [Ht Hl Hr] Hgs Hlog Hm. constructor; unfold at_; rewrite Hgs, ?Hlog, ?Hm; eauto.
Qed.

Lemma traced_shard ok i s s' :
  (count panicked s' = 0)%nat -> traced ok s -> ok (s_ctx s) -> shard_step handle i s s' -> traced ok s'.
Proof.
  intros Hcalm Ht Hok Hs. destruct Hs;
    try (eapply traced_go; [done|done|done|done|done|]; simpl; intros; try done; by econstructor).
  - pose proof Ht as [Htodo Hl Hr]. constructor; simpl.
    + by rewrite length_insert.
    + rewrite length_insert. apply Forall_app_2; [done|]. constructor; [|constructor].
      simpl. by eapply lookup_lt_Some.
    + unfold at_. simpl. intros j g Hj. rewrite log_of_snoc.
      apply list_lookup_insert_Some in Hj as [(<- & <- & _)|[Hne Hj]].
      * destruct (Hr _ _ H0) as (p & Hp & Hrun). exists p. split; [done|]. rewrite decide_True by done.
        simpl. by constructor.
      * rewrite decide_False by done. rewrite app_nil_r. by apply Hr.
  - exfalso. pose proof (sum_zero panicked _ i GPanic Hcalm) as Hz. simpl in Hz.
    rewrite list_lookup_insert_eq in Hz by (by eapply lookup_lt_Some). discriminate Hz. done.
  - unfold wg_done in *. destruct (s_wg s <=? 0).
    + exfalso. pose proof (sum_zero panicked _ i GPanic Hcalm) as Hz. simpl in Hz.
      rewrite list_lookup_insert_eq in Hz by (by eapply lookup_lt_Some). discriminate Hz. done.
    + by eapply traced_go.
Qed.

Lemma traced_step ok s s' :
  (count panicked s' = 0)%nat -> traced ok s -> ok (s_ctx s) \/ (count live s = 0)%nat -> any_step s s' -> traced ok s'.
Proof.
  intros Hcalm Ht Hok [Hs|Hs]; [|by destruct Hs; eapply traced_same].
  destruct Hs as [p todo Hm|Hm|s' Hs|r Hm|i s' Hs|Hc Hw|Hc Hch|Hc Hch]; try (by eapply traced_same; [| | |simpl; rewrite ?Hm]).
  - destruct Ht as [Htodo Hl Hr]. rewrite Hm in Htodo. simpl in Htodo.
    assert (Hp : procs !! length (s_gs s) = Some p).
    { rewrite <- (Nat.add_0_r (length _)), <- lookup_drop, Htodo. done. }
    constructor; simpl.
    + rewrite length_app. simpl. by rewrite <- drop_drop, Htodo.
    + eapply Forall_impl; [done|]. simpl. intros x Hx. rewrite length_app. simpl. lia.
    + unfold at_. simpl. intros i g Hi. apply lookup_snoc_Some in Hi as [[_ Hi]|[-> <-]]; [by apply Hr|].
      exists p. split; [done|]. rewrite log_of_fresh by done. constructor.
  - destruct Hs as [e rest Em Eb|Em Eb Ec|e Em]; (eapply traced_same; [done|done|done|simpl; by rewrite Em]).
  - destruct Hok as [Hok|Hl]; [by eapply traced_shard|].
    assert (Hend : forall g, at_ s i g -> live g = 0%nat) by (intros g Hi; by eapply sum_zero).
    destruct Hs; match goal with Hi : at_ _ _ _ |- _ => discriminate (Hend _ Hi) end.
Qed.

(** ** The errors *)

(** A shard's stream returns [e] when its context is never done. *)
Definition caused (e : error) : Prop :=
  exists i p tr, procs !! i = Some p /\ runs (fun c => c = None) p tr (PReturn (Some e)).

(** The errors sent, received and still in the channel. *)
Record received s : Prop := {
  r_main :
    match s_main s with
    | MSpawn _ | MRecv => s_buf s = s_sent s
    | MCheck e => head (s_sent s) = Some e
    | MCancel None | MReturn None => s_sent s = [] /\ count live s = 0%nat
    | MCancel (Some _) | MReturn (Some _) => s_sent s <> []
    end;
  r_sent : forall i g e,
    at_ s i g -> g = GCancel e \/ g = GDone (Some e) \/ g = GEnd (Some e) -> e ∈ s_sent s }.

Lemma received_shard i s s' :
  counts s -> received s -> shard_step handle i s s' -> received s'.
Proof.
  intros C [Hm Hsent] Hs.
  assert (Hlive : forall g, at_ s i g -> live g = 1%nat -> (0 < count live s)%nat).
  { intros g Hi Hg. pose proof (sum_lookup_le live _ _ _ Hi). unfold count. lia. }
  assert (Hmain : forall s', s_main s' = s_main s -> s_buf s' = s_buf s -> s_sent s' = s_sent s ->
    (0 < count live s)%nat ->
    match s_main s' with
    | MSpawn _ | MRecv => s_buf s' = s_sent s'
    | MCheck e => head (s_sent s') = Some e
    | MCancel None | MReturn None => s_sent s' = [] /\ count live s' = 0%nat
    | MCancel (Some _) | MReturn (Some _) => s_sent s' <> []
    end).
  { intros s1 -> -> -> Hl. destruct (s_main s) as [| | |[]|[]]; try done; destruct Hm; lia. }
  destruct Hs; lazymatch goal with |- context [wg_done] => unfold wg_done; destruct (s_wg s <=? 0) | _ => idtac end;
    match goal with Hi : at_ s i ?g |- _ => pose proof (Hlive g Hi eq_refl) as Hl end;
    (constructor; [try (by apply Hmain)|
       unfold at_; simpl; intros j g1 e1 Hj Hg1;
       apply list_lookup_insert_Some in Hj as [(<- & <- & _)|[Hne Hj]];
       [destruct Hg1 as [Hg1|[Hg1|Hg1]]; simplify_eq/=;
          first [apply elem_of_app; right; apply list_elem_of_singleton; reflexivity|eapply Hsent; [eassumption|tauto]]
       |try (apply elem_of_app; left); by eapply Hsent]]).
  simpl. destruct (s_main s) as [| |e0|[]|[]]; try (by rewrite Hm); try (by destruct (s_sent s));
    destruct Hm; lia.
Qed.

Lemma received_step s s' : counts s -> received s -> any_step s s' -> received s'.
Proof.
  intros C Hr [Hs|Hs]; pose proof Hr as [Hm Hsent]; [|by destruct Hs].
  destruct Hs as [p todo Em|Em|s' Hs|r Em|i s' Hs|Hc Hw|Hc Hch|Hc Hch]; try done.
  - constructor; [simpl; by rewrite Em in Hm|]. unfold at_. simpl. intros i g e Hi Hg.
    apply lookup_snoc_Some in Hi as [[_ Hi]|[_ <-]]; [by eapply Hsent|by destruct Hg as [|[|]]].
  - constructor; [simpl; by rewrite Em in Hm|done].
  - destruct Hs as [e rest Em Eb|Em Eb Ec|e Em]; (constructor; [simpl; rewrite Em in Hm|done]).
    + by rewrite <- Hm, Eb.
    + split; [by rewrite <- Hm|]. pose proof (c_closing s C) as Hcl. unfold closing in Hcl.
      rewrite Ec in Hcl. destruct (s_closer s); by destruct_and?.
    + by destruct (s_sent s).
  - constructor; [simpl; by rewrite Em in Hm|done].
  - by eapply received_shard.
Qed.

(** Until the first error is sent, and while the caller's context is not done,
    no stream sees a done context. *)
Record blamed s : Prop := {
  b_pure : s_parent s = None -> s_sent s = [] ->
    (s_ctx s = None \/ s_main s = MReturn None) /\ traced (fun c => c = None) s;
  b_first : forall e, s_parent s = None -> head (s_sent s) = Some e -> caused e;
  b_result : forall e, s_main s = MCancel (Some e) \/ s_main s = MReturn (Some e) ->
    s_parent s = Some e \/ caused e }.

Lemma blamed_shard i s s' :
  counts s' -> received s -> blamed s -> shard_step handle i s s' -> blamed s'.
Proof.
  intros C' [Hm Hsent] [Hpure Hfirst Hres] Hs.
  assert (Hnr : s_main s = MReturn None -> s_sent s = [] -> s_ctx s = None \/ (count live s = 0)%nat).
  { intros Em _. rewrite Em in Hm. by right; destruct Hm. }
  assert (Hkeep : s_parent s' = s_parent s /\ s_main s' = s_main s) by
    (destruct Hs; try done; unfold wg_done; by destruct (s_wg s <=? 0)).
  destruct Hkeep as [Hp Hmain]. constructor.
  - rewrite Hp, Hmain. intros Epar Esent.
    assert (Esent0 : s_sent s = []).
    { destruct Hs; try done; [by apply app_nil in Esent as [??]|unfold wg_done in *; by destruct (s_wg s <=? 0)]. }
    destruct (Hpure Epar Esent0) as [Hctx Ht]. split.
    + destruct Hs; try done.
      * exfalso. assert (Hin : e ∈ s_sent s) by (eapply Hsent; [done|by left]).
        rewrite Esent0 in Hin. by apply elem_of_nil in Hin.
      * unfold wg_done. by destruct (s_wg s <=? 0).
    + eapply traced_step; [apply (c_calm s' C')|done| |by eapply any_prog, step_shard].
      destruct Hctx as [Hc|Em]; [by left|by apply Hnr].
  - rewrite Hp. intros e Epar He. destruct (s_sent s) as [|e0 sent] eqn:Esent.
    + destruct (Hpure Epar eq_refl) as [_ Ht]. assert (Hsnd : at_ s i (GSend e)).
      { destruct Hs; simpl in He; try (by rewrite Esent in He).
        - rewrite Esent in He. by simplify_eq/=.
        - unfold wg_done in He. destruct (s_wg s <=? 0); simpl in He; by rewrite Esent in He. }
      destruct (t_runs _ _ Ht i _ Hsnd) as (p & Hpi & Hrun). by eexists i, p, _.
    + apply Hfirst; [done|]. destruct Hs; simpl in He; try (by rewrite Esent in He).
      unfold wg_done in He. destruct (s_wg s <=? 0); simpl in He; by rewrite Esent in He.
  - rewrite Hp, Hmain. apply Hres.
Qed.

(** A step of another goroutine that leaves the contexts and the errors alone. *)
Lemma blamed_quiet s s' :
  counts s' -> received s -> blamed s -> any_step s s' ->
  s_parent s' = s_parent s -> s_sent s' = s_sent s -> s_ctx s' = s_ctx s ->
  (s_main s' = s_main s \/
   ((forall r, s_main s <> MReturn r) /\ forall e, s_main s' <> MCancel (Some e) /\ s_main s' <> MReturn (Some e))) ->
  blamed s'.
Proof.
  intros C' [Hm _] [Hpure Hfirst Hres] Hs Ep Es Ec Em. constructor; rewrite Ep, ?Es.
  - intros Epar Esent. destruct (Hpure Epar Esent) as [Hctx Ht]. rewrite Ec. split.
    + destruct Hctx as [|Hx]; [by left|]. destruct Em as [->|[Hn _]]; [by right|by destruct (Hn None)].
    + eapply traced_step; [apply (c_calm _ C')|done| |done]. destruct Hctx as [|Hx]; [by left|right].
      rewrite Hx in Hm. by destruct Hm.
  - done.
  - intros e He. destruct Em as [Em|[_ Hn]]; [rewrite Em in He; by apply Hres|].
    destruct (Hn e) as [H1 H2]. by destruct He.
Qed.

Lemma blamed_step s s' :
  counts s' -> received s -> blamed s -> any_step s s' -> blamed s'.
Proof.
  intros C' Hr Hb Hany. pose proof Hr as [Hm Hsent]. pose proof Hb as [Hpure Hfirst Hres].
  destruct Hany as [Hs|Hs]; pose proof Hs as Hs0.
  - assert (Hq := fun E1 E2 E3 => blamed_quiet s s' C' Hr Hb (any_prog _ _ _ Hs) E1 E2 E3).
    destruct Hs as [p todo Em|Em|s' Hs|r Em|i s' Hs|Hc Hw|Hc Hch|Hc Hch];
      [apply Hq; [done..|right; rewrite Em; done]|apply Hq; [done..|right; rewrite Em; done]| |
      | |apply Hq; [done..|by left]|apply Hq; [done..|by left]|apply Hq; [done..|by left]].
    + destruct Hs as [e rest Em Eb|Em Eb Ec|e Em]; [apply Hq; [done..|right; rewrite Em; done]|
        apply Hq; [done..|right; rewrite Em; done]|].
      rewrite Em in Hm. constructor; simpl; [|done|].
      { intros Epar Esent. by rewrite Esent in Hm. }
      intros e' [[= <-]|]; [|done]. destruct (s_parent s) eqn:Epar; simpl; [by left|right; by apply Hfirst].
    + rewrite Em in Hm. constructor; simpl; [|done|].
      * intros Epar Esent. destruct r as [e|]; [done|]. split; [by right|].
        destruct (Hpure Epar Esent) as [[Hctx|Hx] Ht]; [|congruence].
        eapply traced_step; [apply (c_calm _ C')|done|by left|by apply any_prog].
      * intros e [|[= ->]]; [done|]. apply Hres. by left.
    + by eapply blamed_shard.
  - destruct Hs as [e Epar|e Epar Ec]; constructor; simpl; try done; try (intros; congruence).
    intros e' Hm'. destruct (Hres e' Hm'); [congruence|by right].
Qed.

(** Everything that holds in every reachable state. *)
Lemma reachable_inv parent h s :
  reachable handle procs parent h s ->
  counts s /\ serial h s /\ traced (fun _ => True) s /\ received s /\ blamed s.
Proof.
  revert s. apply stream_reachable_ind.
  - assert (Ht : forall ok, traced ok (start procs parent h)).
    { intros ok. constructor; [done|constructor|]. intros i g Hi. done. }
    split; [apply (counts_reachable procs parent h), rtc_refl|]. split; [done|]. split; [apply Ht|]. split.
    + constructor; [done|]. intros i g e Hi. done.
    + constructor; simpl; [by intros ->; split; [left|]|by intros e _ [=]|by intros e [|]].
  - intros s s' (Hc & Hser & Ht & Hr & Hb) Hs. pose proof (counts_step _ _ Hc Hs) as Hc'. split_and!.
    + done.
    + by eapply serial_step.
    + eapply traced_step; [apply (c_calm _ Hc')|done|by left|done].
    + by apply (received_step s).
    + by apply (blamed_step s).
Qed.

End traces.

(** ** The theorems *)

(** C17. Under every interleaving of the caller, the goroutines of the shards and
    the caller's context, the callbacks of a merged stream are handled one at a
    time: no two goroutines hold the mutex; the callback's state is the one
    it reaches on the events in the order of the log; and the events and
    answers of each shard in the log are a run of that shard's own stream, so
    the log is an interleaving of the shards' streams that keeps the order of
    each. *)
Theorem merged_stream_serial procs parent h s :
  reachable handle procs parent h s ->
  (forall i j gi gj, at_ s i gi -> at_ s j gj -> holds gi = 1%nat -> holds gj = 1%nat -> i = j) /\
  handle_all h ((fun x => x.1.2) <$> s_log s) = (s_h s, (fun x => x.2) <$> s_log s) /\
  (forall i g, at_ s i g ->
     exists p, procs !! i = Some p /\ runs (fun _ => True) p (log_of i (s_log s)) (residual g)).
Proof.
  intros Hr. destruct (reachable_inv procs parent h s Hr) as (Hc & Hser & Ht & _). split; [|split; [done|apply Ht]].
  intros i j gi gj Hi Hj Hgi Hgj. destruct (decide (i = j)) as [|Hne]; [done|exfalso].
  pose proof (sum_insert holds (s_gs s) i gi (GEnd None) Hi) as Hsum. simpl in Hsum.
  assert (Hj' : <[i := GEnd None]> (s_gs s) !! j = Some gj) by by rewrite list_lookup_insert_ne.
  pose proof (sum_lookup_le holds _ _ _ Hj') as Hle. pose proof (c_mu s Hc) as Hmu. unfold count in Hmu.
  destruct (s_mu s); simpl in Hmu; lia.
Qed.

(** C16. A merged stream of streams that each end after finitely many events (the
    type [proc] is inductive) ends, whatever the interleaving: there is no
    infinite execution, no goroutine panics (the channel has room for every
    error, is closed once and only after the last send, the wait group never
    goes negative), and an execution that cannot go on has returned to the
    caller with every goroutine gone. *)
Theorem merged_stream_ends procs parent h :
  Acc (flip any_step) (start procs parent h) /\
  forall s, reachable handle procs parent h s ->
    s_closer s <> CPanic /\ (forall i, ~ at_ s i GPanic) /\
    ((forall s', ~ step s s') -> final s).
Proof.
  split; [apply step_terminates|]. intros s Hr. pose proof (counts_reachable _ _ _ _ Hr) as Hc.
  split; [|split; [|by apply stuck_final]].
  - intros Ec. pose proof (c_closing s Hc) as Hcl. unfold closing in Hcl. by rewrite Ec in Hcl.
  - intros i Hi. by pose proof (sum_zero panicked _ _ _ (c_calm s Hc) Hi).
Qed.

(** A merged stream that returned nil has run every stream to a nil end. *)
Lemma returned_nil procs parent h s :
  reachable handle procs parent h s -> s_main s = MReturn None -> s_gs s = replicate (length procs) (GEnd None).
Proof.
  intros Hr Em. destruct (reachable_inv procs parent h s Hr) as (Hc & _ & Ht & Hrc & _).
  pose proof (r_main _ Hrc) as Hm. rewrite Em in Hm. destruct Hm as [Hs Hl].
  assert (Hall : Forall (fun g => g = GEnd None) (s_gs s)).
  { apply Forall_lookup. intros i g Hi. pose proof (all_ended s Hc Hl) as Hend.
    destruct (Forall_lookup_1 _ _ _ _ Hend Hi) as [[e|] ->]; [|done]. exfalso.
    assert (He : e ∈ s_sent s) by (eapply (r_sent _ Hrc); [exact Hi|auto]). rewrite Hs in He. by apply elem_of_nil in He. }
  assert (Hlen : length (s_gs s) = length procs).
  { pose proof (t_todo _ _ _ Ht) as Hd. rewrite Em in Hd. simpl in Hd. apply Nat.le_antisymm.
    - apply Nat.nlt_ge. intros Hlt. destruct (lookup_lt_is_Some_2 (s_gs s) (length procs)) as [g Hg]; [lia|].
      destruct (t_runs _ _ _ Ht _ _ Hg) as (p & Hp & _). apply lookup_lt_Some in Hp. lia.
    - apply (f_equal length) in Hd. rewrite length_drop in Hd. simpl in Hd. lia. }
  symmetry. apply replicate_as_Forall_2; [done|]. eapply Forall_impl; [exact Hall|]. by intros g ->.
Qed.

(** What a merged stream returns is not an artefact of its own cancellation.
    A nil error means that every shard was started and its stream returned
    nil.  An error is the error of the caller's context, or one that the
    stream of some shard returns when its context is never done: the errors
    of the streams that were cancelled because another one failed are never
    returned. *)
Theorem merged_stream_result procs parent h s r :
  reachable handle procs parent h s -> s_main s = MReturn r ->
  match r with
  | None => s_gs s = replicate (length procs) (GEnd None)
  | Some e =>
      s_parent s = Some e \/
      exists i p tr, procs !! i = Some p /\ runs (fun c => c = None) p tr (PReturn (Some e))
  end.
Proof.
  intros Hr Em. destruct r as [e|]; [|by eapply returned_nil].
  destruct (reachable_inv procs parent h s Hr) as (_ & _ & _ & _ & Hb). apply (b_result _ _ Hb). by right.
Qed.

End facts.

(** ** Runs *)

(** The callback of the samples collects its events. *)
Definition collect : handler (list nat) nat := fun h e => (h ++ [e], None).

(** Two shards: one fails at once, the other delivers an event. *)
Definition sample_procs : list (proc nat) :=
  [PReturn (Some (EOther 1)); PEvent 7%nat (fun _ => PReturn None)].

(** One more step of a run: of the goroutine of shard [i], or of another one. *)
Ltac shard i tac :=
  eapply rtc_l; [apply any_prog; eapply (step_shard _ _ i); tac; (reflexivity || (simpl; lia))|]; cbn.
Ltac other tac := eapply rtc_l; [apply any_prog; tac; (reflexivity || (simpl; lia))|]; cbn.

(** The first shard has failed, the call has returned its error, and the second
    shard is still in its stream. *)
Definition sample_returned : @sstate (list nat) nat :=
  mkS (MReturn (Some (EOther 1))) CWait [GCancel (EOther 1); GStream (PEvent 7%nat (fun _ => PReturn None))]
    false 2 2 [] false (Some (ESentinel context_Canceled)) None [] [EOther 1] [].

Lemma sample_returned_reachable : reachable collect sample_procs None [] sample_returned.
Proof.
  unfold reachable, start. cbn. other ltac:(eapply step_spawn). other ltac:(eapply step_spawn).
  other ltac:(eapply step_spawned). shard 0%nat ltac:(eapply step_return_err). shard 0%nat ltac:(eapply step_send).
  other ltac:(eapply step_first, step_recv). other ltac:(eapply step_first, step_check).
  other ltac:(eapply step_return). apply rtc_refl.
Qed.

(** C39. [streamEvents] does not wait for its goroutines: it can return the error
    of one shard while the stream of another is running, which calls the
    caller's callback after the call has returned. *)
Theorem callback_after_return :
  exists s s', reachable collect sample_procs None [] s /\ s_main s = MReturn (Some (EOther 1)) /\
    s_h s = [] /\ rtc (any_step collect) s s' /\ s_h s' = [7%nat].
Proof.
  exists sample_returned. eexists. split; [apply sample_returned_reachable|]. do 2 (split; [reflexivity|]). split.
  { unfold sample_returned. shard 1%nat ltac:(eapply step_event). shard 1%nat ltac:(eapply step_lock).
    shard 1%nat ltac:(eapply step_handle). apply rtc_refl. }
  reflexivity.
Qed.

Lemma merged_stream_serial_witness :
  exists p, sample_procs !! 1%nat = Some p /\
    runs (fun _ => True) p (log_of 1 (s_log sample_returned)) (PEvent 7%nat (fun _ => PReturn None)).
Proof.
  exact (proj2 (proj2 (merged_stream_serial collect sample_procs None [] sample_returned sample_returned_reachable))
    1%nat (GStream (PEvent 7%nat (fun _ => PReturn None))) eq_refl).
Defined.

Lemma merged_stream_result_witness :
  s_parent sample_returned = Some (EOther 1) \/
  exists i p tr, sample_procs !! i = Some p /\ runs (fun c => c = None) p tr (PReturn (Some (EOther 1))).
Proof.
  exact (merged_stream_result collect sample_procs None [] sample_returned (Some (EOther 1))
    sample_returned_reachable eq_refl).
Defined.
