(* ===== verification/ShardedStreamProc.v ===== *)
(** * ShardedStreamProc: the streams of client.go inside a merged stream

    [client_stream] is [Client.stream] ([qstream]) as the [proc] that
    [streamEvents] runs: its callbacks and its readings of the context, for
    everything the connection can do ([script]).  [client_stream_refines]:
    what the sequential model of the method does against a network is a run of
    [client_stream] for some script. *)

From stdpp Require Import relations.
From S2P Require Import Prelude GoStd Strconv Types Commands Response ResponseFacts.
From S2P Require Import Options Pools Net Tcp TcpFacts TcpSafe TcpWire.
From S2P Require Import ConnPool Client ClientSafe ClientApi ShardedStream ShardedStreamFacts.

(** ** The stream of a client as a process *)

(** One call of [conn.Stream]: the frames it receives, if its callback lets it,
    and the error behind them. *)
Record round := mkRound { rd_frames : list bytes; rd_error : error }.

(** What a connection does: a first round; then, each time, reconnection
    attempts that fail with the given errors before one succeeds, and the next
    round; at last every attempt fails. *)
Record script := mkScript {
  sr_first : round; sr_rest : list (list error * round); sr_last : nat -> error }.

Section client_stream.
Context {E : Type} (parse : bytes -> outcome (response E)).

(** [conn.Stream] with the callback of [stream]; [k] is what follows it. *)
Fixpoint conn_stream (frames : list bytes) (e : error) (k : error -> proc E) : proc E :=
  match frames with
  | [] => k e
  | frame :: frames =>
      match parse frame with
      | Ret result =>
          match status result with
          | ResponseStatusSuccess =>
              PEvent (payload result) (fun r =>
                match r with Some e => k e | None => conn_stream frames e k end)
          | ResponseStatusError =>
              match err result with Some e => k e | None => conn_stream frames e k end
          | ResponseStatusUnknown => k ErrUnknownRespStatus
          end
      | Fail e => k (EWrap "parse response: %w" [] e)
      | Panic | Hang => k ErrUnknownRespStatus
      end
  end.

(** The inner [for attempt] loop; [out] are the results of the attempts and
    [next] the iteration after one that succeeds. *)
Fixpoint reconnect_proc (attempts : nat) (out : nat -> option error) (reconnectErr : option error)
    (next : proc E) : proc E :=
  match attempts with
  | O =>
      match reconnectErr with
      | Some e => PReturn (Some (EWrap "stream reconnect attempts exceeded: %w" [] e))
      | None => next
      end
  | S attempts =>
      PCtx (fun c =>
        match c with
        | Some ctxErr => PReturn (Some ctxErr)
        | None =>
            match out O with
            | None => next
            | Some e => reconnect_proc attempts (fun i => out (S i)) (Some e) next
            end
        end)
  end.

(** The outer [for] loop. *)
Fixpoint stream_proc (first : round) (rest : list (list error * round)) (last : nat -> error) : proc E :=
  conn_stream (rd_frames first) (rd_error first) (fun e =>
    PCtx (fun c =>
      match c with
      | Some ctxErr => PReturn (Some ctxErr)
      | None =>
          if negb (errors_Is e ErrConnClosed) then PReturn (Some e)
          else
            match rest with
            | (fails, first) :: rest =>
                reconnect_proc maxReconnectAttempts (fun i => fails !! i) None (stream_proc first rest last)
            | [] => reconnect_proc maxReconnectAttempts (fun i => Some (last i)) None (PReturn (Some e))
            end
      end)).

(** [stream] and [qstream]: the connection of the pool, or the error of
    getting one. *)
Definition client_stream (conn : error + script) : proc E :=
  match conn with
  | inl e => PReturn (Some (EWrap "get connection: %w" [] e))
  | inr s => stream_proc (sr_first s) (sr_rest s) (sr_last s)
  end.

(** ** What the sequential model does is a run *)

(** An answer of the context at some time. *)
Definition sees (ctx : context) (c : option error) : Prop := exists t, c = ctx_Err ctx t.

(** Frames handed to a callback until it stops, or the error behind them. *)
Fixpoint deliver {H} (handle : handler H bytes) (h : H) (frames : list bytes) (e : error) : H * error :=
  match frames with
  | [] => (h, e)
  | frame :: frames =>
      match handle h frame with
      | (h, Some e) => (h, e)
      | (h, None) => deliver handle h frames e
      end
  end.

Lemma wlp_true {S A} (m : st S A) : wlp (fun _ => True) m (fun _ _ => True).
Proof. done. Qed.

Lemma Stream_loop_delivers {H} fuel ctx (handle : handler H bytes) h response :
  wlp (fun _ => True) (Stream_loop fuel ctx handle h response)
    (fun r _ => exists frames e, deliver handle h frames e = (r.1.1, r.2)).
Proof.
  revert h response. induction fuel as [|fuel IH]; intros h response; [by intros s|]. cbn [Stream_loop].
  eapply wlp_bind; [apply wlp_true|]. intros [[]|e]; [|apply wlp_ret; by exists [], (normalizeConnectionError e)].
  eapply wlp_bind; [apply wlp_true|]. intros t.
  eapply wlp_bind; [apply wlp_true|]. intros [response' [result|e]];
    [|apply wlp_ret; by exists [], (normalizeConnectionError e)].
  destruct (handle h result) as [h1 [e|]] eqn:E1.
  - apply wlp_ret. intros _ _. exists [result], e. simpl. by rewrite E1.
  - eapply wlp_conseq; [apply IH|done|]. intros [[h2 b] e] _ (frames & e0 & Hd). exists (result :: frames), e0.
    simpl. by rewrite E1.
Qed.

Lemma Stream_delivers_some {H} ctx cmd (handle : handler H bytes) h :
  wlp (fun _ => True) (Stream ctx cmd handle h)
    (fun r _ => exists frames e, deliver handle h frames e = r).
Proof.
  unfold Stream. eapply wlp_bind; [apply wlp_true|]. intros [[]|e]; [|apply wlp_ret; by exists [], e].
  do 2 (eapply wlp_bind; [apply wlp_true|]; intros ?). eapply wlp_bind; [apply Stream_loop_delivers|].
  intros [[h1 b] e]. eapply wlp_bind; [intros s r s' Hs _; exact Hs|]. intros []. by apply wlp_ret.
Qed.

Lemma handle_all_app {H} (handle : handler H E) h es es' h1 rs h2 rs' :
  handle_all handle h es = (h1, rs) -> handle_all handle h1 es' = (h2, rs') ->
  handle_all handle h (es ++ es') = (h2, rs ++ rs').
Proof.
  revert h rs. induction es as [|e es IH]; intros h rs H1 H2; simplify_eq/=; [done|].
  destruct (handle h e) as [h3 r]. destruct (handle_all handle h3 es) as [h4 rs4] eqn:E4. simplify_eq/=.
  by rewrite (IH h3 rs4 E4 H2).
Qed.

(** The process makes the same callbacks. *)
Lemma conn_stream_runs {H} ok (handle : handler H E) h frames e h' e' p tr k :
  deliver (event_handler parse handle) h frames e = (h', e') ->
  runs ok p tr (conn_stream frames e k) ->
  exists tr', runs ok p (tr ++ tr') (k e') /\ handle_all handle h (tr'.*1) = (h', tr'.*2).
Proof.
  revert h tr. induction frames as [|frame frames IH]; intros h tr Hd Hr; simpl in *.
  { simplify_eq. exists []. by rewrite app_nil_r. }
  unfold event_handler in Hd.
  destruct (parse frame) as [result|e1| |]; try (simplify_eq; exists []; by rewrite app_nil_r).
  destruct (status result); try (simplify_eq; exists []; by rewrite app_nil_r).
  - apply runs_event with (r := (handle h (payload result)).2) in Hr.
    destruct (handle h (payload result)) as [h1 [e1|]] eqn:E1; simpl in Hr.
    + simplify_eq. eexists. split; [exact Hr|]. simpl. by rewrite E1.
    + destruct (IH _ _ Hd Hr) as (tr' & Hr' & Hh). rewrite <- app_assoc in Hr'. eexists. split; [exact Hr'|].
      rewrite !fmap_app. apply (handle_all_app handle h [payload result] _ h1 [None]); [|done]. simpl. by rewrite E1.
  - destruct (err result) as [e1|].
    + simplify_eq. exists []. by rewrite app_nil_r.
    + by apply IH.
Qed.

(** The attempts of the sequential model are attempts of the process. *)
Lemma reconnect_runs attempts ctx reconnectErr :
  wlp (fun _ => True) (stream_reconnect attempts ctx reconnectErr)
    (fun r _ =>
       match r with
       | inl _ => exists fails : list error, forall p tr next,
           runs (sees ctx) p tr (reconnect_proc attempts (fun i => fails !! i) reconnectErr next) ->
           runs (sees ctx) p tr next
       | inr e => exists last : nat -> error, forall p tr next,
           runs (sees ctx) p tr (reconnect_proc attempts (fun i => Some (last i)) reconnectErr next) ->
           runs (sees ctx) p tr (PReturn (Some e))
       end).
Proof.
  revert reconnectErr. induction attempts as [|attempts IH]; intros reconnectErr; cbn [stream_reconnect reconnect_proc].
  { apply wlp_ret. intros _ _. destruct reconnectErr; [by exists (fun _ => EOther 0)|by exists []]. }
  intros [t n] r s' _ Hrun. unfold mbind, st_bind, mret, st_ret, now, gets in Hrun. simpl in Hrun.
  destruct (ctx_Err ctx (n_now n)) as [e|] eqn:Ec.
  { simplify_eq/=. exists (fun _ => EOther 0). intros p tr next Hp.
    apply runs_ctx with (c := Some e) in Hp; [done|]. by exists (n_now n). }
  destruct (catch Reconnect (t, n)) as [[[[]|e]|e| |] s1] eqn:Er; simplify_eq/=.
  { exists []. intros p tr next Hp. apply runs_ctx with (c := None) in Hp; [done|]. by exists (n_now n). }
  specialize (IH (Some e) s1 r s' I Hrun). destruct r as [[]|e'].
  - destruct IH as [fails Hf]. exists (e :: fails). intros p tr next Hp. apply Hf.
    apply runs_ctx with (c := None) in Hp; [done|]. by exists (n_now n).
  - destruct IH as [last Hl]. exists (fun i => match i with O => e | S i => last i end). intros p tr next Hp.
    apply (Hl _ _ next). apply runs_ctx with (c := None) in Hp; [done|]. by exists (n_now n).
Qed.

Definition follows {H} (ctx : context) (handle : handler H E) (h : H) (p : proc E) (r : H * error) : Prop :=
  exists tr, runs (sees ctx) p tr (PReturn (Some r.2)) /\ handle_all handle h (tr.*1) = (r.1, tr.*2).

(** Runs in sequence. *)
Lemma runs_trans (ok : option error -> Prop) (p p' p'' : proc E) tr tr' :
  runs ok p tr p' -> runs ok p' tr' p'' -> runs ok p (tr ++ tr') p''.
Proof.
  intros H1 H2. induction H2 as [|tr' e k r H2 IH|tr' k c H2 IH Hc].
  - by rewrite app_nil_r.
  - rewrite app_assoc. by constructor.
  - by apply runs_ctx.
Qed.

Lemma stream_loop_follows {H} fuel ctx cmd (handle : handler H E) h :
  wlp (fun _ => True) (stream_loop fuel ctx cmd (event_handler parse handle) h)
    (fun r _ => exists first rest last, follows ctx handle h (stream_proc first rest last) r).
Proof.
  revert h. induction fuel as [|fuel IH]; intros h; [by intros s r s' _ [=]|]. cbn [stream_loop].
  eapply wlp_bind; [apply Stream_delivers_some|]. intros [h1 e] s r s' (frames & e0 & Hd) Hrun.
  set (first := mkRound frames e0).
  assert (Hfirst : forall rest last, exists tr, handle_all handle h (tr.*1) = (h1, tr.*2) /\
    forall c, sees ctx c -> runs (sees ctx) (stream_proc first rest last) tr
      match c with
      | Some ctxErr => PReturn (Some ctxErr)
      | None =>
          if negb (errors_Is e ErrConnClosed) then PReturn (Some e)
          else
            match rest with
            | (fails, first) :: rest =>
                reconnect_proc maxReconnectAttempts (fun i => fails !! i) None (stream_proc first rest last)
            | [] => reconnect_proc maxReconnectAttempts (fun i => Some (last i)) None (PReturn (Some e))
            end
      end).
  { intros rest last. destruct rest as [|[fails first'] rest];
      (edestruct (conn_stream_runs (sees ctx) handle h frames e0 h1 e) as (tr & Hr & Hh);
       [exact Hd|apply runs_nil|]; simpl in Hr; exists tr; split; [exact Hh|]; intros c Hc;
       exact (runs_ctx _ _ _ _ c Hr Hc)). }
  destruct s as [t n]. unfold mbind, st_bind, mret, st_ret, now, gets in Hrun. cbv beta iota in Hrun.
  assert (Hsee : sees ctx (ctx_Err ctx (n_now n))) by by eexists.
  destruct (ctx_Err ctx (n_now n)) as [ctxErr|] eqn:Ec.
  { destruct (Hfirst [] (fun _ => EOther 0)) as (tr & Hh & Hr). simplify_eq/=.
    exists first, [], (fun _ => EOther 0), tr. split; [exact (Hr _ Hsee)|done]. }
  destruct (negb (errors_Is e ErrConnClosed)) eqn:Eneg.
  { destruct (Hfirst [] (fun _ => EOther 0)) as (tr & Hh & Hr). simplify_eq/=.
    exists first, [], (fun _ => EOther 0), tr. split; [exact (Hr _ Hsee)|done]. }
  destruct (stream_reconnect maxReconnectAttempts ctx None (t, n)) as [[q|?| |] s1] eqn:Eq; try done.
  pose proof (reconnect_runs _ _ _ _ _ _ I Eq) as Hrec. destruct q as [[]|e1].
  - destruct Hrec as [fails Hf]. destruct (IH h1 s1 r s' I Hrun) as (first' & rest' & last & tr2 & Hr2 & Hh2).
    destruct (Hfirst ((fails, first') :: rest') last) as (tr1 & Hh1 & Hr1).
    exists first, ((fails, first') :: rest'), last, (tr1 ++ tr2). split.
    + eapply runs_trans; [|exact Hr2]. apply Hf. exact (Hr1 None Hsee).
    + rewrite !fmap_app. by eapply handle_all_app.
  - destruct Hrec as [last Hl]. destruct (Hfirst [] last) as (tr & Hh & Hr). injection Hrun as <- <-.
    exists first, [], last, tr. split; [|done]. eapply Hl. exact (Hr None Hsee).
Qed.

(** ** A stream ends with an error as a value, never as a failure *)

Definition never_fails {S A} (m : st S A) : Prop :=
  forall s, match m s with (Fail _, _) => False | _ => True end.

Lemma nf_bind {S A B} (m : st S A) (f : A -> st S B) :
  never_fails m -> (forall a, never_fails (f a)) -> never_fails (m ≫= f).
Proof.
  intros Hm Hf s. specialize (Hm s). unfold mbind, st_bind. destruct (m s) as [[a|e| |] s']; try done. apply Hf.
Qed.

Lemma nf_ret {S A} (a : A) : never_fails (S := S) (mret a).
Proof. done. Qed.

Lemma nf_catch {S A} (m : st S A) : never_fails (catch m).
Proof. intros s. unfold catch. by destruct (m s) as [[] s']. Qed.

Lemma nf_finally {S A} (m : st S A) cleanup : never_fails m -> never_fails (finally m cleanup).
Proof.
  intros Hm s. specialize (Hm s). unfold finally. destruct (m s) as [[a|e| |] s']; try done;
    by destruct (cleanup s') as [[] s''].
Qed.

Lemma ReadFull_never_fails k : never_fails (ReadFull k).
Proof.
  intros [t n]. unfold ReadFull, on_conn. destruct (tcp_connection t) as [c|]; [|done].
  destruct (c_closed c); [by case_decide|].
  destruct (read_full _ _ _ _) as [[[got o] rest] now']. by destruct (full_error got o).
Qed.

Lemma readFrameInto_never_fails max buffer : never_fails (readFrameInto max buffer).
Proof.
  unfold readFrameInto. apply nf_bind; [apply nf_catch|]. intros [size|e]; [|apply nf_ret].
  case_match; [done|]. apply nf_bind; [apply ReadFull_never_fails|]. by intros [got [e|]].
Qed.

Lemma Stream_never_fails {H} ctx cmd (handle : handler H bytes) h : never_fails (Stream ctx cmd handle h).
Proof.
  unfold Stream. apply nf_bind; [apply nf_catch|]. intros [[]|e]; [|apply nf_ret].
  apply nf_bind.
  { intros [t n]. unfold bufferPool_Get. destruct (next_pick n). by destruct (bytesPool_Get _ _). }
  intros response. apply nf_bind; [done|]. intros fuel. apply nf_bind; [|by intros [[]]].
  revert h response. induction fuel as [|fuel IH]; intros h response; [done|]. cbn [Stream_loop].
  apply nf_bind; [apply nf_catch|]. intros [[]|e]; [|apply nf_ret]. apply nf_bind; [done|]. intros t.
  apply nf_bind; [apply readFrameInto_never_fails|]. intros [b [result|e]]; [|apply nf_ret].
  destruct (handle h result) as [h1 [e|]]; [apply nf_ret|apply IH].
Qed.

Lemma stream_loop_never_fails {H} fuel ctx cmd (handle : handler H bytes) h :
  never_fails (stream_loop fuel ctx cmd handle h).
Proof.
  revert h. induction fuel as [|fuel IH]; intros h; [done|]. cbn [stream_loop].
  apply nf_bind; [apply Stream_never_fails|]. intros [h1 e]. apply nf_bind; [by intros []|]. intros t.
  destruct (ctx_Err ctx t); [done|]. destruct (negb _); [done|]. apply nf_bind.
  - assert (Hr : forall n e, never_fails (stream_reconnect n ctx e)); [|apply Hr].
    induction n as [|n IHn]; intros e0; [done|]. cbn [stream_reconnect]. apply nf_bind; [by intros []|].
    intros t'. destruct (ctx_Err ctx t'); [done|]. apply nf_bind; [apply nf_catch|]. intros [[]|e1]; [done|apply IHn].
  - intros [[]|e1]; [apply IH|done].
Qed.

Lemma on_client_never_fails {A} conn (m : Tcp.T A) : never_fails m -> never_fails (on_client conn m).
Proof.
  intros Hm w. unfold on_client. destruct (conn ≫= _) as [t|]; [|done].
  specialize (Hm (t, w_net w)). by destruct (m _) as [[] [t' n']].
Qed.

Lemma stream_with_never_fails {H} c ctx cmd (handle : handler H E) h :
  never_fails (stream_with parse c ctx cmd handle h).
Proof.
  unfold stream_with. apply nf_bind; [apply nf_catch|]. intros [conn|e]; [|apply nf_ret].
  apply nf_finally, on_client_never_fails, nf_bind; [by intros []|]. intros fuel. apply stream_loop_never_fails.
Qed.

Lemma wlp_finally {S A} (P : S -> Prop) (m : st S A) cleanup (R : A -> Prop) :
  wlp P m (fun a _ => R a) -> wlp P (finally m cleanup) (fun a _ => R a).
Proof.
  intros Hm s a s' Hs. unfold finally. specialize (Hm s).
  destruct (m s) as [[b|e| |] s1]; destruct (cleanup s1) as [[] s2]; try done; intros [= <- <-]; by eapply Hm.
Qed.

Lemma wlp_on_client {A} conn (m : Tcp.T A) (R : A -> Prop) :
  wlp (fun _ => True) m (fun a _ => R a) -> wlp (fun _ => True) (on_client conn m) (fun a _ => R a).
Proof.
  intros Hm w a w' _. unfold on_client. destruct (conn ≫= _) as [t|]; [|done].
  specialize (Hm (t, w_net w)). destruct (m _) as [[] [t' n']]; try done. intros [= <- <-]. by eapply Hm.
Qed.

Lemma stream_with_follows {H} c ctx cmd (handle : handler H E) h :
  wlp (fun _ => True) (stream_with parse c ctx cmd handle h)
    (fun r _ => exists conn, follows ctx handle h (client_stream conn) r).
Proof.
  unfold stream_with. eapply wlp_bind; [apply wlp_true|]. intros [conn|e].
  - apply wlp_finally, wlp_on_client. eapply wlp_bind; [apply wlp_true|]. intros fuel.
    eapply wlp_conseq; [apply stream_loop_follows|done|]. intros r _ (first & rest & last & Hf).
    by exists (inr (mkScript first rest last)).
  - apply wlp_ret. intros _ _. exists (inl e), []. split; [apply runs_nil|done].
Qed.

End client_stream.

(** C19. The streams of a client refine the processes of the merged stream.  On a
    client at rest, against any network and for any callback, [stream]
    ([qstream]) returns with an error and leaves the pool at rest; and there is
    a behaviour of the connection for which the callbacks it made, with their
    answers, and its result are a run of [client_stream], in which the
    context's answers are those of the caller's context at some time. *)
Theorem client_stream_refines {H E} (parse : bytes -> outcome (response E)) ps c k conns ctx cmd
    (handle : handler H E) h w :
  (c < length ps)%nat -> at_rest ps c k conns w ->
  exists h' e w', stream_with parse c ctx cmd handle h w = (Ret (h', e), w') /\ at_rest ps c k conns w' /\
    exists conn tr, runs (sees ctx) (client_stream parse conn) tr (PReturn (Some e)) /\
      handle_all handle h (tr.*1) = (h', tr.*2).
Proof.
  intros Hc Hw. pose proof (stream_with_serves parse ps c ctx cmd handle h Hc k conns w Hw) as Hs.
  pose proof (stream_with_never_fails parse c ctx cmd handle h w) as Hn.
  destruct (stream_with parse c ctx cmd handle h w) as [[[h' e]|e| |] w'] eqn:Er; try done.
  exists h', e, w'. split; [done|]. split; [done|].
  exact (stream_with_follows parse c ctx cmd handle h w (h', e) w' I Er).
Qed.

(** ** The streams of the sharded client *)

(** [ShardedClient.Stream] and [PStream]: what the connections of the shards do. *)
Definition S_Stream {H} (conns : list (error + script)) (parent : option error) (h : H) : sstate :=
  start (client_stream parseLimitEventResponse <$> conns) parent h.

(** [ShardedClient.QStream] and [QPStream]. *)
Definition S_QStream {H} (conns : list (error + script)) (parent : option error) (h : H) : sstate :=
  start (client_stream parseQuotaEventResponse <$> conns) parent h.

Section never_nil.
Context {E : Type} (parse : bytes -> outcome (response E)).

(** A process none of whose ends is a nil error. *)
Inductive ends_with_error : proc E -> Prop :=
  | ee_return e : ends_with_error (PReturn (Some e))
  | ee_event e k : (forall r, ends_with_error (k r)) -> ends_with_error (PEvent e k)
  | ee_ctx k : (forall c, ends_with_error (k c)) -> ends_with_error (PCtx k).

Hint Constructors ends_with_error : fq.

Lemma conn_stream_ends frames e k :
  (forall e, ends_with_error (k e)) -> ends_with_error (conn_stream parse frames e k).
Proof.
  intros Hk. induction frames as [|frame frames IH]; simpl; [done|].
  destruct (parse frame) as [result| | |]; try done. destruct (status result); try done.
  - constructor. by intros [].
  - by destruct (err result).
Qed.

Lemma reconnect_ends n out e next : ends_with_error next -> ends_with_error (reconnect_proc n out e next).
Proof.
  intros Hn. revert out e. induction n as [|n IH]; intros out e; simpl; [destruct e; auto with fq|].
  constructor. intros [e'|]; [auto with fq|]. destruct (out O); auto.
Qed.

Lemma client_stream_ends conn : ends_with_error (client_stream parse conn).
Proof.
  destruct conn as [e|[first rest last]]; [constructor|]. unfold client_stream. simpl sr_first.
  revert first. induction rest as [|[fails next] rest IH]; intros first; cbn [stream_proc]; apply conn_stream_ends;
    intros e; apply ee_ctx; intros [c|]; try apply ee_return; destruct (negb _); try apply ee_return;
    apply reconnect_ends; [constructor|apply IH].
Qed.

Lemma runs_ends (ok : option error -> Prop) p tr p' : runs ok p tr p' -> ends_with_error p -> ends_with_error p'.
Proof.
  induction 1 as [|tr e k r Hr IH|tr k c Hr IH Hc]; intros Hp; [done|..]; specialize (IH Hp); by inversion IH.
Qed.


Lemma client_streams_result {H} (handle : handler H E) conns parent h s r :
  conns <> [] -> reachable handle (client_stream parse <$> conns) parent h s -> s_main s = MReturn r ->
  exists e, r = Some e /\
    (s_parent s = Some e \/ exists i conn tr, conns !! i = Some conn /\
       runs (fun c => c = None) (client_stream parse conn) tr (PReturn (Some e))).
Proof.
  intros Hne Hr Em. destruct (reachable_inv handle _ parent h s Hr) as (Hc & _ & Ht & Hrc & Hb).
  destruct r as [e|].
  - exists e. split; [done|]. destruct (b_result _ _ Hb e) as [|(i & p & tr & Hp & Hrun)]; [by right|by left|right].
    rewrite list_lookup_fmap in Hp. destruct (conns !! i) as [conn|] eqn:Ei; simplify_eq/=. by exists i, conn, tr.
  - exfalso. pose proof (returned_nil handle _ parent h s Hr Em) as Hgs.
    assert (Hg : at_ s 0 (GEnd None)).
    { unfold at_. rewrite Hgs, length_fmap. apply lookup_replicate_2. destruct conns; [done|simpl; lia]. }
    destruct (t_runs _ _ _ Ht _ _ Hg) as (p & Hp & Hrun). rewrite list_lookup_fmap in Hp.
    destruct (conns !! 0%nat) as [conn|]; simplify_eq/=.
    pose proof (runs_ends _ _ _ _ Hrun (client_stream_ends conn)) as He. by inversion He.
Qed.

End never_nil.


(** ** Samples *)

Definition ignore_events {E} : handler unit E := fun h _ => (h, None).

(** One shard whose pool is closed. *)
Definition sample_stream_end : @sstate unit LimitEvent :=
  mkS (MReturn (Some shut_error)) CWait [GCancel shut_error] false 1 1 [] false
    (Some (ESentinel context_Canceled)) None () [shut_error] [].

Lemma sample_stream_runs :
  rtc (any_step ignore_events) (S_Stream [inl (ESentinel ErrConnPoolClosed)] None ()) sample_stream_end.
Proof.
  unfold S_Stream, start. cbn. other ltac:(eapply step_spawn). other ltac:(eapply step_spawned).
  shard 0%nat ltac:(eapply step_return_err). shard 0%nat ltac:(eapply step_send).
  other ltac:(eapply step_first, step_recv). other ltac:(eapply step_first, step_check).
  other ltac:(eapply step_return). apply rtc_refl.
Qed.


Lemma sample_at_rest : exists w ps, at_rest ps 0%nat 2 [0; 1]%nat w /\ length ps = 1%nat.
Proof.
  pose proof (New_triple (str "db:1945") 1000 2 sample_opts [] 0 ltac:(vm_compute; exact I) ltac:(lia) sample_world
    sample_world_ok) as Hn.
  rewrite (run_fst (New (str "db:1945") 1000 2 sample_opts) sample_world (Ret 0%nat) ltac:(vm_compute; reflexivity)) in Hn.
  destruct Hn as (_ & cp & Hr). by eexists _, [cp].
Qed.

Lemma client_stream_refines_witness :
  exists w h' e w', stream_with parseLimitEventResponse 0%nat context_Background CommandStream ignore_events () w
    = (Ret (h', e), w').
Proof.
  destruct sample_at_rest as (w & ps & Hr & Hlen).
  destruct (client_stream_refines parseLimitEventResponse ps 0%nat 2 [0; 1]%nat context_Background CommandStream
    ignore_events () w ltac:(lia) Hr) as (h' & e & w' & Hs & _).
  exact (ex_intro _ w (ex_intro _ h' (ex_intro _ e (ex_intro _ w' Hs)))).
Defined.
