(* ===== verification/JsonTextFacts.v ===== *)
(** * JsonTextFacts: reading a document back, and the reader's fuel

    [document_render]: the tree of a rendered document is the tree that was
    rendered.  [json_value_enough]: more fuel than two per byte changes nothing, so the
    fuel of [json_document] is never what makes it fail. *)

From S2P Require Import Prelude GoStd Strconv JsonText.

(** ** Writing a document *)

Definition hex_char (d : Z) : byte := byte_of_Z (if d <? 10 then 48 + d else 87 + d).

Definition quote_byte (c : byte) : bytes :=
  if isb quotation c || isb backslash c then [backslash; c]
  else if byte_val c <? 32 then
    [backslash; "u"%byte; "0"%byte; "0"%byte; hex_char (byte_val c / 16); hex_char (byte_val c mod 16)]
  else [c].

Definition quote (s : bytes) : bytes := quotation :: (s ≫= quote_byte) ++ [quotation].

(** Parts with a separator between them. *)
Fixpoint join (sep : byte) (parts : list bytes) : bytes :=
  match parts with
  | [] => []
  | [p] => p
  | p :: parts => p ++ sep :: join sep parts
  end.

Fixpoint render_json (j : json) : bytes :=
  match j with
  | JNull => str "null"
  | JBool true => str "true"
  | JBool false => str "false"
  | JNum lit => lit
  | JStr s => quote s
  | JArr js => "["%byte :: join ","%byte (render_json <$> js) ++ ["]"%byte]
  | JObj ms =>
      "{"%byte :: join ","%byte ((fun m => quote m.1 ++ ":"%byte :: render_json m.2) <$> ms) ++ ["}"%byte]
  end.

(** ** Well-formed trees *)

Fixpoint valid_utf8 (s : bytes) : bool :=
  match s with
  | [] => true
  | c :: r =>
      if byte_val c <? 128 then valid_utf8 r
      else
        match rune_len c r, r with
        | 2%nat, _ :: r1 => valid_utf8 r1
        | 3%nat, _ :: _ :: r2 => valid_utf8 r2
        | 4%nat, _ :: _ :: _ :: r3 => valid_utf8 r3
        | _, _ => false
        end
  end.

(** A number literal and nothing else. *)
Definition number_lit (lit : bytes) : bool :=
  match number lit with Some (l, []) => bool_decide (l = lit) | _ => false end.

Fixpoint well_formed (depth : Z) (j : json) : bool :=
  match j with
  | JNull | JBool _ => true
  | JNum lit => number_lit lit
  | JStr s => valid_utf8 s
  | JArr js => (0 <? depth) && forallb (well_formed (depth - 1)) js
  | JObj ms => (0 <? depth) && forallb (fun m => valid_utf8 m.1 && well_formed (depth - 1) m.2) ms
  end.

(** ** Strings *)

Lemma isb_refl b : isb b b = true.
Proof. by apply isb_spec. Qed.

Lemma isb_false b c : c <> b -> isb b c = false.
Proof. intros H. apply not_true_iff_false. by rewrite isb_spec. Qed.

Lemma isb_val b c : byte_val c <> byte_val b -> isb b c = false.
Proof. intros H. apply isb_false. by intros ->. Qed.

Lemma high_byte c : 128 <= byte_val c -> quote_byte c = [c] /\ isb quotation c = false /\ isb backslash c = false.
Proof.
  intros Hc. assert (Hq : isb quotation c = false) by (apply isb_val; vm_compute (byte_val quotation); lia).
  assert (Hb : isb backslash c = false) by (apply isb_val; vm_compute (byte_val backslash); lia).
  unfold quote_byte. rewrite Hq, Hb. simpl. by rewrite (proj2 (Z.ltb_ge _ _)) by lia.
Qed.

Lemma within_spec lo hi c : within lo hi c = true -> lo <= byte_val c <= hi.
Proof. unfold within. intros H. to_prop. lia. Qed.

(** The continuation bytes of a sequence decide it, whatever follows. *)
Lemma rune_len_2 c r : rune_len c r = 2%nat ->
  exists c1 r1, r = c1 :: r1 /\ 128 <= byte_val c1 /\ forall x, rune_len c (c1 :: x) = 2%nat.
Proof.
  destruct r as [|c1 r1]; [done|]. unfold rune_len. intros H. exists c1, r1. split; [done|].
  destruct (within 194 223 c && within 128 191 c1) eqn:E.
  - to_prop. split; [|done]. by apply within_spec in H1 as [? _].
  - exfalso. revert H. repeat case_match; done.
Qed.

Lemma rune_len_3 c r : rune_len c r = 3%nat ->
  exists c1 c2 r2, r = c1 :: c2 :: r2 /\ 128 <= byte_val c1 /\ 128 <= byte_val c2 /\
    forall x, rune_len c (c1 :: c2 :: x) = 3%nat.
Proof.
  destruct r as [|c1 [|c2 r2]]; [done| |].
  { unfold rune_len. by case_match. }
  unfold rune_len. intros H. exists c1, c2, r2. split; [done|].
  destruct (within 194 223 c && within 128 191 c1) eqn:E; [done|].
  destruct ((if isb xe0 c then within 160 191 c1
             else if isb xed c then within 128 159 c1 else within 225 239 c && within 128 191 c1)
            && within 128 191 c2) eqn:E2.
  - apply andb_true_iff in E2 as [E1 E2]. apply within_spec in E2 as [? _]. split_and!; [|done|done].
    repeat case_match; to_prop; repeat match goal with H : within _ _ _ = true |- _ => apply within_spec in H end; lia.
  - exfalso. revert H. repeat case_match; done.
Qed.

Lemma rune_len_4 c r : rune_len c r = 4%nat ->
  exists c1 c2 c3 r3, r = c1 :: c2 :: c3 :: r3 /\ 128 <= byte_val c1 /\ 128 <= byte_val c2 /\ 128 <= byte_val c3 /\
    forall x, rune_len c (c1 :: c2 :: c3 :: x) = 4%nat.
Proof.
  destruct r as [|c1 [|c2 [|c3 r3]]]; unfold rune_len; try (repeat case_match; done).
  intros H. exists c1, c2, c3, r3. split; [done|].
  destruct (within 194 223 c && within 128 191 c1) eqn:E; [done|].
  destruct ((if isb xe0 c then within 160 191 c1
             else if isb xed c then within 128 159 c1 else within 225 239 c && within 128 191 c1)
            && within 128 191 c2) eqn:E2; [done|].
  match type of H with (if ?b then _ else _) = _ => destruct b eqn:E3 end; [|done].
  apply andb_true_iff in E3 as [E3 Ec3]. apply andb_true_iff in E3 as [E3 Ec2].
  apply within_spec in Ec3 as [? _]. apply within_spec in Ec2 as [? _]. split_and!; [|done..].
  repeat case_match; to_prop; repeat match goal with H : within _ _ _ = true |- _ => apply within_spec in H end; lia.
Qed.

Lemma hex_char_digit d : 0 <= d < 16 -> hex_digit (hex_char d) = Some d.
Proof.
  intros Hd. unfold hex_char, hex_digit, within. rewrite byte_val_of.
  destruct (Z.ltb_spec d 10); rewrite Z.mod_small by lia.
  - rewrite (proj2 (Z.leb_le 48 _)), (proj2 (Z.leb_le _ 57)) by lia. simpl. f_equal. lia.
  - rewrite (proj2 (Z.leb_le 48 _)), (proj2 (Z.leb_gt _ 57)) by lia. simpl.
    rewrite (proj2 (Z.leb_le 97 _)), (proj2 (Z.leb_le _ 102)) by lia. simpl. f_equal. lia.
Qed.

(** One byte below 128. *)
Lemma string_lit_ascii c s : byte_val c < 128 -> string_lit (quote_byte c ++ s) = put [c] (string_lit s).
Proof.
  intros Hc. unfold quote_byte. destruct (isb quotation c || isb backslash c) eqn:E.
  - assert (Hse : simple_escape c = Some c) by (unfold simple_escape; by rewrite E).
    simpl app. cbn [string_lit]. change (isb quotation backslash) with false.
    change (isb backslash backslash) with true. cbv iota. by rewrite Hse.
  - apply orb_false_iff in E as [Eq Eb]. destruct (byte_val c <? 32) eqn:El.
    + apply Z.ltb_lt in El. pose proof (byte_val_range c).
      assert (H16 : 0 <= byte_val c / 16 < 16) by (split; [apply Z.div_pos; lia|apply Z.div_lt_upper_bound; lia]).
      pose proof (Z.mod_pos_bound (byte_val c) 16 ltac:(lia)).
      simpl app. cbn [string_lit].
      change (isb quotation backslash) with false. change (isb backslash backslash) with true.
      change (simple_escape "u"%byte) with (@None byte). change (isb "u"%byte "u"%byte) with true. cbv iota.
      unfold hex4. rewrite !hex_char_digit by lia. change (hex_digit "0"%byte) with (Some 0). simpl mbind.
      cbv beta iota. assert (Hv : 0 * 4096 + 0 * 256 + byte_val c / 16 * 16 + byte_val c mod 16 = byte_val c).
      { pose proof (Z.div_mod (byte_val c) 16 ltac:(lia)). lia. }
      unfold mbind, option_bind. cbv beta iota. rewrite Hv.
      unfold is_surrogate. rewrite (proj2 (Z.leb_gt 55296 _)) by lia. simpl andb. cbv iota.
      unfold encode_rune. rewrite (proj2 (Z.ltb_lt _ 128)) by lia. by rewrite byte_of_val.
    + simpl app. cbn [string_lit]. rewrite Eq, Eb, El. by rewrite (proj2 (Z.ltb_lt _ 128)) by lia.
Qed.

(** A sequence of more than one byte. *)
Lemma string_lit_rune c r :
  128 <= byte_val c ->
  string_lit (c :: r) =
  match rune_len c r, r with
  | 2%nat, c1 :: r1 => put [c; c1] (string_lit r1)
  | 3%nat, c1 :: c2 :: r2 => put [c; c1; c2] (string_lit r2)
  | 4%nat, c1 :: c2 :: c3 :: r3 => put [c; c1; c2; c3] (string_lit r3)
  | _, _ => put replacement (string_lit r)
  end.
Proof.
  intros Hc. destruct (high_byte c Hc) as (_ & Hq & Hb). cbn [string_lit].
  by rewrite Hq, Hb, (proj2 (Z.ltb_ge _ 32)), (proj2 (Z.ltb_ge _ 128)) by lia.
Qed.

Lemma string_lit_quote s rest : 
  valid_utf8 s = true -> string_lit ((s ≫= quote_byte) ++ quotation :: rest) = Some (s, rest).
Proof.
  remember (length s) as n eqn:Hn. assert (Hle : (length s <= n)%nat) by lia. clear Hn.
  revert s Hle. induction n as [|n IH]; intros s Hle Hv.
  { destruct s; [|simpl in Hle; lia]. cbn [mbind list_bind app string_lit]. by rewrite isb_refl. }
  destruct s as [|c r]; [cbn [mbind list_bind app string_lit]; by rewrite isb_refl|].
  rewrite bind_cons, <- app_assoc. cbn [valid_utf8] in Hv. destruct (byte_val c <? 128) eqn:Ec.
  - apply Z.ltb_lt in Ec. rewrite string_lit_ascii by done. rewrite IH; [done|simpl in Hle; lia|done].
  - apply Z.ltb_ge in Ec. destruct (high_byte c Ec) as (Hqc & _). rewrite Hqc. cbn [app].
    rewrite string_lit_rune by done.
    destruct (rune_len c r) as [|[|[|[|[|]]]]] eqn:El; try done.
    + destruct (rune_len_2 c r El) as (c1 & r1 & -> & H1 & Hx). rewrite bind_cons, (proj1 (high_byte c1 H1)).
      cbn [app]. rewrite Hx, IH; [done|simpl in Hle; lia|done].
    + destruct (rune_len_3 c r El) as (c1 & c2 & r2 & -> & H1 & H2 & Hx).
      rewrite !bind_cons, (proj1 (high_byte c1 H1)), (proj1 (high_byte c2 H2)).
      cbn [app]. rewrite Hx, IH; [done|simpl in Hle; lia|done].
    + destruct (rune_len_4 c r El) as (c1 & c2 & c3 & r3 & -> & H1 & H2 & H3 & Hx).
      rewrite !bind_cons, (proj1 (high_byte c1 H1)), (proj1 (high_byte c2 H2)), (proj1 (high_byte c3 H3)).
      cbn [app]. rewrite Hx, IH; [done|simpl in Hle; lia|done].
Qed.

(** ** Numbers *)

(** A text that cannot continue a number. *)
Definition stops (s : bytes) : Prop :=
  match s with
  | [] => True
  | c :: _ => digit c = false /\ isb "."%byte c = false /\ isb "e"%byte c || isb "E"%byte c = false
  end.

Lemma span_digits_app s ds r rest :
  span_digits s = (ds, r) -> stops rest -> span_digits (s ++ rest) = (ds, r ++ rest).
Proof.
  revert ds r. induction s as [|c s IH]; intros ds r Hs Hst; simpl in *.
  { simplify_eq. destruct rest as [|c rest]; [done|]. destruct Hst as [Hd _]. simpl. by rewrite Hd. }
  destruct (digit c); [|by simplify_eq]. destruct (span_digits s) as [ds' r']. simplify_eq. by rewrite (IH ds' r).
Qed.

Lemma digits1_app s ds r rest : digits1 s = Some (ds, r) -> stops rest -> digits1 (s ++ rest) = Some (ds, r ++ rest).
Proof.
  unfold digits1. intros Hs Hst. destruct (span_digits s) as [[|d ds'] r'] eqn:E; [done|]. simplify_eq.
  by rewrite (span_digits_app _ _ _ _ E Hst).
Qed.

Lemma number_int_app s ds r rest :
  number_int s = Some (ds, r) -> stops rest -> number_int (s ++ rest) = Some (ds, r ++ rest).
Proof.
  destruct s as [|c s]; [done|]. unfold number_int. cbn [app]. intros Hs Hst.
  destruct (isb "0"%byte c); [by simplify_eq|]. destruct (digit c); [|done]. simplify_eq.
  rewrite app_comm_cons. f_equal. by apply span_digits_app.
Qed.

Lemma number_frac_app s ds r rest :
  number_frac s = Some (ds, r) -> stops rest -> number_frac (s ++ rest) = Some (ds, r ++ rest).
Proof.
  destruct s as [|c s]; unfold number_frac; cbn [app]; intros Hs Hst.
  - simplify_eq. destruct rest as [|c rest]; [done|]. destruct Hst as (_ & Hp & _). by rewrite Hp.
  - destruct (isb "."%byte c); [|by simplify_eq]. destruct (digits1 s) as [[ds' r']|] eqn:E; [|done].
    simplify_eq/=. by rewrite (digits1_app _ _ _ _ E Hst).
Qed.

Lemma number_exp_app s ds r rest :
  number_exp s = Some (ds, r) -> stops rest -> number_exp (s ++ rest) = Some (ds, r ++ rest).
Proof.
  destruct s as [|c s]; unfold number_exp; cbn [app]; intros Hs Hst.
  - simplify_eq. destruct rest as [|c rest]; [done|]. destruct Hst as (_ & _ & He). by rewrite He.
  - destruct (isb "e"%byte c || isb "E"%byte c); [|by simplify_eq].
    destruct s as [|g s]; [done|]. cbn [app]. destruct (isb "+"%byte g || isb "-"%byte g).
    + destruct (digits1 s) as [[ds' r']|] eqn:E; [|done]. simplify_eq/=. by rewrite (digits1_app _ _ _ _ E Hst).
    + destruct (digits1 (g :: s)) as [[ds' r']|] eqn:E; [|done]. simplify_eq/=.
      rewrite app_comm_cons. by rewrite (digits1_app _ _ _ _ E Hst).
Qed.

Lemma number_app s l r rest : number s = Some (l, r) -> stops rest -> number (s ++ rest) = Some (l, r ++ rest).
Proof.
  intros Hs Hst. unfold number in *.
  assert (Hsign : exists sign s1,
    match s with c :: r => if isb "-"%byte c then ([c], r) else ([], s) | [] => ([], s) end = (sign, s1) /\
    (match s ++ rest with c :: r => if isb "-"%byte c then ([c], r) else ([], s ++ rest) | [] => ([], s ++ rest) end
     = (sign, s1 ++ rest) \/ s = [])).
  { destruct s as [|c s]; [eexists _, _; split; [done|by right]|]. cbn [app]. destruct (isb "-"%byte c); eauto. }
  destruct Hsign as (sign & s1 & E1 & [E2| ->]); [|done]. rewrite E1 in Hs. rewrite E2.
  destruct (number_int s1) as [[i s2]|] eqn:Ei; [|done]. simpl in Hs.
  destruct (number_frac s2) as [[f s3]|] eqn:Ef; [|done]. simpl in Hs.
  destruct (number_exp s3) as [[e s4]|] eqn:Ee; [|done]. simplify_eq/=.
  rewrite (number_int_app _ _ _ _ Ei Hst). simpl. rewrite (number_frac_app _ _ _ _ Ef Hst). simpl.
  by rewrite (number_exp_app _ _ _ _ Ee Hst).
Qed.

(** The first byte of a number is a digit or a minus sign. *)
Lemma number_head s l r : number s = Some (l, r) -> exists c s', s = c :: s' /\ (digit c = true \/ c = "-"%byte).
Proof.
  destruct s as [|c s]; [done|]. intros H. exists c, s. split; [done|]. unfold number in H.
  destruct (isb "-"%byte c) eqn:E; [right; by apply isb_spec|left]. unfold number_int in H.
  destruct (isb "0"%byte c) eqn:E0; [apply isb_spec in E0; by subst|]. by destruct (digit c).
Qed.

(** ** Values *)

Fixpoint json_size (j : json) : nat :=
  match j with
  | JArr js => S (sum_list ((fun j => S (json_size j)) <$> js))
  | JObj ms => S (sum_list ((fun m => S (json_size m.2)) <$> ms))
  | _ => 1
  end.

Lemma skip_space_cons c r : is_space c = false -> skip_space (c :: r) = c :: r.
Proof. intros H. simpl. by rewrite H. Qed.

Lemma expect_hit b r : is_space b = false -> expect b (b :: r) = Some r.
Proof. intros H. unfold expect. by rewrite skip_space_cons, isb_refl. Qed.

Lemma expect_miss b c r : is_space c = false -> isb b c = false -> expect b (c :: r) = None.
Proof. intros H Hb. unfold expect. by rewrite skip_space_cons, Hb. Qed.

(** A byte that starts a value: none of the delimiters the reader looks for. *)
Definition starts_value (c : byte) : Prop :=
  is_space c = false /\ isb "]"%byte c = false /\ isb "}"%byte c = false.

Lemma number_start c :
  digit c = true \/ c = "-"%byte ->
  starts_value c /\ isb "{"%byte c = false /\ isb "["%byte c = false /\ isb quotation c = false /\
  isb "t"%byte c = false /\ isb "f"%byte c = false /\ isb "n"%byte c = false.
Proof.
  intros [Hd| ->]; [|by vm_compute]. apply within_spec in Hd.
  assert (Hn : forall b, byte_val b < 48 \/ 57 < byte_val b -> isb b c = false) by (intros; apply isb_val; lia).
  unfold starts_value, is_space. by split_and!; rewrite ?Hn by (first [left; reflexivity|right; reflexivity]).
Qed.

Lemma render_head depth j : well_formed depth j = true -> exists c s, render_json j = c :: s /\ starts_value c.
Proof.
  destruct j as [|[]|lit|s|js|ms]; intros Hw; try (by eexists _, _).
  simpl in Hw. unfold number_lit in Hw. destruct (number lit) as [[l r]|] eqn:E; [|done].
  destruct (number_head _ _ _ E) as (c & s & -> & Hc). exists c, s. split; [done|]. by apply number_start.
Qed.

Section render.

Definition reads (j : json) : Prop := forall depth fuel rest,
  well_formed depth j = true -> (json_size j <= fuel)%nat -> stops rest ->
  json_value fuel depth (render_json j ++ rest) = Some (j, rest).

Lemma elems_render js depth fuel rest :
  Forall reads js -> js <> [] -> forallb (well_formed depth) js = true ->
  (sum_list ((fun j => S (json_size j)) <$> js) <= fuel)%nat ->
  json_elems fuel depth (join ","%byte (render_json <$> js) ++ "]"%byte :: rest) = Some (js, rest).
Proof.
  intros Hr. revert fuel. induction Hr as [|j js Hj Hjs IH]; intros fuel Hne Hw Hf; [done|].
  simpl in Hw. apply andb_true_iff in Hw as [Hwj Hw]. rewrite fmap_cons.
  change (S (json_size j) + sum_list ((fun j => S (json_size j)) <$> js) <= fuel)%nat in Hf.
  destruct fuel as [|fuel]; [lia|]. cbn [json_elems]. destruct js as [|j' js].
  - cbn [fmap list_fmap join]. rewrite (Hj depth) by (done || (simpl in Hf; lia)).
    unfold mbind, option_bind. cbv beta iota. rewrite expect_miss, expect_hit by done. done.
  - change (join ","%byte (render_json j :: (render_json <$> j' :: js)))
      with (render_json j ++ ","%byte :: join ","%byte (render_json <$> j' :: js)).
    rewrite <- app_assoc. rewrite (Hj depth) by (done || lia). unfold mbind, option_bind. cbv beta iota.
    rewrite <- app_comm_cons, expect_hit by done. rewrite (IH fuel) by (done || lia). done.
Qed.

Lemma members_render ms depth fuel rest :
  Forall (fun m => reads m.2) ms -> ms <> [] ->
  forallb (fun m => valid_utf8 m.1 && well_formed depth m.2) ms = true ->
  (sum_list ((fun m => S (json_size m.2)) <$> ms) <= fuel)%nat ->
  json_members fuel depth
    (join ","%byte ((fun m => quote m.1 ++ ":"%byte :: render_json m.2) <$> ms) ++ "}"%byte :: rest) = Some (ms, rest).
Proof.
  intros Hr. revert fuel. induction Hr as [|[k j] ms Hj Hms IH]; intros fuel Hne Hw Hf; [done|].
  simpl in Hw. apply andb_true_iff in Hw as [Hwj Hw]. apply andb_true_iff in Hwj as [Hk Hwj].
  rewrite fmap_cons. simpl fst. simpl snd. change (reads j) in Hj.
  change (S (json_size j) + sum_list ((fun m => S (json_size m.2)) <$> ms) <= fuel)%nat in Hf.
  destruct fuel as [|fuel]; [lia|]. cbn [json_members].
  assert (Hread : forall tail, stops tail ->
    json_member (json_value fuel depth) ((quote k ++ ":"%byte :: render_json j) ++ tail) = Some ((k, j), tail)).
  { intros tail Ht. unfold json_member, quote. rewrite <- !app_assoc. cbn [app]. rewrite expect_hit by done.
    unfold mbind, option_bind. rewrite <- app_assoc. cbn [app]. rewrite string_lit_quote by done.
    rewrite expect_hit by done. by rewrite (Hj depth) by (done || lia). }
  destruct ms as [|m' ms].
  - cbn [fmap list_fmap join]. rewrite Hread by by vm_compute. unfold mbind, option_bind. cbv beta iota.
    by rewrite expect_miss, expect_hit by done.
  - set (tl := join ","%byte ((fun m => quote m.1 ++ ":"%byte :: render_json m.2) <$> m' :: ms)) in *.
    change (join ","%byte _) with ((quote k ++ ":"%byte :: render_json j) ++ ","%byte :: tl).
    rewrite <- (app_assoc _ (","%byte :: tl)), <- app_comm_cons, Hread by by vm_compute.
    unfold mbind, option_bind. cbv beta iota. rewrite expect_hit by done. by rewrite (IH fuel) by (done || lia).
Qed.

Lemma value_render j : reads j.
Proof.
  induction j as [|b|lit|s|js Hjs|ms Hms] using json_induction; intros depth fuel rest Hw Hf Hst;
    (destruct fuel as [|fuel]; [simpl in Hf; lia|]).
  - cbn [json_value]. done.
  - destruct b; done.
  - simpl in Hw. unfold number_lit in Hw. destruct (number lit) as [[l [|]]|] eqn:E; try done.
    apply bool_decide_eq_true in Hw. subst l. pose proof (number_app _ _ _ rest E Hst) as Ea.
    destruct (number_head _ _ _ E) as (c & s & -> & Hc).
    destruct (number_start c Hc) as ((Hsp & _) & H1 & H2 & H3 & H4 & H5 & H6).
    cbn [json_value render_json]. rewrite <- app_comm_cons in *. rewrite skip_space_cons by done.
    by rewrite H1, H2, H3, H4, H5, H6, Ea.
  - cbn [render_json]. unfold quote. rewrite <- app_comm_cons, <- app_assoc. cbn [json_value].
    rewrite skip_space_cons by done. cbn [app]. change (isb "{"%byte quotation) with false.
    change (isb "["%byte quotation) with false. rewrite isb_refl. by rewrite string_lit_quote.
  - simpl in Hw. apply andb_true_iff in Hw as [Hd Hw]. apply Z.ltb_lt in Hd.
    cbn [render_json]. rewrite <- app_comm_cons, <- app_assoc. cbn [json_value]. rewrite skip_space_cons by done.
    change (isb "{"%byte "["%byte) with false. rewrite isb_refl, (proj2 (Z.leb_gt _ _)) by lia. cbn [app].
    destruct js as [|j js]; [cbn [fmap list_fmap join app]; by rewrite expect_hit|].
    assert (Hh : exists c s, join ","%byte (render_json <$> j :: js) ++ "]"%byte :: rest = c :: s /\ starts_value c).
    { simpl in Hw. apply andb_true_iff in Hw as [Hwj _]. destruct (render_head _ _ Hwj) as (c & s & E & Hc).
      destruct js; cbn [fmap list_fmap join]; rewrite E; by eexists _, _. }
    destruct Hh as (c & s & E & Hsp & Hb & _). rewrite E, expect_miss by done. rewrite <- E.
    rewrite elems_render; [done..|]. simpl in Hf |- *. lia.
  - simpl in Hw. apply andb_true_iff in Hw as [Hd Hw]. apply Z.ltb_lt in Hd.
    cbn [render_json]. rewrite <- app_comm_cons, <- app_assoc. cbn [json_value]. rewrite skip_space_cons by done.
    rewrite isb_refl, (proj2 (Z.leb_gt _ _)) by lia. cbn [app].
    destruct ms as [|m ms]; [cbn [fmap list_fmap join app]; by rewrite expect_hit|].
    assert (Hh : exists s, join ","%byte ((fun m => quote m.1 ++ ":"%byte :: render_json m.2) <$> m :: ms) ++ "}"%byte :: rest
      = quotation :: s).
    { destruct ms; cbn [fmap list_fmap join]; unfold quote; by eexists. }
    destruct Hh as (s & E). rewrite E, expect_miss by done. rewrite <- E.
    rewrite members_render; [done..|]. simpl in Hf |- *. lia.
Qed.

End render.

Lemma size_join {A} (f : A -> bytes) (size : A -> nat) (l : list A) sep :
  Forall (fun a => (size a <= 2 * length (f a))%nat) l ->
  (sum_list ((fun a => S (size a)) <$> l) <= 2 * length (join sep (f <$> l)) + 1)%nat.
Proof.
  induction 1 as [|a l Ha Hl IH]; [simpl; lia|].
  change (S (size a) + sum_list ((fun a => S (size a)) <$> l) <= 2 * length (join sep (f <$> a :: l)) + 1)%nat.
  destruct l as [|b l]; [cbn [fmap list_fmap join]; simpl; lia|].
  change (join sep (f <$> a :: b :: l)) with (f a ++ sep :: join sep (f <$> b :: l)).
  rewrite length_app. cbn [length]. lia.
Qed.

Lemma size_render j depth : well_formed depth j = true -> (json_size j <= 2 * length (render_json j))%nat.
Proof.
  revert depth. induction j as [|b|lit|s|js Hjs|ms Hms] using json_induction; intros depth Hw.
  - simpl. lia.
  - destruct b; simpl; lia.
  - destruct (render_head _ _ Hw) as (c & s & -> & _). simpl. lia.
  - simpl. lia.
  - simpl in Hw. apply andb_true_iff in Hw as [_ Hw]. rewrite forallb_forall in Hw.
    assert (Hall : Forall (fun j => (json_size j <= 2 * length (render_json j))%nat) js).
    { rewrite Forall_forall in Hjs |- *. intros j Hj. eapply Hjs; [done|]. apply Hw. by apply list_elem_of_In. }
    pose proof (size_join render_json json_size js ","%byte Hall). cbn [json_size render_json length].
    rewrite length_app. simpl length. lia.
  - simpl in Hw. apply andb_true_iff in Hw as [_ Hw]. rewrite forallb_forall in Hw.
    assert (Hall : Forall (fun m : bytes * json =>
      (json_size m.2 <= 2 * length (quote m.1 ++ ":"%byte :: render_json m.2))%nat) ms).
    { rewrite Forall_forall in Hms |- *. intros m Hm. rewrite length_app. cbn [length].
      specialize (Hw m ltac:(by apply list_elem_of_In)). apply andb_true_iff in Hw as [_ Hw].
      specialize (Hms m Hm _ Hw). lia. }
    pose proof (size_join (fun m => quote m.1 ++ ":"%byte :: render_json m.2) (fun m => json_size m.2) ms ","%byte Hall)
      as Hsz. change (S (sum_list ((fun m : bytes * json => S (json_size m.2)) <$> ms)) <=
      2 * S (length (join ","%byte ((fun m => quote m.1 ++ ":"%byte :: render_json m.2) <$> ms) ++ ["}"%byte])))%nat.
    rewrite length_app. change (length ["}"%byte]) with 1%nat. lia.
Qed.

(** Reading a rendered document gives the tree back. *)
Lemma document_render j : well_formed maxNestingDepth j = true -> json_document (render_json j) = Some j.
Proof.
  intros Hw. unfold json_document. pose proof (size_render j _ Hw).
  pose proof (value_render j maxNestingDepth (json_fuel (render_json j)) [] Hw ltac:(unfold json_fuel; lia) I) as Hr.
  rewrite app_nil_r in Hr. by rewrite Hr.
Qed.

(** ** Fuel *)

Lemma skip_space_length s : (length (skip_space s) <= length s)%nat.
Proof. induction s as [|c s IH]; [done|]. simpl. case_match; simpl; lia. Qed.

Lemma expect_length b s r : expect b s = Some r -> (length r < length s)%nat.
Proof.
  unfold expect. pose proof (skip_space_length s). destruct (skip_space s) as [|c s']; [done|].
  case_match; [|done]. intros [= <-]. simpl in *. lia.
Qed.

Lemma put_Some b o v r : put b o = Some (v, r) -> exists v', o = Some (v', r).
Proof. destruct o as [[v' r']|]; [|done]. intros [= <- <-]. by exists v'. Qed.

Lemma string_lit_length s v r : string_lit s = Some (v, r) -> (length r < length s)%nat.
Proof.
  remember (length s) as n eqn:Hn. assert (Hle : (length s <= n)%nat) by lia. rewrite Hn. clear Hn.
  revert s v r Hle. induction n as [|n IH]; intros s v r Hle Hs; (destruct s as [|c s]; [done|]); [simpl in Hle; lia|].
  assert (Hput : forall b t, (length t <= length s)%nat ->
    put b (string_lit t) = Some (v, r) -> (length r < length (c :: s))%nat).
  { intros b t Ht Hp. apply put_Some in Hp as [v' Hp]. simpl in Hle. pose proof (IH t v' r ltac:(lia) Hp). simpl. lia. }
  cbn [string_lit] in Hs.
  repeat match type of Hs with
  | Some _ = Some _ => injection Hs as _ <-; simpl; lia
  | None = Some _ => discriminate
  | put _ _ = Some _ => eapply Hput; [|exact Hs]; simpl; lia
  | (if ?b then _ else _) = _ => destruct b
  | match ?x with _ => _ end = _ => destruct x
  end.
Qed.

Lemma span_digits_length s ds r : span_digits s = (ds, r) -> length s = (length ds + length r)%nat.
Proof.
  revert ds r. induction s as [|c s IH]; intros ds r Hs; simpl in Hs; [by simplify_eq|].
  destruct (digit c); [|by simplify_eq]. destruct (span_digits s) as [ds' r']. simplify_eq/=. by rewrite (IH ds' r).
Qed.

Lemma number_length s l r : number s = Some (l, r) -> (length r < length s)%nat.
Proof.
  unfold number. intros Hs.
  destruct (match s with c :: r => if isb "-"%byte c then ([c], r) else ([], s) | [] => ([], s) end) as [sign s1] eqn:E1.
  assert (H1 : (length s1 <= length s)%nat).
  { destruct s as [|c s]; [by simplify_eq|]. destruct (isb "-"%byte c); simplify_eq; simpl; lia. }
  destruct (number_int s1) as [[i s2]|] eqn:Ei; [|done]. simpl in Hs.
  assert (H2 : (length s2 < length s1)%nat).
  { unfold number_int in Ei. destruct s1 as [|c s1]; [done|]. destruct (isb "0"%byte c); [simplify_eq; simpl; lia|].
    destruct (digit c) eqn:Ed; [|done]. injection Ei as Ei. simpl in Ei. rewrite Ed in Ei.
    destruct (span_digits s1) as [ds r1] eqn:E. apply span_digits_length in E. simplify_eq. simpl. lia. }
  assert (Hd : forall t ds r, digits1 t = Some (ds, r) -> (length r <= length t)%nat).
  { intros t ds r' Hd. unfold digits1 in Hd. destruct (span_digits t) as [[|d ds'] r1] eqn:E; [done|].
    apply span_digits_length in E. simplify_eq. lia. }
  destruct (number_frac s2) as [[f s3]|] eqn:Ef; [|done]. simpl in Hs.
  assert (H3 : (length s3 <= length s2)%nat).
  { unfold number_frac in Ef. destruct s2 as [|c s2]; [by simplify_eq|]. destruct (isb "."%byte c); [|by simplify_eq].
    destruct (digits1 s2) as [[ds r1]|] eqn:E; [|done]. apply Hd in E. simplify_eq/=. lia. }
  destruct (number_exp s3) as [[e s4]|] eqn:Ee; [|done]. simplify_eq/=.
  assert (H4 : (length r <= length s3)%nat); [|lia].
  unfold number_exp in Ee. destruct s3 as [|c s3]; [by simplify_eq|].
  destruct (isb "e"%byte c || isb "E"%byte c); [|by simplify_eq]. destruct s3 as [|g s3]; [done|].
  destruct (isb "+"%byte g || isb "-"%byte g).
  - destruct (digits1 s3) as [[ds r1]|] eqn:E; [|done]. apply Hd in E. simplify_eq/=. lia.
  - destruct (digits1 (g :: s3)) as [[ds r1]|] eqn:E; [|done]. apply Hd in E. simplify_eq/=. lia.
Qed.

Lemma word_length w s j j' r : w <> [] -> word w s j = Some (j', r) -> (length r < length s)%nat.
Proof.
  unfold word. intros Hw. case_decide as Ht; [|done]. intros [= <- <-].
  assert (Hl : (length (take (length w) s) = length w)%nat) by by rewrite Ht.
  rewrite length_take in Hl. rewrite length_drop.
  assert (0 < length w)%nat by (destruct w; [done|simpl; lia]). lia.
Qed.

Lemma json_member_length value s m r :
  (forall s j r, value s = Some (j, r) -> (length r < length s)%nat) ->
  json_member value s = Some (m, r) -> (length r < length s)%nat.
Proof.
  intros Hv Hs. unfold json_member in Hs.
  destruct (expect quotation s) as [t1|] eqn:E1; [|done]. apply expect_length in E1. simpl in Hs.
  destruct (string_lit t1) as [[k t2]|] eqn:E2; [|done]. apply string_lit_length in E2. simpl in Hs.
  destruct (expect ":"%byte t2) as [t3|] eqn:E3; [|done]. apply expect_length in E3. simpl in Hs.
  destruct (value t3) as [[j t4]|] eqn:E4; [|done]. apply Hv in E4. simplify_eq/=. lia.
Qed.

(** Every reader consumes what it reads. *)
Lemma json_length fuel :
  (forall depth s j r, json_value fuel depth s = Some (j, r) -> (length r < length s)%nat) /\
  (forall depth s js r, json_elems fuel depth s = Some (js, r) -> (length r < length s)%nat) /\
  (forall depth s ms r, json_members fuel depth s = Some (ms, r) -> (length r < length s)%nat).
Proof.
  induction fuel as [|fuel (IHv & IHe & IHm)]; [done|]. split_and!.
  - intros depth s j r Hs. cbn [json_value] in Hs. pose proof (skip_space_length s) as Hsk.
    destruct (skip_space s) as [|c s']; [done|]. cbn [length] in Hsk.
    destruct (isb "{"%byte c).
    { destruct (depth <=? 0); [done|]. destruct (expect _ _) as [rest|] eqn:E; simplify_eq.
      - apply expect_length in E. lia.
      - destruct (json_members _ _ _) as [[ms rest]|] eqn:Em; [|done]. apply IHm in Em. simplify_eq/=. lia. }
    destruct (isb "["%byte c).
    { destruct (depth <=? 0); [done|]. destruct (expect _ _) as [rest|] eqn:E; simplify_eq.
      - apply expect_length in E. lia.
      - destruct (json_elems _ _ _) as [[ms rest]|] eqn:Em; [|done]. apply IHe in Em. simplify_eq/=. lia. }
    destruct (isb quotation c).
    { destruct (string_lit s') as [[v rest]|] eqn:E; [|done]. apply string_lit_length in E. simplify_eq/=. lia. }
    repeat (match type of Hs with (if ?b then _ else _) = _ => destruct b end;
      [apply word_length in Hs; [simpl in Hs; lia|done]|]).
    destruct (number (c :: s')) as [[lit rest]|] eqn:E; [|done]. apply number_length in E. simplify_eq/=. lia.
  - intros depth s js r Hs. cbn [json_elems] in Hs. destruct (json_value _ _ _) as [[j s1]|] eqn:E; [|done].
    apply IHv in E. simpl in Hs. destruct (expect ","%byte s1) as [s2|] eqn:Ec.
    + apply expect_length in Ec. destruct (json_elems _ _ _) as [[js' rest]|] eqn:Ee; [|done]. apply IHe in Ee.
      simplify_eq/=. lia.
    + destruct (expect "]"%byte s1) as [rest|] eqn:Er; [|done]. apply expect_length in Er. simplify_eq/=. lia.
  - intros depth s ms r Hs. cbn [json_members] in Hs. destruct (json_member _ _) as [[m s1]|] eqn:E; [|done].
    apply json_member_length in E; [|apply IHv].
    simpl in Hs. destruct (expect ","%byte s1) as [s2|] eqn:Ec.
    + apply expect_length in Ec. destruct (json_members _ _ _) as [[js' rest]|] eqn:Ee; [|done]. apply IHm in Ee.
      simplify_eq/=. lia.
    + destruct (expect "}"%byte s1) as [rest|] eqn:Er; [|done]. apply expect_length in Er. simplify_eq/=. lia.
Qed.

(** With two units of fuel per byte, more fuel changes nothing. *)
Lemma json_enough n :
  (forall depth s f f', (length s <= n)%nat -> (2 * length s + 1 <= f)%nat -> (2 * length s + 1 <= f')%nat ->
     json_value f depth s = json_value f' depth s) /\
  (forall depth s f f', (length s <= n)%nat -> (2 * length s + 2 <= f)%nat -> (2 * length s + 2 <= f')%nat ->
     json_elems f depth s = json_elems f' depth s) /\
  (forall depth s f f', (length s <= n)%nat -> (2 * length s + 2 <= f)%nat -> (2 * length s + 2 <= f')%nat ->
     json_members f depth s = json_members f' depth s).
Proof.
  induction (lt_wf n) as [n _ IH].
  assert (Hv : forall depth s f f', (length s <= n)%nat -> (2 * length s + 1 <= f)%nat ->
    (2 * length s + 1 <= f')%nat -> json_value f depth s = json_value f' depth s).
  { intros depth s [|f] [|f'] Hn Hf Hf'; try lia. cbn [json_value]. pose proof (skip_space_length s) as Hsk.
    destruct (skip_space s) as [|c s']; [done|]. cbn [length] in Hsk.
    destruct (IH (length s') ltac:(lia)) as (_ & IHe & IHm).
    rewrite (IHe (depth - 1) s' f f'), (IHm (depth - 1) s' f f') by lia. done. }
  split; [done|]. split.
  - intros depth s [|f] [|f'] Hn Hf Hf'; try lia. cbn [json_elems]. rewrite (Hv depth s f f') by lia.
    destruct (json_value f' depth s) as [[j s1]|] eqn:E; [|done]. apply json_length in E. simpl.
    destruct (expect ","%byte s1) as [s2|] eqn:Ec; [|done]. apply expect_length in Ec.
    destruct (IH (length s2) ltac:(lia)) as (_ & IHe & _). by rewrite (IHe depth s2 f f') by lia.
  - intros depth s [|f] [|f'] Hn Hf Hf'; try lia. cbn [json_members].
    assert (Em : json_member (json_value f depth) s = json_member (json_value f' depth) s).
    { unfold json_member. destruct (expect quotation s) as [t1|] eqn:E1; [|done]. apply expect_length in E1. simpl.
      destruct (string_lit t1) as [[k t2]|] eqn:E2; [|done]. apply string_lit_length in E2. simpl.
      destruct (expect ":"%byte t2) as [t3|] eqn:E3; [|done]. apply expect_length in E3. simpl.
      by rewrite (Hv depth t3 f f') by lia. }
    rewrite Em. destruct (json_member (json_value f' depth) s) as [[m s1]|] eqn:E; [|done]. simpl.
    apply json_member_length in E; [|apply json_length].
    destruct (expect ","%byte s1) as [s2|] eqn:Ec; [|done]. apply expect_length in Ec.
    destruct (IH (length s2) ltac:(lia)) as (_ & _ & IHm). by rewrite (IHm depth s2 f f') by lia.
Qed.

Lemma json_value_enough depth s f :
  (json_fuel s <= f)%nat -> json_value f depth s = json_value (json_fuel s) depth s.
Proof. intros Hf. apply (json_enough (length s)); unfold json_fuel in *; lia. Qed.
