(* ===== verification/JsonDecode.v ===== *)
(** * JsonDecode: what [json.Unmarshal] stores in a Go value

    [encoding/json] decodes by reflection: it walks the type of the target.
    [gtype] is such a type, as far as inspect.go uses them; [gval] the values;
    [decode] stores a tree in a value as the package does: a key selects a
    field by its exact name or else by its folded one, an unknown key is
    skipped, a repeated key is decoded into the value of the first one, null
    clears pointers, slices and maps and leaves other fields, a slice reuses
    its backing array, and the first type error is reported at the end. *)

From Stdlib Require Import Floats.SpecFloat.
From S2P Require Import Prelude GoStd Strconv JsonText.

(** ** Types and values *)

(** [TInt] is [int] and [int64]; [TMap] is [map[string]any]; a field has its Go
    name and the name of its tag. *)
Inductive gtype :=
  | TString | TInt | TUint64 | TFloat64 | TBool
  | TPtr (t : gtype) | TSlice (t : gtype) | TMap
  | TStruct (fields : list (bytes * bytes * gtype)).

(** Values of the type [any]. *)
Inductive gany :=
  | ANil | ABool (b : bool) | ANum (f : spec_float) | AStr (s : bytes)
  | AArr (elems : list gany) | AMap (members : list (bytes * gany)).

(** [VNil] is a nil pointer, slice or map; [spare] is the part of the backing
    array of a slice behind its length that was written before. *)
Inductive gval :=
  | VString (s : bytes) | VInt (n : Z) | VUint (n : Z) | VFloat (f : spec_float) | VBool (b : bool)
  | VNil | VPtr (v : gval) | VSlice (elems spare : list gval) | VMap (m : list (bytes * gany))
  | VStruct (fields : list gval).

Fixpoint zero_value (t : gtype) : gval :=
  match t with
  | TString => VString []
  | TInt => VInt 0
  | TUint64 => VUint 0
  | TFloat64 => VFloat (S754_zero false)
  | TBool => VBool false
  | TPtr _ | TSlice _ | TMap => VNil
  | TStruct fields => VStruct ((fun f => zero_value f.2) <$> fields)
  end.

(** [m[k] = v] *)
Fixpoint map_set {A} (k : bytes) (v : A) (m : list (bytes * A)) : list (bytes * A) :=
  match m with
  | [] => [(k, v)]
  | (k', v') :: m => if decide (k' = k) then (k, v) :: m else (k', v') :: map_set k v m
  end.

(** ** Numbers *)

Fixpoint digits_value (n : Z) (ds : bytes) : Z :=
  match ds with c :: ds => digits_value (n * 10 + (byte_val c - 48)) ds | [] => n end.

(** [readFloat] stops adding digits to the exponent at 10000. *)
Fixpoint exponent_value (n : Z) (ds : bytes) : Z :=
  match ds with
  | c :: ds => exponent_value (if n <? 10000 then n * 10 + (byte_val c - 48) else n) ds
  | [] => n
  end.

Definition exponent (s : bytes) : Z :=
  match s with
  | _ :: g :: r =>
      if isb "-"%byte g then - exponent_value 0 r
      else if isb "+"%byte g then exponent_value 0 r
      else exponent_value 0 (g :: r)
  | _ => 0
  end.

Fixpoint strip_zeros (ds : bytes) : bytes :=
  match ds with c :: r => if isb "0"%byte c then strip_zeros r else ds | [] => [] end.

(** The binary64 nearest to [m * 10^e], ties to even; [None] when it is too
    large.  [digits] is the number of digits of [m]; as in the library, values
    beyond 10^310 and below 10^-330 are decided by their magnitude. *)
Definition nearest_float (neg : bool) (m : Z) (digits e : Z) : option spec_float :=
  match m with
  | Zpos p =>
      if 310 <? digits + e then None
      else if digits + e <? -330 then Some (S754_zero neg)
      else
        let x :=
          if 0 <=? e then binary_normalize 53 1024 ((if neg then -1 else 1) * m * 10 ^ e) 0 neg
          else SFdiv 53 1024 (S754_finite neg p 0) (S754_finite false (Z.to_pos (10 ^ (- e))) 0) in
        match x with
        | S754_finite _ _ _ | S754_zero _ => Some x
        | S754_infinity _ | S754_nan => None
        end
  | _ => Some (S754_zero neg)
  end.

(** [strconv.ParseFloat(lit, 64)] on a JSON number. *)
Definition ParseFloat (lit : bytes) : option spec_float :=
  let '(neg, s) := match lit with c :: r => if isb "-"%byte c then (true, r) else (false, lit) | [] => (false, []) end in
  let '(int, s) := span_digits s in
  let '(frac, s) := match s with c :: r => if isb "."%byte c then span_digits r else ([], s) | [] => ([], []) end in
  let digits := strip_zeros (int ++ frac) in
  nearest_float neg (digits_value 0 digits) (Z.of_nat (length digits))
    (exponent s - Z.of_nat (length frac)).

(** ** Decoding *)

(** The text of an [UnmarshalTypeError] without the name and the offset of the
    target. *)
Definition type_error (value : string) : error := EFmt "json: cannot unmarshal %s" [FStr (str value)].
Definition syntax_error : error := EFmt "json: syntax error" [].

(** [saveError] keeps the first error. *)
Definition first_error (e e' : option error) : option error :=
  match e with Some _ => e | None => e' end.

(** Into an [any]. *)
Fixpoint decode_any (j : json) : gany * option error :=
  match j with
  | JNull => (ANil, None)
  | JBool b => (ABool b, None)
  | JStr s => (AStr s, None)
  | JNum lit =>
      match ParseFloat lit with
      | Some f => (ANum f, None)
      | None => (ANil, Some (type_error "number"))
      end
  | JArr js =>
      let '(vs, e) :=
        (fix elems js :=
           match js with
           | [] => ([], None)
           | j :: js =>
               let '(v, e) := decode_any j in
               let '(vs, e') := elems js in (v :: vs, first_error e e')
           end) js in
      (AArr vs, e)
  | JObj ms =>
      let '(m, e) :=
        (fix members ms m e :=
           match ms with
           | [] => (m, e)
           | (k, j) :: ms =>
               let '(v, e') := decode_any j in members ms (map_set k v m) (first_error e e')
           end) ms [] None in
      (AMap m, e)
  end.

(** [foldName] of a key, for comparison with ASCII names: letters in upper case,
    and the two other characters that fold to ASCII letters. *)
Fixpoint fold_name (s : bytes) : bytes :=
  match s with
  | [] => []
  | c :: r =>
      if within 97 122 c then byte_of_Z (byte_val c - 32) :: fold_name r
      else
        match r with
        | c1 :: r1 =>
            if isb xc5 c && isb xbf c1 then "S"%byte :: fold_name r1
            else
              match r1 with
              | c2 :: r2 =>
                  if isb xe2 c && isb x84 c1 && isb xaa c2 then "K"%byte :: fold_name r2 else c :: fold_name r
              | [] => c :: fold_name r
              end
        | [] => [c]
        end
  end.

(** The first field whose name satisfies [p], with its position. *)
Fixpoint find_name (p : bytes -> bool) (fields : list (bytes * bytes * gtype)) : option (nat * gtype) :=
  match fields with
  | [] => None
  | (_, name, t) :: fields =>
      if p name then Some (O, t) else '(i, t) ← find_name p fields; Some (S i, t)
  end.

Definition find_field (key : bytes) (fields : list (bytes * bytes * gtype)) : option (nat * gtype) :=
  match find_name (fun name => bool_decide (name = key)) fields with
  | Some f => Some f
  | None => find_name (fun name => bool_decide (fold_name name = fold_name key)) fields
  end.

(** [indirect]: through pointers, allocating the nil ones. *)
Fixpoint through (t : gtype) (v : gval) (store : gtype -> gval -> gval * option error) : gval * option error :=
  match t with
  | TPtr t =>
      let '(v', e) := through t (match v with VPtr x => x | _ => zero_value t end) store in (VPtr v', e)
  | _ => store t v
  end.

Definition elems_of (v : gval) : list gval := match v with VSlice elems spare => elems ++ spare | _ => [] end.
Definition fields_of (v : gval) : list gval := match v with VStruct fields => fields | _ => [] end.
Definition map_of (v : gval) : list (bytes * gany) := match v with VMap m => m | _ => [] end.

(** [decodeState.value]: the tree [j] stored in a value [v] of type [t]. *)
Fixpoint decode (j : json) (t : gtype) (v : gval) {struct j} : gval * option error :=
  match j with
  | JNull => (match t with TPtr _ | TSlice _ | TMap => VNil | _ => v end, None)
  | JBool b =>
      through t v (fun t v => match t with TBool => (VBool b, None) | _ => (v, Some (type_error "bool")) end)
  | JStr s =>
      through t v (fun t v => match t with TString => (VString s, None) | _ => (v, Some (type_error "string")) end)
  | JNum lit =>
      through t v (fun t v =>
        match t with
        | TInt => match Atoi lit with Ret n => (VInt n, None) | _ => (v, Some (type_error "number")) end
        | TUint64 => match ParseUint lit 64 with Ret n => (VUint n, None) | _ => (v, Some (type_error "number")) end
        | TFloat64 => match ParseFloat lit with Some f => (VFloat f, None) | None => (v, Some (type_error "number")) end
        | _ => (v, Some (type_error "number"))
        end)
  | JArr js =>
      through t v (fun t v =>
        match t with
        | TSlice t =>
            let '(vs, e) :=
              (fix elems js backing :=
                 match js with
                 | [] => ([], None)
                 | j :: js =>
                     let '(v, e) := decode j t (default (zero_value t) (head backing)) in
                     let '(vs, e') := elems js (tail backing) in (v :: vs, first_error e e')
                 end) js (elems_of v) in
            (VSlice vs (match js with [] => [] | _ => drop (length js) (elems_of v) end), e)
        | _ => (v, Some (type_error "array"))
        end)
  | JObj ms =>
      through t v (fun t v =>
        match t with
        | TStruct fields =>
            let '(vs, e) :=
              (fix members ms vs e :=
                 match ms with
                 | [] => (vs, e)
                 | (k, j) :: ms =>
                     match find_field k fields with
                     | None => members ms vs e
                     | Some (i, t) =>
                         let '(v, e') := decode j t (default VNil (vs !! i)) in
                         members ms (<[i := v]> vs) (first_error e e')
                     end
                 end) ms (fields_of v) None in
            (VStruct vs, e)
        | TMap =>
            let '(m, e) :=
              (fix members ms m e :=
                 match ms with
                 | [] => (m, e)
                 | (k, j) :: ms =>
                     let '(v, e') := decode_any j in members ms (map_set k v m) (first_error e e')
                 end) ms (map_of v) None in
            (VMap m, e)
        | _ => (v, Some (type_error "object"))
        end)
  end.

(** [json.Unmarshal(data, &v)] for a zero value [v] of type [t]. *)
Definition Unmarshal (t : gtype) (data : bytes) : gval + error :=
  match json_document data with
  | None => inr syntax_error
  | Some j =>
      match decode j t (zero_value t) with
      | (v, None) => inl v
      | (_, Some e) => inr e
      end
  end.
