(* ===== verification/JsonDecodeFacts.v ===== *)
(** * JsonDecodeFacts: decoding is typed, and inverts encoding

    [decode_typed]: whatever the document, the value decoded is one of the Go
    type that was asked for, integers in range and floats finite.
    [decode_encode]: a value encoded field by field is decoded to itself. *)

From Stdlib Require Import Floats.SpecFloat.
From S2P Require Import Prelude GoStd Strconv JsonText JsonTextFacts JsonDecode.

(** ** Induction with the children *)

Section gval_induction.
Context (P : gval -> Prop).
Context (Hstring : forall s, P (VString s)) (Hint : forall n, P (VInt n)) (Huint : forall n, P (VUint n)).
Context (Hfloat : forall f, P (VFloat f)) (Hbool : forall b, P (VBool b)) (Hnil : P VNil).
Context (Hptr : forall v, P v -> P (VPtr v)).
Context (Hslice : forall vs spare, Forall P vs -> P (VSlice vs spare)) (Hmap : forall m, P (VMap m)).
Context (Hstruct : forall vs, Forall P vs -> P (VStruct vs)).

Fixpoint gval_induction (v : gval) : P v :=
  let fix all vs : Forall P vs :=
    match vs with [] => Forall_nil_2 _ | v :: vs => Forall_cons_2 _ _ _ (gval_induction v) (all vs) end in
  match v with
  | VString s => Hstring s
  | VInt n => Hint n
  | VUint n => Huint n
  | VFloat f => Hfloat f
  | VBool b => Hbool b
  | VNil => Hnil
  | VPtr v => Hptr v (gval_induction v)
  | VSlice vs spare => Hslice vs spare (all vs)
  | VMap m => Hmap m
  | VStruct vs => Hstruct vs (all vs)
  end.
End gval_induction.

Section gany_induction.
Context (P : gany -> Prop).
Context (Hnil : P ANil) (Hbool : forall b, P (ABool b)) (Hnum : forall f, P (ANum f)) (Hstr : forall s, P (AStr s)).
Context (Harr : forall vs, Forall P vs -> P (AArr vs)) (Hmap : forall m, Forall (fun x => P x.2) m -> P (AMap m)).

Fixpoint gany_induction (a : gany) : P a :=
  match a with
  | ANil => Hnil
  | ABool b => Hbool b
  | ANum f => Hnum f
  | AStr s => Hstr s
  | AArr vs =>
      Harr vs ((fix all vs : Forall P vs :=
        match vs with [] => Forall_nil_2 _ | v :: vs => Forall_cons_2 _ _ _ (gany_induction v) (all vs) end) vs)
  | AMap m =>
      Hmap m ((fix all m : Forall (fun x => P x.2) m :=
        match m with [] => Forall_nil_2 _ | x :: m => Forall_cons_2 _ _ _ (gany_induction x.2) (all m) end) m)
  end.
End gany_induction.

Section gtype_induction.
Context (P : gtype -> Prop).
Context (Hstring : P TString) (Hint : P TInt) (Huint : P TUint64) (Hfloat : P TFloat64) (Hbool : P TBool).
Context (Hptr : forall t, P t -> P (TPtr t)) (Hslice : forall t, P t -> P (TSlice t)) (Hmap : P TMap).
Context (Hstruct : forall fs, Forall (fun f => P f.2) fs -> P (TStruct fs)).

Fixpoint gtype_induction (t : gtype) : P t :=
  match t with
  | TString => Hstring
  | TInt => Hint
  | TUint64 => Huint
  | TFloat64 => Hfloat
  | TBool => Hbool
  | TPtr t => Hptr t (gtype_induction t)
  | TSlice t => Hslice t (gtype_induction t)
  | TMap => Hmap
  | TStruct fs =>
      Hstruct fs ((fix all fs : Forall (fun f => P f.2) fs :=
        match fs with [] => Forall_nil_2 _ | f :: fs => Forall_cons_2 _ _ _ (gtype_induction f.2) (all fs) end) fs)
  end.
End gtype_induction.

(** ** Typing *)

Definition finite_float (f : spec_float) : Prop :=
  match f with S754_finite _ _ _ | S754_zero _ => True | _ => False end.

Inductive has_type : gtype -> gval -> Prop :=
  | ht_string s : has_type TString (VString s)
  | ht_int n : - 2 ^ 63 <= n < 2 ^ 63 -> has_type TInt (VInt n)
  | ht_uint n : uint 64 n -> has_type TUint64 (VUint n)
  | ht_float f : finite_float f -> has_type TFloat64 (VFloat f)
  | ht_bool b : has_type TBool (VBool b)
  | ht_ptr_nil t : has_type (TPtr t) VNil
  | ht_ptr t v : has_type t v -> has_type (TPtr t) (VPtr v)
  | ht_slice_nil t : has_type (TSlice t) VNil
  | ht_slice t vs spare : Forall (has_type t) vs -> Forall (has_type t) spare -> has_type (TSlice t) (VSlice vs spare)
  | ht_map_nil : has_type TMap VNil
  | ht_map m : has_type TMap (VMap m)
  | ht_struct fs vs : Forall2 (fun f v => has_type f.2 v) fs vs -> has_type (TStruct fs) (VStruct vs).

#[export] Hint Constructors has_type : fq.

Lemma zero_typed t : has_type t (zero_value t).
Proof.
  induction t as [| | | | |t IH|t IH| |fs IH] using gtype_induction; simpl; constructor; unfold uint; try lia; try done.
  induction IH as [|f fs Hf Hfs IHfs]; simpl; constructor; auto.
Qed.

Lemma through_typed t v store :
  has_type t v -> (forall t v, has_type t v -> has_type t (store t v).1) -> has_type t (through t v store).1.
Proof.
  intros Hv Hs. revert v Hv. induction t; intros v Hv; cbn [through]; try (by apply Hs).
  assert (Hx : has_type t (match v with VPtr x => x | _ => zero_value t end)).
  { destruct v; try apply zero_typed. by inversion Hv. }
  specialize (IHt _ Hx). destruct (through t _ store) as [v' e]. by constructor.
Qed.

Lemma ParseFloat_finite lit f : ParseFloat lit = Some f -> finite_float f.
Proof.
  unfold ParseFloat, nearest_float. intros H.
  repeat match type of H with
  | (let '(_, _) := ?x in _) = _ => destruct x
  | match ?x with _ => _ end = Some _ => destruct x eqn:?
  end; by simplify_eq/=.
Qed.

Lemma Atoi_range s n : Atoi s = Ret n -> - 2 ^ 63 <= n < 2 ^ 63.
Proof.
  destruct s as [|c s]; [done|]. unfold Atoi.
  destruct (ParseUint _ 64) as [un| | |] eqn:E; try done. apply ParseUint_range in E as [E1 E2]; [|lia].
  unfold mbind, outcome_bind. set (neg := bool_decide (c = "-"%byte)).
  destruct (negb neg && (2 ^ 63 <=? un)) eqn:H1; [done|]. destruct (neg && (2 ^ 63 <? un)) eqn:H2; [done|].
  intros [= <-]. destruct neg; simpl in H1, H2; to_prop; lia.
Qed.

Lemma find_name_lookup p fs i t : find_name p fs = Some (i, t) -> exists f, fs !! i = Some f /\ f.2 = t.
Proof.
  revert i. induction fs as [|[[g n] t'] fs IH]; intros i H; simpl in H; [done|].
  destruct (p n); [simplify_eq; by eexists|]. destruct (find_name p fs) as [[j t2]|]; simplify_eq/=. by apply IH.
Qed.

Lemma find_field_lookup k fs i t : find_field k fs = Some (i, t) -> exists f, fs !! i = Some f /\ f.2 = t.
Proof.
  unfold find_field. destruct (find_name (fun name => bool_decide (name = k)) fs) as [f|] eqn:E;
    intros; simplify_eq; by eapply find_name_lookup.
Qed.

Lemma decode_typed j : forall t v, has_type t v -> has_type t (decode j t v).1.
Proof.
  induction j as [|b|lit|s|js Hjs|ms Hms] using json_induction; intros t v Hv; cbn [decode].
  - destruct t; simpl; auto with fq.
  - apply through_typed; [done|]. intros t' v' H'. destruct t'; simpl; auto with fq.
  - apply through_typed; [done|]. intros t' v' H'. destruct t'; simpl; auto.
    + destruct (Atoi lit) as [n| | |] eqn:E; simpl; auto. constructor. by eapply Atoi_range.
    + destruct (ParseUint lit 64) as [n| | |] eqn:E; simpl; auto. constructor. eapply ParseUint_range; [|done]. lia.
    + destruct (ParseFloat lit) as [f|] eqn:E; simpl; auto. constructor. by eapply ParseFloat_finite.
  - apply through_typed; [done|]. intros t' v' H'. destruct t'; simpl; auto with fq.
  - apply through_typed; [done|]. intros t' v' H'. destruct t' as [| | | | | |t'| |]; try exact H'.
    assert (Hb : Forall (has_type t') (elems_of v')).
    { inversion H'; subst; simpl; [constructor|by apply Forall_app_2]. }
    set (backing := elems_of v') in *. clearbody backing.
    match goal with |- context [let '(_, _) := ?f js backing in _] => set (go := f) end.
    assert (Hgo : forall js, Forall (fun j => forall t v, has_type t v -> has_type t (decode j t v).1) js ->
      forall backing, Forall (has_type t') backing -> Forall (has_type t') (go js backing).1).
    { clear. induction 1 as [|j js Hj Hjs IH]; intros backing Hb; simpl; [constructor|].
      assert (Hd : has_type t' (default (zero_value t') (head backing))).
      { destruct Hb; simpl; [apply zero_typed|done]. }
      specialize (Hj t' _ Hd). destruct (decode j t' _) as [v e].
      specialize (IH (tail backing)). destruct (go js (tail backing)) as [vs e']. simpl in *. constructor; [done|].
      apply IH. by destruct Hb. }
    specialize (Hgo js Hjs backing Hb). destruct (go js backing) as [vs e]. constructor; [done|].
    destruct js; [constructor|by apply Forall_drop].
  - apply through_typed; [done|]. intros t' v' H'. destruct t' as [| | | | | | | |fs]; try exact H'.
    { match goal with |- context [let '(_, _) := ?x in _] => destruct x end. constructor. }
    assert (Hf : Forall2 (fun f v => has_type f.2 v) fs (fields_of v')) by (by inversion H').
    set (vs := fields_of v') in *. clearbody vs.
    match goal with |- context [let '(_, _) := ?f ms vs None in _] => set (go := f) end.
    assert (Hgo : forall ms, Forall (fun m => forall t v, has_type t v -> has_type t (decode m.2 t v).1) ms ->
      forall vs e, Forall2 (fun f v => has_type f.2 v) fs vs -> Forall2 (fun f v => has_type f.2 v) fs (go ms vs e).1).
    { clear. induction 1 as [|[k j] ms Hj Hms IH]; intros vs e Hv; simpl; [done|].
      destruct (find_field k fs) as [[i t]|] eqn:E; [|by apply IH].
      apply find_field_lookup in E as (f & Hi & <-).
      destruct (Forall2_lookup_l _ _ _ _ _ Hv Hi) as (v & Hvi & Hty). rewrite Hvi. simpl.
      specialize (Hj _ _ Hty). simpl in Hj. destruct (decode j f.2 v) as [v1 e1]. apply IH.
      rewrite <- (list_insert_id fs i f Hi). by apply Forall2_insert. }
    specialize (Hgo ms Hms vs None Hf). destruct (go ms vs None) as [vs' e]. by constructor.
Qed.

(** ** Encoding

    What a server writes for a value: every field under its name, [null] for
    nil.  How it prints a float is the parameter [fmt]. *)

Section encode.
Context (fmt : spec_float -> bytes).

Fixpoint encode_any (a : gany) : json :=
  match a with
  | ANil => JNull
  | ABool b => JBool b
  | ANum f => JNum (fmt f)
  | AStr s => JStr s
  | AArr vs => JArr (encode_any <$> vs)
  | AMap m => JObj ((fun x => (x.1, encode_any x.2)) <$> m)
  end.

Fixpoint encode (v : gval) (t : gtype) : json :=
  match v, t with
  | VString s, _ => JStr s
  | VInt n, _ => JNum (Itoa n)
  | VUint n, _ => JNum (FormatUint n)
  | VFloat f, _ => JNum (fmt f)
  | VBool b, _ => JBool b
  | VPtr v, TPtr t => encode v t
  | VSlice vs _, TSlice t => JArr ((fun v => encode v t) <$> vs)
  | VMap m, _ => JObj ((fun x => (x.1, encode_any x.2)) <$> m)
  | VStruct vs, TStruct fs =>
      JObj ((fix fields vs fs :=
        match vs, fs with
        | v :: vs, f :: fs => (f.1.2, encode v f.2) :: fields vs fs
        | _, _ => []
        end) vs fs)
  | _, _ => JNull
  end.

(** Values that an encoding determines: floats that read back, map keys that
    are distinct, slices without a written rest, pointers to what is not nil. *)
Inductive plain_any : gany -> Prop :=
  | pa_nil : plain_any ANil
  | pa_bool b : plain_any (ABool b)
  | pa_num f : ParseFloat (fmt f) = Some f -> plain_any (ANum f)
  | pa_str s : plain_any (AStr s)
  | pa_arr vs : Forall plain_any vs -> plain_any (AArr vs)
  | pa_map m : NoDup (m.*1) -> Forall (fun x => plain_any x.2) m -> plain_any (AMap m).

Definition nilable (t : gtype) : bool := match t with TPtr _ | TSlice _ | TMap => true | _ => false end.

Inductive plain : gtype -> gval -> Prop :=
  | pl_string s : plain TString (VString s)
  | pl_int n : - 2 ^ 63 <= n < 2 ^ 63 -> plain TInt (VInt n)
  | pl_uint n : uint 64 n -> plain TUint64 (VUint n)
  | pl_float f : ParseFloat (fmt f) = Some f -> plain TFloat64 (VFloat f)
  | pl_bool b : plain TBool (VBool b)
  | pl_ptr_nil t : plain (TPtr t) VNil
  | pl_ptr t v : nilable t = false -> plain t v -> plain (TPtr t) (VPtr v)
  | pl_slice_nil t : plain (TSlice t) VNil
  | pl_slice t vs : Forall (plain t) vs -> plain (TSlice t) (VSlice vs [])
  | pl_map_nil : plain TMap VNil
  | pl_map m : NoDup (m.*1) -> Forall (fun x => plain_any x.2) m -> plain TMap (VMap m)
  | pl_struct fs vs :
      NoDup ((fun f => f.1.2) <$> fs) -> Forall2 (fun f v => plain f.2 v) fs vs -> plain (TStruct fs) (VStruct vs).

(** ** Decoding what was encoded *)

Lemma map_set_fresh {A} k (v : A) m : k ∉ m.*1 -> map_set k v m = m ++ [(k, v)].
Proof.
  induction m as [|[k' v'] m IH]; intros Hk; simpl; [done|]. rewrite decide_False; [|set_solver].
  rewrite IH; [done|set_solver].
Qed.

(** The loop over the members of a map. *)
Lemma map_members_encode
    (go : list (bytes * json) -> list (bytes * gany) -> option error -> list (bytes * gany) * option error) m acc :
  (forall m e, go [] m e = (m, e)) ->
  (forall k j ms m e, go ((k, j) :: ms) m e =
    let '(v, e') := decode_any j in go ms (map_set k v m) (first_error e e')) ->
  Forall (fun x => decode_any (encode_any x.2) = (x.2, None)) m -> NoDup ((acc ++ m).*1) ->
  go ((fun x => (x.1, encode_any x.2)) <$> m) acc None = (acc ++ m, None).
Proof.
  intros Hnil Hcons Hall. revert acc. induction Hall as [|[k a] m Ha Hm IH]; intros acc Hnd.
  { rewrite Hnil. by rewrite app_nil_r. }
  rewrite fmap_cons, Hcons. simpl in Ha |- *. rewrite Ha. simpl. rewrite map_set_fresh.
  - rewrite IH; [by rewrite <- app_assoc|]. by rewrite <- app_assoc.
  - rewrite fmap_app in Hnd. apply NoDup_app in Hnd as (_ & Hd & _). intros Hin. apply (Hd k Hin). simpl. by left.
Qed.

Lemma decode_any_encode a : plain_any a -> decode_any (encode_any a) = (a, None).
Proof.
  induction a as [|b|f|s|vs IH|m IH] using gany_induction; intros Hp; inversion Hp; subst; try done.
  - simpl. match goal with H : ParseFloat _ = _ |- _ => by rewrite H end.
  - cbn [encode_any decode_any].
    match goal with |- context [let '(_, _) := ?f _ in _] => set (go := f) end.
    assert (Hgo : go (encode_any <$> vs) = (vs, None)); [|by rewrite Hgo].
    match goal with H : Forall plain_any vs |- _ => rename H into Hall end.
    clear Hp. induction Hall as [|v vs Hv Hvs IHvs]; [done|]. apply Forall_cons in IH as [IHv IH].
    rewrite fmap_cons. simpl. rewrite (IHv Hv). by rewrite (IHvs IH).
  - cbn [encode_any decode_any].
    match goal with |- context [let '(_, _) := ?f _ [] None in _] => set (go := f) end.
    assert (Hgo : go ((fun x => (x.1, encode_any x.2)) <$> m) [] None = ([] ++ m, None)); [|by rewrite Hgo].
    apply map_members_encode; [done|done| |done]. rewrite Forall_forall in *. intros x Hx. apply IH; auto.
Qed.

Lemma Atoi_Itoa_all n : - 2 ^ 63 <= n < 2 ^ 63 -> Atoi (Itoa n) = Ret n.
Proof.
  intros Hn. destruct (Z.ltb_spec n 0) as [Hneg|]; [|apply Atoi_Itoa; lia]. unfold Itoa.
  rewrite (proj2 (Z.ltb_lt _ _)) by lia. change (str "-" ++ FormatUint (- n)) with ("-"%byte :: FormatUint (- n)).
  unfold Atoi. rewrite !bool_decide_eq_true_2 by auto. rewrite ParseUint_FormatUint by (unfold uint; lia).
  unfold mbind, outcome_bind. simpl negb. simpl andb. rewrite (proj2 (Z.ltb_ge _ _)) by lia. f_equal. lia.
Qed.

(** The name of a field finds it. *)
Lemma find_name_at fs1 f fs2 :
  f.1.2 ∉ (fun f => f.1.2) <$> fs1 ->
  find_name (fun name => bool_decide (name = f.1.2)) (fs1 ++ f :: fs2) = Some (length fs1, f.2).
Proof.
  induction fs1 as [|[[g n] t] fs1 IH]; intros Hn; destruct f as [[g' n'] t']; simpl in *.
  - by rewrite bool_decide_eq_true_2.
  - rewrite bool_decide_eq_false_2 by set_solver. rewrite IH by set_solver. done.
Qed.

Lemma find_field_at fs1 f fs2 :
  NoDup ((fun f => f.1.2) <$> fs1 ++ f :: fs2) -> find_field f.1.2 (fs1 ++ f :: fs2) = Some (length fs1, f.2).
Proof.
  intros Hnd. unfold find_field. rewrite find_name_at; [done|]. intros Hin.
  rewrite fmap_app in Hnd. apply NoDup_app in Hnd as (_ & Hd & _). apply (Hd _ Hin). simpl. by left.
Qed.

Lemma encode_not_null t v : nilable t = false -> plain t v -> encode v t <> JNull.
Proof. intros Hn Hp. by inversion Hp; subst. Qed.

(** A value that is encoded and decoded into a zero value is itself. *)
Lemma decode_encode v : forall t, plain t v -> decode (encode v t) t (zero_value t) = (v, None).
Proof.
  induction v as [s|n|n|f|b| |v IH|vs spare IH|m|vs IH] using gval_induction; intros t Hp; inversion Hp; subst; try done.
  - cbn [encode decode through]. by rewrite Atoi_Itoa_all.
  - cbn [encode decode through]. by rewrite ParseUint_FormatUint by (done || lia).
  - cbn [encode decode through]. match goal with H : ParseFloat _ = _ |- _ => by rewrite H end.
  - match goal with H1 : nilable ?t = false, H2 : plain ?t v |- _ =>
      pose proof (encode_not_null _ _ H1 H2) as Hnn; specialize (IH _ H2); rename t into t0 end. cbn [encode].
    assert (E : decode (encode v t0) (TPtr t0) VNil
      = let '(v', e) := decode (encode v t0) t0 (zero_value t0) in (VPtr v', e)) by by destruct (encode v t0).
    cbn [zero_value]. by rewrite E, IH.
  - cbn [encode decode through zero_value elems_of].
    match goal with |- context [let '(_, _) := ?f _ [] in _] => set (go := f) end.
    assert (Hgo : go ((fun v => encode v t0) <$> vs) [] = (vs, None)).
    { match goal with H : Forall (plain t0) vs |- _ => rename H into Hall end.
      clear Hp. induction Hall as [|v vs Hv Hvs IHvs]; [done|]. apply Forall_cons in IH as [IHv IH].
      rewrite fmap_cons. simpl. rewrite (IHv _ Hv). by rewrite (IHvs IH). }
    rewrite Hgo. f_equal. f_equal. destruct vs; [done|]. by rewrite drop_nil.
  - cbn [encode decode through zero_value map_of].
    match goal with |- context [let '(_, _) := ?f _ [] None in _] => set (go := f) end.
    assert (Hgo : go ((fun x => (x.1, encode_any x.2)) <$> m) [] None = ([] ++ m, None)); [|by rewrite Hgo].
    apply map_members_encode; [done|done| |done]. eapply Forall_impl; [eassumption|]. intros x. apply decode_any_encode.
  - cbn [encode decode through zero_value fields_of].
    match goal with |- context [let '(_, _) := ?f _ _ None in _] => set (go := f) end.
    match goal with |- context [go (?e vs fs)] => set (enc := e) end.
    assert (Hgo : forall fs1 vs1 fs2 vs2, fs = fs1 ++ fs2 -> length fs1 = length vs1 ->
      Forall2 (fun f v => plain f.2 v) fs2 vs2 -> Forall (fun v => forall t, plain t v ->
        decode (encode v t) t (zero_value t) = (v, None)) vs2 ->
      go (enc vs2 fs2) (vs1 ++ ((fun f => zero_value f.2) <$> fs2)) None = (vs1 ++ vs2, None)).
    { intros fs1 vs1 fs2 vs2 Hfs Hlen HF. revert fs1 vs1 Hfs Hlen.
      induction HF as [|f v fs2 vs2 Hfv HF IHF]; intros fs1 vs1 Hfs Hlen Hall; [done|].
      apply Forall_cons in Hall as [Hv Hall]. rewrite fmap_cons. simpl. rewrite Hfs, find_field_at by by rewrite <- Hfs.
      rewrite Hlen, list_lookup_middle by done. simpl. rewrite (Hv _ Hfv). simpl.
      rewrite insert_app_r_alt, Nat.sub_diag by lia. simpl.
      specialize (IHF (fs1 ++ [f]) (vs1 ++ [v])). rewrite <- !app_assoc in IHF. simpl in IHF.
      apply IHF; [done|rewrite !length_app; simpl; lia|done]. }
    specialize (Hgo [] [] fs vs eq_refl eq_refl ltac:(eassumption) IH). simpl in Hgo. by rewrite Hgo.
Qed.

End encode.
