(* ===== verification/Inspect.v ===== *)
(** * Inspect: the report of INSPECT (inspect.go)

    The report structs as Go types with the names of their JSON tags, and the
    decoder of [Client.Inspect], which discharges the interface [Json].  The
    theorems: a decoded report always has the declared type; the report that a
    server encodes, cut into frames in any way, is the report that [Inspect]
    returns. *)

From Stdlib Require Import Floats.SpecFloat.
From S2P Require Import Prelude GoStd Strconv Types Commands Response ResponseFacts.
From S2P Require Import Options Pools Net Tcp TcpFacts TcpSafe TcpWire TcpTheorems.
From S2P Require Import ConnPool Client ClientSafe ClientApi ClientExchange.
From S2P Require Import JsonText JsonTextFacts JsonDecode JsonDecodeFacts.

(** ** Sections *)

Definition InspectSectionSummary : bytes := [].
Definition InspectSectionAll : bytes := str "ALL".
Definition InspectSectionWAL : bytes := str "WAL".
Definition InspectSectionDump : bytes := str "DUMP".
Definition InspectSectionRepl : bytes := str "REPL".
Definition InspectSectionEngine : bytes := str "ENGINE".
Definition InspectSectionStreams : bytes := str "STREAMS".

(** ** The structs *)

(** A field with its Go name and its tag. *)
Definition fld (name tag : string) (t : gtype) : bytes * bytes * gtype := (str name, str tag, t).

Definition InstanceInfo : gtype := TStruct [
  fld "Version" "version" TString; fld "Commit" "commit" TString; fld "BuildDate" "build_date" TString;
  fld "GoVersion" "go_version" TString; fld "Platform" "platform" TString; fld "UptimeSec" "uptime_sec" TFloat64;
  fld "PID" "pid" TInt; fld "Role" "role" TString; fld "ReplicaID" "replica_id" (TPtr TString);
  fld "ListenAddr" "listen_addr" TString; fld "Connections" "connections" TInt].

Definition PersistenceInfo : gtype := TStruct [
  fld "Mode" "mode" TString; fld "SyncCommit" "sync_commit" (TPtr TString)].

Definition WALInfo : gtype := TStruct [
  fld "Enabled" "enabled" TBool; fld "SyncCommit" "sync_commit" (TPtr TString);
  fld "DataDirectory" "data_directory" (TPtr TString); fld "QueueDepth" "queue_depth" (TPtr TInt);
  fld "QueueCapacity" "queue_capacity" (TPtr TInt); fld "LSNAssigned" "lsn_assigned" TUint64;
  fld "LSNFlushed" "lsn_flushed" (TPtr TUint64); fld "SegmentPath" "segment_path" (TPtr TString);
  fld "SegmentSizeBytes" "segment_size_bytes" (TPtr TInt); fld "LastFlushAt" "last_flush_at" (TPtr TInt);
  fld "LastFlushDurationMs" "last_flush_duration_ms" (TPtr TFloat64);
  fld "FlushAvgDurationMs" "flush_avg_duration_ms" (TPtr TFloat64); fld "FlushTotal" "flush_total" (TPtr TFloat64)].

Definition DumpInfo : gtype := TStruct [
  fld "Enabled" "enabled" TBool; fld "Directory" "directory" (TPtr TString);
  fld "IntervalSec" "interval_sec" (TPtr TFloat64); fld "LastDumpAt" "last_dump_at" (TPtr TInt);
  fld "LastDumpDurationMs" "last_dump_duration_ms" (TPtr TFloat64);
  fld "LastDumpError" "last_dump_error" (TPtr TString); fld "LastDumpTx" "last_dump_tx" (TPtr TUint64);
  fld "CurrentDumpPath" "current_dump_path" (TPtr TString);
  fld "CurrentDumpSizeBytes" "current_dump_size_bytes" (TPtr TInt); fld "NextDumpAt" "next_dump_at" (TPtr TInt)].

Definition ReplicaInfo : gtype := TStruct [
  fld "ReplicaID" "replica_id" TString; fld "LastSegmentName" "last_segment_name" TString;
  fld "LastAppliedLSN" "last_applied_lsn" TUint64; fld "LagLSN" "lag_lsn" TUint64; fld "LagSec" "lag_sec" TFloat64;
  fld "Stale" "stale" TBool; fld "UpdatedAt" "updated_at" TInt].

Definition SlaveInfo : gtype := TStruct [
  fld "MasterAddress" "master_address" TString; fld "Connected" "connected" TBool;
  fld "LastSegmentName" "last_segment_name" TString; fld "LastAppliedLSN" "last_applied_lsn" TUint64;
  fld "ConsecutiveErrors" "consecutive_errors" TInt; fld "ReconnectTotal" "reconnect_total" TUint64;
  fld "LastReconnectAt" "last_reconnect_at" (TPtr TInt); fld "UpdatedAt" "updated_at" TInt].

Definition ReplInfo : gtype := TStruct [
  fld "Role" "role" TString; fld "KnownReplicas" "known_replicas" TInt; fld "Replicas" "replicas" (TSlice ReplicaInfo);
  fld "Slave" "slave" (TPtr SlaveInfo); fld "Truncated" "truncated" TBool].

Definition PartitionStat : gtype := TStruct [
  fld "Index" "index" TInt; fld "Counters" "counters" TInt; fld "SlidingWindows" "sliding_windows" TInt;
  fld "TokenBuckets" "token_buckets" TInt; fld "Quotas" "quotas" TInt; fld "QuotaAllocations" "quota_allocations" TInt].

Definition EngineInfo : gtype := TStruct [
  fld "Partitions" "partitions" TInt; fld "Counters" "counters" TInt; fld "SlidingWindows" "sliding_windows" TInt;
  fld "TokenBuckets" "token_buckets" TInt; fld "Quotas" "quotas" TInt;
  fld "QuotaAllocations" "quota_allocations" TInt; fld "KeyIndexEnabled" "key_index_enabled" TBool;
  fld "PerPartition" "per_partition" (TSlice PartitionStat)].

Definition SubscriberInfo : gtype := TStruct [
  fld "Prefix" "prefix" (TPtr TString); fld "QueueLen" "queue_len" TInt; fld "QueueCap" "queue_cap" TInt;
  fld "Dropped" "dropped" TUint64].

Definition StreamsInfo : gtype := TStruct [
  fld "LimitSubscribers" "limit_subscribers" (TSlice SubscriberInfo);
  fld "QuotaSubscribers" "quota_subscribers" (TSlice SubscriberInfo);
  fld "LimitEventsDroppedTotal" "limit_events_dropped_total" TUint64;
  fld "QuotaEventsDroppedTotal" "quota_events_dropped_total" TUint64].

Definition InspectWarning : gtype := TStruct [
  fld "Code" "code" TString; fld "Severity" "severity" TString; fld "Message" "message" TString;
  fld "Details" "details" TMap].

Definition InspectReport_type : gtype := TStruct [
  fld "Section" "section" TString; fld "TS" "ts" TInt; fld "Instance" "instance" (TPtr InstanceInfo);
  fld "Persistence" "persistence" (TPtr PersistenceInfo); fld "WAL" "wal" (TPtr WALInfo);
  fld "Dump" "dump" (TPtr DumpInfo); fld "Repl" "repl" (TPtr ReplInfo); fld "Engine" "engine" (TPtr EngineInfo);
  fld "Streams" "streams" (TPtr StreamsInfo); fld "Warnings" "warnings" (TSlice InspectWarning)].

(** ** The decoder *)

(** [json.Unmarshal] into an [InspectReport]. *)
#[export] Instance go_json : Json := {|
  InspectReport := gval;
  json_Unmarshal := Unmarshal InspectReport_type;
  Zero_InspectReport := zero_value InspectReport_type |}.


Lemma Unmarshal_encode fmt t v :
  plain fmt t v -> well_formed maxNestingDepth (encode fmt v t) = true ->
  Unmarshal t (render_json (encode fmt v t)) = inl v.
Proof. intros Hp Hw. unfold Unmarshal. by rewrite document_render, decode_encode. Qed.


(** ** A sample report *)

Definition sample_float : spec_float := S754_finite false 6755399441055744 (-52).

(** Prints that float as 1.5. *)
Definition sample_fmt (f : spec_float) : bytes := str "1.5".

Definition sample_report : gval := VStruct [
  VString (str "ALL"); VInt (-7); VNil;
  VPtr (VStruct [VString (str "wal"); VPtr (VString (str "on"))]);
  VNil; VNil; VNil; VNil;
  VPtr (VStruct [VSlice [VStruct [VNil; VInt 1; VInt 2; VUint 18446744073709551615]] []; VNil; VUint 3; VUint 4]);
  VSlice [VStruct [VString (str "W1"); VString []; VString [x22; x0a; xc3; xa9];
    VMap [(str "ratio", ANum sample_float); (str "tags", AArr [ABool true; ANil])]]] []].

Lemma sample_report_plain : plain sample_fmt InspectReport_type sample_report.
Proof.
  repeat first [apply pl_struct; [apply (bool_decide_unpack _); vm_compute; exact I|] | apply Forall2_cons; split |
    apply Forall2_nil_2 | apply pl_string | (apply pl_int; lia) | (apply pl_uint; unfold uint; lia) | apply pl_ptr_nil |
    (apply pl_ptr; [reflexivity|]) | apply pl_slice_nil | apply pl_slice | apply Forall_cons_2 | apply Forall_nil_2 |
    (apply pl_map; [apply (bool_decide_unpack _); vm_compute; exact I|])
    | apply pa_arr | (apply pa_num; vm_compute; reflexivity) |
    constructor].
Qed.

Definition sample_report_text : bytes := render_json (encode sample_fmt sample_report InspectReport_type).

(** The text in parts of forty bytes. *)
Definition sample_parts : list bytes :=
  (fun i => take 40 (drop (40 * i) sample_report_text)) <$> seq 0 10.
Definition sample_last : bytes := drop 400 sample_report_text.

Definition sample_report_rx : list rx :=
  [RxData 3 (next_frames sample_parts ++ frame (closing true sample_last) ++ str "rest")].

